(** * CPU-scheduling simulators: Round Robin (rr.c) and SRTF (sjf.c)

    A shallow embedding of the two scheduler programs of the CS470
    repository, and the properties of their timelines and metrics.  The
    line parser of the shell of the same repository (myshell.c) is embedded
    in a module of its own.

    Conventions of the embedding.
    - A C [int] is a [Z], and [INT_MAX] of <limits.h> is the 32-bit value.
      The clock and the table fields are only ever incremented,
      decremented, compared and subtracted.  Modules [RR] and [SJF] compute
      with the exact integers: they are the programs as long as no [int]
      overflows, which is so on the inputs whose latest arrival plus total
      burst is at most [INT_MAX] ([no_overflow], [RRFacts.rr_no_overflow],
      [SJFFacts.sjf_no_overflow]).  Modules [RRInt] and [SJFInt] are the same
      program text with the result of every [int] operation on a time
      ([t++], [t + 1], [remaining--], the two subtractions of the report)
      stored as the 32-bit machine stores it ([wrap]).  They agree with [RR]
      and [SJF] on the inputs with [no_overflow] ([RRFacts.rr_simulate_agree],
      [SJFFacts.sjf_simulate_agree]) and say what the programs do on the
      others.
    - Arrays ([p], [segs], [q->data]) are lists, read with [!!] and written
      with [<[_:=_]>] / [alter]; an index that is out of range is undefined
      behaviour in C and is reported as [Undefined].
    - [malloc], [calloc] and [realloc] are assumed to succeed, so the
      capacity bookkeeping of [segs] ([cap]) is not represented.
    - The [while] loops take a fuel argument; the termination theorems give
      a fuel that is enough.  *)

From Stdlib Require Import ZArith Lia Bool.
From Stdlib Require Ascii.
From stdpp Require Import base numbers list.

Local Open Scope Z_scope.

(** ** Outcomes of a run *)

Inductive outcome (A : Type) : Type :=
| Finished (a : A)
| OutOfFuel
| Undefined.

Arguments Finished {A} a.
Arguments OutOfFuel {A}.
Arguments Undefined {A}.

(** [INT_MAX] of <limits.h>, for the 32-bit [int] of the usual platforms;
    sjf.c uses it as the sentinel of its two scans. *)
Definition INT_MAX : Z := 2147483647.

(** [INT_MIN] of <limits.h>. *)
Definition INT_MIN : Z := -2147483648.

(** The [int] that the machine stores for the integer [z]: the number in
    [INT_MIN .. INT_MAX] that differs from [z] by a multiple of 2^32.  An
    operation whose exact result is in that range stores the result itself;
    [INT_MAX + 1] is stored as [INT_MIN]. *)
Definition wrap (z : Z) : Z := (z + 2147483648) mod 4294967296 - 2147483648.

(** The sentinel of [Segment.pid]: "-1 means IDLE". *)
Definition IDLE : Z := -1.

(** ** The timeline recorder (rr.c:32-59, sjf.c:35-62; the two copies are
    the same text) *)

Record Segment : Type := mkSegment {
  seg_pid : Z;    (* -1 means IDLE *)
  seg_start : Z;  (* inclusive *)
  seg_end : Z     (* exclusive *)
}.

Definition set_seg_end (e : Z) (s : Segment) : Segment :=
  {| seg_pid := seg_pid s; seg_start := seg_start s; seg_end := e |}.

(** [add_segment(&segs, &count, &cap, pid, start, end)].  [segs] is the
    array in index order, [count] its length. *)
Definition add_segment (segs : list Segment) (pid start end_ : Z) : list Segment :=
  if start =? end_ then segs
  else
    match last segs with
    | Some s =>
        if (seg_pid s =? pid) && (seg_end s =? start)
        then alter (set_seg_end end_) (length segs - 1)%nat segs
        else segs ++ [mkSegment pid start end_]
    | None => segs ++ [mkSegment pid start end_]
    end.

(** Duration of a segment and the sums the report is checked against. *)
Definition seg_len (s : Segment) : Z := seg_end s - seg_start s.

Definition is_idle (s : Segment) : bool := seg_pid s =? IDLE.

Fixpoint sumZ (l : list Z) : Z :=
  match l with
  | [] => 0
  | x :: r => x + sumZ r
  end.

Definition busy_time (segs : list Segment) : Z :=
  sumZ (map seg_len (filter (λ s, is_idle s = false) segs)).

(** [tiles a segs b]: the segments, in order, are non-empty, each starts
    where the one before it ends, the first starts at [a] and the last ends
    at [b]. *)
Fixpoint tiles (a : Z) (segs : list Segment) (b : Z) : Prop :=
  match segs with
  | [] => a = b
  | s :: r => seg_start s = a ∧ seg_start s < seg_end s ∧ tiles (seg_end s) r b
  end.

(** No two neighbours in the list have the same owner. *)
Definition adjacent_distinct (segs : list Segment) : Prop :=
  ∀ i s1 s2, segs !! i = Some s1 → segs !! S i = Some s2 → seg_pid s1 ≠ seg_pid s2.

(** The properties of a timeline as the report states them. *)
Definition sorted_by_start (segs : list Segment) : Prop :=
  ∀ i j s1 s2, (i < j)%nat → segs !! i = Some s1 → segs !! j = Some s2 →
               seg_start s1 ≤ seg_start s2.

Definition non_overlapping (segs : list Segment) : Prop :=
  ∀ i j s1 s2, (i < j)%nat → segs !! i = Some s1 → segs !! j = Some s2 →
               seg_start s1 < seg_end s1 ∧ seg_end s1 ≤ seg_start s2.

Definition covers (segs : list Segment) (a b : Z) : Prop :=
  ∀ x, a ≤ x < b ↔ ∃ s, s ∈ segs ∧ seg_start s ≤ x < seg_end s.

Definition no_gap (segs : list Segment) : Prop :=
  ∀ i s1 s2, segs !! i = Some s1 → segs !! S i = Some s2 → seg_end s1 = seg_start s2.

(** ** Input and printed averages (shared by rr.c and sjf.c)

    What [scanf("%d", ...)] finds next on standard input: an integer it
    converts, or text it cannot convert (which stays in the stream).  The end
    of the list is the end of the input. *)
Inductive token : Type :=
| Int (z : Z)
| Junk.

(** [scanf("%d", &x) == 1] and the value read. *)
Definition scan_int (inp : list token) : option (Z * list token) :=
  match inp with
  | Int z :: r => Some (z, r)
  | _ => None
  end.

(** [scanf("%d %d %d", ...) == 3] and the values read. *)
Definition scan_int3 (inp : list token) : option (Z * Z * Z * list token) :=
  match inp with
  | Int a :: Int b :: Int c :: r => Some (a, b, c, r)
  | _ => None
  end.

(** [printf("%.2f", sum / n)], in hundredths.  [sum] is the integer that the
    [double] accumulator holds (exact below 2^53) and the quotient is rounded
    to the nearest hundredth.  This is what is printed when the quotient is
    not halfway between two hundredths; on such a tie the digits printed
    depend on the binary value of the [double] (1/8 is printed as 0.12),
    which is not represented here. *)
Definition two_decimals (sum n : Z) : Z := (200 * sum + n) / (2 * n).

(** The records [(pid, arrival, burst)] that the input loops accept: at
    least one ([n > 0]), each with [arrival >= 0] and [burst > 0]. *)
Definition valid_records (recs : list (Z * Z * Z)) : Prop :=
  recs ≠ [] ∧ ∀ a b c, (a, b, c) ∈ recs → 0 ≤ b ∧ 0 < c.

(** The tokens of the records, as they are typed. *)
Definition tokens_of (recs : list (Z * Z * Z)) : list token :=
  flat_map (λ r, let '(a, b, c) := r in [Int a; Int b; Int c]) recs.

(** The sum of the bursts of the records, and of those whose pid is not the
    IDLE sentinel. *)
Definition sum_bursts (recs : list (Z * Z * Z)) : Z :=
  sumZ (map (λ r, let '(a, b, c) := r in c) recs).

Definition sum_bursts_named (recs : list (Z * Z * Z)) : Z :=
  sumZ (map (λ r, let '(a, b, c) := r in if a =? IDLE then 0 else c) recs).

(** The latest arrival among the records. *)
Definition latest_arrival (recs : list (Z * Z * Z)) : Z :=
  foldr (λ r m, let '(a, b, c) := r in Z.max b m) 0 recs.

(** The inputs on which no [int] of a run overflows: the clock never passes
    the latest arrival plus the sum of the bursts, and that sum is at most
    [INT_MAX]. *)
Definition no_overflow (recs : list (Z * Z * Z)) : Prop :=
  latest_arrival recs + sum_bursts recs ≤ INT_MAX.

(** * Round Robin (rr.c) *)

Module RR.

(** ** The process table (rr.c:21-30) *)

Record Process : Type := mkProcess {
  pid : Z;
  arrival : Z;
  burst : Z;
  remaining : Z;
  completion : Z;
  waiting : Z;
  turnaround : Z;
  enqueued : bool   (* set to 1 once it has been added to the ready queue *)
}.

Definition set_remaining (r : Z) (p : Process) : Process :=
  mkProcess (pid p) (arrival p) (burst p) r (completion p) (waiting p)
            (turnaround p) (enqueued p).

Definition set_completion (c : Z) (p : Process) : Process :=
  mkProcess (pid p) (arrival p) (burst p) (remaining p) c (waiting p)
            (turnaround p) (enqueued p).

Definition set_enqueued (b : bool) (p : Process) : Process :=
  mkProcess (pid p) (arrival p) (burst p) (remaining p) (completion p)
            (waiting p) (turnaround p) b.

(** The two formulas of the report (rr.c:224-225), over the exact
    integers; [RRInt.set_metrics] stores the differences as [int]s. *)
Definition set_metrics (p : Process) : Process :=
  let tat := completion p - arrival p in
  mkProcess (pid p) (arrival p) (burst p) (remaining p) (completion p)
            (tat - burst p) tat (enqueued p).

(** [all_done(p, n)] (rr.c:61-66). *)
Definition all_done (p : list Process) : bool :=
  forallb (λ x, negb (0 <? remaining x)) p.

(** ** The circular queue of indices (rr.c:68-111)

    The fields are [data], [cap], [head], [tail], [size] of the source,
    prefixed with [q_].  The cells of a fresh array are not initialised in
    C; they are 0 here and are never read before they are written. *)

Record Queue : Type := mkQueue {
  q_data : list nat;
  q_cap : nat;
  q_head : nat;
  q_tail : nat;
  q_size : nat
}.

Definition q_init (cap : nat) : Queue :=
  mkQueue (replicate cap 0%nat) cap 0 0 0.

Definition q_empty (q : Queue) : bool := (q_size q =? 0)%nat.

(** The [if (q->size == q->cap)] block of [q_push]: copy into an array of
    twice the size, oldest entry first. *)
Definition q_grow (q : Queue) : Queue :=
  let newcap := (q_cap q * 2)%nat in
  let nd := map (λ i, q_data q !!! ((q_head q + i) mod q_cap q)%nat) (seq 0 (q_size q))
            ++ replicate (newcap - q_size q) 0%nat in
  mkQueue nd newcap 0 (q_size q) (q_size q).

Definition q_push (q : Queue) (v : nat) : Queue :=
  let q1 := if (q_size q =? q_cap q)%nat then q_grow q else q in
  mkQueue (<[q_tail q1 := v]> (q_data q1)) (q_cap q1) (q_head q1)
          ((q_tail q1 + 1) mod q_cap q1)%nat (S (q_size q1)).

(** [q_pop] reads [data[head]]; the caller checks [q_empty] first. *)
Definition q_pop (q : Queue) : option (nat * Queue) :=
  match q_data q !! q_head q with
  | Some v =>
      Some (v, mkQueue (q_data q) (q_cap q) ((q_head q + 1) mod q_cap q)%nat
                       (q_tail q) (q_size q - 1)%nat)
  | None => None
  end.

(** The entries of the queue, oldest first. *)
Definition q_list (q : Queue) : list nat :=
  map (λ i, q_data q !!! ((q_head q + i) mod q_cap q)%nat) (seq 0 (q_size q)).

Definition q_wf (q : Queue) : Prop :=
  (0 < q_cap q)%nat ∧ length (q_data q) = q_cap q ∧ (q_head q < q_cap q)%nat ∧
  q_tail q = ((q_head q + q_size q) mod q_cap q)%nat ∧ (q_size q ≤ q_cap q)%nat.

(** ** The simulation (rr.c:113-121, 159-219) *)

Record State : Type := mkState {
  procs : list Process;   (* p[0..n-1] *)
  segs : list Segment;    (* segs[0..seg_count-1] *)
  queue : Queue;          (* q *)
  clock : Z               (* t *)
}.

(** [enqueue_arrivals(p, n, &q, t)]: one pass over the table, index [i]
    upwards, pushing [i] and setting the flag. *)
Fixpoint enqueue_arrivals_from (i : nat) (p : list Process) (q : Queue) (t : Z)
  : list Process * Queue :=
  match p with
  | [] => ([], q)
  | x :: r =>
      if negb (enqueued x) && (arrival x <=? t)
      then let '(r', q') := enqueue_arrivals_from (S i) r (q_push q i) t in
           (set_enqueued true x :: r', q')
      else let '(r', q') := enqueue_arrivals_from (S i) r q t in
           (x :: r', q')
  end.

Definition enqueue_arrivals (p : list Process) (q : Queue) (t : Z) : list Process * Queue :=
  enqueue_arrivals_from 0 p q t.

(** [earliest] of rr.c:168-171; [p[0]] exists because [n > 0]. *)
Definition earliest_arrival (p : list Process) : option Z :=
  match p with
  | [] => None
  | x :: r => Some (foldl (λ e y, if arrival y <? e then arrival y else e) (arrival x) r)
  end.

(** Lines 159-177: the empty timeline, the queue of capacity
    [(n > 4) ? n : 4], the leading IDLE segment and the first arrivals. *)
Definition rr_init (p : list Process) : option State :=
  match earliest_arrival p with
  | None => None
  | Some earliest =>
      let n := length p in
      let q := q_init (if (4 <? n)%nat then n else 4%nat) in
      let segs0 := if 0 <? earliest then add_segment [] IDLE 0 earliest else [] in
      let t := if 0 <? earliest then earliest else 0 in
      let '(p', q') := enqueue_arrivals p q t in
      Some (mkState p' segs0 q' t)
  end.

(** [next_arr] of the idle branch (rr.c:182-187), with its -1 sentinel. *)
Definition next_arrival (p : list Process) : Z :=
  foldl (λ next_arr x,
           if (0 <? remaining x) && negb (enqueued x)
           then (if (next_arr =? -1) || (arrival x <? next_arr) then arrival x else next_arr)
           else next_arr)
        (-1) p.

(** One pass of the body of [for (k = 0; k < slice; k++)] (rr.c:204-208):
    the clock and [p[idx].remaining] move by one and the arrivals at the new
    clock are queued.  The new clock is the exact integer; [RRInt.tick] is
    the same pass with the clock stored as an [int]. *)
Definition tick (idx : nat) (st : State) : State :=
  let t' := clock st + 1 in
  let p1 := alter (λ x, set_remaining (remaining x - 1) x) idx (procs st) in
  let '(p2, q2) := enqueue_arrivals p1 (queue st) t' in
  mkState p2 (segs st) q2 t'.

(** The [for] loop of the slice: [count] passes at most, left early when
    [p[idx].remaining == 0].  [idx] is in range (the caller has read
    [p[idx]]). *)
Fixpoint run_slice (count : nat) (idx : nat) (st : State) : State :=
  match count with
  | O => st
  | S c =>
      let st' := tick idx st in
      match procs st' !! idx with
      | Some x => if remaining x =? 0 then st' else run_slice c idx st'
      | None => st'
      end
  end.

Inductive step : Type :=
| Continue (st : State)   (* next pass of the while loop *)
| Break (st : State)      (* the "should not happen" break *)
| Stuck.                  (* an array read out of range *)

(** The body of [while (!all_done(p, n))] (rr.c:180-218). *)
Definition rr_iter (quantum : Z) (st : State) : step :=
  if q_empty (queue st) then
    let next_arr := next_arrival (procs st) in
    if next_arr =? -1 then Break st
    else
      let segs' := if clock st <? next_arr
                   then add_segment (segs st) IDLE (clock st) next_arr
                   else segs st in
      let '(p', q') := enqueue_arrivals (procs st) (queue st) next_arr in
      Continue (mkState p' segs' q' next_arr)
  else
    match q_pop (queue st) with
    | None => Stuck
    | Some (idx, q1) =>
        match procs st !! idx with
        | None => Stuck
        | Some pr =>
            if remaining pr <=? 0
            then Continue (mkState (procs st) (segs st) q1 (clock st))
            else
              let slice := if remaining pr <? quantum then remaining pr else quantum in
              let start := clock st in
              let st2 := run_slice (Z.to_nat slice) idx
                                   (mkState (procs st) (segs st) q1 (clock st)) in
              match procs st2 !! idx with
              | None => Stuck
              | Some pr2 =>
                  let segs' := add_segment (segs st2) (pid pr2) start (clock st2) in
                  if remaining pr2 =? 0
                  then Continue (mkState (alter (set_completion (clock st2)) idx (procs st2))
                                         segs' (queue st2) (clock st2))
                  else Continue (mkState (procs st2) segs' (q_push (queue st2) idx)
                                         (clock st2))
              end
        end
    end.

Fixpoint rr_loop (fuel : nat) (quantum : Z) (st : State) : outcome State :=
  if all_done (procs st) then Finished st
  else
    match fuel with
    | O => OutOfFuel
    | S f =>
        match rr_iter quantum st with
        | Continue st' => rr_loop f quantum st'
        | Break st' => Finished st'
        | Stuck => Undefined
        end
    end.

(** From the validated table to the state at the exit of the loop. *)
Definition simulate (fuel : nat) (quantum : Z) (p : list Process) : outcome State :=
  match rr_init p with
  | None => Undefined
  | Some st => rr_loop fuel quantum st
  end.

(** The loop heads a run goes through. *)
Inductive reach (quantum : Z) (p : list Process) : State → Prop :=
| reach_init st : rr_init p = Some st → reach quantum p st
| reach_step st st' :
    reach quantum p st → all_done (procs st) = false →
    rr_iter quantum st = Continue st' → reach quantum p st'.

(** ** Metrics and report (rr.c:221-247) *)

Definition compute_metrics (p : list Process) : list Process := map set_metrics p.

Record Report : Type := mkReport {
  rep_segs : list Segment;
  rep_procs : list Process;
  sum_wait : Z;     (* avg_wait before the division *)
  sum_tat : Z;      (* avg_tat before the division *)
  rep_n : Z
}.

Definition report (st : State) : Report :=
  let p := compute_metrics (procs st) in
  mkReport (segs st) p (sumZ (map waiting p)) (sumZ (map turnaround p))
           (Z.of_nat (length p)).

(** ** [main]: input, validation, exit status (rr.c:123-157, 249-252) *)

(** The input loop (rr.c:142-157): one record per pass, rejected at the
    first line that does not convert or that has [arrival < 0] or
    [burst <= 0].  [waiting] and [turnaround] are the zeros of [calloc]. *)
Fixpoint read_processes (n : nat) (inp : list token) : option (list Process) :=
  match n with
  | O => Some []
  | S k =>
      match scan_int3 inp with
      | Some (a, b, c, r) =>
          if (b <? 0) || (c <=? 0) then None
          else match read_processes k r with
               | Some l => Some (mkProcess a b c c (-1) 0 0 false :: l)
               | None => None
               end
      | None => None
      end
  end.

(** The exit status and, when the simulation ran, what is printed. *)
Definition main (fuel : nat) (inp : list token) : outcome (Z * option Report) :=
  match scan_int inp with
  | None => Finished (1, None)
  | Some (n, r1) =>
      if n <=? 0 then Finished (1, None)
      else
        match scan_int r1 with
        | None => Finished (1, None)
        | Some (quantum, r2) =>
            if quantum <=? 0 then Finished (1, None)
            else
              match read_processes (Z.to_nat n) r2 with
              | None => Finished (1, None)
              | Some p =>
                  match simulate fuel quantum p with
                  | Finished st => Finished (0, Some (report st))
                  | OutOfFuel => OutOfFuel
                  | Undefined => Undefined
                  end
              end
        end
  end.

(** ** Specification vocabulary for rr.c *)

(** The table that the input loop builds from the records
    [(pid, arrival, burst)] it accepts. *)
Definition table_of (recs : list (Z * Z * Z)) : list Process :=
  map (λ r, let '(a, b, c) := r in mkProcess a b c c (-1) 0 0 false) recs.

(** A valid input: [n > 0], [quantum > 0], then [n] valid records (what
    follows them is not read). *)
Definition valid_input (inp : list token) : Prop :=
  ∃ n quantum recs rest,
    inp = Int n :: Int quantum :: tokens_of recs ++ rest ∧
    0 < n ∧ 0 < quantum ∧ length recs = Z.to_nat n ∧
    ∀ a b c, (a, b, c) ∈ recs → 0 ≤ b ∧ 0 < c.

(** The test of [enqueue_arrivals] and its effect on one record. *)
Definition arrives (t : Z) (x : Process) : bool :=
  negb (enqueued x) && (arrival x <=? t).

Definition mark (t : Z) (x : Process) : Process :=
  if arrives t x then set_enqueued true x else x.

(** The indices that [enqueue_arrivals] pushes, in the order it pushes them. *)
Fixpoint arrived_from (i : nat) (p : list Process) (t : Z) : list nat :=
  match p with
  | [] => []
  | x :: r => if arrives t x then i :: arrived_from (S i) r t
              else arrived_from (S i) r t
  end.

(** The fields that the simulation never writes. *)
Definition key (x : Process) : Z * Z * Z := (pid x, arrival x, burst x).

Definition dec (x : Process) : Process := set_remaining (remaining x - 1) x.

(** An unfinished record that has not entered the ready queue: the
    candidates of [next_arr]. *)
Definition waiting_outside (x : Process) : Prop :=
  0 < remaining x ∧ enqueued x = false.

(** Number of records whose flag is still 0. *)
Definition unqueued (p : list Process) : nat :=
  length (filter (λ x, enqueued x = false) p).

(** The quantity that every pass of the while loop decreases. *)
Definition measure (st : State) : Z :=
  2 * sumZ (map remaining (procs st)) + 2 * Z.of_nat (unqueued (procs st))
  + Z.of_nat (q_size (queue st)).

(** CPU time received so far by the processes whose pid is not the IDLE
    sentinel. *)
Definition work (p : list Process) : Z :=
  sumZ (map (λ x, if pid x =? IDLE then 0 else burst x - remaining x) p).

Definition total_burst (p : list Process) : Z := sumZ (map burst p).

Definition max_completion (p : list Process) : Z :=
  foldr (λ x m, Z.max (completion x) m) (-1) p.

Definition max_arrival (p : list Process) : Z :=
  foldr (λ x m, Z.max (arrival x) m) 0 p.

(** What holds of one record when the clock is [t] and the arrivals up to
    [te] have been queued; [running] says that it is the record dispatched in
    the current slice, [queued] that its index is in the ready queue. *)
Record proc_inv (te t : Z) (running queued : Prop) (x : Process) : Prop := {
  pi_arrival : 0 ≤ arrival x;
  pi_burst : 0 < burst x;
  pi_remaining : 0 ≤ remaining x ≤ burst x;
  pi_enqueued : enqueued x = true ↔ arrival x ≤ te;
  pi_ran : remaining x < burst x →
           enqueued x = true ∧ arrival x + (burst x - remaining x) ≤ t;
  pi_unfinished : 0 < remaining x → completion x = -1;
  pi_finished : remaining x = 0 → ¬ running → arrival x + burst x ≤ completion x ≤ t;
  pi_running : running → enqueued x = true;
  pi_queued : queued ↔ enqueued x = true ∧ 0 < remaining x ∧ ¬ running
}.

(** The part of the slice not yet recorded in the timeline, counted only
    for an owner that is not the IDLE sentinel. *)
Definition credit (run : option nat) (start : Z) (st : State) : Z :=
  match run with
  | Some i =>
      match procs st !! i with
      | Some x => if pid x =? IDLE then 0 else clock st - start
      | None => 0
      end
  | None => 0
  end.

(** The invariant of the simulation.  [run] is the index dispatched in the
    current slice and [start] the clock at its dispatch; [te] is the clock of
    the last call of [enqueue_arrivals].  At the head of the while loop
    [run = None] and [start] and [te] are the clock. *)
Record inv (p0 : list Process) (run : option nat) (start te : Z) (st : State) : Prop := {
  inv_wf : q_wf (queue st);
  inv_nodup : NoDup (q_list (queue st));
  inv_key : map key (procs st) = map key p0;
  inv_proc : ∀ i x, procs st !! i = Some x →
             proc_inv te (clock st) (run = Some i) (i ∈ q_list (queue st)) x;
  inv_range : ∀ i, i ∈ q_list (queue st) → (i < length (procs st))%nat;
  inv_run : ∀ i, run = Some i → (i < length (procs st))%nat;
  inv_te : te ≤ clock st;
  inv_start : 0 ≤ start ≤ clock st ∧ (run = None → start = clock st);
  inv_tiles : tiles 0 (segs st) start;
  inv_adjacent : adjacent_distinct (segs st);
  inv_busy : busy_time (segs st) + credit run start st = work (procs st);
  inv_last : run = None → all_done (procs st) = true →
             ∃ x, x ∈ procs st ∧ completion x = clock st;
  inv_bound : clock st + sumZ (map remaining (procs st))
              ≤ max_arrival p0 + total_burst p0
}.

(** The invariant at the head of the while loop. *)
Definition head_inv (p0 : list Process) (st : State) : Prop :=
  inv p0 None (clock st) (clock st) st.

(** The guard [if (p[idx].remaining <= 0) continue;] is taken in [st]. *)
Definition skips_finished (st : State) : Prop :=
  ∃ idx q1 pr, q_pop (queue st) = Some (idx, q1) ∧ q_empty (queue st) = false ∧
               procs st !! idx = Some pr ∧ remaining pr ≤ 0.

End RR.

(** * Round Robin with the arithmetic of [int]

    The text of rr.c once more, with the result of [t++], of [remaining--]
    and of the two subtractions of the report stored as the machine stores
    an [int] ([wrap]).  The table, the queue, [enqueue_arrivals], the
    initial state and the scan for [next_arr] compute nothing from a time and
    are those of [RR]. *)

Module RRInt.
Import RR.

(** One pass of the body of [for (k = 0; k < slice; k++)] (rr.c:204-208). *)
Definition tick (idx : nat) (st : State) : State :=
  let t' := wrap (clock st + 1) in
  let p1 := alter (λ x, set_remaining (wrap (remaining x - 1)) x) idx (procs st) in
  let '(p2, q2) := enqueue_arrivals p1 (queue st) t' in
  mkState p2 (segs st) q2 t'.

Fixpoint run_slice (count : nat) (idx : nat) (st : State) : State :=
  match count with
  | O => st
  | S c =>
      let st' := tick idx st in
      match procs st' !! idx with
      | Some x => if remaining x =? 0 then st' else run_slice c idx st'
      | None => st'
      end
  end.

(** The body of [while (!all_done(p, n))] (rr.c:180-218). *)
Definition rr_iter (quantum : Z) (st : State) : step :=
  if q_empty (queue st) then
    let next_arr := next_arrival (procs st) in
    if next_arr =? -1 then Break st
    else
      let segs' := if clock st <? next_arr
                   then add_segment (segs st) IDLE (clock st) next_arr
                   else segs st in
      let '(p', q') := enqueue_arrivals (procs st) (queue st) next_arr in
      Continue (mkState p' segs' q' next_arr)
  else
    match q_pop (queue st) with
    | None => Stuck
    | Some (idx, q1) =>
        match procs st !! idx with
        | None => Stuck
        | Some pr =>
            if remaining pr <=? 0
            then Continue (mkState (procs st) (segs st) q1 (clock st))
            else
              let slice := if remaining pr <? quantum then remaining pr else quantum in
              let start := clock st in
              let st2 := run_slice (Z.to_nat slice) idx
                                   (mkState (procs st) (segs st) q1 (clock st)) in
              match procs st2 !! idx with
              | None => Stuck
              | Some pr2 =>
                  let segs' := add_segment (segs st2) (pid pr2) start (clock st2) in
                  if remaining pr2 =? 0
                  then Continue (mkState (alter (set_completion (clock st2)) idx (procs st2))
                                         segs' (queue st2) (clock st2))
                  else Continue (mkState (procs st2) segs' (q_push (queue st2) idx)
                                         (clock st2))
              end
        end
    end.

Fixpoint rr_loop (fuel : nat) (quantum : Z) (st : State) : outcome State :=
  if all_done (procs st) then Finished st
  else
    match fuel with
    | O => OutOfFuel
    | S f =>
        match rr_iter quantum st with
        | Continue st' => rr_loop f quantum st'
        | Break st' => Finished st'
        | Stuck => Undefined
        end
    end.

Definition simulate (fuel : nat) (quantum : Z) (p : list Process) : outcome State :=
  match rr_init p with
  | None => Undefined
  | Some st => rr_loop fuel quantum st
  end.

(** The loop heads a run goes through. *)
Inductive reach (quantum : Z) (p : list Process) : State → Prop :=
| reach_init st : rr_init p = Some st → reach quantum p st
| reach_step st st' :
    reach quantum p st → all_done (procs st) = false →
    rr_iter quantum st = Continue st' → reach quantum p st'.

(** [p[i].turnaround = p[i].completion - p[i].arrival;
    p[i].waiting = p[i].turnaround - p[i].burst;] (rr.c:224-225). *)
Definition set_metrics (p : Process) : Process :=
  let tat := wrap (completion p - arrival p) in
  mkProcess (pid p) (arrival p) (burst p) (remaining p) (completion p)
            (wrap (tat - burst p)) tat (enqueued p).

Definition compute_metrics (p : list Process) : list Process := map set_metrics p.

(** The sums are those of the [double] accumulators, which hold them
    exactly. *)
Definition report (st : State) : Report :=
  let p := compute_metrics (procs st) in
  mkReport (segs st) p (sumZ (map waiting p)) (sumZ (map turnaround p))
           (Z.of_nat (length p)).

(** The exit status and, when the simulation ran, what is printed. *)
Definition main (fuel : nat) (inp : list token) : outcome (Z * option Report) :=
  match scan_int inp with
  | None => Finished (1, None)
  | Some (n, r1) =>
      if n <=? 0 then Finished (1, None)
      else
        match scan_int r1 with
        | None => Finished (1, None)
        | Some (quantum, r2) =>
            if quantum <=? 0 then Finished (1, None)
            else
              match read_processes (Z.to_nat n) r2 with
              | None => Finished (1, None)
              | Some p =>
                  match simulate fuel quantum p with
                  | Finished st => Finished (0, Some (report st))
                  | OutOfFuel => OutOfFuel
                  | Undefined => Undefined
                  end
              end
        end
  end.

End RRInt.

(** * Shortest Remaining Time First (sjf.c) *)

Module SJF.

(** ** The process table (sjf.c:25-33) *)

Record Process : Type := mkProcess {
  pid : Z;
  arrival : Z;
  burst : Z;
  remaining : Z;
  completion : Z;
  waiting : Z;
  turnaround : Z
}.

Definition set_remaining (r : Z) (p : Process) : Process :=
  mkProcess (pid p) (arrival p) (burst p) r (completion p) (waiting p) (turnaround p).

Definition set_completion (c : Z) (p : Process) : Process :=
  mkProcess (pid p) (arrival p) (burst p) (remaining p) c (waiting p) (turnaround p).

(** The two formulas of the report (sjf.c:152-153), over the exact
    integers; [SJFInt.set_metrics] stores the differences as [int]s. *)
Definition set_metrics (p : Process) : Process :=
  let tat := completion p - arrival p in
  mkProcess (pid p) (arrival p) (burst p) (remaining p) (completion p)
            (tat - burst p) tat.

(** [all_done(p, n)] (sjf.c:64-69). *)
Definition all_done (p : list Process) : bool :=
  forallb (λ x, negb (0 <? remaining x)) p.

(** ** The simulation (sjf.c:100-147) *)

Record State : Type := mkState {
  procs : list Process;   (* p[0..n-1] *)
  segs : list Segment;    (* segs[0..seg_count-1] *)
  clock : Z               (* t *)
}.

(** The selection loop (sjf.c:106-122) from index [i] on.  [pick] is the
    index chosen so far together with the record [p[pick]] ([None] is the
    source's -1); [best_rem] starts at [INT_MAX]. *)
Fixpoint pick_from (i : nat) (p : list Process) (t : Z)
         (pick : option (nat * Process)) (best_rem : Z) : option (nat * Process) :=
  match p with
  | [] => pick
  | x :: r =>
      if (arrival x <=? t) && (0 <? remaining x) then
        if remaining x <? best_rem then pick_from (S i) r t (Some (i, x)) (remaining x)
        else
          match pick with
          | Some (k, y) =>
              if (remaining x =? best_rem)
                 && ((arrival x <? arrival y)
                     || ((arrival x =? arrival y) && (pid x <? pid y)))
              then pick_from (S i) r t (Some (i, x)) best_rem
              else pick_from (S i) r t pick best_rem
          | None => pick_from (S i) r t pick best_rem
          end
      else pick_from (S i) r t pick best_rem
  end.

Definition select (p : list Process) (t : Z) : option (nat * Process) :=
  pick_from 0 p t None INT_MAX.

(** [next_arr] of the idle branch (sjf.c:126-131). *)
Definition next_arrival (p : list Process) (t : Z) : Z :=
  foldl (λ next_arr x,
           if (0 <? remaining x) && (t <? arrival x) && (arrival x <? next_arr)
           then arrival x else next_arr)
        INT_MAX p.

Inductive step : Type :=
| Continue (st : State)   (* next pass of the while loop *)
| Break (st : State)      (* the "safety" break *)
| Stuck.                  (* an array read out of range *)

(** The body of [while (!all_done(p, n))] (sjf.c:105-146).  [t + 1] is the
    exact integer; [SJFInt.sjf_iter] is the same pass with the clock stored
    as an [int]. *)
Definition sjf_iter (st : State) : step :=
  let t := clock st in
  match select (procs st) t with
  | None =>
      let next_arr := next_arrival (procs st) t in
      if next_arr =? INT_MAX then Break st
      else Continue (mkState (procs st) (add_segment (segs st) IDLE t next_arr) next_arr)
  | Some (pick, pr) =>
      let segs' := add_segment (segs st) (pid pr) t (t + 1) in
      let p1 := alter (λ x, set_remaining (remaining x - 1) x) pick (procs st) in
      let t' := t + 1 in
      match p1 !! pick with
      | None => Stuck
      | Some x =>
          if remaining x =? 0
          then Continue (mkState (alter (set_completion t') pick p1) segs' t')
          else Continue (mkState p1 segs' t')
      end
  end.

Fixpoint sjf_loop (fuel : nat) (st : State) : outcome State :=
  if all_done (procs st) then Finished st
  else
    match fuel with
    | O => OutOfFuel
    | S f =>
        match sjf_iter st with
        | Continue st' => sjf_loop f st'
        | Break st' => Finished st'
        | Stuck => Undefined
        end
    end.

Definition sjf_init (p : list Process) : State := mkState p [] 0.

Definition simulate (fuel : nat) (p : list Process) : outcome State :=
  sjf_loop fuel (sjf_init p).

(** The loop heads a run goes through. *)
Inductive reach (p : list Process) : State → Prop :=
| reach_init : reach p (sjf_init p)
| reach_step st st' :
    reach p st → all_done (procs st) = false →
    sjf_iter st = Continue st' → reach p st'.

(** ** Metrics and report (sjf.c:149-175) *)

Definition compute_metrics (p : list Process) : list Process := map set_metrics p.

Record Report : Type := mkReport {
  rep_segs : list Segment;
  rep_procs : list Process;
  sum_wait : Z;     (* avg_wait before the division *)
  sum_tat : Z;      (* avg_tat before the division *)
  rep_n : Z
}.

Definition report (st : State) : Report :=
  let p := compute_metrics (procs st) in
  mkReport (segs st) p (sumZ (map waiting p)) (sumZ (map turnaround p))
           (Z.of_nat (length p)).

(** ** [main]: input, validation, exit status (sjf.c:71-98, 177-179) *)

Fixpoint read_processes (n : nat) (inp : list token) : option (list Process) :=
  match n with
  | O => Some []
  | S k =>
      match scan_int3 inp with
      | Some (a, b, c, r) =>
          if (b <? 0) || (c <=? 0) then None
          else match read_processes k r with
               | Some l => Some (mkProcess a b c c (-1) 0 0 :: l)
               | None => None
               end
      | None => None
      end
  end.

Definition main (fuel : nat) (inp : list token) : outcome (Z * option Report) :=
  match scan_int inp with
  | None => Finished (1, None)
  | Some (n, r1) =>
      if n <=? 0 then Finished (1, None)
      else
        match read_processes (Z.to_nat n) r1 with
        | None => Finished (1, None)
        | Some p =>
            match simulate fuel p with
            | Finished st => Finished (0, Some (report st))
            | OutOfFuel => OutOfFuel
            | Undefined => Undefined
            end
        end
  end.

(** ** Specification vocabulary for sjf.c *)

(** The table that the input loop builds from the records
    [(pid, arrival, burst)] it accepts. *)
Definition table_of (recs : list (Z * Z * Z)) : list Process :=
  map (λ r, let '(a, b, c) := r in mkProcess a b c c (-1) 0 0) recs.

(** A valid input: [n > 0], then [n] valid records. *)
Definition valid_input (inp : list token) : Prop :=
  ∃ n recs rest,
    inp = Int n :: tokens_of recs ++ rest ∧
    0 < n ∧ length recs = Z.to_nat n ∧
    ∀ a b c, (a, b, c) ∈ recs → 0 ≤ b ∧ 0 < c.

Definition key (x : Process) : Z * Z * Z := (pid x, arrival x, burst x).

Definition dec (x : Process) : Process := set_remaining (remaining x - 1) x.

(** Arrived and unfinished at clock [t]. *)
Definition eligible (t : Z) (x : Process) : Prop :=
  arrival x ≤ t ∧ 0 < remaining x.

(** [x] goes before [y]: smaller remaining time, then earlier arrival, then
    smaller pid. *)
Definition before (x y : Process) : Prop :=
  remaining x < remaining y ∨
  (remaining x = remaining y ∧
   (arrival x < arrival y ∨ (arrival x = arrival y ∧ pid x < pid y))).

(** The state of the scan at index [i]: either nothing is picked and
    [best_rem] is still [INT_MAX], or [best_rem] is the remaining time of the
    picked record, an eligible record at an index below [i]. *)
Definition scan_ok (i : nat) (t : Z) (pick : option (nat * Process)) (best_rem : Z) : Prop :=
  match pick with
  | None => best_rem = INT_MAX
  | Some (k, z) => best_rem = remaining z ∧ (k < i)%nat ∧ eligible t z ∧
                   remaining z < INT_MAX
  end.

(** An unfinished record that arrives after [t]: the candidates of
    [next_arr]. *)
Definition not_arrived (t : Z) (x : Process) : Prop :=
  0 < remaining x ∧ t < arrival x.

(** Unfinished records that have not arrived at clock [t]. *)
Definition pending (t : Z) (p : list Process) : nat :=
  length (filter (λ x, 0 < remaining x ∧ t < arrival x) p).

(** The quantity that every pass of the while loop decreases. *)
Definition measure (st : State) : Z :=
  sumZ (map remaining (procs st)) + Z.of_nat (pending (clock st) (procs st)).

Definition work (p : list Process) : Z :=
  sumZ (map (λ x, if pid x =? IDLE then 0 else burst x - remaining x) p).

Definition total_burst (p : list Process) : Z := sumZ (map burst p).

Definition max_completion (p : list Process) : Z :=
  foldr (λ x m, Z.max (completion x) m) (-1) p.

Definition max_arrival (p : list Process) : Z :=
  foldr (λ x m, Z.max (arrival x) m) 0 p.

(** What holds of one record when the clock is [t]. *)
Record proc_inv (t : Z) (x : Process) : Prop := {
  pi_arrival : 0 ≤ arrival x;
  pi_burst : 0 < burst x;
  pi_remaining : 0 ≤ remaining x ≤ burst x;
  pi_ran : remaining x < burst x → arrival x + (burst x - remaining x) ≤ t;
  pi_unfinished : 0 < remaining x → completion x = -1;
  pi_finished : remaining x = 0 → arrival x + burst x ≤ completion x ≤ t
}.

(** The invariant at the head of the while loop. *)
Record inv (p0 : list Process) (st : State) : Prop := {
  inv_key : map key (procs st) = map key p0;
  inv_proc : ∀ i x, procs st !! i = Some x → proc_inv (clock st) x;
  inv_clock : 0 ≤ clock st;
  inv_tiles : tiles 0 (segs st) (clock st);
  inv_adjacent : adjacent_distinct (segs st);
  inv_busy : busy_time (segs st) = work (procs st);
  inv_last : all_done (procs st) = true →
             ∃ x, x ∈ procs st ∧ completion x = clock st;
  inv_bound : clock st + sumZ (map remaining (procs st))
              ≤ max_arrival p0 + total_burst p0
}.

(** Every burst and arrival is below the sentinel of the two scans. *)
Definition below_sentinel (p : list Process) : Prop :=
  ∀ x, x ∈ p → burst x < INT_MAX ∧ arrival x < INT_MAX.

End SJF.

(** * SRTF with the arithmetic of [int]

    The text of sjf.c once more, with the result of [t + 1], of [t++], of
    [remaining--] and of the two subtractions of the report stored as the
    machine stores an [int] ([wrap]).  The table and the two scans are those
    of [SJF]. *)

Module SJFInt.
Import SJF.

(** The body of [while (!all_done(p, n))] (sjf.c:105-146). *)
Definition sjf_iter (st : State) : step :=
  let t := clock st in
  match select (procs st) t with
  | None =>
      let next_arr := next_arrival (procs st) t in
      if next_arr =? INT_MAX then Break st
      else Continue (mkState (procs st) (add_segment (segs st) IDLE t next_arr) next_arr)
  | Some (pick, pr) =>
      let segs' := add_segment (segs st) (pid pr) t (wrap (t + 1)) in
      let p1 := alter (λ x, set_remaining (wrap (remaining x - 1)) x) pick (procs st) in
      let t' := wrap (t + 1) in
      match p1 !! pick with
      | None => Stuck
      | Some x =>
          if remaining x =? 0
          then Continue (mkState (alter (set_completion t') pick p1) segs' t')
          else Continue (mkState p1 segs' t')
      end
  end.

Fixpoint sjf_loop (fuel : nat) (st : State) : outcome State :=
  if all_done (procs st) then Finished st
  else
    match fuel with
    | O => OutOfFuel
    | S f =>
        match sjf_iter st with
        | Continue st' => sjf_loop f st'
        | Break st' => Finished st'
        | Stuck => Undefined
        end
    end.

Definition simulate (fuel : nat) (p : list Process) : outcome State :=
  sjf_loop fuel (sjf_init p).

(** The loop heads a run goes through. *)
Inductive reach (p : list Process) : State → Prop :=
| reach_init : reach p (sjf_init p)
| reach_step st st' :
    reach p st → all_done (procs st) = false →
    sjf_iter st = Continue st' → reach p st'.

(** [p[i].turnaround = p[i].completion - p[i].arrival;
    p[i].waiting = p[i].turnaround - p[i].burst;] (sjf.c:152-153). *)
Definition set_metrics (p : Process) : Process :=
  let tat := wrap (completion p - arrival p) in
  mkProcess (pid p) (arrival p) (burst p) (remaining p) (completion p)
            (wrap (tat - burst p)) tat.

Definition compute_metrics (p : list Process) : list Process := map set_metrics p.

Definition report (st : State) : Report :=
  let p := compute_metrics (procs st) in
  mkReport (segs st) p (sumZ (map waiting p)) (sumZ (map turnaround p))
           (Z.of_nat (length p)).

Definition main (fuel : nat) (inp : list token) : outcome (Z * option Report) :=
  match scan_int inp with
  | None => Finished (1, None)
  | Some (n, r1) =>
      if n <=? 0 then Finished (1, None)
      else
        match read_processes (Z.to_nat n) r1 with
        | None => Finished (1, None)
        | Some p =>
            match simulate fuel p with
            | Finished st => Finished (0, Some (report st))
            | OutOfFuel => OutOfFuel
            | Undefined => Undefined
            end
        end
  end.

End SJFInt.

(** * The line parser of the shell (myshell.c)

    A line is the list of its characters (what [strlen] counts); the cursor
    [i] of [parse_line] is represented by the part of the line that is still
    to be read.  [malloc] is assumed to succeed. *)

Module Shell.
Import Ascii.

(** [#define MAX_LINE 1024], [#define MAX_ARGS 128]. *)
Definition MAX_LINE : nat := 1024.
Definition MAX_ARGS : Z := 128.

Definition quote : ascii := "034"%char.
Definition newline : ascii := "010"%char.

(** [line[i] == ' ' || line[i] == '\t'] *)
Definition is_blank (c : ascii) : bool := (c =? " ")%char || (c =? "009")%char.

Definition is_quote (c : ascii) : bool := (c =? quote)%char.

(** The characters at which an unquoted argument ends: a blank, or the
    [break] on ['<'] and ['>'] (myshell.c:106-107). *)
Definition ends_arg (c : ascii) : bool :=
  is_blank c || (c =? "<")%char || (c =? ">")%char.

(** [trim_newline]: the string is cut at its first newline
    ([strcspn] with the one-character set of the newline). *)
Fixpoint trim_newline (s : list ascii) : list ascii :=
  match s with
  | [] => []
  | c :: r => if (c =? newline)%char then [] else c :: trim_newline r
  end.

(** [while (i < len && (line[i] == ' ' || line[i] == '\t')) i++;] *)
Fixpoint skip_blanks (s : list ascii) : list ascii :=
  match s with
  | [] => []
  | c :: r => if is_blank c then skip_blanks r else s
  end.

(** [while (i < len && !stop(line[i]) && k < MAX_LINE - 1) buf[k++] = line[i++];]
    with [room = MAX_LINE - 1 - k]: the characters copied and the rest of the
    line. *)
Fixpoint copy_while (stop : ascii → bool) (room : nat) (s : list ascii) {struct s}
  : list ascii * list ascii :=
  match s with
  | [] => ([], [])
  | c :: r =>
      if stop c then ([], s)
      else match room with
           | O => ([], s)
           | S room' => let '(w, r') := copy_while stop room' r in (c :: w, r')
           end
  end.

(** The step over the closing double quote after a quoted token:
    [if (i < len && line[i] == QUOTE) i++;]. *)
Definition skip_quote (s : list ascii) : list ascii :=
  match s with
  | c :: r => if is_quote c then r else s
  | [] => []
  end.

(** The block that fills a buffer (myshell.c:52-60, 81-89, 100-111): after
    a double quote, up to the next double quote, which is stepped over;
    otherwise up to the first character at which the unquoted form ends, as
    [stop] says. *)
Definition read_token (stop : ascii → bool) (s : list ascii) : list ascii * list ascii :=
  match s with
  | [] => ([], [])
  | c :: r =>
      if is_quote c
      then let '(w, r') := copy_while is_quote (MAX_LINE - 1) r in (w, skip_quote r')
      else copy_while stop (MAX_LINE - 1) s
  end.

(** What [parse_line] writes: [argv[0..argc-1]], [*inFile], [*outFile],
    [*append]. *)
Record Parsed : Type := mkParsed {
  p_argv : list (list ascii);
  p_in : option (list ascii);
  p_out : option (list ascii);
  p_append : bool
}.

Definition set_in (f : list ascii) (p : Parsed) : Parsed :=
  mkParsed (p_argv p) (Some f) (p_out p) (p_append p).

Definition set_out (f : list ascii) (p : Parsed) : Parsed :=
  mkParsed (p_argv p) (p_in p) (Some f) (p_append p).

Definition set_append (b : bool) (p : Parsed) : Parsed :=
  mkParsed (p_argv p) (p_in p) (p_out p) b.

Definition push_arg (w : list ascii) (p : Parsed) : Parsed :=
  mkParsed (p_argv p ++ [w]) (p_in p) (p_out p) (p_append p).

Definition argc (p : Parsed) : Z := Z.of_nat (length (p_argv p)).

Inductive pstep : Type :=
| PContinue (s : list ascii) (p : Parsed)   (* next pass, at the rest [s] *)
| PBreak (p : Parsed)                        (* [break]: return argc *)
| PError (p : Parsed).                       (* [return -1] *)

(** One pass of [while (i < len)] (myshell.c:39-118); [s] is the part of
    the line from [i] on. *)
Definition parse_iter (max_args : Z) (s : list ascii) (p : Parsed) : pstep :=
  match skip_blanks s with
  | [] => PBreak p
  | c :: r =>
      if (c =? "<")%char then
        match skip_blanks r with
        | [] => PError p
        | s1 => let '(w, s2) := read_token is_blank s1 in PContinue s2 (set_in w p)
        end
      else if (c =? ">")%char then
        let '(app, r1) := match r with
                          | c' :: r' => if (c' =? ">")%char then (true, r') else (false, r)
                          | [] => (false, r)
                          end in
        let p1 := set_append app p in
        match skip_blanks r1 with
        | [] => PError p1
        | s1 => let '(w, s2) := read_token is_blank s1 in PContinue s2 (set_out w p1)
        end
      else if argc p >=? max_args - 1 then PBreak p
      else
        let '(w, s2) := read_token ends_arg (c :: r) in
        match w with
        | [] => PContinue s2 p
        | _ => PContinue s2 (push_arg w p)
        end
  end.

(** The while loop and the two returns: the value returned and what was
    written. *)
Fixpoint parse_loop (fuel : nat) (max_args : Z) (s : list ascii) (p : Parsed)
  : outcome (Z * Parsed) :=
  match s with
  | [] => Finished (argc p, p)
  | _ =>
      match fuel with
      | O => OutOfFuel
      | S f =>
          match parse_iter max_args s p with
          | PContinue s' p' => parse_loop f max_args s' p'
          | PBreak p' => Finished (argc p', p')
          | PError p' => Finished (-1, p')
          end
      end
  end.

Definition parse_line (max_args : Z) (line : list ascii) : outcome (Z * Parsed) :=
  parse_loop (length line) max_args line (mkParsed [] None None false).

(** ** Specification vocabulary for myshell.c *)

(** The loop started with the cursor at the rest [s] of the line and with
    [p] already written. *)
Definition parse_from (max_args : Z) (s : list ascii) (p : Parsed) : outcome (Z * Parsed) :=
  parse_loop (length s) max_args s p.

Definition all_blank (b : list ascii) : Prop := Forall (λ c, is_blank c = true) b.

(** The rest of the line is empty or starts with a character for which
    [stop] holds. *)
Definition stops_at (stop : ascii → bool) (s : list ascii) : Prop :=
  match s with
  | [] => True
  | c :: _ => stop c = true
  end.

(** An unquoted argument that fits its buffer: it does not start with a
    double quote and has no blank, ['<'] or ['>']. *)
Definition word_ok (w : list ascii) : Prop :=
  (∃ c r, w = c :: r ∧ is_quote c = false) ∧
  Forall (λ c, ends_arg c = false) w ∧ (length w < MAX_LINE)%nat.

(** An unquoted file name that fits its buffer: it does not start with a
    double quote or with ['>'] and has no blank. *)
Definition fname_ok (f : list ascii) : Prop :=
  (∃ c r, f = c :: r ∧ is_quote c = false ∧ (c =? ">")%char = false) ∧
  Forall (λ c, is_blank c = false) f ∧ (length f < MAX_LINE)%nat.

(** What [parse_line] has written fits the arrays of the caller: at most
    [max_args - 1] arguments, none of them empty, and every string shorter
    than its buffer of [MAX_LINE] characters. *)
Definition parsed_ok (max_args : Z) (p : Parsed) : Prop :=
  argc p ≤ max_args - 1 ∧
  Forall (λ w, w ≠ [] ∧ (length w < MAX_LINE)%nat) (p_argv p) ∧
  (∀ f, p_in p = Some f → (length f < MAX_LINE)%nat) ∧
  (∀ f, p_out p = Some f → (length f < MAX_LINE)%nat).

Definition nothing_parsed : Parsed := mkParsed [] None None false.

(** The line [ls -l > out] of the examples. *)
Definition line_ls_out : list ascii :=
  ["l"; "s"; " "; "-"; "l"; " "; ">"; " "; "o"; "u"; "t"]%char.

End Shell.

(** * Properties of a report and the scenarios of the specification *)

(** Every instant of [0, T) outside the non-IDLE segments is inside an IDLE
    segment. *)
Definition gaps_idle (segs : list Segment) (T : Z) : Prop :=
  ∀ x, 0 ≤ x < T →
       (¬ ∃ s, s ∈ segs ∧ is_idle s = false ∧ seg_start s ≤ x < seg_end s) →
       ∃ s, s ∈ segs ∧ is_idle s = true ∧ seg_start s ≤ x < seg_end s.

(** The timeline of a run whose last completion is at [T]: sorted, made of
    non-empty segments that do not overlap, covering exactly [0, T) without
    a gap. *)
Definition timeline_ok (segs : list Segment) (T : Z) : Prop :=
  sorted_by_start segs ∧ (∀ s, s ∈ segs → seg_start s < seg_end s) ∧
  non_overlapping segs ∧ covers segs 0 T ∧ no_gap segs ∧ gaps_idle segs T.

(** The metrics of one row of the result table. *)
Definition metrics_ok (arrival burst completion waiting turnaround : Z) : Prop :=
  turnaround = waiting + burst ∧ turnaround = completion - arrival ∧
  burst ≤ turnaround ∧ 0 ≤ waiting.

(** Scenario A: Round Robin, quantum 2. *)
Definition scenario_A : list (Z * Z * Z) := [(1, 0, 4); (2, 1, 3); (3, 3, 2)].

Definition scenario_A_input : list token :=
  Int 3 :: Int 2 :: tokens_of scenario_A.

(** Scenario B: SRTF. *)
Definition scenario_B : list (Z * Z * Z) := [(1, 0, 8); (2, 1, 4); (3, 2, 9); (4, 3, 5)].

Definition scenario_B_input : list token := Int 4 :: tokens_of scenario_B.

(** The state of scenario B at the head of the loop when the clock is 3. *)
Definition scenario_B_at_3 : SJF.State :=
  SJF.mkState [SJF.mkProcess 1 0 8 7 (-1) 0 0; SJF.mkProcess 2 1 4 2 (-1) 0 0;
               SJF.mkProcess 3 2 9 9 (-1) 0 0; SJF.mkProcess 4 3 5 5 (-1) 0 0]
              [mkSegment 1 0 1; mkSegment 2 1 3] 3.

(** One process whose pid is the IDLE sentinel. *)
Definition scenario_idle_pid : list (Z * Z * Z) := [(-1, 0, 3)].

(** One process whose burst is [INT_MAX]. *)
Definition scenario_int_max : list (Z * Z * Z) := [(1, 0, 2147483647)].

Definition scenario_int_max_input : list token := Int 1 :: tokens_of scenario_int_max.

(** One process that arrives at [INT_MAX]: the clock of rr.c passes
    [INT_MAX] in its only slice. *)
Definition scenario_rr_overflow : list (Z * Z * Z) := [(1, 2147483647, 1)].

(** One process that arrives at [INT_MAX - 1] and runs for two units: the
    clock of sjf.c passes [INT_MAX] in the second. *)
Definition scenario_sjf_overflow : list (Z * Z * Z) := [(1, 2147483646, 2)].

(** Two processes that arrive at 0, the first with a burst of [INT_MAX]:
    with the quantum [INT_MAX] the first runs to the end in one slice and
    the second completes after [INT_MAX]. *)
Definition scenario_long : list (Z * Z * Z) := [(1, 0, 2147483647); (2, 0, 1)].

Definition scenario_long_input : list token :=
  Int 2 :: Int 2147483647 :: tokens_of scenario_long.

(** The loop heads of rr.c on [scenario_long] with quantum [INT_MAX]. *)
Definition long_st0 : RR.State :=
  RR.mkState [RR.mkProcess 1 0 2147483647 2147483647 (-1) 0 0 true;
              RR.mkProcess 2 0 1 1 (-1) 0 0 true]
             [] (RR.mkQueue [0; 1; 0; 0]%nat 4 0 2 2) 0.

Definition long_st1 : RR.State :=
  RR.mkState [RR.mkProcess 1 0 2147483647 0 2147483647 0 0 true;
              RR.mkProcess 2 0 1 1 (-1) 0 0 true]
             [mkSegment 1 0 2147483647] (RR.mkQueue [0; 1; 0; 0]%nat 4 1 2 1)
             2147483647.

Definition long_st2 : RR.State :=
  RR.mkState [RR.mkProcess 1 0 2147483647 0 2147483647 0 0 true;
              RR.mkProcess 2 0 1 0 (-2147483648) 0 0 true]
             [mkSegment 1 0 2147483647; mkSegment 2 2147483647 (-2147483648)]
             (RR.mkQueue [0; 1; 0; 0]%nat 4 2 2 0) (-2147483648).

(** * Vocabulary of the properties of the queue, the passes and the owners *)



(** Indices in strictly increasing order. *)
Definition increasing (l : list nat) : Prop :=
  ∀ a b i j, (a < b)%nat → l !! a = Some i → l !! b = Some j → (i < j)%nat.

(** The indices of [l] are in order of arrival in the table [p], and in
    index order among equal arrivals. *)
Definition rr_arrival_ordered (p : list RR.Process) (l : list nat) : Prop :=
  ∀ a b i j x y, (a < b)%nat → l !! a = Some i → l !! b = Some j →
                 p !! i = Some x → p !! j = Some y →
                 RR.arrival x < RR.arrival y ∨
                 (RR.arrival x = RR.arrival y ∧ (i < j)%nat).

(** Time that a timeline gives to the owner [o]. *)
Definition time_of (o : Z) (segs : list Segment) : Z :=
  sumZ (map seg_len (filter (λ s, seg_pid s = o) segs)).

(** The bursts of the records whose pid is [o]. *)
Definition burst_of (o : Z) (recs : list (Z * Z * Z)) : Z :=
  sumZ (map (λ r, let '(a, b, c) := r in if a =? o then c else 0) recs).

(** CPU time received so far by the processes whose pid is [o]. *)
Definition rr_cpu_of (o : Z) (p : list RR.Process) : Z :=
  sumZ (map (λ x, if RR.pid x =? o then RR.burst x - RR.remaining x else 0) p).

Definition sjf_cpu_of (o : Z) (p : list SJF.Process) : Z :=
  sumZ (map (λ x, if SJF.pid x =? o then SJF.burst x - SJF.remaining x else 0) p).

(** A full queue whose entries wrap around the end of the array: 5, 7, 8, 9. *)
Definition wrapped_queue : RR.Queue := RR.mkQueue [7; 8; 9; 5]%nat 4 3 3 4.

(** Nobody arrives at time 0, and two processes arrive together. *)
Definition scenario_late : list (Z * Z * Z) := [(1, 2, 3); (2, 2, 1); (3, 5, 2)].

(** The CPU is idle between the end of the first process and the arrival of
    the second. *)
Definition scenario_gap : list (Z * Z * Z) := [(1, 0, 2); (2, 5, 1)].

(** A table in the middle of a Round-Robin run: the first process has
    finished, the other two have not yet entered the queue. *)
Definition rr_table_waiting : list RR.Process :=
  [RR.mkProcess 1 0 4 0 4 0 0 true; RR.mkProcess 2 7 3 3 (-1) 0 0 false;
   RR.mkProcess 3 5 2 2 (-1) 0 0 false].

(** * Facts *)

(** ** Lemmas on the recorder *)

Section Recorder.

Lemma sumZ_app (l1 l2 : list Z) : sumZ (l1 ++ l2) = sumZ l1 + sumZ l2.
Proof. induction l1 as [|x l1 IH]; simpl; lia. Qed.

Lemma add_segment_empty segs pid t : add_segment segs pid t t = segs.
Proof. unfold add_segment. by rewrite Z.eqb_refl. Qed.

Lemma add_segment_merge segs s pid e :
  seg_pid s = pid → seg_end s ≠ e →
  add_segment (segs ++ [s]) pid (seg_end s) e = segs ++ [set_seg_end e s].
Proof.
  intros Hp He. unfold add_segment.
  destruct (Z.eqb_spec (seg_end s) e) as [|_]; [done|].
  rewrite last_snoc, Hp, !Z.eqb_refl. simpl.
  rewrite length_app. simpl.
  replace (length segs + 1 - 1)%nat with (length segs + 0)%nat by lia.
  by rewrite alter_app_r.
Qed.

Lemma add_segment_new_nil pid a e :
  a ≠ e → add_segment [] pid a e = [mkSegment pid a e].
Proof.
  intros H. unfold add_segment. by destruct (Z.eqb_spec a e).
Qed.

Lemma add_segment_new_snoc segs s pid a e :
  a ≠ e → ¬ (seg_pid s = pid ∧ seg_end s = a) →
  add_segment (segs ++ [s]) pid a e = segs ++ [s; mkSegment pid a e].
Proof.
  intros H Hn. unfold add_segment.
  destruct (Z.eqb_spec a e); [done|].
  rewrite last_snoc.
  destruct (Z.eqb_spec (seg_pid s) pid), (Z.eqb_spec (seg_end s) a);
    simpl; try (by rewrite <- app_assoc); tauto.
Qed.

Lemma tiles_snoc a segs s b :
  tiles a (segs ++ [s]) b ↔
  tiles a segs (seg_start s) ∧ seg_start s < seg_end s ∧ seg_end s = b.
Proof.
  revert a. induction segs as [|x r IH]; intros a; simpl.
  - intuition congruence.
  - rewrite IH. tauto.
Qed.

Lemma tiles_le a segs b : tiles a segs b → a ≤ b.
Proof.
  revert a. induction segs as [|x r IH]; intros a; simpl; [lia|].
  intros (? & ? & H). apply IH in H. lia.
Qed.

(** Appending at the current end of a tiling keeps it a tiling. *)
Lemma add_segment_tiles a segs t pid e :
  tiles a segs t → t ≤ e → tiles a (add_segment segs pid t e) e.
Proof.
  intros Ht Hle.
  destruct (decide (t = e)) as [->|Hne]; [by rewrite add_segment_empty|].
  destruct segs as [|x r _] using rev_ind.
  - rewrite add_segment_new_nil by done. simpl in *. subst. simpl. lia.
  - apply tiles_snoc in Ht as (Ht & Hlt & Hend).
    destruct (decide (seg_pid x = pid)) as [Hp|Hp].
    + subst t. rewrite add_segment_merge by done.
      apply tiles_snoc. simpl. split_and!; [done|lia|done].
    + rewrite add_segment_new_snoc by tauto.
      replace (r ++ [x; mkSegment pid t e]) with ((r ++ [x]) ++ [mkSegment pid t e])
        by (by rewrite <- app_assoc).
      apply tiles_snoc. simpl. split_and!; [|lia|done].
      apply tiles_snoc. done.
Qed.

Lemma adjacent_distinct_snoc segs s1 s2 :
  adjacent_distinct ((segs ++ [s1]) ++ [s2]) ↔
  adjacent_distinct (segs ++ [s1]) ∧ seg_pid s1 ≠ seg_pid s2.
Proof.
  unfold adjacent_distinct. split.
  - intros H. split.
    + intros i a b Ha Hb. apply (H i); by apply lookup_app_l_Some.
    + apply (H (length segs)).
      * apply lookup_app_l_Some. by rewrite list_lookup_middle.
      * rewrite lookup_app_r; rewrite length_app; simpl; [|lia].
        by replace (S (length segs) - (length segs + 1))%nat with 0%nat by lia.
  - intros [H Hne] i a b Ha Hb.
    apply lookup_snoc_Some in Hb as [[Hlt Hb]|[Hlen ->]].
    + apply (H i); [|done]. rewrite lookup_app_l in Ha; [done|lia].
    + rewrite length_app in Hlen. simpl in Hlen.
      assert (i = length segs) as -> by lia.
      rewrite lookup_app_l in Ha by (rewrite length_app; simpl; lia).
      rewrite list_lookup_middle in Ha by done. by simplify_eq.
Qed.

Lemma adjacent_distinct_set_end segs s e :
  adjacent_distinct (segs ++ [s]) → adjacent_distinct (segs ++ [set_seg_end e s]).
Proof.
  unfold adjacent_distinct. intros H i a b Ha Hb.
  apply lookup_snoc_Some in Hb as [[Hlt Hb]|[Hlen Hb]].
  - rewrite lookup_app_l in Ha by lia.
    apply (H i); by apply lookup_app_l_Some.
  - subst b. rewrite lookup_app_l in Ha by lia. simpl.
    apply (H i a s); [by apply lookup_app_l_Some|].
    rewrite Hlen. by rewrite list_lookup_middle.
Qed.

(** A segment that does not touch the last one is appended even when the
    owner is the same: the recorder merges only touching segments. *)
Example add_segment_gap :
  add_segment (add_segment [] 1 0 2) 1 5 7 = [mkSegment 1 0 2; mkSegment 1 5 7].
Proof. reflexivity. Qed.

(** Appending at the current end of a tiling keeps neighbours distinct:
    a touching segment of the same owner is merged, not appended. *)
Lemma add_segment_adjacent a segs t pid e :
  tiles a segs t → adjacent_distinct segs →
  adjacent_distinct (add_segment segs pid t e).
Proof.
  intros Ht Hadj.
  destruct (decide (t = e)) as [->|Hne]; [by rewrite add_segment_empty|].
  destruct segs as [|x r _] using rev_ind.
  - rewrite add_segment_new_nil by done. intros i s1 s2 _ H.
    destruct i; done.
  - apply tiles_snoc in Ht as (Ht & Hlt & Hend).
    destruct (decide (seg_pid x = pid)) as [Hp|Hp].
    + subst t. rewrite add_segment_merge by done.
      by apply adjacent_distinct_set_end.
    + rewrite add_segment_new_snoc by tauto.
      replace (r ++ [x; mkSegment pid t e]) with ((r ++ [x]) ++ [mkSegment pid t e])
        by (by rewrite <- app_assoc).
      apply adjacent_distinct_snoc. done.
Qed.

Lemma busy_time_snoc l x :
  busy_time (l ++ [x]) = busy_time l + (if is_idle x then 0 else seg_len x).
Proof.
  unfold busy_time. rewrite filter_app, map_app, sumZ_app. f_equal.
  rewrite filter_cons, filter_nil.
  destruct (is_idle x); case_decide; simpl; try done; lia.
Qed.

Lemma busy_time_add_segment segs pid s e :
  busy_time (add_segment segs pid s e)
  = busy_time segs + (if pid =? IDLE then 0 else e - s).
Proof.
  destruct (decide (s = e)) as [->|Hne].
  { rewrite add_segment_empty. destruct (pid =? IDLE); lia. }
  destruct segs as [|x r _] using rev_ind.
  - rewrite add_segment_new_nil by done.
    change [mkSegment pid s e] with ([] ++ [mkSegment pid s e]).
    rewrite busy_time_snoc. unfold is_idle, seg_len. simpl. done.
  - destruct (decide (seg_pid x = pid ∧ seg_end x = s)) as [[Hp He]|Hn].
    + subst s. rewrite add_segment_merge by done.
      rewrite !busy_time_snoc. unfold is_idle, seg_len. simpl. rewrite Hp.
      destruct (pid =? IDLE); lia.
    + rewrite add_segment_new_snoc by done.
      replace (r ++ [x; mkSegment pid s e]) with ((r ++ [x]) ++ [mkSegment pid s e])
        by (by rewrite <- app_assoc).
      rewrite (busy_time_snoc (r ++ [x])). unfold is_idle at 1, seg_len at 1. simpl. done.
Qed.

Lemma tiles_lookup a segs b i s :
  tiles a segs b → segs !! i = Some s → a ≤ seg_start s ∧ seg_start s < seg_end s ∧ seg_end s ≤ b.
Proof.
  revert a i. induction segs as [|x r IH]; intros a i Ht Hi; [done|].
  destruct Ht as (Ha & Hlt & Ht). pose proof (tiles_le _ _ _ Ht).
  destruct i as [|i]; simpl in Hi.
  - simplify_eq. lia.
  - destruct (IH _ _ Ht Hi) as (? & ? & ?). lia.
Qed.

Lemma tiles_no_gap a segs b : tiles a segs b → no_gap segs.
Proof.
  revert a. induction segs as [|x r IH]; intros a Ht i s1 s2 H1 H2; [done|].
  destruct Ht as (Ha & Hlt & Ht).
  destruct i as [|i]; simpl in *.
  - destruct r as [|y r]; simpl in H2; simplify_eq. simpl in Ht. by destruct Ht as [? _].
  - by apply (IH _ Ht i).
Qed.

Lemma tiles_non_overlapping a segs b : tiles a segs b → non_overlapping segs.
Proof.
  revert a. induction segs as [|x r IH]; intros a Ht i j s1 s2 Hij H1 H2; [done|].
  destruct Ht as (Ha & Hlt & Ht).
  destruct j as [|j]; [lia|]. simpl in H2.
  destruct i as [|i]; simpl in H1.
  - simplify_eq. destruct (tiles_lookup _ _ _ _ _ Ht H2) as (? & ? & ?). lia.
  - apply (IH _ Ht i j); [lia|done..].
Qed.

Lemma tiles_sorted a segs b : tiles a segs b → sorted_by_start segs.
Proof.
  intros Ht i j s1 s2 Hij H1 H2.
  destruct (tiles_non_overlapping _ _ _ Ht i j s1 s2 Hij H1 H2). lia.
Qed.

Lemma tiles_covers a segs b : tiles a segs b → covers segs a b.
Proof.
  revert a. induction segs as [|x r IH]; intros a Ht y.
  - simpl in Ht. subst. split; [lia|]. intros (s & Hs & _). by apply elem_of_nil in Hs.
  - destruct Ht as (Ha & Hlt & Ht). pose proof (tiles_le _ _ _ Ht) as Hle.
    specialize (IH _ Ht y). split.
    + intros Hy. destruct (decide (y < seg_end x)) as [Hy'|Hy'].
      * exists x. split; [left|lia].
      * destruct (proj1 IH) as (s & Hs & Hr); [lia|].
        exists s. split; [by right|done].
    + intros (s & Hs & Hr). apply elem_of_cons in Hs as [->|Hs].
      * lia.
      * destruct (proj2 IH) as [? ?]; [by exists s|]. lia.
Qed.

End Recorder.

(** ** Sums and in-place updates of a table *)

Section Tables.

Lemma sumZ_map_alter {A} (f : A → Z) (g : A → A) i l x :
  l !! i = Some x → sumZ (map f (alter g i l)) = sumZ (map f l) - f x + f (g x).
Proof.
  revert i. induction l as [|y l IH]; intros i Hi; [done|].
  destruct i as [|i].
  - simpl in *. simplify_eq. lia.
  - change (alter g (S i) (y :: l)) with (y :: alter g i l).
    cbn [map sumZ]. rewrite (IH i Hi). lia.
Qed.

Lemma sumZ_map_ext {A} (f g : A → Z) l :
  (∀ x, x ∈ l → f x = g x) → sumZ (map f l) = sumZ (map g l).
Proof.
  induction l as [|y l IH]; intros H; [done|]. simpl.
  rewrite (H y), IH; [done| |left]. intros x Hx. apply H. by right.
Qed.

Lemma sumZ_map_zero {A} (f : A → Z) l :
  (∀ x, x ∈ l → f x = 0) → sumZ (map f l) = 0.
Proof.
  induction l as [|y l IH]; intros H; [done|]. simpl.
  rewrite (H y), IH; [done| |left]. intros x Hx. apply H. by right.
Qed.

Lemma sumZ_nonneg l : (∀ x, x ∈ l → 0 ≤ x) → 0 ≤ sumZ l.
Proof.
  induction l as [|y l IH]; intros H; simpl; [lia|].
  assert (0 ≤ y) by (apply H; left). assert (0 ≤ sumZ l); [|lia].
  apply IH. intros x Hx. apply H. by right.
Qed.

Lemma sumZ_map_le {A} (f g : A → Z) l :
  (∀ x, x ∈ l → f x ≤ g x) → sumZ (map f l) ≤ sumZ (map g l).
Proof.
  induction l as [|y l IH]; intros H; simpl; [lia|].
  assert (f y ≤ g y) by (apply H; left).
  assert (sumZ (map f l) ≤ sumZ (map g l)); [|lia].
  apply IH. intros x Hx. apply H. by right.
Qed.

Lemma map_alter_same {A B} (g : A → B) (f : A → A) i p :
  (∀ x, g (f x) = g x) → map g (alter f i p) = map g p.
Proof.
  intros Hf. revert i. induction p as [|y p IH]; intros i; [done|].
  destruct i as [|i].
  - simpl. by rewrite Hf.
  - change (alter f (S i) (y :: p)) with (y :: alter f i p). simpl. by rewrite IH.
Qed.

Lemma sum_bursts_named_eq recs :
  (∀ a b c, (a, b, c) ∈ recs → a ≠ IDLE) → sum_bursts_named recs = sum_bursts recs.
Proof.
  intros H. unfold sum_bursts_named, sum_bursts. apply sumZ_map_ext.
  intros [[a b] c] Hr. destruct (Z.eqb_spec a IDLE) as [->|]; [|done].
  by destruct (H _ _ _ Hr).
Qed.

End Tables.

(** ** The arithmetic of [int] *)

Section IntArith.

Lemma wrap_id z : INT_MIN ≤ z ≤ INT_MAX → wrap z = z.
Proof.
  unfold wrap, INT_MIN, INT_MAX. intros Hz.
  rewrite Z.mod_small by lia. lia.
Qed.

Lemma wrap_range z : INT_MIN ≤ wrap z ≤ INT_MAX.
Proof.
  unfold wrap, INT_MIN, INT_MAX.
  pose proof (Z.mod_pos_bound (z + 2147483648) 4294967296 ltac:(lia)). lia.
Qed.

Lemma wrap_add_l a b : wrap (wrap a + b) = wrap (a + b).
Proof.
  unfold wrap.
  replace ((a + 2147483648) mod 4294967296 - 2147483648 + b + 2147483648)
    with ((a + 2147483648) mod 4294967296 + b) by lia.
  rewrite Zplus_mod_idemp_l. f_equal. f_equal. lia.
Qed.

Lemma alter_ext_at {A} (f g : A → A) i (l : list A) x :
  l !! i = Some x → f x = g x → alter f i l = alter g i l.
Proof.
  intros Hx Hfg. apply list_eq. intros j. destruct (decide (j = i)) as [->|Hne].
  - by rewrite !list_lookup_alter_eq, Hx; simpl; rewrite Hfg.
  - by rewrite !list_lookup_alter_ne.
Qed.

Lemma sumZ_elem_le {A} (f : A → Z) (l : list A) x :
  (∀ y, y ∈ l → 0 ≤ f y) → x ∈ l → f x ≤ sumZ (map f l).
Proof.
  intros Hnn Hx. induction l as [|y l IH]; [by apply elem_of_nil in Hx|].
  simpl. assert (0 ≤ f y) by (apply Hnn; left).
  assert (0 ≤ sumZ (map f l)).
  { apply sumZ_nonneg. intros r (z & -> & Hz)%list_elem_of_fmap. apply Hnn. by right. }
  apply elem_of_cons in Hx as [->|Hx]; [lia|].
  assert (f x ≤ sumZ (map f l)); [|lia]. apply IH; [|done].
  intros z Hz. apply Hnn. by right.
Qed.

End IntArith.

(** * Facts about rr.c *)

Module RRFacts.
Import RR.

Section QueueFacts.

Local Open Scope nat_scope.

Lemma mod_wrap a c : 0 < c → a < 2 * c → a mod c = if a <? c then a else a - c.
Proof.
  intros Hc Ha. destruct (Nat.ltb_spec a c).
  - by apply Nat.mod_small.
  - symmetry. apply (Nat.mod_unique a c 1); lia.
Qed.

Lemma mod_offset_inj h i j c :
  h < c → i < c → j < c → (h + i) mod c = (h + j) mod c → i = j.
Proof.
  intros Hh Hi Hj. rewrite !mod_wrap by lia.
  destruct (Nat.ltb_spec (h + i) c), (Nat.ltb_spec (h + j) c); lia.
Qed.

Lemma q_init_wf c : 0 < c → q_wf (q_init c).
Proof.
  intros Hc. unfold q_wf, q_init. simpl. rewrite length_replicate.
  split_and!; try lia. by rewrite Nat.mod_small.
Qed.

Lemma q_init_list c : q_list (q_init c) = [].
Proof. done. Qed.

Lemma q_list_length q : length (q_list q) = q_size q.
Proof. unfold q_list. by rewrite length_map, length_seq. Qed.

Lemma q_empty_list q : q_empty q = true ↔ q_list q = [].
Proof.
  unfold q_empty. rewrite Nat.eqb_eq. split.
  - intros H. unfold q_list. by rewrite H.
  - intros H. rewrite <- q_list_length, H. done.
Qed.

Lemma q_grow_wf q : q_wf q → q_size q = q_cap q → q_wf (q_grow q) ∧ q_size (q_grow q) < q_cap (q_grow q).
Proof.
  intros (Hc & Hl & Hh & Ht & Hs) Hfull. unfold q_wf, q_grow. simpl.
  rewrite length_app, length_map, length_seq, length_replicate.
  split_and!; try lia. rewrite Nat.mod_small; lia.
Qed.

Lemma q_grow_list q : q_wf q → q_list (q_grow q) = q_list q.
Proof.
  intros (Hc & Hl & Hh & Ht & Hs).
  apply list_eq. intros i. unfold q_list at 1, q_grow. simpl.
  rewrite list_lookup_fmap.
  destruct (decide (i < q_size q)) as [Hi|Hi].
  - rewrite lookup_seq_lt by done. simpl.
    rewrite Nat.mod_small by lia.
    fold (q_list q).
    assert (is_Some (q_list q !! i)) as [x Hx].
    { apply lookup_lt_is_Some. by rewrite q_list_length. }
    rewrite Hx. f_equal. apply list_lookup_total_correct.
    by apply lookup_app_l_Some.
  - rewrite lookup_seq_ge by lia. simpl. symmetry.
    apply lookup_ge_None. rewrite q_list_length. lia.
Qed.

Lemma q_push_nogrow q v :
  q_wf q → q_size q < q_cap q →
  let q' := mkQueue (<[q_tail q := v]> (q_data q)) (q_cap q) (q_head q)
                    ((q_tail q + 1) mod q_cap q) (S (q_size q)) in
  q_wf q' ∧ q_list q' = q_list q ++ [v].
Proof.
  intros (Hc & Hl & Hh & Ht & Hs) Hlt q'. split.
  - unfold q_wf, q'. simpl. rewrite length_insert.
    split_and!; try lia. rewrite Ht.
    rewrite Nat.Div0.add_mod_idemp_l. f_equal. lia.
  - unfold q_list, q'. cbn [q_data q_head q_cap q_size].
    rewrite seq_S, map_app. simpl. f_equal.
    + apply map_ext_in. intros i Hi. apply in_seq in Hi.
      apply list_lookup_total_insert_ne. rewrite Ht.
      intros Heq. apply mod_offset_inj in Heq; lia.
    + f_equal. rewrite <- Ht. apply list_lookup_total_insert_eq.
      rewrite Hl, Ht. apply Nat.mod_upper_bound. lia.
Qed.

Lemma q_push_spec q v :
  q_wf q → q_wf (q_push q v) ∧ q_list (q_push q v) = q_list q ++ [v].
Proof.
  intros Hwf. unfold q_push.
  destruct (Nat.eqb_spec (q_size q) (q_cap q)) as [Hfull|Hne].
  - destruct (q_grow_wf q Hwf Hfull) as [Hwf' Hlt].
    destruct (q_push_nogrow (q_grow q) v Hwf' Hlt) as [H1 H2].
    split; [done|]. by rewrite H2, q_grow_list.
  - apply q_push_nogrow; [done|]. destruct Hwf as (_ & _ & _ & _ & ?). lia.
Qed.

Lemma q_pop_spec q x l :
  q_wf q → q_list q = x :: l →
  ∃ q', q_pop q = Some (x, q') ∧ q_wf q' ∧ q_list q' = l.
Proof.
  intros (Hc & Hl & Hh & Ht & Hs) Hq.
  assert (q_size q ≠ 0) as Hsz.
  { intros H0. pose proof (q_list_length q) as HL. rewrite Hq, H0 in HL. done. }
  assert (q_data q !! q_head q = Some x) as Hx.
  { unfold q_list in Hq. destruct (q_size q) as [|n] eqn:E; [done|].
    simpl in Hq. injection Hq as Hq _.
    rewrite Nat.add_0_r, Nat.mod_small in Hq by done.
    rewrite <- Hq. apply list_lookup_lookup_total_lt. lia. }
  unfold q_pop. rewrite Hx. eexists. split; [done|]. split.
  - unfold q_wf. simpl. split_and!; try lia.
    + apply Nat.mod_upper_bound. lia.
    + rewrite Ht. rewrite Nat.Div0.add_mod_idemp_l. f_equal. lia.
  - unfold q_list in *. simpl.
    destruct (q_size q) as [|n] eqn:E; [done|].
    simpl in Hq. injection Hq as _ Hq. rewrite <- Hq.
    replace (S n - 1) with n by lia.
    rewrite <- seq_shift, map_map. apply map_ext. intros i.
    rewrite Nat.Div0.add_mod_idemp_l. do 2 f_equal. lia.
Qed.

End QueueFacts.

(** ** [enqueue_arrivals] *)

Lemma enqueue_arrivals_from_spec i p q t :
  q_wf q →
  ∃ q', enqueue_arrivals_from i p q t = (map (mark t) p, q') ∧ q_wf q' ∧
        q_list q' = q_list q ++ arrived_from i p t.
Proof.
  revert i q. induction p as [|x r IH]; intros i q Hq; simpl.
  - exists q. by rewrite app_nil_r.
  - unfold mark at 1. fold (arrives t x). destruct (arrives t x).
    + destruct (q_push_spec q i Hq) as [Hwf Hl].
      destruct (IH (S i) _ Hwf) as (q' & -> & Hwf' & Hl').
      exists q'. split_and!; [done..|]. rewrite Hl', Hl, <- app_assoc. done.
    + destruct (IH (S i) _ Hq) as (q' & -> & Hwf' & Hl'). by exists q'.
Qed.

Lemma enqueue_arrivals_spec p q t :
  q_wf q →
  ∃ q', enqueue_arrivals p q t = (map (mark t) p, q') ∧ q_wf q' ∧
        q_list q' = q_list q ++ arrived_from 0 p t.
Proof. apply enqueue_arrivals_from_spec. Qed.

Lemma elem_of_arrived_from j i p t :
  j ∈ arrived_from i p t ↔
  (i ≤ j)%nat ∧ ∃ x, p !! (j - i)%nat = Some x ∧ arrives t x = true.
Proof.
  revert i. induction p as [|x r IH]; intros i; simpl.
  - split; [by intros ?%elem_of_nil|]. by intros (_ & ? & ? & _).
  - assert (j ∈ arrived_from (S i) r t ↔
            (i < j)%nat ∧ ∃ y, (x :: r) !! (j - i)%nat = Some y ∧ arrives t y = true) as Hr.
    { rewrite IH. split.
      - intros (Hle & y & Hy & Ha). split; [lia|]. exists y. split; [|done].
        replace (j - i)%nat with (S (j - S i)) by lia. done.
      - intros (Hle & y & Hy & Ha). split; [lia|]. exists y. split; [|done].
        replace (j - i)%nat with (S (j - S i)) in Hy by lia. done. }
    destruct (arrives t x) eqn:E.
    + rewrite elem_of_cons, Hr. split.
      * intros [->|(Hlt & y & Hy & Ha)].
        -- split; [lia|]. exists x. by rewrite Nat.sub_diag.
        -- split; [lia|]. by exists y.
      * intros (Hle & y & Hy & Ha).
        destruct (decide (j = i)) as [->|Hne]; [by left|].
        right. split; [lia|]. by exists y.
    + rewrite Hr. split.
      * intros (Hlt & y & Hy & Ha). split; [lia|]. by exists y.
      * intros (Hle & y & Hy & Ha).
        destruct (decide (j = i)) as [->|Hne].
        -- rewrite Nat.sub_diag in Hy. simpl in Hy. congruence.
        -- split; [lia|]. by exists y.
Qed.

Lemma elem_of_arrived j p t :
  j ∈ arrived_from 0 p t ↔ ∃ x, p !! j = Some x ∧ arrives t x = true.
Proof.
  rewrite elem_of_arrived_from, Nat.sub_0_r. split; [by intros [_ ?]|].
  intros ?. split; [lia|done].
Qed.

Lemma NoDup_arrived_from i p t : NoDup (arrived_from i p t).
Proof.
  revert i. induction p as [|x r IH]; intros i; simpl; [constructor|].
  destruct (arrives t x); [|done].
  constructor; [|done]. rewrite elem_of_arrived_from. intros [? _]. lia.
Qed.

Lemma unqueued_mark i p t :
  (unqueued (map (mark t) p) + length (arrived_from i p t) = unqueued p)%nat.
Proof.
  unfold unqueued. revert i. induction p as [|x r IH]; intros i; [done|].
  simpl. rewrite !filter_cons. specialize (IH (S i)).
  assert (enqueued (mark t x) = if arrives t x then true else enqueued x) as Hm.
  { unfold mark. by destruct (arrives t x). }
  destruct (arrives t x) eqn:Ea.
  - assert (enqueued x = false) as E.
    { unfold arrives in Ea. by destruct (enqueued x). }
    rewrite (decide_False (P := enqueued (mark t x) = false)) by (by rewrite Hm).
    rewrite (decide_True (P := enqueued x = false)) by done. simpl. lia.
  - destruct (decide (enqueued x = false)) as [E|E].
    + rewrite (decide_True (P := enqueued (mark t x) = false)) by (by rewrite Hm).
      simpl. lia.
    + rewrite (decide_False (P := enqueued (mark t x) = false)) by (by rewrite Hm).
      lia.
Qed.

Lemma mark_fields t x :
  pid (mark t x) = pid x ∧ arrival (mark t x) = arrival x ∧
  burst (mark t x) = burst x ∧ remaining (mark t x) = remaining x ∧
  completion (mark t x) = completion x ∧
  enqueued (mark t x) = enqueued x || (arrival x <=? t).
Proof.
  unfold mark, arrives. destruct (enqueued x) eqn:E; simpl; [by rewrite E|].
  destruct (arrival x <=? t); simpl; by rewrite ?E.
Qed.

(** ** Fields untouched by the primitive updates *)

Lemma map_key_mark t p : map key (map (mark t) p) = map key p.
Proof.
  rewrite map_map. apply map_ext. intros x. unfold key.
  destruct (mark_fields t x) as (-> & -> & -> & _). done.
Qed.

Lemma map_key_alter f i p :
  (∀ x, key (f x) = key x) → map key (alter f i p) = map key p.
Proof. apply map_alter_same. Qed.

Lemma work_mark t p : work (map (mark t) p) = work p.
Proof.
  unfold work. rewrite map_map. apply sumZ_map_ext. intros x _.
  destruct (mark_fields t x) as (-> & _ & -> & -> & _). done.
Qed.

Lemma remaining_mark t p : map remaining (map (mark t) p) = map remaining p.
Proof.
  rewrite map_map. apply map_ext. intros x.
  by destruct (mark_fields t x) as (_ & _ & _ & -> & _).
Qed.

Lemma all_done_mark t p : all_done (map (mark t) p) = all_done p.
Proof.
  unfold all_done. induction p as [|x p IH]; [done|]. simpl. rewrite IH.
  by destruct (mark_fields t x) as (_ & _ & _ & -> & _).
Qed.

Lemma all_done_true p : all_done p = true ↔ ∀ x, x ∈ p → remaining x ≤ 0.
Proof.
  unfold all_done. rewrite forallb_forall. split.
  - intros H x Hx. apply list_elem_of_In in Hx. specialize (H x Hx).
    destruct (Z.ltb_spec 0 (remaining x)); [done|lia].
  - intros H x Hx. apply list_elem_of_In in Hx. specialize (H x Hx).
    destruct (Z.ltb_spec 0 (remaining x)); [lia|done].
Qed.

Lemma all_done_false p : all_done p = false ↔ ∃ x, x ∈ p ∧ 0 < remaining x.
Proof.
  split.
  - intros H. induction p as [|y p IH]; [done|]. simpl in H.
    destruct (Z.ltb_spec 0 (remaining y)).
    + exists y. split; [left|done].
    + simpl in H. destruct (IH H) as (x & Hx & Hr). exists x. split; [by right|done].
  - intros (x & Hx & Hr). destruct (all_done p) eqn:E; [|done].
    pose proof (proj1 (all_done_true p) E x Hx). lia.
Qed.

(** ** The invariant of one record *)

Lemma proc_inv_iff te t (R R' Q Q' : Prop) x :
  (R ↔ R') → (Q ↔ Q') → proc_inv te t R Q x → proc_inv te t R' Q' x.
Proof.
  intros HR HQ []. constructor; try done; tauto.
Qed.

Lemma proc_inv_mark te t (R Q : Prop) x :
  te ≤ t → proc_inv te t R Q x →
  proc_inv t t R (Q ∨ arrives t x = true) (mark t x).
Proof.
  intros Hle [Harr Hbur Hrem Henq Hran Hunf Hfin Hrun HQ].
  destruct (mark_fields t x) as (Hp & Ha & Hb & Hr & Hc & He).
  assert (arrives t x = true ↔ enqueued x = false ∧ arrival x ≤ t) as Harrives.
  { unfold arrives. rewrite andb_true_iff, negb_true_iff, Z.leb_le. done. }
  assert (enqueued (mark t x) = true ↔ arrival x ≤ t) as Henq'.
  { rewrite He, orb_true_iff, Z.leb_le. split; [|tauto].
    intros [H|H]; [|done]. apply Henq in H. lia. }
  constructor; rewrite ?Hp, ?Ha, ?Hb, ?Hr, ?Hc; try done.
  - intros H. destruct (Hran H) as [H1 H2]. split; [|done].
    rewrite He, H1. done.
  - intros H. rewrite He, (Hrun H). done.
  - rewrite Henq', Harrives. split.
    + intros [H|[Hne Hat]].
      * apply HQ in H as (H1 & H2 & H3). apply Henq in H1.
        split_and!; [lia|done..].
      * split_and!; [done| |].
        -- destruct (decide (remaining x < burst x)) as [Hlt|Hge].
           ++ destruct (Hran Hlt). congruence.
           ++ lia.
        -- intros HR. apply Hrun in HR. congruence.
    + intros (H1 & H2 & H3). destruct (enqueued x) eqn:E.
      * left. apply HQ. done.
      * right. done.
Qed.

(** ** [enqueue_arrivals] keeps the invariant *)

Lemma inv_enqueue p0 run start te st :
  inv p0 run start te st →
  ∃ q', enqueue_arrivals (procs st) (queue st) (clock st)
        = (map (mark (clock st)) (procs st), q') ∧
        q_list q' = q_list (queue st) ++ arrived_from 0 (procs st) (clock st) ∧
        q_size q' = (q_size (queue st) + length (arrived_from 0 (procs st) (clock st)))%nat ∧
        inv p0 run start (clock st)
            (mkState (map (mark (clock st)) (procs st)) (segs st) q' (clock st)).
Proof.
  intros [inv_wf inv_nodup inv_key inv_proc inv_range inv_run inv_te inv_start
          inv_tiles inv_adjacent inv_busy inv_last inv_bound].
  destruct (enqueue_arrivals_spec (procs st) (queue st) (clock st) inv_wf)
    as (q' & Heq & Hwf & Hl).
  exists q'. split; [done|]. split; [done|]. split.
  { rewrite <- (q_list_length q'), <- (q_list_length (queue st)).
    by rewrite Hl, length_app. }
  assert (∀ i, i ∈ q_list q' ↔
               i ∈ q_list (queue st) ∨
               ∃ x, procs st !! i = Some x ∧ arrives (clock st) x = true) as Hmem.
  { intros i. rewrite Hl, elem_of_app, elem_of_arrived. done. }
  constructor; simpl; try done.
  - rewrite Hl. apply NoDup_app. split_and!; [done| |apply NoDup_arrived_from].
    intros i Hi (x & Hx & Ha)%elem_of_arrived.
    pose proof (pi_queued _ _ _ _ _ (inv_proc i x Hx)) as HQ.
    destruct (proj1 HQ Hi) as (He & _). unfold arrives in Ha.
    rewrite He in Ha. done.
  - by rewrite map_key_mark.
  - intros i x' Hx'. rewrite list_lookup_fmap in Hx'.
    destruct (procs st !! i) as [x|] eqn:Hx; [|done]. simpl in Hx'. simplify_eq.
    pose proof (proc_inv_mark te (clock st) _ _ x inv_te (inv_proc i x Hx)) as HP.
    eapply proc_inv_iff; [| |exact HP]; [done|].
    rewrite Hmem. split.
    + intros [H|H]; [by left|]. right. exists x. done.
    + intros [H|(y & Hy & H)]; [by left|]. right. congruence.
  - intros i [Hi|(x & Hx & _)]%Hmem; rewrite length_map.
    + by apply inv_range.
    + by apply lookup_lt_Some in Hx.
  - intros i Hi. rewrite length_map. by apply inv_run.
  - rewrite work_mark, <- inv_busy. f_equal. unfold credit. simpl.
    destruct run as [i|]; [|done]. rewrite list_lookup_fmap.
    destruct (procs st !! i) as [x|]; [|done]. simpl.
    by destruct (mark_fields (clock st) x) as (-> & _).
  - intros Hrun Hdone. rewrite all_done_mark in Hdone.
    destruct (inv_last Hrun Hdone) as (x & Hx & Hc).
    exists (mark (clock st) x). split.
    + apply list_elem_of_fmap. by exists x.
    + by destruct (mark_fields (clock st) x) as (_ & _ & _ & _ & -> & _).
  - by rewrite remaining_mark.
Qed.

Ltac inv_fields H :=
  destruct H as [inv_wf inv_nodup inv_key inv_proc inv_range inv_run inv_te
                 inv_start inv_tiles inv_adjacent inv_busy inv_last inv_bound].

Lemma proc_inv_later te t t' (R Q : Prop) x :
  t ≤ t' → proc_inv te t R Q x → proc_inv te t' R Q x.
Proof.
  intros Hle [Harr Hbur Hrem Henq Hran Hunf Hfin Hrun HQ].
  constructor; try done.
  - intros H. destruct (Hran H). split; [done|lia].
  - intros H1 H2. specialize (Hfin H1 H2). lia.
Qed.

Lemma proc_inv_dec te t (R Q : Prop) x :
  te ≤ t → R → 0 < remaining x → proc_inv te t R Q x →
  proc_inv te (t + 1) R Q (dec x).
Proof.
  intros Hle HR Hpos [Harr Hbur Hrem Henq Hran Hunf Hfin Hrun HQ].
  constructor; simpl; try done.
  - lia.
  - intros H. split; [by apply Hrun|].
    destruct (decide (remaining x < burst x)) as [Hlt|Hge].
    + destruct (Hran Hlt). lia.
    + apply Hrun, Henq in HR. lia.
  - intros H. apply Hunf. lia.
  - split; [|tauto]. intros H. apply HQ in H. tauto.
Qed.

(** ** The idle jump *)

Lemma inv_jump p0 te st t' :
  inv p0 None (clock st) te st → all_done (procs st) = false → clock st ≤ t' →
  t' + sumZ (map remaining (procs st)) ≤ max_arrival p0 + total_burst p0 →
  inv p0 None t' te
      (mkState (procs st) (add_segment (segs st) IDLE (clock st) t') (queue st) t').
Proof.
  intros H Hnd Hle Hbound. inv_fields H.
  constructor; simpl; try done.
  - intros i x Hx. eapply proc_inv_later; [done|]. by apply inv_proc.
  - lia.
  - lia.
  - by apply add_segment_tiles.
  - by eapply add_segment_adjacent.
  - rewrite busy_time_add_segment. simpl in *. lia.
  - intros _ Hd. congruence.
Qed.

(** ** One unit of CPU for the dispatched record *)

Lemma unqueued_alter f i p :
  (∀ x, enqueued (f x) = enqueued x) → unqueued (alter f i p) = unqueued p.
Proof.
  intros Hf. unfold unqueued. revert i. induction p as [|y p IH]; intros i; [done|].
  destruct i as [|i].
  - simpl. rewrite !filter_cons.
    destruct (decide (enqueued y = false)) as [E|E].
    + rewrite (decide_True (P := enqueued (f y) = false)) by (by rewrite Hf). done.
    + rewrite (decide_False (P := enqueued (f y) = false)) by (by rewrite Hf). done.
  - change (alter f (S i) (y :: p)) with (y :: alter f i p).
    rewrite !filter_cons. case_decide; simpl; by rewrite IH.
Qed.

Lemma inv_dec p0 idx start te st x :
  inv p0 (Some idx) start te st → procs st !! idx = Some x → 0 < remaining x →
  inv p0 (Some idx) start te
      (mkState (alter dec idx (procs st)) (segs st) (queue st) (clock st + 1)).
Proof.
  intros H Hx Hpos. inv_fields H.
  constructor; simpl; try done.
  - by rewrite map_key_alter.
  - intros i y Hy. destruct (decide (i = idx)) as [->|Hne].
    + rewrite list_lookup_alter_eq, Hx in Hy. simpl in Hy. simplify_eq.
      apply proc_inv_dec; [done..|]. by apply inv_proc.
    + rewrite list_lookup_alter_ne in Hy by done.
      eapply proc_inv_later; [|by apply inv_proc]. lia.
  - intros i Hi. rewrite length_alter. by apply inv_range.
  - intros i Hi. rewrite length_alter. by apply inv_run.
  - lia.
  - split; [lia|done].
  - unfold work. rewrite (sumZ_map_alter _ _ _ _ _ Hx). fold (work (procs st)).
    rewrite <- inv_busy. unfold credit. simpl.
    rewrite list_lookup_alter_eq, Hx. simpl.
    destruct (pid x =? IDLE); lia.
  - rewrite (sumZ_map_alter _ _ _ _ _ Hx). simpl. lia.
Qed.

Lemma measure_dec idx st x :
  procs st !! idx = Some x →
  measure (mkState (alter dec idx (procs st)) (segs st) (queue st) (clock st + 1))
  = measure st - 2.
Proof.
  intros Hx. unfold measure. simpl.
  rewrite (sumZ_map_alter _ _ _ _ _ Hx), unqueued_alter by done. simpl. lia.
Qed.

(** ** Dispatch: the head of the queue is popped *)

Lemma inv_pop p0 te st idx l q1 :
  inv p0 None (clock st) te st → q_list (queue st) = idx :: l →
  q_wf q1 → q_list q1 = l →
  inv p0 (Some idx) (clock st) te (mkState (procs st) (segs st) q1 (clock st)).
Proof.
  intros H Hq Hwf1 Hl1. inv_fields H.
  rewrite Hq in inv_nodup. apply NoDup_cons in inv_nodup as [Hnotin Hnd].
  constructor; simpl; try done.
  - by rewrite Hl1.
  - intros i x Hx. specialize (inv_proc i x Hx). rewrite Hq in inv_proc. rewrite Hl1.
    destruct (decide (i = idx)) as [->|Hne].
    + destruct inv_proc as [Harr Hbur Hrem Henq Hran Hunf Hfin Hrun HQ].
      assert (enqueued x = true ∧ 0 < remaining x) as [He Hr].
      { destruct (proj1 HQ) as (? & ? & _); [left|done]. }
      constructor; try done. tauto.
    + eapply proc_inv_iff; [| |exact inv_proc].
      * split; intros; simplify_eq.
      * rewrite elem_of_cons. split; [intros [?|?]; [done|done]|by right].
  - intros i Hi. apply inv_range. rewrite Hq. right. by rewrite <- Hl1.
  - intros i [= <-]. apply inv_range. rewrite Hq. apply elem_of_cons. by left.
  - split; [lia|done].
  - rewrite <- inv_busy. unfold credit. simpl.
    destruct (procs st !! idx) as [x|]; [|done]. destruct (pid x =? IDLE); lia.
Qed.

(** ** End of the slice *)

Lemma inv_complete p0 idx start te st x :
  inv p0 (Some idx) start te st → procs st !! idx = Some x → remaining x = 0 →
  inv p0 None (clock st) te
      (mkState (alter (set_completion (clock st)) idx (procs st))
               (add_segment (segs st) (pid x) start (clock st))
               (queue st) (clock st)).
Proof.
  intros H Hx Hz. inv_fields H.
  constructor; simpl; try done.
  - by rewrite map_key_alter.
  - intros i y Hy. destruct (decide (i = idx)) as [->|Hne].
    + rewrite list_lookup_alter_eq, Hx in Hy. simpl in Hy. simplify_eq.
      destruct (inv_proc idx x Hx) as [Harr Hbur Hrem Henq Hran Hunf Hfin Hrun HQ].
      constructor; simpl; try done.
      * intros ?. lia.
      * intros _ _. destruct Hran; lia.
      * split; [|lia]. intros HQ'. apply HQ in HQ'. tauto.
    + rewrite list_lookup_alter_ne in Hy by done.
      eapply proc_inv_iff; [| |exact (inv_proc i y Hy)]; [|done].
      split; intros; simplify_eq.
  - intros i Hi. rewrite length_alter. by apply inv_range.
  - lia.
  - apply add_segment_tiles; [done|lia].
  - by eapply add_segment_adjacent.
  - rewrite busy_time_add_segment.
    unfold work. rewrite (sumZ_map_alter _ _ _ _ _ Hx). fold (work (procs st)).
    rewrite <- inv_busy. unfold credit. rewrite Hx. simpl. lia.
  - intros _ _. exists (set_completion (clock st) x). split; [|done].
    apply (list_elem_of_lookup_2 _ idx). by rewrite list_lookup_alter_eq, Hx.
  - by rewrite (map_alter_same remaining).
Qed.

Lemma measure_complete idx st s t c :
  measure (mkState (alter (set_completion c) idx (procs st)) s (queue st) t)
  = measure st.
Proof.
  unfold measure. simpl. rewrite unqueued_alter by done.
  by rewrite (map_alter_same remaining).
Qed.

Lemma inv_requeue p0 idx start te st x :
  inv p0 (Some idx) start te st → procs st !! idx = Some x → remaining x ≠ 0 →
  inv p0 None (clock st) te
      (mkState (procs st) (add_segment (segs st) (pid x) start (clock st))
               (q_push (queue st) idx) (clock st)).
Proof.
  intros H Hx Hnz. inv_fields H.
  destruct (q_push_spec (queue st) idx inv_wf) as [Hwf' Hl'].
  destruct (inv_proc idx x Hx) as [Harr Hbur Hrem Henq Hran Hunf Hfin Hrun HQ].
  assert (idx ∉ q_list (queue st)) as Hnotin.
  { intros Hin. apply HQ in Hin. tauto. }
  constructor; simpl; try done.
  - rewrite Hl'. apply NoDup_app. split_and!; [done| |apply NoDup_singleton].
    intros i Hi Hi'. apply list_elem_of_singleton in Hi' as ->. done.
  - intros i y Hy. rewrite Hl'. destruct (decide (i = idx)) as [->|Hne].
    + simplify_eq. constructor; try done.
      split; [|intros _; apply elem_of_app; right; left].
      intros _. split_and!; [by apply Hrun|lia|done].
    + eapply proc_inv_iff; [| |exact (inv_proc i y Hy)].
      * split; intros; simplify_eq.
      * rewrite elem_of_app, list_elem_of_singleton. tauto.
  - intros i Hi. rewrite Hl' in Hi.
    apply elem_of_app in Hi as [Hi|Hi]; [by apply inv_range|].
    apply list_elem_of_singleton in Hi as ->. by apply lookup_lt_Some in Hx.
  - lia.
  - apply add_segment_tiles; [done|lia].
  - by eapply add_segment_adjacent.
  - rewrite busy_time_add_segment. rewrite <- inv_busy. unfold credit.
    rewrite Hx. simpl. lia.
  - intros _ Hd. pose proof (proj1 (all_done_true _) Hd x) as Hle.
    assert (remaining x ≤ 0); [|lia]. apply Hle. by eapply list_elem_of_lookup_2.
Qed.

Lemma measure_requeue idx st s t :
  q_wf (queue st) →
  measure (mkState (procs st) s (q_push (queue st) idx) t) = measure st + 1.
Proof.
  intros Hwf. unfold measure. cbn [procs queue].
  destruct (q_push_spec (queue st) idx Hwf) as [_ Hl].
  rewrite <- (q_list_length (q_push (queue st) idx)), <- (q_list_length (queue st)).
  rewrite Hl, length_app. simpl. lia.
Qed.

(** ** The slice *)

Lemma measure_enqueue p s q q' t t' :
  q_size q' = (q_size q + length (arrived_from 0 p t))%nat →
  measure (mkState (map (mark t) p) s q' t')
  = measure (mkState p s q t') - Z.of_nat (length (arrived_from 0 p t)).
Proof.
  intros Hs. unfold measure. simpl. rewrite remaining_mark, Hs.
  pose proof (unqueued_mark 0 p t). lia.
Qed.

Lemma inv_tick p0 idx start st x :
  inv p0 (Some idx) start (clock st) st → procs st !! idx = Some x →
  0 < remaining x →
  inv p0 (Some idx) start (clock (tick idx st)) (tick idx st) ∧
  procs (tick idx st) !! idx = Some (mark (clock st + 1) (dec x)) ∧
  measure (tick idx st) ≤ measure st - 2.
Proof.
  intros H Hx Hpos.
  pose proof (inv_dec _ _ _ _ _ _ H Hx Hpos) as H1.
  destruct (inv_enqueue _ _ _ _ _ H1) as (q' & Heq & Hl & Hs & H2).
  simpl in Heq, Hl, Hs, H2.
  assert (tick idx st = mkState (map (mark (clock st + 1)) (alter dec idx (procs st)))
                                (segs st) q' (clock st + 1)) as ->.
  { unfold tick. fold dec. by rewrite Heq. }
  simpl. split_and!; [done| |].
  - by rewrite list_lookup_fmap, list_lookup_alter_eq, Hx.
  - rewrite (measure_enqueue _ _ (queue st)) by done.
    rewrite (measure_dec _ _ _ Hx). lia.
Qed.

Lemma inv_run_slice p0 count idx start st x :
  inv p0 (Some idx) start (clock st) st → procs st !! idx = Some x →
  Z.of_nat count ≤ remaining x →
  let st' := run_slice count idx st in
  inv p0 (Some idx) start (clock st') st' ∧
  (∃ x', procs st' !! idx = Some x') ∧
  measure st' ≤ measure st - (if count is O then 0 else 2).
Proof.
  revert st x. induction count as [|c IH]; intros st x H Hx Hc; simpl.
  - split_and!; [done|by exists x|lia].
  - destruct (inv_tick _ _ _ _ _ H Hx) as (H1 & Hx1 & Hm1); [lia|].
    rewrite Hx1.
    destruct (remaining (mark (clock st + 1) (dec x)) =? 0) eqn:E.
    + split_and!; [done|by eexists|done].
    + destruct (IH _ _ H1 Hx1) as (H2 & Hx2 & Hm2).
      { destruct (mark_fields (clock st + 1) (dec x)) as (_ & _ & _ & -> & _).
        simpl. lia. }
      split_and!; [done..|]. destruct c; lia.
Qed.

(** ** [next_arr] of the idle branch *)

Lemma next_arrival_from_spec acc p :
  (∀ x, x ∈ p → 0 ≤ arrival x) → -1 ≤ acc →
  let r := foldl (λ next_arr x,
                    if (0 <? remaining x) && negb (enqueued x)
                    then (if (next_arr =? -1) || (arrival x <? next_arr)
                          then arrival x else next_arr)
                    else next_arr) acc p in
  (r = -1 → acc = -1 ∧ ∀ x, x ∈ p → ¬ waiting_outside x) ∧
  (r ≠ -1 → (r = acc ∨ ∃ x, x ∈ p ∧ waiting_outside x ∧ arrival x = r) ∧
            (acc ≠ -1 → r ≤ acc) ∧
            ∀ x, x ∈ p → waiting_outside x → r ≤ arrival x).
Proof.
  revert acc. induction p as [|y p IH]; intros acc Hp Hacc; simpl.
  - split; [|intros _; split_and!; [by left|lia|]];
      [intros ->; split; [done|] |]; by intros x ?%elem_of_nil.
  - assert (0 ≤ arrival y) as Hy by (apply Hp; left).
    assert (∀ x, x ∈ p → 0 ≤ arrival x) as Hp' by (intros x Hx; apply Hp; by right).
    assert ((0 <? remaining y) && negb (enqueued y) = true ↔ waiting_outside y) as Hw.
    { unfold waiting_outside. rewrite andb_true_iff, negb_true_iff, Z.ltb_lt. done. }
    destruct ((0 <? remaining y) && negb (enqueued y)) eqn:E.
    + apply proj1 in Hw. specialize (Hw eq_refl).
      destruct ((acc =? -1) || (arrival y <? acc)) eqn:E2.
      * destruct (IH (arrival y) Hp') as [IH1 IH2]; [lia|]. split.
        -- intros Hr. destruct (IH1 Hr). lia.
        -- intros Hr. destruct (IH2 Hr) as (Ha & Hb & Hc). split_and!.
           ++ right. destruct Ha as [->|(x & Hx & Hwx & Hax)].
              ** exists y. split; [left|done].
              ** exists x. split; [by right|done].
           ++ intros Hne. apply orb_true_iff in E2 as [E2|E2]; [lia|].
              apply Z.ltb_lt in E2. specialize (Hb ltac:(lia)). lia.
           ++ intros x [->|Hx]%elem_of_cons Hwx; [apply Hb; lia|by apply Hc].
      * apply orb_false_iff in E2 as [E2 E3].
        apply Z.eqb_neq in E2. apply Z.ltb_ge in E3.
        destruct (IH acc Hp' Hacc) as [IH1 IH2]. split.
        -- intros Hr. destruct (IH1 Hr). done.
        -- intros Hr. destruct (IH2 Hr) as (Ha & Hb & Hc). split_and!.
           ++ destruct Ha as [->|(x & Hx & Hwx & Hax)]; [by left|].
              right. exists x. split; [by right|done].
           ++ done.
           ++ intros x [->|Hx]%elem_of_cons Hwx; [specialize (Hb E2); lia|by apply Hc].
    + assert (¬ waiting_outside y) as Hnw by (rewrite <- Hw; done).
      destruct (IH acc Hp' Hacc) as [IH1 IH2]. split.
      * intros Hr. destruct (IH1 Hr) as [? Hall]. split; [done|].
        intros x [->|Hx]%elem_of_cons; [done|by apply Hall].
      * intros Hr. destruct (IH2 Hr) as (Ha & Hb & Hc). split_and!.
        -- destruct Ha as [->|(x & Hx & Hwx & Hax)]; [by left|].
           right. exists x. split; [by right|done].
        -- done.
        -- intros x [->|Hx]%elem_of_cons Hwx; [done|by apply Hc].
Qed.

Lemma next_arrival_spec p :
  (∀ x, x ∈ p → 0 ≤ arrival x) → (∃ x, x ∈ p ∧ waiting_outside x) →
  next_arrival p ≠ -1 ∧
  (∃ x, x ∈ p ∧ waiting_outside x ∧ arrival x = next_arrival p) ∧
  ∀ x, x ∈ p → waiting_outside x → next_arrival p ≤ arrival x.
Proof.
  intros Hp (y & Hy & Hwy).
  destruct (next_arrival_from_spec (-1) p Hp ltac:(lia)) as [H1 H2].
  fold (next_arrival p) in H1, H2.
  assert (next_arrival p ≠ -1) as Hne.
  { intros Hr. destruct (H1 Hr) as [_ Hall]. by apply (Hall y). }
  destruct (H2 Hne) as (Ha & _ & Hc). split_and!; [done| |done].
  destruct Ha as [?|?]; done.
Qed.

(** ** The bound on the clock *)

Lemma key_fields p p0 :
  map key p = map key p0 →
  map pid p = map pid p0 ∧ map arrival p = map arrival p0 ∧ map burst p = map burst p0.
Proof.
  intros H. split_and!.
  - apply (f_equal (map (λ k : Z * Z * Z, k.1.1))) in H. by rewrite !map_map in H.
  - apply (f_equal (map (λ k : Z * Z * Z, k.1.2))) in H. by rewrite !map_map in H.
  - apply (f_equal (map (λ k : Z * Z * Z, k.2))) in H. by rewrite !map_map in H.
Qed.

Lemma max_arrival_alt p : max_arrival p = foldr Z.max 0 (map arrival p).
Proof. unfold max_arrival. induction p as [|x p IH]; simpl; congruence. Qed.

Lemma max_arrival_ge p x : x ∈ p → arrival x ≤ max_arrival p.
Proof.
  unfold max_arrival. induction p as [|y p IH]; [by intros ?%elem_of_nil|].
  intros [->|Hx]%elem_of_cons; simpl; [lia|]. specialize (IH Hx). lia.
Qed.

Lemma max_arrival_nonneg p : 0 ≤ max_arrival p.
Proof. unfold max_arrival. induction p as [|y p IH]; simpl; lia. Qed.

Lemma key_bound p p0 :
  map key p = map key p0 →
  max_arrival p = max_arrival p0 ∧ total_burst p = total_burst p0.
Proof.
  intros (_ & Ha & Hb)%key_fields. rewrite !max_arrival_alt, Ha.
  unfold total_burst. by rewrite Hb.
Qed.

Lemma earliest_fold_le acc (r : list Process) :
  foldl (λ e y, if arrival y <? e then arrival y else e) acc r ≤ acc.
Proof.
  revert acc. induction r as [|y r IH]; intros acc; simpl; [lia|].
  destruct (Z.ltb_spec (arrival y) acc); [|done]. specialize (IH (arrival y)). lia.
Qed.

(** ** The initial state *)

Lemma elem_of_table_of x recs :
  x ∈ table_of recs ↔ ∃ a b c, (a, b, c) ∈ recs ∧ x = mkProcess a b c c (-1) 0 0 false.
Proof.
  unfold table_of. rewrite list_elem_of_fmap. split.
  - intros ([[a b] c] & -> & Hr). by exists a, b, c.
  - intros (a & b & c & Hr & ->). by exists (a, b, c).
Qed.

Lemma earliest_fold_nonneg acc (r : list Process) :
  0 ≤ acc → (∀ y, y ∈ r → 0 ≤ arrival y) →
  0 ≤ foldl (λ e y, if arrival y <? e then arrival y else e) acc r.
Proof.
  revert acc. induction r as [|y r IH]; intros acc Hacc Hr; simpl; [done|].
  apply IH.
  - destruct (arrival y <? acc); [|done]. apply Hr. left.
  - intros z Hz. apply Hr. by right.
Qed.

Lemma rr_init_inv recs :
  valid_records recs →
  ∃ st, rr_init (table_of recs) = Some st ∧ head_inv (table_of recs) st.
Proof.
  intros [Hne Hval]. set (p0 := table_of recs).
  assert (∀ x, x ∈ p0 → 0 ≤ arrival x ∧ 0 < burst x ∧ remaining x = burst x ∧
                        completion x = -1 ∧ enqueued x = false) as Hp0.
  { intros x (a & b & c & Hr & ->)%elem_of_table_of. simpl.
    destruct (Hval a b c Hr). done. }
  assert (∃ e, earliest_arrival p0 = Some e ∧ 0 ≤ e ≤ max_arrival p0)
    as (e & He & Hpos).
  { destruct p0 as [|x r] eqn:E.
    - destruct recs; [done|discriminate].
    - eexists. split; [done|]. split.
      + apply earliest_fold_nonneg.
        * apply Hp0. left.
        * intros y Hy. apply Hp0. by right.
      + pose proof (earliest_fold_le (arrival x) r).
        pose proof (max_arrival_ge (x :: r) x ltac:(left)). lia. }
  unfold rr_init. rewrite He.
  set (q0 := q_init _).
  assert (q_wf q0) as Hq0.
  { apply q_init_wf. destruct (4 <? length p0)%nat eqn:E; [|lia].
    apply Nat.ltb_lt in E. lia. }
  set (st0 := mkState p0 (add_segment [] IDLE 0 e) q0 e).
  assert (inv p0 None e (-1) st0) as H0.
  { constructor; simpl; try done.
    - constructor.
    - intros i x Hx. apply list_elem_of_lookup_2 in Hx.
      destruct (Hp0 x Hx) as (Ha & Hb & Hr & Hc & Hen).
      constructor; try done; try lia.
      + rewrite Hen. split; [done|]. intros ?. exfalso. lia.
      + split; [by intros ?%elem_of_nil|]. rewrite Hen. by intros [? _].
    - by intros i ?%elem_of_nil.
    - lia.
    - lia.
    - apply add_segment_tiles; [done|lia].
    - eapply (add_segment_adjacent 0 [] 0); [done|]. by intros i ? ? ?.
    - rewrite busy_time_add_segment. simpl. unfold work.
      rewrite sumZ_map_zero; [done|].
      intros x Hx. destruct (Hp0 x Hx) as (_ & _ & -> & _).
      destruct (pid x =? IDLE); lia.
    - intros _ Hd. destruct p0 as [|x r] eqn:E; [by destruct recs|].
      pose proof (proj1 (all_done_true _) Hd x ltac:(left)).
      destruct (Hp0 x ltac:(left)) as (_ & ? & ? & _). lia.
    - assert (sumZ (map remaining p0) = total_burst p0) as ->; [|lia].
      apply sumZ_map_ext. intros x Hx. by destruct (Hp0 x Hx) as (_ & _ & -> & _). }
  destruct (inv_enqueue _ _ _ _ _ H0) as (q' & Heq & _ & _ & H1).
  simpl in Heq, H1.
  assert ((if 0 <? e then e else 0) = e) as ->.
  { destruct (Z.ltb_spec 0 e); lia. }
  assert ((if 0 <? e then add_segment [] IDLE 0 e else []) = add_segment [] IDLE 0 e) as ->.
  { destruct (Z.ltb_spec 0 e); [done|]. assert (e = 0) as -> by lia.
    by rewrite add_segment_empty. }
  rewrite Heq. eexists. split; [done|]. exact H1.
Qed.

(** ** One pass of the while loop *)

Lemma rr_iter_progress p0 quantum st :
  0 < quantum → head_inv p0 st → all_done (procs st) = false →
  ∃ st', rr_iter quantum st = Continue st' ∧ head_inv p0 st' ∧
         measure st' < measure st ∧ ¬ skips_finished st.
Proof.
  intros Hq H Hnd. unfold head_inv in H.
  destruct (q_list (queue st)) as [|idx l] eqn:Hl.
  - (* the queue is empty: idle jump *)
    pose proof (proj2 (q_empty_list _) Hl) as Hemp.
    assert (∀ x, x ∈ procs st → 0 ≤ arrival x) as Harr.
    { intros x (i & Hx)%list_elem_of_lookup. by destruct (inv_proc _ _ _ _ _ H i x Hx). }
    assert (∀ x, x ∈ procs st → 0 < remaining x → waiting_outside x ∧ clock st < arrival x)
      as Hout.
    { intros x (i & Hx)%list_elem_of_lookup Hr.
      destruct (inv_proc _ _ _ _ _ H i x Hx) as [_ _ _ Henq _ _ _ _ HQ].
      rewrite Hl in HQ. destruct (enqueued x) eqn:E.
      - exfalso. eapply elem_of_nil, HQ. done.
      - split; [done|]. destruct (decide (arrival x ≤ clock st)) as [Hle|]; [|lia].
        apply Henq in Hle. done. }
    apply all_done_false in Hnd as (y & Hy & Hry).
    destruct (next_arrival_spec (procs st) Harr) as (Hne & (z & Hz & Hwz & Haz) & Hmin).
    { exists y. split; [done|]. by apply Hout. }
    destruct (Hout z Hz (proj1 Hwz)) as [_ Hlt].
    pose proof (inv_jump _ _ _ (next_arrival (procs st)) H) as H1.
    assert (next_arrival (procs st) + sumZ (map remaining (procs st))
            ≤ max_arrival p0 + total_burst p0) as Hbound.
    { destruct (key_bound _ _ (inv_key _ _ _ _ _ H)) as [<- <-].
      pose proof (max_arrival_ge _ _ Hz).
      assert (sumZ (map remaining (procs st)) ≤ total_burst (procs st)); [|lia].
      apply sumZ_map_le. intros x (i & Hx)%list_elem_of_lookup.
      by destruct (inv_proc _ _ _ _ _ H i x Hx) as [_ _ [_ ?] _ _ _ _ _ _]. }
    destruct (inv_enqueue _ _ _ _ _
                (H1 ltac:(apply all_done_false; eauto) ltac:(lia) Hbound))
      as (q' & Heq & Hql & Hqs & H2).
    simpl in Heq, Hql, Hqs, H2.
    unfold rr_iter. rewrite Hemp.
    destruct (Z.eqb_spec (next_arrival (procs st)) (-1)) as [|_]; [done|].
    destruct (Z.ltb_spec (clock st) (next_arrival (procs st))) as [_|]; [|lia].
    rewrite Heq. eexists. split; [done|]. split; [exact H2|]. split.
    + rewrite (measure_enqueue _ _ (queue st)) by done.
      assert (0 < length (arrived_from 0 (procs st) (next_arrival (procs st))))%nat.
      { apply list_elem_of_lookup in Hz as (i & Hi).
        assert (i ∈ arrived_from 0 (procs st) (next_arrival (procs st))) as Hin.
        { apply elem_of_arrived. exists z. split; [done|].
          unfold arrives. rewrite (proj2 Hwz). simpl. apply Z.leb_le. lia. }
        destruct (arrived_from 0 (procs st) (next_arrival (procs st)));
          [by apply elem_of_nil in Hin|simpl; lia]. }
      unfold measure in *. simpl in *. lia.
    + intros (? & ? & ? & _ & Hf & _). congruence.
  - (* dispatch of the head of the queue *)
    destruct (q_pop_spec _ _ _ (inv_wf _ _ _ _ _ H) Hl) as (q1 & Hpop & Hwf1 & Hl1).
    assert (q_empty (queue st) = false) as Hemp.
    { destruct (q_empty (queue st)) eqn:E; [|done].
      apply q_empty_list in E. congruence. }
    assert (idx ∈ q_list (queue st)) as Hin by (rewrite Hl; left).
    destruct (lookup_lt_is_Some_2 _ _ (inv_range _ _ _ _ _ H idx Hin)) as [pr Hpr].
    destruct (proj1 (pi_queued _ _ _ _ _ (inv_proc _ _ _ _ _ H idx pr Hpr)) Hin)
      as (Hen & Hrem & _).
    pose proof (inv_pop _ _ _ _ _ _ H Hl Hwf1 Hl1) as H1.
    set (st1 := mkState (procs st) (segs st) q1 (clock st)) in *.
    set (slice := if remaining pr <? quantum then remaining pr else quantum).
    assert (0 < slice ≤ remaining pr) as Hslice.
    { unfold slice. destruct (Z.ltb_spec (remaining pr) quantum); lia. }
    destruct (inv_run_slice p0 (Z.to_nat slice) idx (clock st) st1 pr H1 Hpr)
      as (H2 & (pr2 & Hpr2) & Hm2); [lia|].
    assert (measure st1 = measure st - 1) as Hm1.
    { unfold measure, st1. simpl.
      pose proof (q_list_length (queue st)) as E1. rewrite Hl in E1.
      pose proof (q_list_length q1) as E2. rewrite Hl1 in E2. simpl in E1. lia. }
    unfold rr_iter. rewrite Hemp, Hpop, Hpr.
    destruct (Z.leb_spec (remaining pr) 0) as [|_]; [lia|].
    fold slice. fold st1.
    set (st2 := run_slice (Z.to_nat slice) idx st1) in *.
    rewrite Hpr2.
    assert (measure st2 ≤ measure st1 - 2) as Hm2'.
    { destruct (Z.to_nat slice) eqn:E; [lia|done]. }
    destruct (Z.eqb_spec (remaining pr2) 0) as [Hz|Hnz].
    + eexists. split; [done|]. split; [|split].
      * exact (inv_complete _ _ _ _ _ _ H2 Hpr2 Hz).
      * rewrite measure_complete. lia.
      * intros (idx' & q1' & pr' & Hpop' & _ & Hpr' & Hle). simplify_eq. lia.
    + eexists. split; [done|]. split; [|split].
      * exact (inv_requeue _ _ _ _ _ _ H2 Hpr2 Hnz).
      * rewrite measure_requeue by apply (inv_wf _ _ _ _ _ H2). lia.
      * intros (idx' & q1' & pr' & Hpop' & _ & Hpr' & Hle). simplify_eq. lia.
Qed.

Lemma measure_nonneg p0 st : head_inv p0 st → 0 ≤ measure st.
Proof.
  intros H. unfold measure.
  assert (0 ≤ sumZ (map remaining (procs st))); [|lia].
  apply sumZ_nonneg. intros r (x & -> & Hx)%list_elem_of_fmap.
  apply list_elem_of_lookup in Hx as (i & Hx).
  by destruct (inv_proc _ _ _ _ _ H i x Hx) as [_ _ [? _] _ _ _ _ _ _].
Qed.

(** ** The while loop *)

Lemma rr_loop_terminates p0 quantum fuel st :
  0 < quantum → head_inv p0 st → measure st ≤ Z.of_nat fuel →
  ∃ st', rr_loop fuel quantum st = Finished st' ∧ head_inv p0 st' ∧
         all_done (procs st') = true.
Proof.
  intros Hq. revert st. induction fuel as [|f IH]; intros st H Hm.
  - pose proof (measure_nonneg _ _ H).
    destruct (all_done (procs st)) eqn:E.
    + exists st. simpl. rewrite E. done.
    + destruct (rr_iter_progress _ _ _ Hq H E) as (st' & _ & H' & Hlt & _).
      pose proof (measure_nonneg _ _ H'). lia.
  - simpl. destruct (all_done (procs st)) eqn:E; [by exists st|].
    destruct (rr_iter_progress _ _ _ Hq H E) as (st' & -> & H' & Hlt & _).
    apply IH; [done|lia].
Qed.

Lemma rr_loop_finished p0 quantum fuel st st' :
  0 < quantum → head_inv p0 st → rr_loop fuel quantum st = Finished st' →
  head_inv p0 st' ∧ all_done (procs st') = true.
Proof.
  intros Hq. revert st. induction fuel as [|f IH]; intros st H Hr; simpl in Hr.
  - destruct (all_done (procs st)) eqn:E; [|done]. by simplify_eq.
  - destruct (all_done (procs st)) eqn:E; [by simplify_eq|].
    destruct (rr_iter_progress _ _ _ Hq H E) as (st1 & Hi & H' & _).
    rewrite Hi in Hr. by apply (IH st1).
Qed.

Lemma reach_head_inv recs quantum st :
  valid_records recs → 0 < quantum →
  reach quantum (table_of recs) st → head_inv (table_of recs) st.
Proof.
  intros Hv Hq Hr. induction Hr as [st Hi|st st' _ IH Hnd Hit].
  - destruct (rr_init_inv recs Hv) as (st0 & Hi0 & H0). congruence.
  - destruct (rr_iter_progress _ _ _ Hq IH Hnd) as (st1 & Hi & H' & _). congruence.
Qed.

(** ** The state at the exit of the loop *)

Lemma key_table_of recs : map key (table_of recs) = recs.
Proof.
  unfold table_of. rewrite map_map. induction recs as [|[[a b] c] r IH]; [done|].
  simpl. by rewrite IH.
Qed.

Lemma max_completion_eq p c :
  -1 ≤ c → (∃ x, x ∈ p ∧ completion x = c) → (∀ x, x ∈ p → completion x ≤ c) →
  max_completion p = c.
Proof.
  intros Hc (x & Hx & Hxc) Hall. unfold max_completion.
  assert (foldr (λ x m, Z.max (completion x) m) (-1) p ≤ c) as Hle.
  { clear x Hx Hxc. induction p as [|y p IH]; simpl; [done|].
    assert (completion y ≤ c) by (apply Hall; left).
    assert (foldr (λ x m, Z.max (completion x) m) (-1) p ≤ c); [|lia].
    apply IH. intros z Hz. apply Hall. by right. }
  assert (c ≤ foldr (λ x m, Z.max (completion x) m) (-1) p); [|lia].
  clear Hle Hall. induction p as [|y p IH]; [by apply elem_of_nil in Hx|].
  apply elem_of_cons in Hx as [->|Hx]; simpl; [lia|]. specialize (IH Hx). lia.
Qed.

Lemma work_all_done recs p :
  map key p = recs → (∀ x, x ∈ p → remaining x = 0) → work p = sum_bursts_named recs.
Proof.
  intros <- Hz. unfold work, sum_bursts_named. rewrite map_map.
  apply sumZ_map_ext. intros x Hx. unfold key. rewrite (Hz x Hx).
  destruct (pid x =? IDLE); lia.
Qed.

Lemma total_burst_table_of recs : total_burst (table_of recs) = sum_bursts recs.
Proof.
  unfold total_burst, sum_bursts, table_of. rewrite map_map.
  apply sumZ_map_ext. by intros [[a b] c] _.
Qed.

Lemma max_arrival_table_of recs : max_arrival (table_of recs) = latest_arrival recs.
Proof.
  unfold max_arrival, latest_arrival, table_of.
  induction recs as [|[[a b] c] r IH]; [done|]. simpl. by rewrite IH.
Qed.

Lemma head_inv_final p0 st :
  head_inv p0 st → all_done (procs st) = true →
  (∀ x, x ∈ procs st → remaining x = 0 ∧ 0 ≤ arrival x ∧ 0 < burst x ∧
                        arrival x + burst x ≤ completion x ≤ clock st) ∧
  max_completion (procs st) = clock st ∧
  tiles 0 (segs st) (max_completion (procs st)).
Proof.
  intros H Hd.
  assert (∀ x, x ∈ procs st → remaining x = 0 ∧ 0 ≤ arrival x ∧ 0 < burst x ∧
                              arrival x + burst x ≤ completion x ≤ clock st) as Hall.
  { intros x Hx. pose proof (proj1 (all_done_true _) Hd x Hx) as Hle.
    apply list_elem_of_lookup in Hx as (i & Hx).
    destruct (inv_proc _ _ _ _ _ H i x Hx) as [Ha Hb Hr _ _ _ Hf _ _].
    assert (remaining x = 0) as Hz by lia. split_and!; [done..| |].
    - apply Hf; [done|]. by intros ?.
    - apply Hf; [done|]. by intros ?. }
  destruct (inv_start _ _ _ _ _ H) as [[Hs0 _] _].
  assert (max_completion (procs st) = clock st) as Hmax.
  { apply max_completion_eq; [lia| |].
    - by apply (inv_last _ _ _ _ _ H).
    - intros x Hx. destruct (Hall x Hx) as (_ & _ & _ & _ & ?). done. }
  split_and!; [done|done|]. rewrite Hmax. apply (inv_tiles _ _ _ _ _ H).
Qed.

Lemma rr_simulate_finished recs quantum fuel st :
  valid_records recs → 0 < quantum →
  simulate fuel quantum (table_of recs) = Finished st →
  head_inv (table_of recs) st ∧ all_done (procs st) = true.
Proof.
  intros Hv Hq Hs. unfold simulate in Hs.
  destruct (rr_init_inv recs Hv) as (st0 & Hi & H0). rewrite Hi in Hs.
  by eapply rr_loop_finished.
Qed.

(** The simulation returns once the fuel covers the measure of the initial
    state. *)
Lemma rr_simulate_terminates recs quantum :
  valid_records recs → 0 < quantum →
  ∃ fuel0, ∀ fuel, (fuel0 ≤ fuel)%nat →
    ∃ st, simulate fuel quantum (table_of recs) = Finished st ∧
          head_inv (table_of recs) st ∧ all_done (procs st) = true.
Proof.
  intros Hv Hq. destruct (rr_init_inv recs Hv) as (st0 & Hi & H0).
  exists (Z.to_nat (measure st0)). intros fuel Hf. unfold simulate. rewrite Hi.
  apply rr_loop_terminates; [done..|].
  pose proof (measure_nonneg _ _ H0). lia.
Qed.

Lemma elem_of_compute_metrics x p :
  x ∈ compute_metrics p ↔ ∃ y, y ∈ p ∧ x = set_metrics y.
Proof.
  unfold compute_metrics. rewrite list_elem_of_fmap. split.
  - intros (y & -> & Hy). by exists y.
  - intros (y & Hy & ->). by exists y.
Qed.

(** The clock never passes the latest arrival plus the total burst: with
    that sum at most [INT_MAX] no [int] of the run overflows. *)
Lemma rr_clock_bound recs quantum st :
  valid_records recs → 0 < quantum → reach quantum (table_of recs) st →
  0 ≤ clock st ≤ latest_arrival recs + sum_bursts recs.
Proof.
  intros Hv Hq Hr. pose proof (reach_head_inv _ _ _ Hv Hq Hr) as H.
  destruct (inv_start _ _ _ _ _ H) as [[Hs0 _] _].
  pose proof (inv_bound _ _ _ _ _ H) as Hb.
  rewrite max_arrival_table_of, total_burst_table_of in Hb.
  assert (0 ≤ sumZ (map remaining (procs st))); [|lia].
  apply sumZ_nonneg. intros r (x & -> & Hx)%list_elem_of_fmap.
  apply list_elem_of_lookup in Hx as (i & Hx).
  by destruct (inv_proc _ _ _ _ _ H i x Hx) as [_ _ [? _] _ _ _ _ _ _].
Qed.

Lemma rr_no_overflow recs quantum st :
  valid_records recs → 0 < quantum →
  latest_arrival recs + sum_bursts recs ≤ INT_MAX →
  reach quantum (table_of recs) st →
  0 ≤ clock st ≤ INT_MAX ∧
  ∀ x, x ∈ procs st → 0 ≤ remaining x ≤ burst x ∧ -1 ≤ completion x ≤ clock st.
Proof.
  intros Hv Hq Hfit Hr. pose proof (rr_clock_bound _ _ _ Hv Hq Hr) as Hc.
  split; [lia|]. intros x (i & Hx)%list_elem_of_lookup.
  pose proof (reach_head_inv _ _ _ Hv Hq Hr) as H.
  destruct (inv_proc _ _ _ _ _ H i x Hx) as [Ha Hb Hrem _ _ Hunf Hfin _ _].
  split; [done|]. destruct (decide (remaining x = 0)) as [Hz|Hnz].
  - assert (arrival x + burst x ≤ completion x ≤ clock st) by (apply Hfin; done).
    lia.
  - rewrite Hunf by lia. lia.
Qed.

(** More fuel does not change the outcome of a loop that returned. *)
Lemma rr_loop_fuel fuel fuel' quantum st st' :
  rr_loop fuel quantum st = Finished st' → (fuel ≤ fuel')%nat →
  rr_loop fuel' quantum st = Finished st'.
Proof.
  revert fuel' st. induction fuel as [|f IH]; intros fuel' st Hr Hle.
  - simpl in Hr. destruct (all_done (procs st)) eqn:E; [|done].
    destruct fuel'; simpl; by rewrite E.
  - destruct fuel' as [|f']; [lia|]. simpl in *.
    destruct (all_done (procs st)); [done|].
    destruct (rr_iter quantum st); [|done..]. apply IH; [done|lia].
Qed.

Lemma rr_simulate_fuel fuel fuel' quantum p st st' :
  simulate fuel quantum p = Finished st → simulate fuel' quantum p = Finished st' →
  st = st'.
Proof.
  unfold simulate. destruct (rr_init p) as [st0|]; [|done]. intros H1 H2.
  destruct (Nat.le_ge_cases fuel fuel') as [Hle|Hle].
  - rewrite (rr_loop_fuel _ _ _ _ _ H1 Hle) in H2. by simplify_eq.
  - rewrite (rr_loop_fuel _ _ _ _ _ H2 Hle) in H1. by simplify_eq.
Qed.

(** ** Input validation *)

Lemma rr_read_processes_complete recs rest :
  (∀ a b c, (a, b, c) ∈ recs → 0 ≤ b ∧ 0 < c) →
  read_processes (length recs) (tokens_of recs ++ rest) = Some (table_of recs).
Proof.
  induction recs as [|[[a b] c] r IH]; intros Hv; [done|].
  change (tokens_of ((a, b, c) :: r) ++ rest)
    with (Int a :: Int b :: Int c :: (tokens_of r ++ rest)).
  change (length ((a, b, c) :: r)) with (S (length r)).
  cbn [read_processes scan_int3].
  assert ((a, b, c) ∈ (a, b, c) :: r) as Hin by left.
  destruct (Hv a b c Hin) as [Hb Hc].
  destruct (Z.ltb_spec b 0); [lia|]. destruct (Z.leb_spec c 0); [lia|]. simpl.
  rewrite IH; [done|].
  intros a' b' c' H'. apply (Hv a' b' c'). by right.
Qed.

Lemma rr_read_processes_sound n inp p :
  read_processes n inp = Some p →
  ∃ recs rest, inp = tokens_of recs ++ rest ∧ length recs = n ∧
               (∀ a b c, (a, b, c) ∈ recs → 0 ≤ b ∧ 0 < c) ∧ p = table_of recs.
Proof.
  revert inp p. induction n as [|n IH]; intros inp p Hr; simpl in Hr.
  - simplify_eq. exists [], inp. split_and!; [done..| |done].
    by intros a b c ?%elem_of_nil.
  - destruct inp as [|[a|] [|[b|] [|[c|] r]]]; try done. simpl in Hr.
    destruct (Z.ltb_spec b 0); [done|]. destruct (Z.leb_spec c 0); [done|].
    simpl in Hr. destruct (read_processes n r) as [l|] eqn:E; [|done].
    simplify_eq. destruct (IH _ _ E) as (recs & rest & -> & <- & Hv & ->).
    exists ((a, b, c) :: recs), rest. split_and!; [done..| |done].
    intros a' b' c' [H'|H']%elem_of_cons; [simplify_eq; lia|by apply (Hv a')].
Qed.

(** [main] either rejects the input, which is then not valid, or runs the
    simulation on the table of a valid input. *)
Lemma rr_main_cases inp :
  (¬ valid_input inp ∧ ∀ fuel, main fuel inp = Finished (1, None)) ∨
  (valid_input inp ∧
   ∃ quantum recs, valid_records recs ∧ 0 < quantum ∧
     ∀ fuel, main fuel inp =
             match simulate fuel quantum (table_of recs) with
             | Finished st => Finished (0, Some (report st))
             | OutOfFuel => OutOfFuel
             | Undefined => Undefined
             end).
Proof.
  assert (∀ n quantum recs rest,
            inp = Int n :: Int quantum :: tokens_of recs ++ rest →
            length recs = Z.to_nat n →
            (∀ a b c, (a, b, c) ∈ recs → 0 ≤ b ∧ 0 < c) →
            read_processes (Z.to_nat n) (tokens_of recs ++ rest) = Some (table_of recs))
    as Hcomplete.
  { intros n quantum recs rest _ <- Hv. by apply rr_read_processes_complete. }
  unfold main. destruct inp as [|[n|] r1]; simpl.
  - left. split; [|done]. by intros (? & ? & ? & ? & ? & _).
  - destruct (Z.leb_spec n 0) as [Hn|Hn].
    { left. split; [|done]. intros (? & ? & ? & ? & ? & ? & _). simplify_eq. lia. }
    destruct r1 as [|[quantum|] r2]; simpl.
    + left. split; [|done]. by intros (? & ? & ? & ? & ? & _).
    + destruct (Z.leb_spec quantum 0) as [Hq|Hq].
      { left. split; [|done]. intros (? & ? & ? & ? & ? & ? & ? & _). simplify_eq. lia. }
      destruct (read_processes (Z.to_nat n) r2) as [p|] eqn:E.
      * destruct (rr_read_processes_sound _ _ _ E) as (recs & rest & -> & Hlen & Hv & ->).
        right. split.
        -- exists n, quantum, recs, rest. done.
        -- exists quantum, recs. split_and!; [|done|done].
           split; [|done]. intros ->. simpl in Hlen. lia.
      * left. split; [|done].
        intros (n' & q' & recs & rest & Heq & _ & _ & Hlen & Hv). simplify_eq.
        rewrite (Hcomplete n' q' recs rest eq_refl Hlen Hv) in E. done.
    + left. split; [|done]. by intros (? & ? & ? & ? & ? & _).
  - left. split; [|done]. by intros (? & ? & ? & ? & ? & _).
Qed.

(** ** Agreement of the two arithmetics

    On an input with [no_overflow] every time of the run stays in
    [0 .. INT_MAX], so [RRInt] computes what [RR] computes. *)

Lemma enqueue_arrivals_from_none i p q t :
  (∀ x, x ∈ p → arrives t x = false) → enqueue_arrivals_from i p q t = (p, q).
Proof.
  revert i. induction p as [|x r IH]; intros i H; simpl; [done|].
  fold (arrives t x). rewrite (H x) by left.
  rewrite IH; [done|]. intros y Hy. apply H. by right.
Qed.

Lemma inv_in_range p0 run start te st i x :
  inv p0 run start te st → max_arrival p0 + total_burst p0 ≤ INT_MAX →
  procs st !! i = Some x →
  0 ≤ clock st ∧ clock st + remaining x ≤ INT_MAX ∧ 0 ≤ remaining x ≤ INT_MAX.
Proof.
  intros H Hfit Hx.
  assert (∀ y, y ∈ procs st → 0 ≤ remaining y) as Hnn.
  { intros y (j & Hy)%list_elem_of_lookup.
    by destruct (inv_proc _ _ _ _ _ H j y Hy) as [_ _ [? _] _ _ _ _ _ _]. }
  pose proof (sumZ_elem_le remaining (procs st) x Hnn
                (list_elem_of_lookup_2 _ _ _ Hx)) as Hle.
  pose proof (inv_bound _ _ _ _ _ H) as Hb.
  destruct (inv_start _ _ _ _ _ H) as [[Hs0 Hs1] _].
  pose proof (Hnn x (list_elem_of_lookup_2 _ _ _ Hx)). lia.
Qed.

Lemma tick_agree p0 idx start st x :
  inv p0 (Some idx) start (clock st) st → max_arrival p0 + total_burst p0 ≤ INT_MAX →
  procs st !! idx = Some x → 0 < remaining x →
  RRInt.tick idx st = tick idx st.
Proof.
  intros H Hfit Hx Hpos.
  destruct (inv_in_range _ _ _ _ _ _ _ H Hfit Hx) as (Hc & Hcr & Hr).
  unfold RRInt.tick, tick.
  rewrite (wrap_id (clock st + 1)) by (unfold INT_MIN; lia).
  rewrite (alter_ext_at (λ y, set_remaining (wrap (remaining y - 1)) y)
                        (λ y, set_remaining (remaining y - 1) y) idx (procs st) x Hx);
    [done|].
  by rewrite wrap_id by (unfold INT_MIN; lia).
Qed.

Lemma run_slice_agree p0 count idx start st x :
  inv p0 (Some idx) start (clock st) st → max_arrival p0 + total_burst p0 ≤ INT_MAX →
  procs st !! idx = Some x → Z.of_nat count ≤ remaining x →
  RRInt.run_slice count idx st = run_slice count idx st.
Proof.
  intros H Hfit. revert st x H. induction count as [|c IH]; intros st x H Hx Hc; [done|].
  simpl. rewrite (tick_agree _ _ _ _ _ H Hfit Hx) by lia.
  destruct (inv_tick _ _ _ _ _ H Hx) as (H1 & Hx1 & _); [lia|].
  rewrite Hx1. destruct (remaining (mark (clock st + 1) (dec x)) =? 0); [done|].
  apply (IH _ _ H1 Hx1).
  destruct (mark_fields (clock st + 1) (dec x)) as (_ & _ & _ & -> & _). simpl. lia.
Qed.

Lemma rr_iter_agree p0 quantum st :
  0 < quantum → head_inv p0 st → max_arrival p0 + total_burst p0 ≤ INT_MAX →
  RRInt.rr_iter quantum st = rr_iter quantum st.
Proof.
  intros Hq H Hfit. unfold head_inv in H. unfold RRInt.rr_iter, rr_iter.
  destruct (q_list (queue st)) as [|idx l] eqn:Hl.
  - by rewrite (proj2 (q_empty_list _) Hl).
  - destruct (q_empty (queue st)); [done|].
    destruct (q_pop_spec _ _ _ (inv_wf _ _ _ _ _ H) Hl) as (q1 & Hpop & Hwf1 & Hl1).
    rewrite Hpop. destruct (procs st !! idx) as [pr|] eqn:Hpr; [|done].
    destruct (Z.leb_spec (remaining pr) 0) as [|Hpos]; [done|].
    pose proof (inv_pop _ _ _ _ _ _ H Hl Hwf1 Hl1) as H1.
    rewrite (run_slice_agree p0 _ idx (clock st)
               (mkState (procs st) (segs st) q1 (clock st)) pr H1 Hfit Hpr); [done|].
    destruct (Z.ltb_spec (remaining pr) quantum); lia.
Qed.

Lemma rr_loop_agree p0 quantum fuel st :
  0 < quantum → head_inv p0 st → max_arrival p0 + total_burst p0 ≤ INT_MAX →
  RRInt.rr_loop fuel quantum st = rr_loop fuel quantum st.
Proof.
  intros Hq H Hfit. revert st H. induction fuel as [|f IH]; intros st H; [done|].
  simpl. destruct (all_done (procs st)) eqn:E; [done|].
  rewrite (rr_iter_agree _ _ _ Hq H Hfit).
  destruct (rr_iter_progress _ _ _ Hq H E) as (st' & -> & H' & _).
  by apply IH.
Qed.

Lemma no_overflow_table recs :
  no_overflow recs → max_arrival (table_of recs) + total_burst (table_of recs) ≤ INT_MAX.
Proof. unfold no_overflow. by rewrite max_arrival_table_of, total_burst_table_of. Qed.

Lemma rr_simulate_agree recs quantum fuel :
  valid_records recs → no_overflow recs → 0 < quantum →
  RRInt.simulate fuel quantum (table_of recs) = simulate fuel quantum (table_of recs).
Proof.
  intros Hv Hfit Hq. unfold RRInt.simulate, simulate.
  destruct (rr_init_inv recs Hv) as (st0 & -> & H0).
  apply (rr_loop_agree _ _ _ _ Hq H0), no_overflow_table, Hfit.
Qed.

Lemma rr_reach_agree recs quantum st :
  valid_records recs → no_overflow recs → 0 < quantum →
  RRInt.reach quantum (table_of recs) st ↔ reach quantum (table_of recs) st.
Proof.
  intros Hv Hfit Hq. pose proof (no_overflow_table _ Hfit) as Hfit'. split.
  - induction 1 as [st Hi|st st' _ IH Hnd Hit]; [by apply reach_init|].
    eapply reach_step; [done..|].
    by rewrite <- (rr_iter_agree _ _ _ Hq (reach_head_inv _ _ _ Hv Hq IH) Hfit').
  - induction 1 as [st Hi|st st' Hr IH Hnd Hit]; [by apply RRInt.reach_init|].
    eapply RRInt.reach_step; [done..|].
    by rewrite (rr_iter_agree _ _ _ Hq (reach_head_inv _ _ _ Hv Hq Hr) Hfit').
Qed.

Lemma rr_report_agree p0 st :
  head_inv p0 st → all_done (procs st) = true →
  max_arrival p0 + total_burst p0 ≤ INT_MAX →
  RRInt.report st = report st.
Proof.
  intros H Hd Hfit.
  assert (RRInt.compute_metrics (procs st) = compute_metrics (procs st)) as Hcm.
  { unfold RRInt.compute_metrics, compute_metrics. apply map_ext_in.
    intros x Hx%list_elem_of_In.
    destruct (proj1 (head_inv_final _ _ H Hd) x Hx) as (_ & Ha & Hb & Hc1 & Hc2).
    pose proof Hx as Hx'. apply list_elem_of_lookup in Hx' as (i & Hi).
    destruct (inv_in_range _ _ _ _ _ _ _ H Hfit Hi) as (_ & Hcr & _).
    pose proof (inv_bound _ _ _ _ _ H) as Hbd.
    assert (0 ≤ sumZ (map remaining (procs st))).
    { apply sumZ_nonneg. intros r (y & -> & Hy)%list_elem_of_fmap.
      apply list_elem_of_lookup in Hy as (j & Hy).
      by destruct (inv_proc _ _ _ _ _ H j y Hy) as [_ _ [? _] _ _ _ _ _ _]. }
    unfold RRInt.set_metrics, set_metrics. cbv zeta.
    rewrite (wrap_id (completion x - arrival x)) by (unfold INT_MIN; lia).
    by rewrite wrap_id by (unfold INT_MIN; lia). }
  unfold RRInt.report, report. cbv zeta. by rewrite Hcm.
Qed.

(** A loop head of the [int] program on an input with [no_overflow] is a
    loop head of [RR], with its invariant, and the pass from it is the same. *)
Lemma rr_int_head recs quantum st :
  valid_records recs → no_overflow recs → 0 < quantum →
  RRInt.reach quantum (table_of recs) st →
  reach quantum (table_of recs) st ∧ head_inv (table_of recs) st ∧
  RRInt.rr_iter quantum st = rr_iter quantum st.
Proof.
  intros Hv Hfit Hq Hr. apply (rr_reach_agree _ _ _ Hv Hfit Hq) in Hr.
  pose proof (reach_head_inv _ _ _ Hv Hq Hr) as H. split_and!; [done..|].
  apply (rr_iter_agree _ _ _ Hq H), no_overflow_table, Hfit.
Qed.

(** What a run of the [int] program that returned has reached. *)
Lemma rr_int_simulate_finished recs quantum fuel st :
  valid_records recs → no_overflow recs → 0 < quantum →
  RRInt.simulate fuel quantum (table_of recs) = Finished st →
  head_inv (table_of recs) st ∧ all_done (procs st) = true ∧
  RRInt.report st = report st.
Proof.
  intros Hv Hfit Hq Hs. rewrite (rr_simulate_agree _ _ _ Hv Hfit Hq) in Hs.
  destruct (rr_simulate_finished _ _ _ _ Hv Hq Hs) as [H Hd]. split_and!; [done..|].
  apply (rr_report_agree _ _ H Hd), no_overflow_table, Hfit.
Qed.

(** ** Runs of the [int] program *)

(** A tick when every record has entered the queue. *)
Lemma tick_int_no_arrival idx st :
  (∀ y, y ∈ procs st → enqueued y = true) →
  RRInt.tick idx st
  = mkState (alter (λ y, set_remaining (wrap (remaining y - 1)) y) idx (procs st))
            (segs st) (queue st) (wrap (clock st + 1)).
Proof.
  intros Hall. unfold RRInt.tick, enqueue_arrivals.
  rewrite enqueue_arrivals_from_none; [done|].
  intros y (j & Hy)%list_elem_of_lookup. unfold arrives.
  destruct (decide (j = idx)) as [->|Hne].
  - rewrite list_lookup_alter_eq in Hy.
    destruct (procs st !! idx) as [z|] eqn:Hz; [|done]. simpl in Hy.
    injection Hy as <-. simpl. rewrite (Hall z); [done|].
    by eapply list_elem_of_lookup_2.
  - rewrite list_lookup_alter_ne in Hy by done.
    rewrite (Hall y); [done|]. by eapply list_elem_of_lookup_2.
Qed.

Lemma run_slice_int_no_arrival n idx st x :
  (∀ y, y ∈ procs st → enqueued y = true) →
  procs st !! idx = Some x → 0 < Z.of_nat n ≤ remaining x → remaining x ≤ INT_MAX →
  RRInt.run_slice n idx st
  = mkState (alter (set_remaining (remaining x - Z.of_nat n)) idx (procs st))
            (segs st) (queue st) (wrap (clock st + Z.of_nat n)).
Proof.
  revert st x. induction n as [|c IH]; intros st x Hall Hx Hn Hmax; [lia|].
  cbn [RRInt.run_slice]. rewrite (tick_int_no_arrival idx st Hall).
  rewrite (alter_ext_at (λ y, set_remaining (wrap (remaining y - 1)) y)
             (set_remaining (remaining x - 1)) idx (procs st) x Hx)
    by (by rewrite wrap_id by (unfold INT_MIN, INT_MAX in *; lia)).
  cbn [procs]. rewrite list_lookup_alter_eq, Hx.
  cbn [fmap option_fmap option_map remaining set_remaining].
  destruct (Z.eqb_spec (remaining x - 1) 0) as [Hz|Hnz].
  - assert (c = 0%nat) as -> by lia.
    by replace (remaining x - Z.of_nat 1) with (remaining x - 1) by lia.
  - destruct c as [|c].
    + by replace (remaining x - Z.of_nat 1) with (remaining x - 1) by lia.
    + set (st1 := mkState _ _ _ _).
      assert (procs st1 !! idx = Some (set_remaining (remaining x - 1) x)) as Hx1.
      { unfold st1. cbn [procs]. by rewrite list_lookup_alter_eq, Hx. }
      assert (∀ y, y ∈ procs st1 → enqueued y = true) as Hall1.
      { intros y (j & Hy)%list_elem_of_lookup. unfold st1 in Hy. cbn [procs] in Hy.
        destruct (decide (j = idx)) as [->|Hne].
        - rewrite list_lookup_alter_eq, Hx in Hy. simpl in Hy. injection Hy as <-.
          simpl. apply Hall. by eapply list_elem_of_lookup_2.
        - rewrite list_lookup_alter_ne in Hy by done. apply Hall.
          by eapply list_elem_of_lookup_2. }
      rewrite (IH st1 _ Hall1 Hx1); [| simpl; lia | simpl; lia].
      unfold st1. cbn [procs segs queue clock set_remaining remaining].
      rewrite wrap_add_l.
      replace (clock st + 1 + Z.of_nat (S c)) with (clock st + Z.of_nat (S (S c))) by lia.
      f_equal. apply list_eq. intros j. destruct (decide (j = idx)) as [->|Hne].
      * rewrite !list_lookup_alter_eq, Hx. simpl. unfold set_remaining. simpl.
        do 2 f_equal. lia.
      * by rewrite !list_lookup_alter_ne.
Qed.

(** The dispatch branch of a pass, given the state at the end of the slice. *)
Lemma rr_iter_int_dispatch quantum st idx q1 pr st2 pr2 :
  q_empty (queue st) = false → q_pop (queue st) = Some (idx, q1) →
  procs st !! idx = Some pr → 0 < remaining pr →
  RRInt.run_slice (Z.to_nat (Z.min (remaining pr) quantum)) idx
                  (mkState (procs st) (segs st) q1 (clock st)) = st2 →
  procs st2 !! idx = Some pr2 →
  RRInt.rr_iter quantum st
  = Continue (if remaining pr2 =? 0
              then mkState (alter (set_completion (clock st2)) idx (procs st2))
                           (add_segment (segs st2) (pid pr2) (clock st) (clock st2))
                           (queue st2) (clock st2)
              else mkState (procs st2)
                           (add_segment (segs st2) (pid pr2) (clock st) (clock st2))
                           (q_push (queue st2) idx) (clock st2)).
Proof.
  intros He Hp Hpr Hpos Hs Hpr2. unfold RRInt.rr_iter. rewrite He, Hp, Hpr.
  destruct (Z.leb_spec (remaining pr) 0) as [|_]; [lia|]. cbv zeta.
  replace (if remaining pr <? quantum then remaining pr else quantum)
    with (Z.min (remaining pr) quantum)
    by (destruct (Z.ltb_spec (remaining pr) quantum); lia).
  rewrite Hs, Hpr2. by destruct (remaining pr2 =? 0).
Qed.

Lemma rr_loop_int_step fuel quantum st st' :
  all_done (procs st) = false → RRInt.rr_iter quantum st = Continue st' →
  RRInt.rr_loop (S fuel) quantum st = RRInt.rr_loop fuel quantum st'.
Proof. intros Hd Hi. simpl. by rewrite Hd, Hi. Qed.

Lemma rr_loop_int_done fuel quantum st :
  all_done (procs st) = true → RRInt.rr_loop fuel quantum st = Finished st.
Proof. intros Hd. destruct fuel; simpl; by rewrite Hd. Qed.

Lemma rr_main_int_valid fuel n quantum recs rest :
  0 < n → 0 < quantum → length recs = Z.to_nat n →
  (∀ a b c, (a, b, c) ∈ recs → 0 ≤ b ∧ 0 < c) →
  RRInt.main fuel (Int n :: Int quantum :: tokens_of recs ++ rest)
  = match RRInt.simulate fuel quantum (table_of recs) with
    | Finished st => Finished (0, Some (RRInt.report st))
    | OutOfFuel => OutOfFuel
    | Undefined => Undefined
    end.
Proof.
  intros Hn Hq Hlen Hv. unfold RRInt.main. cbn [scan_int].
  destruct (Z.leb_spec n 0); [lia|]. destruct (Z.leb_spec quantum 0); [lia|].
  by rewrite <- Hlen, rr_read_processes_complete.
Qed.

Lemma rr_main_valid fuel n quantum recs rest :
  0 < n → 0 < quantum → length recs = Z.to_nat n →
  (∀ a b c, (a, b, c) ∈ recs → 0 ≤ b ∧ 0 < c) →
  main fuel (Int n :: Int quantum :: tokens_of recs ++ rest)
  = match simulate fuel quantum (table_of recs) with
    | Finished st => Finished (0, Some (report st))
    | OutOfFuel => OutOfFuel
    | Undefined => Undefined
    end.
Proof.
  intros Hn Hq Hlen Hv. unfold main. cbn [scan_int].
  destruct (Z.leb_spec n 0); [lia|]. destruct (Z.leb_spec quantum 0); [lia|].
  by rewrite <- Hlen, rr_read_processes_complete.
Qed.

(** On a valid input with [no_overflow] the two programs print the same. *)
Lemma rr_main_agree fuel n quantum recs rest :
  0 < n → 0 < quantum → length recs = Z.to_nat n →
  valid_records recs → no_overflow recs →
  RRInt.main fuel (Int n :: Int quantum :: tokens_of recs ++ rest)
  = main fuel (Int n :: Int quantum :: tokens_of recs ++ rest).
Proof.
  intros Hn Hq Hlen Hv Hfit.
  rewrite rr_main_int_valid, rr_main_valid by (done || apply Hv).
  destruct (RRInt.simulate fuel quantum (table_of recs)) as [st| |] eqn:E;
    rewrite (rr_simulate_agree _ _ _ Hv Hfit Hq) in E; rewrite E; [|done..].
  by destruct (rr_int_simulate_finished recs quantum fuel st Hv Hfit Hq
                 ltac:(by rewrite (rr_simulate_agree _ _ _ Hv Hfit Hq)))
    as (_ & _ & ->).
Qed.

(** The run on [scenario_long] with quantum [INT_MAX]: the slice of P1 is
    [INT_MAX] units long and is not evaluated unit by unit. *)
Lemma long_init : rr_init (table_of scenario_long) = Some long_st0.
Proof. vm_compute. reflexivity. Qed.

Lemma long_pass1 : RRInt.rr_iter 2147483647 long_st0 = Continue long_st1.
Proof.
  rewrite (rr_iter_int_dispatch 2147483647 long_st0 0
             (mkQueue [0; 1; 0; 0]%nat 4 1 2 1)
             (mkProcess 1 0 2147483647 2147483647 (-1) 0 0 true)
             (mkState [mkProcess 1 0 2147483647 0 (-1) 0 0 true;
                       mkProcess 2 0 1 1 (-1) 0 0 true]
                      [] (mkQueue [0; 1; 0; 0]%nat 4 1 2 1) 2147483647)
             (mkProcess 1 0 2147483647 0 (-1) 0 0 true)).
  - reflexivity.
  - reflexivity.
  - reflexivity.
  - reflexivity.
  - simpl. lia.
  - remember (Z.to_nat (Z.min _ _)) as n eqn:Hn.
    assert (Z.of_nat n = 2147483647) as Hn' by (simpl in Hn; lia). clear Hn.
    rewrite (run_slice_int_no_arrival n 0 _
               (mkProcess 1 0 2147483647 2147483647 (-1) 0 0 true)).
    + cbn [procs segs queue clock remaining]. rewrite Hn'. reflexivity.
    + intros y Hy. cbn [procs] in Hy.
      repeat (apply elem_of_cons in Hy as [->|Hy]; [done|]). by apply elem_of_nil in Hy.
    + reflexivity.
    + cbn [remaining]. lia.
    + cbn [remaining]. unfold INT_MAX. lia.
  - reflexivity.
Qed.

Lemma long_pass2 : RRInt.rr_iter 2147483647 long_st1 = Continue long_st2.
Proof. vm_compute. reflexivity. Qed.

Lemma long_simulate :
  RRInt.simulate 2 2147483647 (table_of scenario_long) = Finished long_st2.
Proof.
  unfold RRInt.simulate. rewrite long_init.
  rewrite (rr_loop_int_step 1 _ long_st0 long_st1 eq_refl long_pass1).
  rewrite (rr_loop_int_step 0 _ long_st1 long_st2 eq_refl long_pass2).
  by apply rr_loop_int_done.
Qed.

Lemma long_main :
  RRInt.main 2 scenario_long_input
  = Finished (0, Some (mkReport
      [mkSegment 1 0 2147483647; mkSegment 2 2147483647 (-2147483648)]
      [mkProcess 1 0 2147483647 0 2147483647 0 2147483647 true;
       mkProcess 2 0 1 0 (-2147483648) 2147483647 (-2147483648) true]
      2147483647 (-1) 2)).
Proof.
  change scenario_long_input
    with (Int 2 :: Int 2147483647 :: tokens_of scenario_long ++ []).
  rewrite rr_main_int_valid.
  - rewrite long_simulate. reflexivity.
  - lia.
  - lia.
  - reflexivity.
  - intros a b c H. unfold scenario_long in H.
    repeat (apply elem_of_cons in H as [H|H]; [injection H as -> -> ->; lia|]).
    by apply elem_of_nil in H.
Qed.

End RRFacts.

(** * Facts about sjf.c *)

Module SJFFacts.
Import SJF.

(** ** The selection scan *)

Lemma before_trans x y z : before x y → before y z → before x z.
Proof. unfold before. lia. Qed.

Lemma before_not_before x y z : before x y → ¬ before z y → before x z.
Proof. unfold before. lia. Qed.

Lemma before_irrefl x : ¬ before x x.
Proof. unfold before. lia. Qed.

Lemma pick_from_spec i rest t pick best_rem :
  scan_ok i t pick best_rem →
  match pick_from i rest t pick best_rem with
  | None =>
      pick = None ∧
      ∀ j y, rest !! j = Some y → eligible t y → INT_MAX ≤ remaining y
  | Some (k', x) =>
      eligible t x ∧ remaining x < INT_MAX ∧
      (pick = Some (k', x) ∨ ∃ j, k' = (i + j)%nat ∧ rest !! j = Some x) ∧
      (∀ k z, pick = Some (k, z) → (k', x) = (k, z) ∨ ((k < k')%nat ∧ before x z)) ∧
      (∀ j y, rest !! j = Some y → eligible t y →
              ((i + j < k')%nat → ¬ before y x) ∧
              ((k' < i + j)%nat → ¬ before y x) ∧
              ((i + j < k')%nat → before x y))
  end.
Proof.
  revert i pick best_rem.
  induction rest as [|x r IH]; intros i pick best_rem Hok; simpl.
  - destruct pick as [[k z]|]; [|done].
    destruct Hok as (_ & _ & He & Hlt). split_and!; [done|done|by left| |done].
    intros ? ? [= <- <-]. by left.
  - assert (∀ j y, (x :: r) !! j = Some y →
                   (j = 0%nat ∧ y = x) ∨ ∃ j', j = S j' ∧ r !! j' = Some y) as Hcase.
    { intros [|j] y Hy; simpl in Hy; [left; by simplify_eq|right; by exists j]. }
    assert ((arrival x <=? t) && (0 <? remaining x) = true ↔ eligible t x) as Hel.
    { unfold eligible. rewrite andb_true_iff, Z.leb_le, Z.ltb_lt. done. }
    destruct ((arrival x <=? t) && (0 <? remaining x)) eqn:E.
    + apply proj1 in Hel. specialize (Hel eq_refl).
      destruct (Z.ltb_spec (remaining x) best_rem) as [Hlt|Hge].
      * (* strictly shorter: x becomes the pick *)
        assert (remaining x < INT_MAX) as Hx.
        { destruct pick as [[k z]|]; simpl in Hok; lia. }
        specialize (IH (S i) (Some (i, x)) (remaining x)).
        destruct (pick_from (S i) r t (Some (i, x)) (remaining x)) as [[k' x']|].
        -- destruct IH as (He' & Hlt' & Hsrc & Hrel & Hall).
           { simpl. split_and!; [done|lia|done|done]. }
           assert ((i ≤ k')%nat) as Hik.
           { destruct Hsrc as [[= <- <-]|(j & -> & _)]; lia. }
           destruct (Hrel i x eq_refl) as [[= -> ->]|[Hik' Hb]].
           ++ split_and!; [done|done|right; exists 0%nat; by rewrite Nat.add_0_r| |].
              ** intros k z ->. right. destruct Hok as (-> & ? & _). split; [lia|].
                 unfold before. lia.
              ** intros j y Hy Hey. destruct (Hcase j y Hy) as [[-> ->]|(j' & -> & Hy')].
                 --- split_and!; [lia|lia|lia].
                 --- destruct (Hall j' y Hy' Hey) as (H1 & H2 & H3).
                     split_and!; intros; [lia|apply H2; lia|lia].
           ++ split_and!; [done|done| | |].
              ** right. destruct Hsrc as [[= <- <-]|(j & -> & Hj)]; [lia|].
                 exists (S j). split; [lia|done].
              ** intros k z ->. right. destruct Hok as (-> & ? & _). split; [lia|].
                 eapply before_trans; [exact Hb|]. unfold before. lia.
              ** intros j y Hy Hey. destruct (Hcase j y Hy) as [[-> ->]|(j' & -> & Hy')].
                 --- split_and!; intros; [|lia|done].
                     intros Hc. apply (before_irrefl x'). by eapply before_trans.
                 --- destruct (Hall j' y Hy' Hey) as (H1 & H2 & H3).
                     split_and!; intros; [apply H1; lia|apply H2; lia|apply H3; lia].
        -- destruct IH as [? _]; [|done]. simpl. split_and!; [done|lia|done|done].
      * destruct pick as [[k z]|].
        -- destruct Hok as (-> & Hk & Hez & Hz).
           destruct ((remaining x =? remaining z)
                     && ((arrival x <? arrival z)
                         || ((arrival x =? arrival z) && (pid x <? pid z)))) eqn:E2.
           ++ (* tie won by x *)
              assert (before x z) as Hxz.
              { apply andb_true_iff in E2 as [E2 E3]. apply Z.eqb_eq in E2.
                apply orb_true_iff in E3 as [E3|E3].
                - apply Z.ltb_lt in E3. unfold before. lia.
                - apply andb_true_iff in E3 as [E3 E4].
                  apply Z.eqb_eq in E3. apply Z.ltb_lt in E4. unfold before. lia. }
              assert (remaining x = remaining z) as Hrem.
              { apply andb_true_iff in E2 as [E2 _]. by apply Z.eqb_eq in E2. }
              specialize (IH (S i) (Some (i, x)) (remaining z)).
              destruct (pick_from (S i) r t (Some (i, x)) (remaining z)) as [[k' x']|].
              ** destruct IH as (He' & Hlt' & Hsrc & Hrel & Hall).
                 { simpl. split_and!; [done|lia|done|lia]. }
                 destruct (Hrel i x eq_refl) as [[= -> ->]|[Hik' Hb]].
                 --- split_and!; [done|done|right; exists 0%nat; by rewrite Nat.add_0_r| |].
                     +++ intros ? ? [= <- <-]. right. split; [lia|done].
                     +++ intros j y Hy Hey.
                         destruct (Hcase j y Hy) as [[-> ->]|(j' & -> & Hy')].
                         *** split_and!; [lia|lia|lia].
                         *** destruct (Hall j' y Hy' Hey) as (H1 & H2 & H3).
                             split_and!; intros; [lia|apply H2; lia|lia].
                 --- split_and!; [done|done| | |].
                     +++ right. destruct Hsrc as [[= <- <-]|(j & -> & Hj)]; [lia|].
                         exists (S j). split; [lia|done].
                     +++ intros ? ? [= <- <-]. right. split; [lia|].
                         by eapply before_trans.
                     +++ intros j y Hy Hey.
                         destruct (Hcase j y Hy) as [[-> ->]|(j' & -> & Hy')].
                         *** split_and!; intros; [|lia|done].
                             intros Hc. apply (before_irrefl x'). by eapply before_trans.
                         *** destruct (Hall j' y Hy' Hey) as (H1 & H2 & H3).
                             split_and!; intros;
                               [apply H1; lia|apply H2; lia|apply H3; lia].
              ** destruct IH as [? _]; [|done]. simpl. split_and!; [done|lia|done|lia].
           ++ (* the pick stays *)
              assert (¬ before x z) as Hxz.
              { unfold before. intros [H|(H1 & H2)]; [lia|].
                rewrite (proj2 (Z.eqb_eq _ _) H1) in E2. simpl in E2.
                apply orb_false_iff in E2 as [E3 E4]. apply Z.ltb_ge in E3.
                destruct H2 as [H2|[H2 H3]]; [lia|].
                rewrite (proj2 (Z.eqb_eq _ _) H2) in E4. simpl in E4.
                apply Z.ltb_ge in E4. lia. }
              specialize (IH (S i) (Some (k, z)) (remaining z)).
              destruct (pick_from (S i) r t (Some (k, z)) (remaining z)) as [[k' x']|].
              ** destruct IH as (He' & Hlt' & Hsrc & Hrel & Hall).
                 { simpl. split_and!; [done|lia|done|lia]. }
                 destruct (Hrel k z eq_refl) as [[= -> ->]|[Hkk' Hb]].
                 --- split_and!; [done|done|by left| |].
                     +++ intros ? ? [= <- <-]. by left.
                     +++ intros j y Hy Hey.
                         destruct (Hcase j y Hy) as [[-> ->]|(j' & -> & Hy')].
                         *** split_and!; intros; [lia|done|lia].
                         *** destruct (Hall j' y Hy' Hey) as (H1 & H2 & H3).
                             split_and!; intros; [lia|apply H2; lia|lia].
                 --- assert (S i ≤ k')%nat as Hik.
                     { destruct Hsrc as [[= <- <-]|(j & -> & _)]; lia. }
                     split_and!; [done|done| | |].
                     +++ right. destruct Hsrc as [[= <- <-]|(j & -> & Hj)]; [lia|].
                         exists (S j). split; [lia|done].
                     +++ intros ? ? [= <- <-]. right. done.
                     +++ intros j y Hy Hey.
                         destruct (Hcase j y Hy) as [[-> ->]|(j' & -> & Hy')].
                         *** assert (before x' x) by (by eapply before_not_before).
                             split_and!; intros; [|lia|done].
                             intros Hc. apply (before_irrefl x'). by eapply before_trans.
                         *** destruct (Hall j' y Hy' Hey) as (H1 & H2 & H3).
                             split_and!; intros;
                               [apply H1; lia|apply H2; lia|apply H3; lia].
              ** destruct IH as [? _]; [|done]. simpl. split_and!; [done|lia|done|lia].
        -- (* nothing picked and x is not below INT_MAX *)
           simpl in Hok. subst best_rem.
           specialize (IH (S i) None INT_MAX eq_refl).
           destruct (pick_from (S i) r t None INT_MAX) as [[k' x']|].
           ++ destruct IH as (He' & Hlt' & Hsrc & Hrel & Hall).
              destruct Hsrc as [?|(j0 & -> & Hj0)]; [done|].
              split_and!; [done|done| |done|].
              ** right. exists (S j0). split; [lia|done].
              ** intros j y Hy Hey.
                 destruct (Hcase j y Hy) as [[-> ->]|(j' & -> & Hy')].
                 --- split_and!; intros; [unfold before; lia|lia|unfold before; lia].
                 --- destruct (Hall j' y Hy' Hey) as (H1 & H2 & H3).
                     split_and!; intros;
                       [apply H1; lia|apply H2; lia|apply H3; lia].
           ++ destruct IH as [_ Hall]. split; [done|].
              intros j y Hy Hey. destruct (Hcase j y Hy) as [[-> ->]|(j' & -> & Hy')];
                [done|by eapply Hall].
    + assert (¬ eligible t x) as Hne by (rewrite <- Hel; done).
      specialize (IH (S i) pick best_rem).
      destruct (pick_from (S i) r t pick best_rem) as [[k' x']|].
      * destruct IH as (He' & Hlt' & Hsrc & Hrel & Hall).
        { destruct pick as [[k z]|]; [|done]. simpl in *. split_and!; try tauto. lia. }
        split_and!; [done|done| |done|].
        -- destruct Hsrc as [?|(j & -> & Hj)]; [by left|].
           right. exists (S j). split; [lia|done].
        -- intros j y Hy Hey. destruct (Hcase j y Hy) as [[-> ->]|(j' & -> & Hy')]; [done|].
           destruct (Hall j' y Hy' Hey) as (H1 & H2 & H3).
           split_and!; intros; [apply H1; lia|apply H2; lia|apply H3; lia].
      * destruct IH as [? Hall].
        { destruct pick as [[k z]|]; [|done]. simpl in *. split_and!; try tauto. lia. }
        split; [done|].
        intros j y Hy Hey. destruct (Hcase j y Hy) as [[-> ->]|(j' & -> & Hy')];
          [done|by eapply Hall].
Qed.

Lemma select_spec p t i x :
  select p t = Some (i, x) →
  p !! i = Some x ∧ eligible t x ∧ remaining x < INT_MAX ∧
  ∀ j y, p !! j = Some y → eligible t y →
         ¬ before y x ∧ ((j < i)%nat → before x y).
Proof.
  intros Hs. pose proof (pick_from_spec 0 p t None INT_MAX eq_refl) as H.
  fold (select p t) in H. rewrite Hs in H.
  destruct H as (He & Hlt & Hsrc & _ & Hall).
  destruct Hsrc as [?|(j0 & -> & Hj0)]; [done|]. simpl.
  split_and!; [done..|].
  intros j y Hy Hey. destruct (Hall j y Hy Hey) as (H1 & H2 & H3). simpl in *.
  split; [|done].
  destruct (Nat.lt_trichotomy j j0) as [?|[->|?]]; [by apply H1| |by apply H2].
  simplify_eq. apply before_irrefl.
Qed.

Lemma select_none p t :
  select p t = None →
  ∀ j y, p !! j = Some y → eligible t y → INT_MAX ≤ remaining y.
Proof.
  intros Hs. pose proof (pick_from_spec 0 p t None INT_MAX eq_refl) as H.
  fold (select p t) in H. rewrite Hs in H. by destruct H.
Qed.

(** ** [next_arr] of the idle branch *)

(** The scan selects a record as soon as an arrived, unfinished record has a
    remaining time below [INT_MAX]. *)
Lemma select_some p t :
  (∃ j y, p !! j = Some y ∧ eligible t y ∧ remaining y < INT_MAX) →
  ∃ i x, select p t = Some (i, x).
Proof.
  intros (j & y & Hy & Hel & Hlt).
  destruct (select p t) as [[i x]|] eqn:E; [by exists i, x|].
  pose proof (select_none _ _ E j y Hy Hel). lia.
Qed.

Lemma sjf_next_arrival_from_spec acc t p :
  let r := foldl (λ next_arr x,
                    if (0 <? remaining x) && (t <? arrival x) && (arrival x <? next_arr)
                    then arrival x else next_arr) acc p in
  r ≤ acc ∧
  (r = acc ∨ ∃ x, x ∈ p ∧ not_arrived t x ∧ arrival x = r) ∧
  ∀ x, x ∈ p → not_arrived t x → r ≤ arrival x.
Proof.
  revert acc. induction p as [|y p IH]; intros acc; simpl.
  - split_and!; [lia|by left|by intros x ?%elem_of_nil].
  - assert ((0 <? remaining y) && (t <? arrival y) = true ↔ not_arrived t y) as Hw.
    { unfold not_arrived. rewrite andb_true_iff, !Z.ltb_lt. done. }
    destruct ((0 <? remaining y) && (t <? arrival y)) eqn:E; simpl.
    + apply proj1 in Hw. specialize (Hw eq_refl).
      destruct (Z.ltb_spec (arrival y) acc) as [Hlt|Hge].
      * destruct (IH (arrival y)) as (H1 & H2 & H3). split_and!; [lia| |].
        -- right. destruct H2 as [->|(x & Hx & Hwx & Hax)].
           ++ exists y. split; [left|done].
           ++ exists x. split; [by right|done].
        -- intros x [->|Hx]%elem_of_cons Hwx; [done|by apply H3].
      * destruct (IH acc) as (H1 & H2 & H3). split_and!; [done| |].
        -- destruct H2 as [->|(x & Hx & Hwx & Hax)]; [by left|].
           right. exists x. split; [by right|done].
        -- intros x [->|Hx]%elem_of_cons Hwx; [lia|by apply H3].
    + assert (¬ not_arrived t y) as Hnw by (rewrite <- Hw; done).
      destruct (IH acc) as (H1 & H2 & H3). split_and!; [done| |].
      * destruct H2 as [->|(x & Hx & Hwx & Hax)]; [by left|].
        right. exists x. split; [by right|done].
      * intros x [->|Hx]%elem_of_cons Hwx; [done|by apply H3].
Qed.

Lemma sjf_next_arrival_spec p t :
  next_arrival p t ≤ INT_MAX ∧
  (next_arrival p t ≠ INT_MAX →
   ∃ x, x ∈ p ∧ not_arrived t x ∧ arrival x = next_arrival p t) ∧
  ∀ x, x ∈ p → not_arrived t x → next_arrival p t ≤ arrival x.
Proof.
  destruct (sjf_next_arrival_from_spec INT_MAX t p) as (H1 & H2 & H3).
  fold (next_arrival p t) in H1, H2, H3. split_and!; [done| |done].
  intros Hne. by destruct H2.
Qed.

(** ** Fields untouched by the updates *)

Lemma sjf_all_done_true p : all_done p = true ↔ ∀ x, x ∈ p → remaining x ≤ 0.
Proof.
  unfold all_done. rewrite forallb_forall. split.
  - intros H x Hx. apply list_elem_of_In in Hx. specialize (H x Hx).
    destruct (Z.ltb_spec 0 (remaining x)); [done|lia].
  - intros H x Hx. apply list_elem_of_In in Hx. specialize (H x Hx).
    destruct (Z.ltb_spec 0 (remaining x)); [lia|done].
Qed.

Lemma sjf_all_done_false p : all_done p = false ↔ ∃ x, x ∈ p ∧ 0 < remaining x.
Proof.
  split.
  - intros H. induction p as [|y p IH]; [done|]. simpl in H.
    destruct (Z.ltb_spec 0 (remaining y)).
    + exists y. split; [left|done].
    + simpl in H. destruct (IH H) as (x & Hx & Hr). exists x. split; [by right|done].
  - intros (x & Hx & Hr). destruct (all_done p) eqn:E; [|done].
    pose proof (proj1 (sjf_all_done_true p) E x Hx). lia.
Qed.

Lemma pending_mono t t' p : t ≤ t' → (pending t' p ≤ pending t p)%nat.
Proof.
  intros Hle. unfold pending. induction p as [|y p IH]; [done|].
  rewrite !filter_cons. repeat case_decide; simpl; lia.
Qed.

Lemma pending_alter_dec t i p : (pending t (alter dec i p) ≤ pending t p)%nat.
Proof.
  unfold pending. revert i. induction p as [|y p IH]; intros i; [done|].
  destruct i as [|i].
  - simpl. rewrite !filter_cons. simpl. repeat case_decide; simpl; lia.
  - change (alter dec (S i) (y :: p)) with (y :: alter dec i p).
    rewrite !filter_cons. specialize (IH i). case_decide; simpl; lia.
Qed.

Lemma pending_alter_same f t i p :
  (∀ x, remaining (f x) = remaining x ∧ arrival (f x) = arrival x) →
  pending t (alter f i p) = pending t p.
Proof.
  intros Hf. unfold pending. revert i. induction p as [|y p IH]; intros i; [done|].
  destruct i as [|i].
  - simpl. rewrite !filter_cons. destruct (Hf y) as [Hr Ha].
    destruct (decide (0 < remaining y ∧ t < arrival y)) as [E|E].
    + rewrite decide_True by (by rewrite Hr, Ha). done.
    + rewrite decide_False by (by rewrite Hr, Ha). done.
  - change (alter f (S i) (y :: p)) with (y :: alter f i p).
    rewrite !filter_cons. specialize (IH i). case_decide; simpl; by rewrite IH.
Qed.

Lemma pending_strict t t' p x :
  t ≤ t' → x ∈ p → not_arrived t x → arrival x ≤ t' →
  (pending t' p < pending t p)%nat.
Proof.
  intros Hle Hx Hw Ha. unfold pending. induction p as [|y p IH]; [by apply elem_of_nil in Hx|].
  rewrite !filter_cons. pose proof (pending_mono t t' p Hle) as Hm. unfold pending in Hm.
  apply elem_of_cons in Hx as [->|Hx].
  - rewrite (decide_True (P := 0 < remaining y ∧ t < arrival y)) by done.
    rewrite decide_False by lia. simpl. lia.
  - specialize (IH Hx). repeat case_decide; simpl; lia.
Qed.

Ltac sjf_inv_fields H :=
  destruct H as [inv_key inv_proc inv_clock inv_tiles inv_adjacent inv_busy inv_last
                 inv_bound].

(** ** The initial state *)

Lemma sjf_key_fields p p0 :
  map key p = map key p0 →
  map pid p = map pid p0 ∧ map arrival p = map arrival p0 ∧ map burst p = map burst p0.
Proof.
  intros H. split_and!.
  - apply (f_equal (map (λ k : Z * Z * Z, k.1.1))) in H. by rewrite !map_map in H.
  - apply (f_equal (map (λ k : Z * Z * Z, k.1.2))) in H. by rewrite !map_map in H.
  - apply (f_equal (map (λ k : Z * Z * Z, k.2))) in H. by rewrite !map_map in H.
Qed.

Lemma sjf_max_arrival_alt p : max_arrival p = foldr Z.max 0 (map arrival p).
Proof. unfold max_arrival. induction p as [|x p IH]; simpl; congruence. Qed.

Lemma sjf_max_arrival_ge p x : x ∈ p → arrival x ≤ max_arrival p.
Proof.
  unfold max_arrival. induction p as [|y p IH]; [by intros ?%elem_of_nil|].
  intros [->|Hx]%elem_of_cons; simpl; [lia|]. specialize (IH Hx). lia.
Qed.

Lemma sjf_max_arrival_nonneg p : 0 ≤ max_arrival p.
Proof. unfold max_arrival. induction p as [|y p IH]; simpl; lia. Qed.

Lemma sjf_key_bound p p0 :
  map key p = map key p0 →
  max_arrival p = max_arrival p0 ∧ total_burst p = total_burst p0.
Proof.
  intros (_ & Ha & Hb)%sjf_key_fields. rewrite !sjf_max_arrival_alt, Ha.
  unfold total_burst. by rewrite Hb.
Qed.

Lemma sjf_elem_of_table_of x recs :
  x ∈ table_of recs ↔ ∃ a b c, (a, b, c) ∈ recs ∧ x = mkProcess a b c c (-1) 0 0.
Proof.
  unfold table_of. rewrite list_elem_of_fmap. split.
  - intros ([[a b] c] & -> & Hr). by exists a, b, c.
  - intros (a & b & c & Hr & ->). by exists (a, b, c).
Qed.

Lemma sjf_init_inv recs :
  valid_records recs → inv (table_of recs) (sjf_init (table_of recs)).
Proof.
  intros [Hne Hval]. set (p0 := table_of recs).
  assert (∀ x, x ∈ p0 → 0 ≤ arrival x ∧ 0 < burst x ∧ remaining x = burst x ∧
                        completion x = -1) as Hp0.
  { intros x (a & b & c & Hr & ->)%sjf_elem_of_table_of. simpl.
    destruct (Hval a b c Hr). done. }
  constructor; simpl; try done.
  - intros i x Hx. apply list_elem_of_lookup_2 in Hx.
    destruct (Hp0 x Hx) as (Ha & Hb & Hr & Hc).
    constructor; try done; lia.
  - unfold work. rewrite sumZ_map_zero; [done|].
    intros x Hx. destruct (Hp0 x Hx) as (_ & _ & -> & _).
    destruct (pid x =? IDLE); lia.
  - intros Hd. destruct p0 as [|x r] eqn:E; [by destruct recs|].
    pose proof (proj1 (sjf_all_done_true _) Hd x ltac:(left)).
    destruct (Hp0 x ltac:(left)) as (_ & ? & ? & _). lia.
  - pose proof (sjf_max_arrival_nonneg p0).
    assert (sumZ (map remaining p0) = total_burst p0) as ->; [|lia].
    apply sumZ_map_ext. intros x Hx. by destruct (Hp0 x Hx) as (_ & _ & -> & _).
Qed.

(** ** One pass of the while loop *)

Lemma sjf_proc_inv_later t t' x : t ≤ t' → proc_inv t x → proc_inv t' x.
Proof.
  intros Hle [Harr Hbur Hrem Hran Hunf Hfin].
  constructor; try done.
  - intros H. specialize (Hran H). lia.
  - intros H. specialize (Hfin H). lia.
Qed.

(** The idle branch either jumps to an arrival or leaves the loop. *)
Lemma sjf_iter_idle p0 st :
  inv p0 st → all_done (procs st) = false → select (procs st) (clock st) = None →
  (next_arrival (procs st) (clock st) = INT_MAX ∧ sjf_iter st = Break st) ∨
  (∃ st', sjf_iter st = Continue st' ∧ inv p0 st' ∧ measure st' < measure st).
Proof.
  intros H Hnd Hsel. unfold sjf_iter. rewrite Hsel.
  destruct (Z.eqb_spec (next_arrival (procs st) (clock st)) INT_MAX) as [Heq|Hne];
    [by left|right].
  destruct (sjf_next_arrival_spec (procs st) (clock st)) as (Hle & Hex & Hmin).
  destruct (Hex Hne) as (x & Hx & Hwx & Hax).
  set (na := next_arrival (procs st) (clock st)) in *.
  assert (clock st < na) as Hlt by (destruct Hwx; lia).
  sjf_inv_fields H.
  eexists. split; [done|]. split.
  - constructor; simpl; try done.
    + intros i y Hy. eapply sjf_proc_inv_later; [|by eapply inv_proc]. lia.
    + lia.
    + apply add_segment_tiles; [done|lia].
    + by eapply add_segment_adjacent.
    + rewrite busy_time_add_segment. simpl. lia.
    + intros Hd. congruence.
    + destruct (sjf_key_bound _ _ inv_key) as [<- <-].
      pose proof (sjf_max_arrival_ge _ _ Hx).
      assert (sumZ (map remaining (procs st)) ≤ total_burst (procs st)); [|lia].
      apply sumZ_map_le. intros y (i & Hy)%list_elem_of_lookup.
      by destruct (inv_proc i y Hy) as [_ _ [_ ?] _ _ _].
  - unfold measure. simpl.
    pose proof (pending_strict (clock st) na (procs st) x ltac:(lia) Hx Hwx ltac:(lia)).
    lia.
Qed.

(** The selected record runs for one unit. *)
Lemma sjf_iter_run p0 st i x :
  inv p0 st → select (procs st) (clock st) = Some (i, x) →
  ∃ st', sjf_iter st = Continue st' ∧ inv p0 st' ∧ measure st' < measure st ∧
         clock st' = clock st + 1 ∧
         segs st' = add_segment (segs st) (pid x) (clock st) (clock st + 1) ∧
         ∃ x', procs st' !! i = Some x' ∧ remaining x' = remaining x - 1 ∧
               ∀ j, j ≠ i → procs st' !! j = procs st !! j.
Proof.
  intros H Hsel. destruct (select_spec _ _ _ _ Hsel) as (Hx & [Harr Hpos] & Hlt & _).
  sjf_inv_fields H.
  destruct (inv_proc i x Hx) as [Ha Hb Hrem Hran Hunf Hfin].
  unfold sjf_iter. rewrite Hsel. fold dec.
  rewrite list_lookup_alter_eq, Hx. simpl.
  assert (busy_time (add_segment (segs st) (pid x) (clock st) (clock st + 1))
          = work (alter dec i (procs st))) as Hbusy.
  { rewrite busy_time_add_segment. unfold work.
    rewrite (sumZ_map_alter _ _ _ _ _ Hx). fold (work (procs st)).
    rewrite inv_busy. simpl. destruct (pid x =? IDLE); lia. }
  assert (∀ j y, j ≠ i → alter dec i (procs st) !! j = Some y →
                 proc_inv (clock st + 1) y) as Hproc.
  { intros j y Hne Hy. rewrite list_lookup_alter_ne in Hy by done.
    eapply sjf_proc_inv_later; [|by eapply inv_proc]. lia. }
  assert (measure (mkState (alter dec i (procs st))
                           (add_segment (segs st) (pid x) (clock st) (clock st + 1))
                           (clock st + 1)) < measure st) as Hm.
  { unfold measure. simpl. rewrite (sumZ_map_alter _ _ _ _ _ Hx). simpl.
    pose proof (pending_alter_dec (clock st + 1) i (procs st)).
    pose proof (pending_mono (clock st) (clock st + 1) (procs st) ltac:(lia)). lia. }
  destruct (Z.eqb_spec (remaining x - 1) 0) as [Hz|Hnz].
  - eexists. split; [done|]. split; [|split; [|split_and!; [done|done|]]].
    + constructor; simpl; try done.
      * by rewrite !map_alter_same.
      * intros j y Hy. destruct (decide (j = i)) as [->|Hne].
        -- rewrite !list_lookup_alter_eq, Hx in Hy. simpl in Hy. simplify_eq.
           constructor; simpl; try done; try lia.
        -- rewrite list_lookup_alter_ne in Hy by done. by eapply (Hproc j).
      * lia.
      * apply add_segment_tiles; [done|lia].
      * by eapply add_segment_adjacent.
      * rewrite Hbusy. unfold work.
        assert (alter dec i (procs st) !! i = Some (dec x)) as Hx1
          by (by rewrite list_lookup_alter_eq, Hx).
        rewrite (sumZ_map_alter _ _ _ _ _ Hx1). simpl. lia.
      * intros _. exists (set_completion (clock st + 1) (dec x)). split; [|done].
        apply (list_elem_of_lookup_2 _ i). by rewrite !list_lookup_alter_eq, Hx.
      * rewrite (map_alter_same remaining (set_completion _)) by done.
        rewrite (sumZ_map_alter _ _ _ _ _ Hx). simpl. lia.
    + unfold measure in *. simpl in *.
      rewrite (map_alter_same remaining (set_completion _)) by done.
      rewrite pending_alter_same by done. done.
    + eexists. simpl. rewrite !list_lookup_alter_eq, Hx. simpl.
      split_and!; [done|done|]. intros j Hj. by rewrite !list_lookup_alter_ne.
  - eexists. split; [done|]. split; [|split; [|split_and!; [done|done|]]].
    + constructor; simpl; try done.
      * by rewrite map_alter_same.
      * intros j y Hy. destruct (decide (j = i)) as [->|Hne]; [|by eapply (Hproc j)].
        rewrite list_lookup_alter_eq, Hx in Hy. simpl in Hy. simplify_eq.
        constructor; simpl; try done; try lia.
      * lia.
      * apply add_segment_tiles; [done|lia].
      * by eapply add_segment_adjacent.
      * intros Hd. exfalso.
        pose proof (proj1 (sjf_all_done_true _) Hd (dec x)) as Hle.
        assert (remaining (dec x) ≤ 0); [|simpl in *; lia].
        apply Hle, (list_elem_of_lookup_2 _ i). by rewrite list_lookup_alter_eq, Hx.
      * rewrite (sumZ_map_alter _ _ _ _ _ Hx). simpl. lia.
    + done.
    + eexists. simpl. rewrite !list_lookup_alter_eq, Hx. simpl.
      split_and!; [done|done|]. intros j Hj. by rewrite !list_lookup_alter_ne.
Qed.

Lemma sjf_measure_nonneg p0 st : inv p0 st → 0 ≤ measure st.
Proof.
  intros H. unfold measure.
  assert (0 ≤ sumZ (map remaining (procs st))); [|lia].
  apply sumZ_nonneg. intros r (x & -> & Hx)%list_elem_of_fmap.
  apply list_elem_of_lookup in Hx as (i & Hx).
  by destruct (inv_proc _ _ H i x Hx) as [_ _ [? _] _ _ _].
Qed.

(** Every pass either continues with a smaller measure or leaves the loop
    through the safety break; it never reads out of range. *)
Lemma sjf_iter_progress p0 st :
  inv p0 st → all_done (procs st) = false →
  (select (procs st) (clock st) = None ∧
   next_arrival (procs st) (clock st) = INT_MAX ∧ sjf_iter st = Break st) ∨
  (∃ st', sjf_iter st = Continue st' ∧ inv p0 st' ∧ measure st' < measure st).
Proof.
  intros H Hnd. destruct (select (procs st) (clock st)) as [[i x]|] eqn:Hsel.
  - right. destruct (sjf_iter_run _ _ _ _ H Hsel) as (st' & ? & ? & ? & _). by exists st'.
  - destruct (sjf_iter_idle _ _ H Hnd Hsel) as [[? ?]|?]; [by left|by right].
Qed.

(** With every burst and arrival below the sentinel the break is not taken. *)
Lemma sjf_no_break p0 st :
  inv p0 st → below_sentinel p0 → all_done (procs st) = false →
  ¬ (select (procs st) (clock st) = None ∧
     next_arrival (procs st) (clock st) = INT_MAX).
Proof.
  intros H Hbel Hnd [Hsel Hna].
  apply sjf_all_done_false in Hnd as (y & Hy & Hry).
  pose proof Hy as Hy'. apply list_elem_of_lookup in Hy' as (j & Hj).
  assert (burst y < INT_MAX ∧ arrival y < INT_MAX) as [Hb Ha].
  { assert (key y ∈ map key p0) as Hk.
    { rewrite <- (inv_key _ _ H). apply list_elem_of_fmap. by exists y. }
    apply list_elem_of_fmap in Hk as (y0 & Hk & Hy0).
    destruct (Hbel y0 Hy0). unfold key in Hk. injection Hk as _ Hk1 Hk2. lia. }
  destruct (inv_proc _ _ H j y Hj) as [_ _ Hrem _ _ _].
  destruct (decide (arrival y ≤ clock st)) as [Hle|Hgt].
  - assert (eligible (clock st) y) as Hel by (split; lia).
    pose proof (select_none _ _ Hsel j y Hj Hel). lia.
  - destruct (sjf_next_arrival_spec (procs st) (clock st)) as (_ & _ & Hmin).
    assert (not_arrived (clock st) y) as Hw by (split; lia).
    specialize (Hmin y Hy Hw). lia.
Qed.

(** ** The while loop *)

Lemma sjf_loop_terminates p0 fuel st :
  inv p0 st → measure st ≤ Z.of_nat fuel →
  ∃ st', sjf_loop fuel st = Finished st' ∧ inv p0 st'.
Proof.
  revert st. induction fuel as [|f IH]; intros st H Hm.
  - pose proof (sjf_measure_nonneg _ _ H).
    destruct (all_done (procs st)) eqn:E.
    + exists st. simpl. by rewrite E.
    + destruct (sjf_iter_progress _ _ H E) as [(_ & _ & Hb)|(st' & _ & H' & Hlt)].
      * pose proof (sjf_measure_nonneg _ _ H).
        (* a record is unfinished, so the measure is positive *)
        exfalso. apply sjf_all_done_false in E as (x & Hx & Hr).
        assert (0 < sumZ (map remaining (procs st))); [|unfold measure in *; lia].
        clear -Hx Hr H. apply list_elem_of_lookup in Hx as (i & Hx).
        assert (∀ y, y ∈ procs st → 0 ≤ remaining y) as Hnn.
        { intros y (j & Hy)%list_elem_of_lookup.
          by destruct (inv_proc _ _ H j y Hy) as [_ _ [? _] _ _ _]. }
        revert i Hx Hnn. generalize (procs st). intros l.
        induction l as [|y l IHl]; intros i Hx Hnn; [done|]. simpl.
        assert (0 ≤ remaining y) by (apply Hnn; left).
        assert (0 ≤ sumZ (map remaining l)).
        { apply sumZ_nonneg. intros r (z & -> & Hz)%list_elem_of_fmap.
          apply Hnn. by right. }
        destruct i as [|i]; simpl in Hx; [simplify_eq; lia|].
        assert (0 < sumZ (map remaining l)); [|lia].
        apply (IHl i Hx). intros z Hz. apply Hnn. by right.
      * pose proof (sjf_measure_nonneg _ _ H'). lia.
  - simpl. destruct (all_done (procs st)) eqn:E; [by exists st|].
    destruct (sjf_iter_progress _ _ H E) as [(_ & _ & ->)|(st' & -> & H' & Hlt)].
    + by exists st.
    + apply IH; [done|lia].
Qed.

Lemma sjf_loop_finished p0 fuel st st' :
  inv p0 st → sjf_loop fuel st = Finished st' → inv p0 st'.
Proof.
  revert st. induction fuel as [|f IH]; intros st H Hr; simpl in Hr.
  - destruct (all_done (procs st)) eqn:E; [|done]. by simplify_eq.
  - destruct (all_done (procs st)) eqn:E; [by simplify_eq|].
    destruct (sjf_iter_progress _ _ H E) as [(_ & _ & Hb)|(st1 & Hi & H' & _)].
    + rewrite Hb in Hr. by simplify_eq.
    + rewrite Hi in Hr. by apply (IH st1).
Qed.

Lemma sjf_loop_complete p0 fuel st st' :
  inv p0 st → below_sentinel p0 → sjf_loop fuel st = Finished st' →
  all_done (procs st') = true.
Proof.
  intros H Hbel. revert st H. induction fuel as [|f IH]; intros st H Hr; simpl in Hr.
  - destruct (all_done (procs st)) eqn:E; [|done]. by simplify_eq.
  - destruct (all_done (procs st)) eqn:E; [by simplify_eq|].
    destruct (sjf_iter_progress _ _ H E) as [(Hs & Hn & _)|(st1 & Hi & H' & _)].
    + by destruct (sjf_no_break _ _ H Hbel E).
    + rewrite Hi in Hr. by apply (IH st1).
Qed.

Lemma sjf_reach_inv recs st :
  valid_records recs → reach (table_of recs) st → inv (table_of recs) st.
Proof.
  intros Hv Hr. induction Hr as [|st st' _ IH Hnd Hit].
  - by apply sjf_init_inv.
  - destruct (sjf_iter_progress _ _ IH Hnd) as [(_ & _ & Hb)|(st1 & Hi & H' & _)];
      congruence.
Qed.

(** ** The state at the exit of the loop *)

Lemma sjf_key_table_of recs : map key (table_of recs) = recs.
Proof.
  unfold table_of. rewrite map_map. induction recs as [|[[a b] c] r IH]; [done|].
  simpl. by rewrite IH.
Qed.

Lemma sjf_max_completion_eq p c :
  -1 ≤ c → (∃ x, x ∈ p ∧ completion x = c) → (∀ x, x ∈ p → completion x ≤ c) →
  max_completion p = c.
Proof.
  intros Hc (x & Hx & Hxc) Hall. unfold max_completion.
  assert (foldr (λ x m, Z.max (completion x) m) (-1) p ≤ c) as Hle.
  { clear x Hx Hxc. induction p as [|y p IH]; simpl; [done|].
    assert (completion y ≤ c) by (apply Hall; left).
    assert (foldr (λ x m, Z.max (completion x) m) (-1) p ≤ c); [|lia].
    apply IH. intros z Hz. apply Hall. by right. }
  assert (c ≤ foldr (λ x m, Z.max (completion x) m) (-1) p); [|lia].
  clear Hle Hall. induction p as [|y p IH]; [by apply elem_of_nil in Hx|].
  apply elem_of_cons in Hx as [->|Hx]; simpl; [lia|]. specialize (IH Hx). lia.
Qed.

Lemma sjf_work_all_done recs p :
  map key p = recs → (∀ x, x ∈ p → remaining x = 0) → work p = sum_bursts_named recs.
Proof.
  intros <- Hz. unfold work, sum_bursts_named. rewrite map_map.
  apply sumZ_map_ext. intros x Hx. unfold key. rewrite (Hz x Hx).
  destruct (pid x =? IDLE); lia.
Qed.

Lemma sjf_total_burst_table_of recs : total_burst (table_of recs) = sum_bursts recs.
Proof.
  unfold total_burst, sum_bursts, table_of. rewrite map_map.
  apply sumZ_map_ext. by intros [[a b] c] _.
Qed.

Lemma sjf_max_arrival_table_of recs : max_arrival (table_of recs) = latest_arrival recs.
Proof.
  unfold max_arrival, latest_arrival, table_of.
  induction recs as [|[[a b] c] r IH]; [done|]. simpl. by rewrite IH.
Qed.

(** A finished record has its completion stamped, whether or not the others
    finished. *)
Lemma sjf_inv_finished p0 st x :
  inv p0 st → x ∈ procs st → remaining x = 0 →
  0 ≤ arrival x ∧ 0 < burst x ∧ arrival x + burst x ≤ completion x ≤ clock st.
Proof.
  intros H (i & Hx)%list_elem_of_lookup Hz.
  destruct (inv_proc _ _ H i x Hx) as [Ha Hb _ _ _ Hf]. specialize (Hf Hz). lia.
Qed.

Lemma sjf_inv_final p0 st :
  inv p0 st → all_done (procs st) = true →
  (∀ x, x ∈ procs st → remaining x = 0) ∧
  max_completion (procs st) = clock st ∧
  tiles 0 (segs st) (max_completion (procs st)).
Proof.
  intros H Hd.
  assert (∀ x, x ∈ procs st → remaining x = 0) as Hall.
  { intros x Hx. pose proof (proj1 (sjf_all_done_true _) Hd x Hx) as Hle.
    apply list_elem_of_lookup in Hx as (i & Hx).
    destruct (inv_proc _ _ H i x Hx) as [_ _ Hr _ _ _]. lia. }
  pose proof (inv_clock _ _ H).
  assert (max_completion (procs st) = clock st) as Hmax.
  { apply sjf_max_completion_eq; [lia| |].
    - by apply (inv_last _ _ H).
    - intros x Hx. destruct (sjf_inv_finished _ _ _ H Hx (Hall x Hx)). lia. }
  split_and!; [done|done|]. rewrite Hmax. apply (inv_tiles _ _ H).
Qed.

Lemma sjf_simulate_finished recs fuel st :
  valid_records recs → simulate fuel (table_of recs) = Finished st →
  inv (table_of recs) st.
Proof.
  intros Hv Hs. eapply sjf_loop_finished; [|exact Hs]. by apply sjf_init_inv.
Qed.

(** The simulation returns once the fuel covers the measure of the initial
    state; it returns with every record finished when every burst and arrival
    is below [INT_MAX]. *)
Lemma sjf_simulate_terminates recs :
  valid_records recs →
  ∃ fuel0, ∀ fuel, (fuel0 ≤ fuel)%nat →
    ∃ st, simulate fuel (table_of recs) = Finished st ∧ inv (table_of recs) st ∧
          (below_sentinel (table_of recs) → all_done (procs st) = true).
Proof.
  intros Hv. pose proof (sjf_init_inv recs Hv) as H0.
  exists (Z.to_nat (measure (sjf_init (table_of recs)))). intros fuel Hf.
  destruct (sjf_loop_terminates (table_of recs) fuel _ H0) as (st & Hs & H).
  { pose proof (sjf_measure_nonneg _ _ H0). lia. }
  exists st. split_and!; [done..|]. intros Hbel.
  exact (sjf_loop_complete _ _ _ _ H0 Hbel Hs).
Qed.

Lemma sjf_elem_of_compute_metrics x p :
  x ∈ compute_metrics p ↔ ∃ y, y ∈ p ∧ x = set_metrics y.
Proof.
  unfold compute_metrics. rewrite list_elem_of_fmap. split.
  - intros (y & -> & Hy). by exists y.
  - intros (y & Hy & ->). by exists y.
Qed.



(** More fuel does not change the outcome of a loop that returned. *)
Lemma sjf_loop_fuel fuel fuel' st st' :
  sjf_loop fuel st = Finished st' → (fuel ≤ fuel')%nat →
  sjf_loop fuel' st = Finished st'.
Proof.
  revert fuel' st. induction fuel as [|f IH]; intros fuel' st Hr Hle.
  - simpl in Hr. destruct (all_done (procs st)) eqn:E; [|done].
    destruct fuel'; simpl; by rewrite E.
  - destruct fuel' as [|f']; [lia|]. simpl in *.
    destruct (all_done (procs st)); [done|].
    destruct (sjf_iter st); [|done..]. apply IH; [done|lia].
Qed.

Lemma sjf_simulate_fuel fuel fuel' p st st' :
  simulate fuel p = Finished st → simulate fuel' p = Finished st' → st = st'.
Proof.
  unfold simulate. intros H1 H2.
  destruct (Nat.le_ge_cases fuel fuel') as [Hle|Hle].
  - rewrite (sjf_loop_fuel _ _ _ _ H1 Hle) in H2. by simplify_eq.
  - rewrite (sjf_loop_fuel _ _ _ _ H2 Hle) in H1. by simplify_eq.
Qed.

Lemma sjf_read_processes_complete recs rest :
  (∀ a b c, (a, b, c) ∈ recs → 0 ≤ b ∧ 0 < c) →
  read_processes (length recs) (tokens_of recs ++ rest) = Some (table_of recs).
Proof.
  induction recs as [|[[a b] c] r IH]; intros Hv; [done|].
  change (tokens_of ((a, b, c) :: r) ++ rest)
    with (Int a :: Int b :: Int c :: (tokens_of r ++ rest)).
  change (length ((a, b, c) :: r)) with (S (length r)).
  cbn [read_processes scan_int3].
  assert ((a, b, c) ∈ (a, b, c) :: r) as Hin by left.
  destruct (Hv a b c Hin) as [Hb Hc].
  destruct (Z.ltb_spec b 0); [lia|]. destruct (Z.leb_spec c 0); [lia|]. simpl.
  rewrite IH; [done|].
  intros a' b' c' H'. apply (Hv a' b' c'). by right.
Qed.

Lemma sjf_read_processes_sound n inp p :
  read_processes n inp = Some p →
  ∃ recs rest, inp = tokens_of recs ++ rest ∧ length recs = n ∧
               (∀ a b c, (a, b, c) ∈ recs → 0 ≤ b ∧ 0 < c) ∧ p = table_of recs.
Proof.
  revert inp p. induction n as [|n IH]; intros inp p Hr; simpl in Hr.
  - simplify_eq. exists [], inp. split_and!; [done..| |done].
    by intros a b c ?%elem_of_nil.
  - destruct inp as [|[a|] [|[b|] [|[c|] r]]]; try done. simpl in Hr.
    destruct (Z.ltb_spec b 0); [done|]. destruct (Z.leb_spec c 0); [done|].
    simpl in Hr. destruct (read_processes n r) as [l|] eqn:E; [|done].
    simplify_eq. destruct (IH _ _ E) as (recs & rest & -> & <- & Hv & ->).
    exists ((a, b, c) :: recs), rest. split_and!; [done..| |done].
    intros a' b' c' [H'|H']%elem_of_cons; [simplify_eq; lia|by apply (Hv a')].
Qed.

Lemma sjf_main_cases inp :
  (¬ valid_input inp ∧ ∀ fuel, main fuel inp = Finished (1, None)) ∨
  (valid_input inp ∧
   ∃ recs, valid_records recs ∧
     ∀ fuel, main fuel inp =
             match simulate fuel (table_of recs) with
             | Finished st => Finished (0, Some (report st))
             | OutOfFuel => OutOfFuel
             | Undefined => Undefined
             end).
Proof.
  unfold main. destruct inp as [|[n|] r1]; simpl.
  - left. split; [|done]. by intros (? & ? & ? & ? & _).
  - destruct (Z.leb_spec n 0) as [Hn|Hn].
    { left. split; [|done]. intros (? & ? & ? & ? & ? & _). simplify_eq. lia. }
    destruct (read_processes (Z.to_nat n) r1) as [p|] eqn:E.
    + destruct (sjf_read_processes_sound _ _ _ E) as (recs & rest & -> & Hlen & Hv & ->).
      right. split.
      * exists n, recs, rest. done.
      * exists recs. split; [|done]. split; [|done]. intros ->. simpl in Hlen. lia.
    + left. split; [|done].
      intros (n' & recs & rest & Heq & _ & Hlen & Hv). simplify_eq.
      rewrite <- Hlen, sjf_read_processes_complete in E; done.
  - left. split; [|done]. by intros (? & ? & ? & ? & _).
Qed.

(** ** Agreement of the two arithmetics

    On an input with [no_overflow] every time of the run stays in
    [0 .. INT_MAX], so [SJFInt] computes what [SJF] computes. *)

Lemma sjf_inv_in_range p0 st i x :
  inv p0 st → max_arrival p0 + total_burst p0 ≤ INT_MAX →
  procs st !! i = Some x →
  0 ≤ clock st ∧ clock st + remaining x ≤ INT_MAX ∧ 0 ≤ remaining x ≤ INT_MAX ∧
  arrival x + burst x ≤ INT_MAX.
Proof.
  intros H Hfit Hx.
  assert (∀ y, y ∈ procs st → 0 ≤ remaining y) as Hnn.
  { intros y (j & Hy)%list_elem_of_lookup.
    by destruct (inv_proc _ _ H j y Hy) as [_ _ [? _] _ _ _]. }
  assert (∀ y, y ∈ procs st → 0 ≤ burst y) as Hnb.
  { intros y (j & Hy)%list_elem_of_lookup.
    destruct (inv_proc _ _ H j y Hy) as [_ ? _ _ _ _]. lia. }
  pose proof (list_elem_of_lookup_2 _ _ _ Hx) as Hin.
  pose proof (sumZ_elem_le remaining (procs st) x Hnn Hin) as Hle.
  pose proof (sumZ_elem_le burst (procs st) x Hnb Hin) as Hlb.
  fold (total_burst (procs st)) in Hlb.
  destruct (sjf_key_bound _ _ (inv_key _ _ H)) as [Hma Htb].
  pose proof (sjf_max_arrival_ge _ _ Hin) as Hla.
  pose proof (inv_bound _ _ H) as Hb. pose proof (inv_clock _ _ H).
  pose proof (Hnn x Hin). lia.
Qed.

Lemma sjf_iter_agree p0 st :
  inv p0 st → max_arrival p0 + total_burst p0 ≤ INT_MAX →
  SJFInt.sjf_iter st = sjf_iter st.
Proof.
  intros H Hfit. unfold SJFInt.sjf_iter, sjf_iter. cbv zeta.
  destruct (select (procs st) (clock st)) as [[i x]|] eqn:Hsel; [|done].
  destruct (select_spec _ _ _ _ Hsel) as (Hx & [_ Hpos] & _).
  destruct (sjf_inv_in_range _ _ _ _ H Hfit Hx) as (Hc & Hcr & Hr & _).
  rewrite (wrap_id (clock st + 1)) by (unfold INT_MIN; lia).
  rewrite (alter_ext_at (λ y, set_remaining (wrap (remaining y - 1)) y)
                        (λ y, set_remaining (remaining y - 1) y) i (procs st) x Hx);
    [done|].
  by rewrite wrap_id by (unfold INT_MIN; lia).
Qed.

Lemma sjf_loop_agree p0 fuel st :
  inv p0 st → max_arrival p0 + total_burst p0 ≤ INT_MAX →
  SJFInt.sjf_loop fuel st = sjf_loop fuel st.
Proof.
  intros H Hfit. revert st H. induction fuel as [|f IH]; intros st H; [done|].
  simpl. destruct (all_done (procs st)) eqn:E; [done|].
  rewrite (sjf_iter_agree _ _ H Hfit).
  destruct (sjf_iter_progress _ _ H E) as [(_ & _ & ->)|(st' & -> & H' & _)]; [done|].
  by apply IH.
Qed.

Lemma sjf_no_overflow_table recs :
  no_overflow recs → max_arrival (table_of recs) + total_burst (table_of recs) ≤ INT_MAX.
Proof. unfold no_overflow. by rewrite sjf_max_arrival_table_of, sjf_total_burst_table_of. Qed.

Lemma sjf_simulate_agree recs fuel :
  valid_records recs → no_overflow recs →
  SJFInt.simulate fuel (table_of recs) = simulate fuel (table_of recs).
Proof.
  intros Hv Hfit. unfold SJFInt.simulate, simulate.
  apply sjf_loop_agree with (p0 := table_of recs);
    [by apply sjf_init_inv|by apply sjf_no_overflow_table].
Qed.

Lemma sjf_reach_agree recs st :
  valid_records recs → no_overflow recs →
  SJFInt.reach (table_of recs) st ↔ reach (table_of recs) st.
Proof.
  intros Hv Hfit. pose proof (sjf_no_overflow_table _ Hfit) as Hfit'. split.
  - induction 1 as [|st st' _ IH Hnd Hit]; [by apply reach_init|].
    eapply reach_step; [done..|].
    by rewrite <- (sjf_iter_agree _ _ (sjf_reach_inv _ _ Hv IH) Hfit').
  - induction 1 as [|st st' Hr IH Hnd Hit]; [by apply SJFInt.reach_init|].
    eapply SJFInt.reach_step; [done..|].
    by rewrite (sjf_iter_agree _ _ (sjf_reach_inv _ _ Hv Hr) Hfit').
Qed.

Lemma sjf_report_agree p0 st :
  inv p0 st → max_arrival p0 + total_burst p0 ≤ INT_MAX →
  SJFInt.report st = report st.
Proof.
  intros H Hfit.
  assert (SJFInt.compute_metrics (procs st) = compute_metrics (procs st)) as Hcm.
  { unfold SJFInt.compute_metrics, compute_metrics. apply map_ext_in.
    intros x Hx%list_elem_of_In.
    pose proof Hx as Hx'. apply list_elem_of_lookup in Hx' as (i & Hi).
    destruct (sjf_inv_in_range _ _ _ _ H Hfit Hi) as (Hc & Hcr & Hr & Hab).
    destruct (inv_proc _ _ H i x Hi) as [Ha Hb Hrem _ Hunf Hfin].
    assert (-1 ≤ completion x ≤ INT_MAX ∧
            (completion x = -1 ∨ arrival x + burst x ≤ completion x)) as [Hco Hco'].
    { destruct (decide (remaining x = 0)) as [Hz|Hnz].
      - specialize (Hfin Hz). lia.
      - rewrite Hunf by lia. unfold INT_MAX. lia. }
    unfold SJFInt.set_metrics, set_metrics. cbv zeta.
    rewrite (wrap_id (completion x - arrival x)) by (unfold INT_MIN, INT_MAX in *; lia).
    by rewrite wrap_id by (unfold INT_MIN, INT_MAX in *; lia). }
  unfold SJFInt.report, report. cbv zeta. by rewrite Hcm.
Qed.

(** A loop head of the [int] program on an input with [no_overflow] is a
    loop head of [SJF], with its invariant, and the pass from it is the same. *)
Lemma sjf_int_head recs st :
  valid_records recs → no_overflow recs → SJFInt.reach (table_of recs) st →
  reach (table_of recs) st ∧ inv (table_of recs) st ∧
  SJFInt.sjf_iter st = sjf_iter st.
Proof.
  intros Hv Hfit Hr. apply (sjf_reach_agree _ _ Hv Hfit) in Hr.
  pose proof (sjf_reach_inv _ _ Hv Hr) as H. split_and!; [done..|].
  apply (sjf_iter_agree _ _ H), sjf_no_overflow_table, Hfit.
Qed.

(** What a run of the [int] program that returned has reached. *)
Lemma sjf_int_simulate_finished recs fuel st :
  valid_records recs → no_overflow recs →
  SJFInt.simulate fuel (table_of recs) = Finished st →
  inv (table_of recs) st ∧ SJFInt.report st = report st.
Proof.
  intros Hv Hfit Hs. rewrite (sjf_simulate_agree _ _ Hv Hfit) in Hs.
  pose proof (sjf_simulate_finished _ _ _ Hv Hs) as H. split; [done|].
  apply (sjf_report_agree _ _ H), sjf_no_overflow_table, Hfit.
Qed.

Lemma sjf_main_valid fuel n recs rest :
  0 < n → length recs = Z.to_nat n →
  (∀ a b c, (a, b, c) ∈ recs → 0 ≤ b ∧ 0 < c) →
  main fuel (Int n :: tokens_of recs ++ rest)
  = match simulate fuel (table_of recs) with
    | Finished st => Finished (0, Some (report st))
    | OutOfFuel => OutOfFuel
    | Undefined => Undefined
    end.
Proof.
  intros Hn Hlen Hv. unfold main. cbn [scan_int].
  destruct (Z.leb_spec n 0); [lia|].
  by rewrite <- Hlen, sjf_read_processes_complete.
Qed.

Lemma sjf_main_int_valid fuel n recs rest :
  0 < n → length recs = Z.to_nat n →
  (∀ a b c, (a, b, c) ∈ recs → 0 ≤ b ∧ 0 < c) →
  SJFInt.main fuel (Int n :: tokens_of recs ++ rest)
  = match SJFInt.simulate fuel (table_of recs) with
    | Finished st => Finished (0, Some (SJFInt.report st))
    | OutOfFuel => OutOfFuel
    | Undefined => Undefined
    end.
Proof.
  intros Hn Hlen Hv. unfold SJFInt.main. cbn [scan_int].
  destruct (Z.leb_spec n 0); [lia|].
  by rewrite <- Hlen, sjf_read_processes_complete.
Qed.

(** On a valid input with [no_overflow] the two programs print the same. *)
Lemma sjf_main_agree fuel n recs rest :
  0 < n → length recs = Z.to_nat n → valid_records recs → no_overflow recs →
  SJFInt.main fuel (Int n :: tokens_of recs ++ rest)
  = main fuel (Int n :: tokens_of recs ++ rest).
Proof.
  intros Hn Hlen Hv Hfit.
  rewrite sjf_main_int_valid, sjf_main_valid by (done || apply Hv).
  destruct (SJFInt.simulate fuel (table_of recs)) as [st| |] eqn:E;
    rewrite (sjf_simulate_agree _ _ Hv Hfit) in E; rewrite E; [|done..].
  by destruct (sjf_int_simulate_finished recs fuel st Hv Hfit
                 ltac:(by rewrite (sjf_simulate_agree _ _ Hv Hfit))) as (_ & ->).
Qed.

End SJFFacts.

(** * The claims *)

Section Claims.

Lemma tiles_timeline_ok segs T : tiles 0 segs T → timeline_ok segs T.
Proof.
  intros Ht. unfold timeline_ok.
  pose proof (tiles_covers _ _ _ Ht) as Hc.
  split; [by eapply tiles_sorted|]. split.
  { intros s (i & Hi)%list_elem_of_lookup.
    by destruct (tiles_lookup _ _ _ _ _ Ht Hi) as (_ & ? & _). }
  split; [by eapply tiles_non_overlapping|].
  split; [done|]. split; [by eapply tiles_no_gap|].
  intros x Hx Hno. destruct (proj1 (Hc x) Hx) as (s & Hs & Hin).
  exists s. split; [done|]. split; [|done].
  destruct (is_idle s) eqn:E; [done|]. exfalso. apply Hno. by exists s.
Qed.

Lemma valid_records_scenario_A : valid_records scenario_A.
Proof.
  split; [done|]. intros a b c H. unfold scenario_A in H.
  repeat (apply elem_of_cons in H as [H|H]; [simplify_eq; lia|]).
  by apply elem_of_nil in H.
Qed.

Lemma valid_records_scenario_B : valid_records scenario_B.
Proof.
  split; [done|]. intros a b c H. unfold scenario_B in H.
  repeat (apply elem_of_cons in H as [H|H]; [simplify_eq; lia|]).
  by apply elem_of_nil in H.
Qed.

Lemma valid_records_scenario_idle_pid : valid_records scenario_idle_pid.
Proof.
  split; [done|]. intros a b c H. unfold scenario_idle_pid in H.
  repeat (apply elem_of_cons in H as [H|H]; [simplify_eq; lia|]).
  by apply elem_of_nil in H.
Qed.

Lemma valid_records_scenario_int_max : valid_records scenario_int_max.
Proof.
  split; [done|]. intros a b c H. unfold scenario_int_max in H.
  repeat (apply elem_of_cons in H as [H|H]; [simplify_eq; lia|]).
  by apply elem_of_nil in H.
Qed.

Lemma valid_records_scenario_rr_overflow : valid_records scenario_rr_overflow.
Proof.
  split; [done|]. intros a b c H. unfold scenario_rr_overflow in H.
  repeat (apply elem_of_cons in H as [H|H]; [simplify_eq; lia|]).
  by apply elem_of_nil in H.
Qed.

Lemma valid_records_scenario_sjf_overflow : valid_records scenario_sjf_overflow.
Proof.
  split; [done|]. intros a b c H. unfold scenario_sjf_overflow in H.
  repeat (apply elem_of_cons in H as [H|H]; [simplify_eq; lia|]).
  by apply elem_of_nil in H.
Qed.

Lemma valid_records_scenario_long : valid_records scenario_long.
Proof.
  split; [done|]. intros a b c H. unfold scenario_long in H.
  repeat (apply elem_of_cons in H as [H|H]; [simplify_eq; lia|]).
  by apply elem_of_nil in H.
Qed.

Lemma no_overflow_scenario_A : no_overflow scenario_A.
Proof. by vm_compute. Qed.

Lemma no_overflow_scenario_B : no_overflow scenario_B.
Proof. by vm_compute. Qed.

Lemma named_scenario_A : ∀ a b c, (a, b, c) ∈ scenario_A → a ≠ IDLE.
Proof.
  intros a b c H. unfold scenario_A in H.
  repeat (apply elem_of_cons in H as [H|H]; [by simplify_eq|]).
  by apply elem_of_nil in H.
Qed.

(** C1: Round Robin with quantum 2 on P1(0,4), P2(1,3), P3(3,2) exits with
    status 0 and prints the timeline [0-2]P1, [2-4]P2, [4-6]P1, [6-8]P3,
    [8-9]P2, the waiting times P1=2, P2=5, P3=3, the average waiting time
    3.33 (10/3) and the average turnaround time 6.33 (19/3); this is the
    result for every fuel with which the run returns. *)
Theorem C1_rr_scenario_A :
  ∃ rep,
    RR.main 16 scenario_A_input = Finished (0, Some rep) ∧
    (∀ fuel r, RR.main fuel scenario_A_input = Finished r → r = (0, Some rep)) ∧
    RR.rep_segs rep = [mkSegment 1 0 2; mkSegment 2 2 4; mkSegment 1 4 6;
                       mkSegment 3 6 8; mkSegment 2 8 9] ∧
    map (λ x, (RR.pid x, RR.waiting x)) (RR.rep_procs rep) = [(1, 2); (2, 5); (3, 3)] ∧
    RR.sum_wait rep = 10 ∧ RR.sum_tat rep = 19 ∧ RR.rep_n rep = 3 ∧
    two_decimals (RR.sum_wait rep) (RR.rep_n rep) = 333 ∧
    two_decimals (RR.sum_tat rep) (RR.rep_n rep) = 633.
Proof.
  eexists. split; [vm_compute; reflexivity|]. split; [|by vm_compute].
  intros fuel r Hr.
  change (RR.main fuel scenario_A_input)
    with (match RR.simulate fuel 2 (RR.table_of scenario_A) with
          | Finished st => Finished (0, Some (RR.report st))
          | OutOfFuel => OutOfFuel
          | Undefined => Undefined
          end) in Hr.
  destruct (RR.simulate fuel 2 (RR.table_of scenario_A)) as [st| |] eqn:E; [|done..].
  destruct (RR.simulate 16 2 (RR.table_of scenario_A)) as [st16| |] eqn:E16;
    [|by vm_compute in E16..].
  pose proof (RRFacts.rr_simulate_fuel _ _ _ _ _ _ E E16) as ->.
  vm_compute in E16. by simplify_eq.
Qed.

(** C2 (as the code computes it): SRTF on P1(0,8), P2(1,4), P3(2,9),
    P4(3,5) exits with status 0 and prints the waiting times P1=9, P2=0,
    P3=15, P4=2 and the average waiting time 6.50 (26/4); this is the result
    for every fuel with which the run returns. *)
Theorem C2_srtf_scenario_B :
  ∃ rep,
    SJF.main 32 scenario_B_input = Finished (0, Some rep) ∧
    (∀ fuel r, SJF.main fuel scenario_B_input = Finished r → r = (0, Some rep)) ∧
    map (λ x, (SJF.pid x, SJF.waiting x)) (SJF.rep_procs rep)
    = [(1, 9); (2, 0); (3, 15); (4, 2)] ∧
    SJF.sum_wait rep = 26 ∧ SJF.rep_n rep = 4 ∧
    two_decimals (SJF.sum_wait rep) (SJF.rep_n rep) = 650.
Proof.
  eexists. split; [vm_compute; reflexivity|]. split; [|by vm_compute].
  intros fuel r Hr.
  change (SJF.main fuel scenario_B_input)
    with (match SJF.simulate fuel (SJF.table_of scenario_B) with
          | Finished st => Finished (0, Some (SJF.report st))
          | OutOfFuel => OutOfFuel
          | Undefined => Undefined
          end) in Hr.
  destruct (SJF.simulate fuel (SJF.table_of scenario_B)) as [st| |] eqn:E; [|done..].
  destruct (SJF.simulate 32 (SJF.table_of scenario_B)) as [st32| |] eqn:E32;
    [|by vm_compute in E32..].
  pose proof (SJFFacts.sjf_simulate_fuel _ _ _ _ _ E E32) as ->.
  vm_compute in E32. by simplify_eq.
Qed.

(** C2, the claim as stated fails: the waiting times that the program
    computes for scenario B are P2=0 and P4=2, not P2=1 and P4=0. *)
Lemma C2_counterexample :
  ∃ rep,
    SJF.main 32 scenario_B_input = Finished (0, Some rep) ∧
    map (λ x, (SJF.pid x, SJF.waiting x)) (SJF.rep_procs rep)
    = [(1, 9); (2, 0); (3, 15); (4, 2)] ∧
    map (λ x, (SJF.pid x, SJF.waiting x)) (SJF.rep_procs rep)
    ≠ [(1, 9); (2, 1); (3, 15); (4, 0)].
Proof.
  eexists. split; [vm_compute; reflexivity|]. split; [by vm_compute|].
  vm_compute. discriminate.
Qed.

(** Where the scan selects a record (sjf.c:106-122), that record is arrived
    and unfinished; no arrived, unfinished record has a smaller remaining
    time; among those of equal remaining time none arrived earlier, and among
    those of equal remaining time and arrival none has a smaller pid; and the
    pass of the loop runs that record for one unit, from [t] to [t + 1]. *)
Lemma srtf_selection (st : SJF.State) (i : nat) (x : SJF.Process) :
  SJF.select (SJF.procs st) (SJF.clock st) = Some (i, x) →
  SJF.procs st !! i = Some x ∧ SJF.eligible (SJF.clock st) x ∧
  (∀ j y, SJF.procs st !! j = Some y → SJF.eligible (SJF.clock st) y →
          SJF.remaining x ≤ SJF.remaining y ∧
          (SJF.remaining x = SJF.remaining y →
           SJF.arrival x ≤ SJF.arrival y ∧
           (SJF.arrival x = SJF.arrival y → SJF.pid x ≤ SJF.pid y))) ∧
  ∃ st' x', SJF.sjf_iter st = SJF.Continue st' ∧
            SJF.clock st' = SJF.clock st + 1 ∧
            SJF.segs st' = add_segment (SJF.segs st) (SJF.pid x) (SJF.clock st)
                                       (SJF.clock st + 1) ∧
            SJF.procs st' !! i = Some x' ∧
            SJF.remaining x' = SJF.remaining x - 1.
Proof.
  intros Hsel.
  destruct (SJFFacts.select_spec _ _ _ _ Hsel) as (Hx & Hel & _ & Hmin).
  split_and!; [done|done| |].
  - intros j y Hy Hey. destruct (Hmin j y Hy Hey) as [Hnb _].
    unfold SJF.before in Hnb. lia.
  - unfold SJF.sjf_iter. rewrite Hsel, list_lookup_alter_eq, Hx. simpl.
    destruct (SJF.remaining x - 1 =? 0); do 2 eexists;
      (split_and!; [reflexivity|reflexivity|reflexivity| |]); simpl;
      rewrite ?list_lookup_alter_eq, ?Hx; reflexivity.
Qed.

Lemma scenario_B_at_3_reach : SJF.reach (SJF.table_of scenario_B) scenario_B_at_3.
Proof.
  eapply SJF.reach_step;
    [eapply SJF.reach_step;
       [eapply SJF.reach_step; [apply SJF.reach_init|reflexivity|reflexivity]
       |reflexivity|reflexivity]
    |reflexivity|reflexivity].
Qed.

(** C3, where sjf.c departs from the claim: at the first decision point of
    the run on the valid input of one process P1(arrival 0, burst
    2147483647), the process has arrived and is unfinished, yet the scan
    selects no process ([pick] stays -1): the remaining time of P1 is not
    below the initial [best_rem = INT_MAX], and the tie branch is guarded by
    [pick != -1].  The pass does not run P1; it takes the idle branch and
    leaves the loop. *)
Theorem C3_srtf_selection_int_max :
  valid_records scenario_int_max ∧
  SJFInt.reach (SJF.table_of scenario_int_max)
               (SJF.sjf_init (SJF.table_of scenario_int_max)) ∧
  SJF.all_done (SJF.table_of scenario_int_max) = false ∧
  SJF.table_of scenario_int_max !! 0%nat
  = Some (SJF.mkProcess 1 0 2147483647 2147483647 (-1) 0 0) ∧
  SJF.eligible 0 (SJF.mkProcess 1 0 2147483647 2147483647 (-1) 0 0) ∧
  SJF.select (SJF.table_of scenario_int_max) 0 = None ∧
  SJFInt.sjf_iter (SJF.sjf_init (SJF.table_of scenario_int_max))
  = SJF.Break (SJF.sjf_init (SJF.table_of scenario_int_max)).
Proof.
  split; [exact valid_records_scenario_int_max|].
  split; [apply SJFInt.reach_init|]. split; [reflexivity|]. split; [reflexivity|].
  split; [unfold SJF.eligible; simpl; lia|]. split; reflexivity.
Qed.

(** C4 (as amended): for every valid input in which no process has the pid
    -1 of the IDLE sentinel and whose latest arrival plus total burst is at
    most [INT_MAX], in the timeline of a completed run of either simulator
    the durations of the non-IDLE segments add up to the sum of all bursts. *)
Theorem C4_busy_time (recs : list (Z * Z * Z)) :
  valid_records recs → no_overflow recs →
  (∀ a b c, (a, b, c) ∈ recs → a ≠ IDLE) →
  (∀ quantum fuel st,
     0 < quantum → RRInt.simulate fuel quantum (RR.table_of recs) = Finished st →
     busy_time (RR.segs st) = sum_bursts recs) ∧
  (∀ fuel st,
     SJFInt.simulate fuel (SJF.table_of recs) = Finished st →
     SJF.all_done (SJF.procs st) = true →
     busy_time (SJF.segs st) = sum_bursts recs).
Proof.
  intros Hv Hfit Hnamed. rewrite <- (sum_bursts_named_eq recs Hnamed). split.
  - intros quantum fuel st Hq Hs.
    destruct (RRFacts.rr_int_simulate_finished _ _ _ _ Hv Hfit Hq Hs) as (H & Hd & _).
    destruct (RRFacts.head_inv_final _ _ H Hd) as (Hall & _ & _).
    pose proof (RR.inv_busy _ _ _ _ _ H) as Hb. simpl in Hb. rewrite Z.add_0_r in Hb.
    rewrite Hb. apply RRFacts.work_all_done.
    + rewrite (RR.inv_key _ _ _ _ _ H). apply RRFacts.key_table_of.
    + intros x Hx. by destruct (Hall x Hx).
  - intros fuel st Hs Hd.
    destruct (SJFFacts.sjf_int_simulate_finished _ _ _ Hv Hfit Hs) as [H _].
    destruct (SJFFacts.sjf_inv_final _ _ H Hd) as (Hall & _ & _).
    rewrite (SJF.inv_busy _ _ H). apply SJFFacts.sjf_work_all_done; [|done].
    rewrite (SJF.inv_key _ _ H). apply SJFFacts.sjf_key_table_of.
Qed.

Lemma C4_witness :
  valid_records scenario_A ∧ no_overflow scenario_A ∧
  ∃ st, RRInt.simulate 16 2 (RR.table_of scenario_A) = Finished st ∧
        busy_time (RR.segs st) = 9.
Proof.
  split; [exact valid_records_scenario_A|]. split; [exact no_overflow_scenario_A|].
  eexists. split; [vm_compute; reflexivity|].
  refine (proj1 (C4_busy_time scenario_A valid_records_scenario_A
                   no_overflow_scenario_A named_scenario_A) 2 16%nat _ _ _);
    [lia|vm_compute; reflexivity].
Defined.

(** C4, the claim as stated fails.  For the one process P1(arrival
    2147483647, burst 1) rr.c with quantum 1 idles to [INT_MAX] and runs P1
    for one unit; [t++] overflows and the segment of P1 is recorded as
    [2147483647 - -2147483648]: its duration is -4294967295, the sum of the
    bursts is 1.  And a process may have the pid -1; its segment is then an
    IDLE segment, and the non-IDLE durations (0) do not add up to the
    bursts (3). *)
Lemma C4_counterexample :
  (valid_records scenario_rr_overflow ∧
   ∃ st, RRInt.simulate 1 1 (RR.table_of scenario_rr_overflow) = Finished st ∧
         RR.all_done (RR.procs st) = true ∧
         RR.segs st = [mkSegment IDLE 0 2147483647;
                       mkSegment 1 2147483647 (-2147483648)] ∧
         busy_time (RR.segs st) = -4294967295 ∧
         sum_bursts scenario_rr_overflow = 1 ∧
         busy_time (RR.segs st) ≠ sum_bursts scenario_rr_overflow) ∧
  (valid_records scenario_idle_pid ∧
   ∃ st, RRInt.simulate 4 2 (RR.table_of scenario_idle_pid) = Finished st ∧
         RR.all_done (RR.procs st) = true ∧
         RR.segs st = [mkSegment (-1) 0 3] ∧
         busy_time (RR.segs st) = 0 ∧ sum_bursts scenario_idle_pid = 3 ∧
         busy_time (RR.segs st) ≠ sum_bursts scenario_idle_pid).
Proof.
  split.
  - split; [exact valid_records_scenario_rr_overflow|].
    eexists. split; [vm_compute; reflexivity|]. by vm_compute.
  - split; [exact valid_records_scenario_idle_pid|].
    eexists. split; [vm_compute; reflexivity|]. by vm_compute.
Qed.

(** C5 (as amended): for every valid input whose latest arrival plus total
    burst is at most [INT_MAX], the timeline of a completed run of either
    simulator is sorted by start, its segments are non-empty and do not
    overlap, each segment starts where the one before it ends, their union is
    exactly [0, max completion), and every instant outside the non-IDLE
    segments is inside an IDLE segment. *)
Theorem C5_timeline (recs : list (Z * Z * Z)) :
  valid_records recs → no_overflow recs →
  (∀ quantum fuel st,
     0 < quantum → RRInt.simulate fuel quantum (RR.table_of recs) = Finished st →
     timeline_ok (RR.segs st) (RR.max_completion (RR.procs st))) ∧
  (∀ fuel st,
     SJFInt.simulate fuel (SJF.table_of recs) = Finished st →
     SJF.all_done (SJF.procs st) = true →
     timeline_ok (SJF.segs st) (SJF.max_completion (SJF.procs st))).
Proof.
  intros Hv Hfit. split.
  - intros quantum fuel st Hq Hs.
    destruct (RRFacts.rr_int_simulate_finished _ _ _ _ Hv Hfit Hq Hs) as (H & Hd & _).
    destruct (RRFacts.head_inv_final _ _ H Hd) as (_ & _ & Ht).
    by apply tiles_timeline_ok.
  - intros fuel st Hs Hd.
    destruct (SJFFacts.sjf_int_simulate_finished _ _ _ Hv Hfit Hs) as [H _].
    destruct (SJFFacts.sjf_inv_final _ _ H Hd) as (_ & _ & Ht).
    by apply tiles_timeline_ok.
Qed.

Lemma C5_witness :
  valid_records scenario_B ∧ no_overflow scenario_B ∧
  ∃ st, SJFInt.simulate 32 (SJF.table_of scenario_B) = Finished st ∧
        SJF.max_completion (SJF.procs st) = 26 ∧
        timeline_ok (SJF.segs st) 26.
Proof.
  split; [exact valid_records_scenario_B|]. split; [exact no_overflow_scenario_B|].
  eexists. split; [vm_compute; reflexivity|]. split; [vm_compute; reflexivity|].
  refine (proj2 (C5_timeline scenario_B valid_records_scenario_B no_overflow_scenario_B)
                32%nat _ _ _);
    vm_compute; reflexivity.
Defined.

(** C5, the claim as stated fails.  For the one process P1(arrival
    2147483647, burst 1) rr.c with quantum 1 completes its run with the
    timeline [0 - 2147483647] IDLE, [2147483647 - -2147483648] P1 and the
    completion time -2147483648; for P1(arrival 2147483646, burst 2) sjf.c
    completes its run with [0 - 2147483646] IDLE,
    [2147483646 - -2147483648] P1.  In both the last segment ends before it
    starts, so the timeline is that of no interval [0, T). *)
Lemma C5_counterexample :
  (valid_records scenario_rr_overflow ∧
   ∃ st, RRInt.simulate 1 1 (RR.table_of scenario_rr_overflow) = Finished st ∧
         RR.all_done (RR.procs st) = true ∧
         RR.segs st = [mkSegment IDLE 0 2147483647;
                       mkSegment 1 2147483647 (-2147483648)] ∧
         map RR.completion (RR.procs st) = [-2147483648] ∧
         ∀ T, ¬ timeline_ok (RR.segs st) T) ∧
  (valid_records scenario_sjf_overflow ∧
   ∃ st, SJFInt.simulate 3 (SJF.table_of scenario_sjf_overflow) = Finished st ∧
         SJF.all_done (SJF.procs st) = true ∧
         SJF.segs st = [mkSegment IDLE 0 2147483646;
                        mkSegment 1 2147483646 (-2147483648)] ∧
         map SJF.completion (SJF.procs st) = [-2147483648] ∧
         ∀ T, ¬ timeline_ok (SJF.segs st) T).
Proof.
  split.
  - split; [exact valid_records_scenario_rr_overflow|].
    eexists. split; [vm_compute; reflexivity|]. split; [reflexivity|].
    split; [reflexivity|]. split; [reflexivity|].
    intros T (_ & Hne & _).
    specialize (Hne (mkSegment 1 2147483647 (-2147483648))). simpl in Hne.
    assert (2147483647 < -2147483648); [|lia]. apply Hne. right. left.
  - split; [exact valid_records_scenario_sjf_overflow|].
    eexists. split; [vm_compute; reflexivity|]. split; [reflexivity|].
    split; [reflexivity|]. split; [reflexivity|].
    intros T (_ & Hne & _).
    specialize (Hne (mkSegment 1 2147483646 (-2147483648))). simpl in Hne.
    assert (2147483646 < -2147483648); [|lia]. apply Hne. right. left.
Qed.

(** C6: [add_segment] with [start == end] changes nothing; when the last
    segment has the same owner and ends at the new start it is extended in
    place to the new end; otherwise a segment is appended; and in the
    timelines that the two simulators produce on a valid input no two
    neighbouring segments have the same owner. *)
Theorem C6_recorder (recs : list (Z * Z * Z)) :
  valid_records recs →
  (∀ segs pid t, add_segment segs pid t t = segs) ∧
  (∀ segs s pid e, seg_pid s = pid → seg_end s ≠ e →
     add_segment (segs ++ [s]) pid (seg_end s) e = segs ++ [set_seg_end e s]) ∧
  (∀ segs pid a e, a ≠ e →
     (∀ s, last segs = Some s → ¬ (seg_pid s = pid ∧ seg_end s = a)) →
     add_segment segs pid a e = segs ++ [mkSegment pid a e]) ∧
  (∀ quantum fuel st,
     0 < quantum → RR.simulate fuel quantum (RR.table_of recs) = Finished st →
     adjacent_distinct (RR.segs st)) ∧
  (∀ fuel st,
     SJF.simulate fuel (SJF.table_of recs) = Finished st →
     adjacent_distinct (SJF.segs st)).
Proof.
  intros Hv. split_and!.
  - apply add_segment_empty.
  - apply add_segment_merge.
  - intros segs pid a e Hne Hlast.
    destruct segs as [|s r _] using rev_ind; [by apply add_segment_new_nil|].
    rewrite add_segment_new_snoc, <- app_assoc; [done..|].
    apply Hlast, last_snoc.
  - intros quantum fuel st Hq Hs.
    destruct (RRFacts.rr_simulate_finished _ _ _ _ Hv Hq Hs) as [H _].
    apply (RR.inv_adjacent _ _ _ _ _ H).
  - intros fuel st Hs.
    apply (SJF.inv_adjacent _ _ (SJFFacts.sjf_simulate_finished _ _ _ Hv Hs)).
Qed.

Lemma C6_witness :
  valid_records scenario_A ∧
  ∃ st, RR.simulate 16 2 (RR.table_of scenario_A) = Finished st ∧
        adjacent_distinct (RR.segs st).
Proof.
  split; [exact valid_records_scenario_A|].
  eexists. split; [vm_compute; reflexivity|].
  refine (proj1 (proj2 (proj2 (proj2 (C6_recorder scenario_A valid_records_scenario_A))))
                2 16%nat _ _ _); [lia|vm_compute; reflexivity].
Defined.

(** C7 (as amended): for every valid input whose latest arrival plus total
    burst is at most [INT_MAX], the result table has one row per input
    record, in input order, with the pid, arrival and burst of the record and
    the completion time of the run; and in every row after a completed run
    (in sjf.c: every row whose process has finished) the turnaround is the
    waiting time plus the burst, it is the completion minus the arrival, it
    is at least the burst, and the waiting time is not negative. *)
Theorem C7_metrics (recs : list (Z * Z * Z)) :
  valid_records recs → no_overflow recs →
  (∀ quantum fuel st,
     0 < quantum → RRInt.simulate fuel quantum (RR.table_of recs) = Finished st →
     map RR.key (RR.rep_procs (RRInt.report st)) = recs ∧
     map RR.completion (RR.rep_procs (RRInt.report st))
     = map RR.completion (RR.procs st) ∧
     ∀ x, x ∈ RR.rep_procs (RRInt.report st) →
          metrics_ok (RR.arrival x) (RR.burst x) (RR.completion x)
                     (RR.waiting x) (RR.turnaround x)) ∧
  (∀ fuel st,
     SJFInt.simulate fuel (SJF.table_of recs) = Finished st →
     map SJF.key (SJF.rep_procs (SJFInt.report st)) = recs ∧
     map SJF.completion (SJF.rep_procs (SJFInt.report st))
     = map SJF.completion (SJF.procs st) ∧
     ∀ x, x ∈ SJF.rep_procs (SJFInt.report st) → SJF.remaining x = 0 →
          metrics_ok (SJF.arrival x) (SJF.burst x) (SJF.completion x)
                     (SJF.waiting x) (SJF.turnaround x)).
Proof.
  intros Hv Hfit. split.
  - intros quantum fuel st Hq Hs.
    destruct (RRFacts.rr_int_simulate_finished _ _ _ _ Hv Hfit Hq Hs) as (H & Hd & ->).
    destruct (RRFacts.head_inv_final _ _ H Hd) as (Hall & _ & _).
    cbn [RR.report RR.rep_procs]. unfold RR.compute_metrics. split_and!.
    + rewrite map_map, <- (RRFacts.key_table_of recs), <- (RR.inv_key _ _ _ _ _ H).
      by apply map_ext.
    + rewrite map_map. by apply map_ext.
    + intros x (y & -> & Hy)%list_elem_of_fmap.
      destruct (Hall y Hy) as (_ & ? & ? & ?). unfold metrics_ok. simpl. lia.
  - intros fuel st Hs.
    destruct (SJFFacts.sjf_int_simulate_finished _ _ _ Hv Hfit Hs) as [H ->].
    cbn [SJF.report SJF.rep_procs]. unfold SJF.compute_metrics. split_and!.
    + rewrite map_map, <- (SJFFacts.sjf_key_table_of recs), <- (SJF.inv_key _ _ H).
      by apply map_ext.
    + rewrite map_map. by apply map_ext.
    + intros x (y & -> & Hy)%list_elem_of_fmap Hz.
      destruct (SJFFacts.sjf_inv_finished _ _ _ H Hy Hz) as (? & ? & ?).
      unfold metrics_ok. simpl. lia.
Qed.

Lemma C7_witness :
  valid_records scenario_B ∧ no_overflow scenario_B ∧
  ∃ st, SJFInt.simulate 32 (SJF.table_of scenario_B) = Finished st ∧
        SJF.rep_procs (SJFInt.report st) !! 3%nat
        = Some (SJF.mkProcess 4 3 5 0 10 2 7) ∧
        metrics_ok 3 5 10 2 7.
Proof.
  split; [exact valid_records_scenario_B|]. split; [exact no_overflow_scenario_B|].
  eexists. split; [vm_compute; reflexivity|]. split; [vm_compute; reflexivity|].
  refine (proj2 (proj2 (proj2 (C7_metrics scenario_B valid_records_scenario_B
                                  no_overflow_scenario_B) 32%nat _ _))
                (SJF.mkProcess 4 3 5 0 10 2 7) _ _);
    [vm_compute; reflexivity| |reflexivity].
  apply (list_elem_of_lookup_2 _ 3%nat). vm_compute. reflexivity.
Defined.

(** C7, the claim as stated fails.  On the valid input of P1(arrival 0,
    burst 2147483647) and P2(arrival 0, burst 1) with the quantum 2147483647,
    rr.c runs P1 to its end at 2147483647 and then P2 for one unit; [t++]
    overflows, P2 is completed at -2147483648, and its row of the result
    table has the waiting time 2147483647 and the turnaround -2147483648:
    the turnaround is negative, below the burst, and not the waiting time
    plus the burst. *)
Lemma C7_counterexample :
  valid_records scenario_long ∧
  ∃ rep,
    RRInt.main 2 scenario_long_input = Finished (0, Some rep) ∧
    RR.rep_segs rep = [mkSegment 1 0 2147483647;
                       mkSegment 2 2147483647 (-2147483648)] ∧
    RR.rep_procs rep
    = [RR.mkProcess 1 0 2147483647 0 2147483647 0 2147483647 true;
       RR.mkProcess 2 0 1 0 (-2147483648) 2147483647 (-2147483648) true] ∧
    RR.all_done (RR.rep_procs rep) = true ∧
    ¬ metrics_ok 0 1 (-2147483648) 2147483647 (-2147483648) ∧
    -2147483648 < 1 ∧ -2147483648 ≠ 2147483647 + 1.
Proof.
  split; [exact valid_records_scenario_long|].
  eexists. split; [exact RRFacts.long_main|]. split; [reflexivity|].
  split; [reflexivity|]. split; [reflexivity|]. split; [|lia].
  unfold metrics_ok. lia.
Qed.

(** Each program either rejects its input, and then the input is not valid,
    the exit status is 1 and neither trace nor metrics are produced; or the
    input is valid, and then the simulation returns, the exit status is 0 and
    the report is printed (for rr.c after every process has finished).  An
    input is valid when [n > 0] (and, for rr.c, the quantum is positive) is
    followed by [n] records that convert, each with [arrival >= 0] and
    [burst > 0].  The runs are those of the exact integers; on the valid
    inputs with [no_overflow] they are the runs of the 32-bit program
    ([RRFacts.rr_main_agree], [SJFFacts.sjf_main_agree]). *)
Lemma exit_status (inp : list token) :
  ((¬ RR.valid_input inp ∧ ∀ fuel, RR.main fuel inp = Finished (1, None)) ∨
   (RR.valid_input inp ∧
    ∃ fuel0 st, RR.all_done (RR.procs st) = true ∧
      ∀ fuel, (fuel0 ≤ fuel)%nat →
              RR.main fuel inp = Finished (0, Some (RR.report st)))) ∧
  ((¬ SJF.valid_input inp ∧ ∀ fuel, SJF.main fuel inp = Finished (1, None)) ∨
   (SJF.valid_input inp ∧
    ∃ fuel0 st,
      ∀ fuel, (fuel0 ≤ fuel)%nat →
              SJF.main fuel inp = Finished (0, Some (SJF.report st)))).
Proof.
  split.
  - destruct (RRFacts.rr_main_cases inp) as [?|(Hv & quantum & recs & Hr & Hq & Hm)];
      [by left|right].
    split; [done|].
    destruct (RRFacts.rr_simulate_terminates recs quantum Hr Hq) as (fuel0 & Hf).
    destruct (Hf fuel0 (Nat.le_refl _)) as (st & Hs & _ & Hd).
    exists fuel0, st. split; [done|]. intros fuel Hle. rewrite Hm.
    destruct (Hf fuel Hle) as (st' & Hs' & _).
    rewrite Hs'. by rewrite (RRFacts.rr_simulate_fuel _ _ _ _ _ _ Hs Hs').
  - destruct (SJFFacts.sjf_main_cases inp) as [?|(Hv & recs & Hr & Hm)];
      [by left|right].
    split; [done|].
    destruct (SJFFacts.sjf_simulate_terminates recs Hr) as (fuel0 & Hf).
    destruct (Hf fuel0 (Nat.le_refl _)) as (st & Hs & _).
    exists fuel0, st. intros fuel Hle. rewrite Hm.
    destruct (Hf fuel Hle) as (st' & Hs' & _).
    rewrite Hs'. by rewrite (SJFFacts.sjf_simulate_fuel _ _ _ _ _ Hs Hs').
Qed.

(** C8, where sjf.c departs from the claim: the input of one process
    P1(arrival 0, burst 2147483647) is valid, and sjf.c exits with status 0
    and prints its report although the simulation has not completed: the
    timeline is empty and the process is unfinished (remaining 2147483647,
    completion -1, waiting -2147483648, turnaround -1). *)
Theorem C8_exit_status_int_max :
  SJF.valid_input scenario_int_max_input ∧
  ∀ fuel, ∃ rep,
    SJFInt.main (S fuel) scenario_int_max_input = Finished (0, Some rep) ∧
    SJF.rep_segs rep = [] ∧
    SJF.rep_procs rep
    = [SJF.mkProcess 1 0 2147483647 2147483647 (-1) (-2147483648) (-1)] ∧
    SJF.all_done (SJF.rep_procs rep) = false.
Proof.
  split.
  { exists 1, scenario_int_max, []. split_and!; [done|lia|done|].
    apply valid_records_scenario_int_max. }
  intros fuel. eexists. split; [reflexivity|]. split; [reflexivity|].
  split; reflexivity.
Qed.

(** C9, where sjf.c departs from the claim: with the valid input of one
    process P1(arrival 0, burst 2147483647) the scan never selects the
    process, the first pass of the loop leaves through the safety break, and
    the program exits with status 0, an empty timeline and the process
    unfinished (remaining 2147483647, completion -1, waiting -2147483648). *)
Theorem C9_srtf_int_max_burst :
  valid_records scenario_int_max ∧
  SJF.valid_input scenario_int_max_input ∧
  SJF.select (SJF.table_of scenario_int_max) 0 = None ∧
  SJF.sjf_iter (SJF.sjf_init (SJF.table_of scenario_int_max))
  = SJF.Break (SJF.sjf_init (SJF.table_of scenario_int_max)) ∧
  ∀ fuel,
    SJF.main (S fuel) scenario_int_max_input
    = Finished (0, Some (SJF.mkReport []
                           [SJF.mkProcess 1 0 2147483647 2147483647 (-1)
                                          (-2147483648) (-1)]
                           (-2147483648) (-1) 1)).
Proof.
  split; [exact valid_records_scenario_int_max|]. split.
  { exists 1, scenario_int_max, []. split_and!; [done|lia|done|].
    apply valid_records_scenario_int_max. }
  split; [reflexivity|]. split; [reflexivity|]. intros fuel. reflexivity.
Qed.

(** C10: on a valid input, at every head of the while loop of rr.c no index
    occurs twice in the ready queue, every index in the queue is that of a
    record in the table whose flag is set and whose remaining time is
    positive, and the guard on a popped finished process is not taken; and
    during the slice of the popped index [idx], after any number of its
    units, no index occurs twice in the queue, [idx] is not in it and every
    index in it has a positive remaining time. *)
Theorem C10_ready_queue (recs : list (Z * Z * Z)) (quantum : Z) (st : RR.State) :
  valid_records recs → 0 < quantum → RR.reach quantum (RR.table_of recs) st →
  NoDup (RR.q_list (RR.queue st)) ∧
  (∀ idx, idx ∈ RR.q_list (RR.queue st) →
          ∃ pr, RR.procs st !! idx = Some pr ∧ RR.enqueued pr = true ∧
                0 < RR.remaining pr) ∧
  ¬ RR.skips_finished st ∧
  (∀ idx q1 pr c,
     RR.q_empty (RR.queue st) = false → RR.q_pop (RR.queue st) = Some (idx, q1) →
     RR.procs st !! idx = Some pr →
     Z.of_nat c ≤ Z.min (RR.remaining pr) quantum →
     let sc := RR.run_slice c idx
                 (RR.mkState (RR.procs st) (RR.segs st) q1 (RR.clock st)) in
     NoDup (RR.q_list (RR.queue sc)) ∧ (idx ∉ RR.q_list (RR.queue sc)) ∧
     (∀ j, j ∈ RR.q_list (RR.queue sc) →
           ∃ y, RR.procs sc !! j = Some y ∧ 0 < RR.remaining y)).
Proof.
  intros Hv Hq Hr. pose proof (RRFacts.reach_head_inv _ _ _ Hv Hq Hr) as H.
  assert (∀ run start te s j,
            RR.inv (RR.table_of recs) run start te s → j ∈ RR.q_list (RR.queue s) →
            ∃ y, RR.procs s !! j = Some y ∧ RR.enqueued y = true ∧
                 0 < RR.remaining y ∧ run ≠ Some j) as Hmem.
  { intros run start te s j Hs Hj.
    destruct (lookup_lt_is_Some_2 _ _ (RR.inv_range _ _ _ _ _ Hs j Hj)) as [y Hy].
    destruct (proj1 (RR.pi_queued _ _ _ _ _ (RR.inv_proc _ _ _ _ _ Hs j y Hy)) Hj)
      as (? & ? & ?).
    by exists y. }
  assert (∀ idx q1, RR.q_empty (RR.queue st) = false →
                    RR.q_pop (RR.queue st) = Some (idx, q1) →
                    ∃ l, RR.q_list (RR.queue st) = idx :: l ∧ RR.q_wf q1 ∧
                         RR.q_list q1 = l) as Hpop.
  { intros idx q1 Hne Hp.
    destruct (RR.q_list (RR.queue st)) as [|i l] eqn:Hl.
    - apply RRFacts.q_empty_list in Hl. congruence.
    - destruct (RRFacts.q_pop_spec _ _ _ (RR.inv_wf _ _ _ _ _ H) Hl)
        as (q' & Hp' & Hwf & Hl').
      rewrite Hp in Hp'. injection Hp' as <- <-. by exists l. }
  split_and!.
  - apply (RR.inv_nodup _ _ _ _ _ H).
  - intros idx Hidx. destruct (Hmem _ _ _ _ _ H Hidx) as (y & ? & ? & ? & _).
    by exists y.
  - intros (idx & q1 & pr & Hp & Hne & Hpr & Hle).
    destruct (Hpop idx q1 Hne Hp) as (l & Hl & _).
    destruct (Hmem _ _ _ st idx H) as (y & Hy & _ & Hpos & _); [rewrite Hl; left|].
    simplify_eq. lia.
  - intros idx q1 pr c Hne Hp Hpr Hc sc.
    destruct (Hpop idx q1 Hne Hp) as (l & Hl & Hwf & Hl1).
    pose proof (RRFacts.inv_pop (RR.table_of recs) (RR.clock st) st idx l q1
                                H Hl Hwf Hl1) as H1.
    destruct (RRFacts.inv_run_slice
                (RR.table_of recs) c idx (RR.clock st)
                (RR.mkState (RR.procs st) (RR.segs st) q1 (RR.clock st)) pr H1 Hpr)
      as (H2 & _ & _); [lia|].
    fold sc in H2. split_and!.
    + apply (RR.inv_nodup _ _ _ _ _ H2).
    + intros Hin. destruct (Hmem _ _ _ _ _ H2 Hin) as (_ & _ & _ & _ & Hrun). done.
    + intros j Hj. destruct (Hmem _ _ _ _ _ H2 Hj) as (y & ? & _ & ? & _). by exists y.
Qed.

Lemma C10_witness :
  valid_records scenario_A ∧
  ∃ st, RR.rr_init (RR.table_of scenario_A) = Some st ∧
        RR.q_list (RR.queue st) = [0%nat] ∧ NoDup (RR.q_list (RR.queue st)).
Proof.
  split; [exact valid_records_scenario_A|].
  eexists. split; [vm_compute; reflexivity|]. split; [vm_compute; reflexivity|].
  refine (proj1 (C10_ready_queue scenario_A 2 _ valid_records_scenario_A _ _)); [lia|].
  apply RR.reach_init. vm_compute. reflexivity.
Defined.

End Claims.

(** * Further facts about the recorder *)

Section RecorderMore.

Lemma time_of_snoc o l x :
  time_of o (l ++ [x]) = time_of o l + (if seg_pid x =? o then seg_len x else 0).
Proof.
  unfold time_of. rewrite filter_app, map_app, sumZ_app. f_equal.
  rewrite filter_cons, filter_nil.
  destruct (Z.eqb_spec (seg_pid x) o); case_decide; simpl; try done; lia.
Qed.

Lemma time_of_add_segment o segs pid s e :
  time_of o (add_segment segs pid s e)
  = time_of o segs + (if pid =? o then e - s else 0).
Proof.
  destruct (decide (s = e)) as [->|Hne].
  { rewrite add_segment_empty. destruct (pid =? o); lia. }
  destruct segs as [|x r _] using rev_ind.
  - rewrite add_segment_new_nil by done.
    change [mkSegment pid s e] with ([] ++ [mkSegment pid s e]).
    rewrite time_of_snoc. unfold seg_len. simpl. done.
  - destruct (decide (seg_pid x = pid ∧ seg_end x = s)) as [[Hp He]|Hn].
    + subst s. rewrite add_segment_merge by done.
      rewrite !time_of_snoc. unfold seg_len. simpl. rewrite Hp.
      destruct (pid =? o); lia.
    + rewrite add_segment_new_snoc by done.
      replace (r ++ [x; mkSegment pid s e]) with ((r ++ [x]) ++ [mkSegment pid s e])
        by (by rewrite <- app_assoc).
      rewrite (time_of_snoc o (r ++ [x])). unfold seg_len at 1. simpl. done.
Qed.

Lemma sumZ_pointwise {A B} (f : A → Z) (g : B → Z) (p : list A) (p' : list B) idx d k :
  length p' = length p →
  (∀ j y, p !! j = Some y →
          ∃ y', p' !! j = Some y' ∧
                g y' = f y + (if decide ((k + j)%nat = idx) then d else 0)) →
  sumZ (map g p') = sumZ (map f p)
                    + (if decide (k ≤ idx < k + length p)%nat then d else 0).
Proof.
  revert p' k. induction p as [|x r IH]; intros p' k Hlen H.
  - destruct p'; [|done]. simpl. case_decide; [lia|done].
  - destruct p' as [|x' r']; [done|]. simpl.
    destruct (H 0%nat x eq_refl) as (y' & Hy' & Hg). simpl in Hy'. injection Hy' as <-.
    rewrite (IH r' (S k)).
    + rewrite Hg. simpl. repeat case_decide; lia.
    + simpl in Hlen. lia.
    + intros j y Hy. destruct (H (S j) y Hy) as (y' & Hy' & Hg').
      exists y'. split; [done|]. rewrite Hg'. repeat case_decide; lia.
Qed.

Lemma time_of_pos a segs b o s :
  tiles a segs b → s ∈ segs → seg_pid s = o → 0 < time_of o segs.
Proof.
  revert a. induction segs as [|x r IH]; intros a Ht Hs Ho.
  { by apply elem_of_nil in Hs. }
  destruct Ht as (Ha & Hlt & Ht). unfold time_of. rewrite filter_cons.
  assert (0 ≤ time_of o r) as Hnn.
  { unfold time_of. apply sumZ_nonneg. intros z (u & -> & Hu)%list_elem_of_fmap.
    apply list_elem_of_filter in Hu as [_ Hu].
    apply list_elem_of_lookup in Hu as (i & Hi).
    destruct (tiles_lookup _ _ _ _ _ Ht Hi) as (_ & ? & _). unfold seg_len. lia. }
  apply elem_of_cons in Hs as [->|Hs].
  - rewrite decide_True by done. simpl. unfold time_of in Hnn. unfold seg_len at 1. lia.
  - specialize (IH _ Ht Hs Ho). unfold time_of in IH.
    case_decide; simpl; [unfold seg_len at 1|]; lia.
Qed.

Lemma elem_of_alter_inv {A} (f : A → A) i (l : list A) y :
  y ∈ alter f i l → y ∈ l ∨ ∃ x, l !! i = Some x ∧ y = f x.
Proof.
  intros (j & Hj)%list_elem_of_lookup.
  destruct (decide (j = i)) as [->|Hne].
  - rewrite list_lookup_alter_eq in Hj. destruct (l !! i) as [x|] eqn:E; [|done].
    right. exists x. simpl in Hj. by simplify_eq.
  - rewrite list_lookup_alter_ne in Hj by done. left. by eapply list_elem_of_lookup_2.
Qed.

Lemma elem_of_snoc {A} (l : list A) (x y : A) : y ∈ l ++ [x] → y ∈ l ∨ y = x.
Proof.
  intros [H|H]%elem_of_app; [by left|]. right. by apply list_elem_of_singleton in H.
Qed.

Lemma add_segment_owner_start segs pid a b s :
  s ∈ add_segment segs pid a b →
  (∃ s0, s0 ∈ segs ∧ seg_pid s0 = seg_pid s ∧ seg_start s0 = seg_start s) ∨
  (seg_pid s = pid ∧ seg_start s = a).
Proof.
  unfold add_segment. destruct (a =? b); [by left; exists s|].
  destruct (last segs) as [x|].
  - destruct ((seg_pid x =? pid) && (seg_end x =? a)).
    + intros [H|(y & Hy & ->)]%elem_of_alter_inv; left.
      * by exists s.
      * exists y. split; [by eapply list_elem_of_lookup_2|done].
    + intros [H| ->]%elem_of_snoc; [left; by exists s|by right].
  - intros [H| ->]%elem_of_snoc; [left; by exists s|by right].
Qed.

Lemma add_segment_other segs pid a b s :
  s ∈ add_segment segs pid a b → seg_pid s ≠ pid → s ∈ segs.
Proof.
  unfold add_segment. destruct (a =? b); [done|].
  destruct (last segs) as [x|] eqn:El.
  - destruct (Z.eqb_spec (seg_pid x) pid) as [Hp|]; simpl.
    + destruct (seg_end x =? a).
      * intros [H|(y & Hy & ->)]%elem_of_alter_inv Hne; [done|]. exfalso.
        apply Hne. simpl. rewrite last_lookup in El.
        replace (pred (length segs)) with (length segs - 1)%nat in El by lia.
        congruence.
      * intros [H| ->]%elem_of_snoc Hne; [done|]. by destruct Hne.
    + intros [H| ->]%elem_of_snoc Hne; [done|]. by destruct Hne.
  - intros [H| ->]%elem_of_snoc Hne; [done|]. by destruct Hne.
Qed.

Lemma tiles_elem_end a segs b s : tiles a segs b → s ∈ segs → seg_end s ≤ b.
Proof.
  intros Ht (i & Hi)%list_elem_of_lookup.
  by destruct (tiles_lookup _ _ _ _ _ Ht Hi) as (_ & _ & ?).
Qed.

Lemma sumZ_nonzero {A} (f : A → Z) l : sumZ (map f l) ≠ 0 → ∃ x, x ∈ l ∧ f x ≠ 0.
Proof.
  induction l as [|y l IH]; simpl; [done|]. intros H.
  destruct (decide (f y = 0)) as [Hz|Hnz].
  - destruct IH as (x & Hx & Hfx); [lia|]. exists x. split; [by right|done].
  - exists y. split; [left|done].
Qed.

Lemma add_segment_length segs pid s e :
  (length segs ≤ length (add_segment segs pid s e) ≤ length segs + 1)%nat.
Proof.
  unfold add_segment. destruct (s =? e); [lia|].
  destruct (last segs) as [x|].
  - destruct ((seg_pid x =? pid) && (seg_end x =? s)).
    + rewrite length_alter. lia.
    + rewrite length_app. simpl. lia.
  - rewrite length_app. simpl. lia.
Qed.

Lemma add_segment_prefix segs pid s e i :
  (S i < length segs)%nat → add_segment segs pid s e !! i = segs !! i.
Proof.
  intros Hi. unfold add_segment. destruct (s =? e); [done|].
  destruct (last segs) as [x|].
  - destruct ((seg_pid x =? pid) && (seg_end x =? s)).
    + apply list_lookup_alter_ne. lia.
    + apply lookup_app_l. lia.
  - apply lookup_app_l. lia.
Qed.

(** X14 (rr.c:39-59, sjf.c:42-62, [add_segment]): for every timeline and
    every call, whatever the arguments, the recorder credits the interval to
    its owner and to nobody else: the time of owner [o] grows by
    [end - start] when [pid = o] and is unchanged otherwise; the timeline
    grows by at most one segment, and no segment before the last one is
    touched. *)
Theorem X14_recorder_accounting (o : Z) (segs : list Segment) (pid s e : Z) :
  time_of o (add_segment segs pid s e)
  = time_of o segs + (if pid =? o then e - s else 0) ∧
  (length segs ≤ length (add_segment segs pid s e) ≤ length segs + 1)%nat ∧
  ∀ i, (S i < length segs)%nat → add_segment segs pid s e !! i = segs !! i.
Proof.
  split; [|split].
  - apply time_of_add_segment.
  - apply add_segment_length.
  - intros i. apply add_segment_prefix.
Qed.

End RecorderMore.

(** * The scenarios of the examples *)

Section Scenarios.

Lemma valid_records_scenario_late : valid_records scenario_late.
Proof.
  split; [done|]. intros a b c H. unfold scenario_late in H.
  repeat (apply elem_of_cons in H as [H|H]; [simplify_eq; lia|]).
  by apply elem_of_nil in H.
Qed.

Lemma valid_records_scenario_gap : valid_records scenario_gap.
Proof.
  split; [done|]. intros a b c H. unfold scenario_gap in H.
  repeat (apply elem_of_cons in H as [H|H]; [simplify_eq; lia|]).
  by apply elem_of_nil in H.
Qed.

End Scenarios.

(** * Further facts about rr.c *)

Module RRMore.
Import RR RRFacts.

(** ** The queue and [enqueue_arrivals] *)

Lemma q_push_cap q v :
  q_cap (q_push q v) = (if (q_size q =? q_cap q)%nat then q_cap q * 2 else q_cap q)%nat.
Proof. unfold q_push. by destruct (q_size q =? q_cap q)%nat. Qed.

Lemma q_push_size q v : q_size (q_push q v) = S (q_size q).
Proof. unfold q_push. by destruct (q_size q =? q_cap q)%nat. Qed.



Lemma arrived_from_ge j i p t : j ∈ arrived_from i p t → (i ≤ j)%nat.
Proof. by intros [? _]%elem_of_arrived_from. Qed.

Lemma arrived_from_increasing i p t : increasing (arrived_from i p t).
Proof.
  revert i. induction p as [|x r IH]; intros i a b u v Hab Ha Hb; simpl in *.
  - by rewrite lookup_nil in Ha.
  - destruct (arrives t x); [|by eapply (IH (S i))].
    destruct b as [|b]; [lia|]. destruct a as [|a]; simpl in *.
    + simplify_eq. apply list_elem_of_lookup_2, arrived_from_ge in Hb. lia.
    + eapply (IH (S i) a b); [lia|done..].
Qed.

(** ** The slice, unit by unit *)

Lemma tick_shape idx st :
  q_wf (queue st) →
  ∃ q', tick idx st = mkState (map (mark (clock st + 1)) (alter dec idx (procs st)))
                              (segs st) q' (clock st + 1) ∧
        q_wf q' ∧
        q_list q' = q_list (queue st)
                    ++ arrived_from 0 (alter dec idx (procs st)) (clock st + 1).
Proof.
  intros Hq.
  destruct (enqueue_arrivals_spec (alter dec idx (procs st)) (queue st) (clock st + 1) Hq)
    as (q' & He & Hwf & Hl).
  exists q'. split; [|done]. unfold tick. fold dec. by rewrite He.
Qed.

Lemma rr_arrival_ordered_app p l1 l2 :
  rr_arrival_ordered p l1 → rr_arrival_ordered p l2 →
  (∀ i j x y, i ∈ l1 → j ∈ l2 → p !! i = Some x → p !! j = Some y →
              arrival x < arrival y) →
  rr_arrival_ordered p (l1 ++ l2).
Proof.
  intros H1 H2 H12 a b i j x y Hab Ha Hb Hx Hy.
  apply lookup_app_Some in Ha as [Ha|[Hla Ha]];
    apply lookup_app_Some in Hb as [Hb|[Hlb Hb]].
  - by eapply (H1 a b).
  - left. eapply H12; [by eapply list_elem_of_lookup_2..|done|done].
  - apply lookup_lt_Some in Hb. lia.
  - eapply (H2 (a - length l1)%nat (b - length l1)%nat); [lia|done..].
Qed.

Lemma rr_arrival_ordered_ext p p' l :
  (∀ i x', p' !! i = Some x' → ∃ x, p !! i = Some x ∧ arrival x = arrival x') →
  rr_arrival_ordered p l → rr_arrival_ordered p' l.
Proof.
  intros He H a b i j x y Hab Ha Hb Hx Hy.
  destruct (He _ _ Hx) as (x0 & Hx0 & <-). destruct (He _ _ Hy) as (y0 & Hy0 & <-).
  by eapply (H a b).
Qed.

Lemma run_slice_exact c idx st x :
  q_wf (queue st) → procs st !! idx = Some x → Z.of_nat c ≤ remaining x →
  (∀ j y, procs st !! j = Some y → enqueued y = false → clock st < arrival y) →
  let st' := run_slice c idx st in
  clock st' = clock st + Z.of_nat c ∧ segs st' = segs st ∧ q_wf (queue st') ∧
  length (procs st') = length (procs st) ∧
  (∀ j y, procs st !! j = Some y →
          ∃ y', procs st' !! j = Some y' ∧ key y' = key y ∧
                completion y' = completion y ∧
                remaining y' = (if decide (j = idx) then remaining y - Z.of_nat c
                                else remaining y) ∧
                enqueued y' = enqueued y || (arrival y <=? clock st')) ∧
  ∃ new, q_list (queue st') = q_list (queue st) ++ new ∧
         (∀ j, j ∈ new ↔ ∃ y, procs st !! j = Some y ∧ enqueued y = false ∧
                              arrival y ≤ clock st') ∧
         rr_arrival_ordered (procs st) new.
Proof.
  revert st x. induction c as [|c IH]; intros st x Hq Hx Hc HF.
  - simpl. split_and!; try done; try lia.
    + intros j y Hy. exists y. split_and!; try done.
      * destruct (decide (j = idx)); lia.
      * destruct (enqueued y) eqn:E; [done|]. simpl. symmetry. apply Z.leb_gt.
        replace (clock st + 0) with (clock st) by lia. by eapply HF.
    + exists []. split_and!.
      * by rewrite app_nil_r.
      * intros j. split; [by intros ?%elem_of_nil|].
        intros (y & Hy & He & Ha). specialize (HF j y Hy He). lia.
      * intros a b i j ? ? _ Ha. by rewrite lookup_nil in Ha.
  - destruct (tick_shape idx st Hq) as (q' & Ht & Hwf & Hl).
    set (st1 := tick idx st) in *.
    assert (procs st1 !! idx = Some (mark (clock st + 1) (dec x))) as Hx1.
    { rewrite Ht. simpl. by rewrite list_lookup_fmap, list_lookup_alter_eq, Hx. }
    assert (remaining (mark (clock st + 1) (dec x)) = remaining x - 1) as Hr1.
    { by destruct (mark_fields (clock st + 1) (dec x)) as (_ & _ & _ & -> & _). }
    assert (∀ j y, procs st !! j = Some y →
              ∃ y1, procs st1 !! j = Some y1 ∧ key y1 = key y ∧
                    completion y1 = completion y ∧
                    remaining y1 = (if decide (j = idx) then remaining y - 1
                                    else remaining y) ∧
                    enqueued y1 = enqueued y || (arrival y <=? clock st + 1)) as Hstep.
    { intros j y Hy. rewrite Ht. simpl. rewrite list_lookup_fmap.
      destruct (decide (j = idx)) as [->|Hne].
      - rewrite list_lookup_alter_eq, Hy. simpl. eexists. split; [done|].
        destruct (mark_fields (clock st + 1) (dec y)) as (Hp & Ha & Hb & Hr & Hco & He).
        unfold key. rewrite Hp, Ha, Hb, Hr, Hco, He. done.
      - rewrite list_lookup_alter_ne by done. rewrite Hy. simpl. eexists. split; [done|].
        destruct (mark_fields (clock st + 1) y) as (Hp & Ha & Hb & Hr & Hco & He).
        unfold key. rewrite Hp, Ha, Hb, Hr, Hco, He. done. }
    assert (length (procs st1) = length (procs st)) as Hlen1.
    { rewrite Ht. simpl. by rewrite length_fmap, length_alter. }
    assert (∀ j y1, procs st1 !! j = Some y1 →
              ∃ y, procs st !! j = Some y) as Hback.
    { intros j y1 Hy1. apply lookup_lt_Some in Hy1. rewrite Hlen1 in Hy1.
      by apply lookup_lt_is_Some_2 in Hy1 as [y ?]; eauto. }
    assert (clock st1 = clock st + 1) as Hc1 by (by rewrite Ht).
    assert (queue st1 = q') as Hq1 by (by rewrite Ht).
    assert (segs st1 = segs st) as Hs1 by (by rewrite Ht).
    assert (run_slice (S c) idx st = run_slice c idx st1) as ->.
    { simpl. fold st1. rewrite Hx1, Hr1.
      destruct (Z.eqb_spec (remaining x - 1) 0) as [E|]; [|done].
      assert (c = O) as -> by lia. done. }
    destruct (IH st1 _ ltac:(by rewrite Hq1) Hx1 ltac:(lia)) as
      (Hck & Hsg & Hwf2 & Hlen2 & Hall & new & Hnl & Hnm & Hno).
    { intros j y1 Hy1 He1. destruct (Hback _ _ Hy1) as (y & Hy).
      destruct (Hstep _ _ Hy) as (y1' & Hy1' & Hk & _ & _ & He).
      rewrite Hy1 in Hy1'. injection Hy1' as <-.
      rewrite He in He1. rewrite Hc1. apply orb_false_iff in He1 as [_ He1].
      apply Z.leb_gt in He1. unfold key in Hk. injection Hk as _ Hk _. lia. }
    set (st2 := run_slice c idx st1) in *.
    assert (clock st2 = clock st + Z.of_nat (S c)) as Hck2 by lia.
    split_and!; try done; try congruence.
    + intros j y Hy. destruct (Hstep _ _ Hy) as (y1 & Hy1 & Hk1 & Hco1 & Hr1' & He1).
      destruct (Hall _ _ Hy1) as (y2 & Hy2 & Hk2 & Hco2 & Hr2 & He2).
      exists y2. split_and!; try congruence.
      * rewrite Hr2, Hr1'. destruct (decide (j = idx)); lia.
      * rewrite He2, He1. unfold key in Hk1. injection Hk1 as _ Hk1 _. rewrite Hk1.
        rewrite <- orb_assoc. f_equal.
        destruct (Z.leb_spec (arrival y) (clock st + 1)),
                 (Z.leb_spec (arrival y) (clock st2)); try done. lia.
    + exists (arrived_from 0 (alter dec idx (procs st)) (clock st + 1) ++ new).
      assert (∀ j, j ∈ arrived_from 0 (alter dec idx (procs st)) (clock st + 1) ↔
                   ∃ y, procs st !! j = Some y ∧ enqueued y = false ∧
                        arrival y ≤ clock st + 1) as Hm1.
      { intros j. rewrite elem_of_arrived. unfold arrives. split.
        - intros (y' & Hy' & Ha).
          destruct (decide (j = idx)) as [->|Hne].
          + rewrite list_lookup_alter_eq, Hx in Hy'. simpl in Hy'. simplify_eq.
            simpl in Ha. exists x. split; [done|].
            apply andb_true_iff in Ha as [H1 H2]. apply negb_true_iff in H1.
            by apply Z.leb_le in H2.
          + rewrite list_lookup_alter_ne in Hy' by done. exists y'. split; [done|].
            apply andb_true_iff in Ha as [H1 H2]. apply negb_true_iff in H1.
            by apply Z.leb_le in H2.
        - intros (y & Hy & He & Ha).
          destruct (decide (j = idx)) as [->|Hne].
          + exists (dec y). rewrite list_lookup_alter_eq, Hy. split; [done|]. simpl.
            rewrite He. simpl. by apply Z.leb_le.
          + exists y. rewrite list_lookup_alter_ne by done. split; [done|].
            rewrite He. simpl. by apply Z.leb_le. }
      split_and!.
      * rewrite Hnl, Hq1, Hl, <- app_assoc. done.
      * intros j. rewrite elem_of_app, Hm1, Hnm. split.
        -- intros [(y & Hy & He & Ha)|(y1 & Hy1 & He1 & Ha1)].
           ++ exists y. split_and!; [done..|lia].
           ++ destruct (Hback _ _ Hy1) as (y & Hy).
              destruct (Hstep _ _ Hy) as (y1' & Hy1' & Hk & _ & _ & He).
              rewrite Hy1 in Hy1'. injection Hy1' as <-.
              rewrite He in He1. apply orb_false_iff in He1 as [He1 _].
              unfold key in Hk. injection Hk as _ Hk _.
              exists y. split_and!; [done..|lia].
        -- intros (y & Hy & He & Ha).
           destruct (decide (arrival y ≤ clock st + 1)) as [Hle|Hgt].
           ++ left. by exists y.
           ++ right. destruct (Hstep _ _ Hy) as (y1 & Hy1 & Hk & _ & _ & He1).
              exists y1. unfold key in Hk. injection Hk as _ Hk _.
              split_and!; [done| |lia].
              rewrite He1, He. simpl. apply Z.leb_gt. lia.
      * apply rr_arrival_ordered_app.
        -- intros a b i j u v Hab Ha Hb Hu Hv.
           pose proof (arrived_from_increasing _ _ _ a b i j Hab Ha Hb).
           apply list_elem_of_lookup_2, Hm1 in Ha as (u' & Hu' & Hue & Hua).
           apply list_elem_of_lookup_2, Hm1 in Hb as (v' & Hv' & Hve & Hva).
           rewrite Hu in Hu'. injection Hu' as <-. rewrite Hv in Hv'. injection Hv' as <-.
           pose proof (HF _ _ Hu Hue). pose proof (HF _ _ Hv Hve).
           right. split; lia.
        -- eapply rr_arrival_ordered_ext; [|exact Hno].
           intros i u Hu. destruct (Hstep _ _ Hu) as (u1 & Hu1 & Hk & _).
           exists u1. unfold key in Hk. injection Hk as _ Hk _. done.
        -- intros i j u v (u' & Hu' & Hue & Hua)%Hm1 (v1 & Hv1 & Hve & Hva)%Hnm Hu Hv.
           rewrite Hu in Hu'. injection Hu' as <-.
           destruct (Hstep _ _ Hv) as (v1' & Hv1' & Hk & _ & _ & He).
           rewrite Hv1 in Hv1'. injection Hv1' as <-.
           rewrite He in Hve. apply orb_false_iff in Hve as [_ Hve].
           apply Z.leb_gt in Hve. unfold key in Hk. injection Hk as _ Hk _. lia.
Qed.

(** ** One pass of the while loop, exactly *)

Lemma head_inv_flag p0 st j y :
  head_inv p0 st → procs st !! j = Some y →
  (enqueued y = false ↔ clock st < arrival y).
Proof.
  intros H Hy. destruct (inv_proc _ _ _ _ _ H j y Hy) as [_ _ _ He _ _ _ _ _].
  destruct (enqueued y).
  - split; [done|]. intros ?. assert (arrival y ≤ clock st) by by apply He. lia.
  - split; [|done]. intros _. destruct (decide (arrival y ≤ clock st)) as [Hle|]; [|lia].
    apply He in Hle. done.
Qed.

Lemma rr_iter_dispatch p0 quantum st idx l pr :
  0 < quantum → head_inv p0 st →
  q_list (queue st) = idx :: l → procs st !! idx = Some pr →
  let s := Z.min (remaining pr) quantum in
  ∃ st' new,
    rr_iter quantum st = Continue st' ∧ 0 < s ∧
    clock st' = clock st + s ∧
    segs st' = add_segment (segs st) (pid pr) (clock st) (clock st + s) ∧
    length (procs st') = length (procs st) ∧
    (∀ j y, procs st !! j = Some y →
            ∃ y', procs st' !! j = Some y' ∧ key y' = key y ∧
                  remaining y' = (if decide (j = idx) then remaining y - s
                                  else remaining y) ∧
                  completion y' = (if decide (j = idx ∧ remaining y ≤ quantum)
                                   then clock st + s else completion y)) ∧
    q_list (queue st')
    = l ++ new ++ (if decide (remaining pr ≤ quantum) then [] else [idx]) ∧
    (∀ j, j ∈ new ↔ ∃ y, procs st !! j = Some y ∧ clock st < arrival y ≤ clock st + s) ∧
    rr_arrival_ordered (procs st) new.
Proof.
  intros Hq H Hl Hpr s.
  destruct (q_pop_spec _ _ _ (inv_wf _ _ _ _ _ H) Hl) as (q1 & Hpop & Hwf1 & Hl1).
  assert (q_empty (queue st) = false) as Hemp.
  { destruct (q_empty (queue st)) eqn:E; [|done].
    apply q_empty_list in E. congruence. }
  assert (idx ∈ q_list (queue st)) as Hin by (rewrite Hl; left).
  destruct (proj1 (pi_queued _ _ _ _ _ (inv_proc _ _ _ _ _ H idx pr Hpr)) Hin)
    as (Hen & Hrem & _).
  set (st1 := mkState (procs st) (segs st) q1 (clock st)).
  assert ((if remaining pr <? quantum then remaining pr else quantum) = s) as Hs.
  { unfold s. destruct (Z.ltb_spec (remaining pr) quantum); lia. }
  assert (0 < s ≤ remaining pr) as Hslice by (unfold s; lia).
  destruct (run_slice_exact (Z.to_nat s) idx st1 pr Hwf1 Hpr ltac:(lia))
    as (Hck & Hsg & Hwf2 & Hlen & Hall & new & Hnl & Hnm & Hno).
  { intros j y Hy He. by apply (head_inv_flag p0 st j y H Hy). }
  set (st2 := run_slice (Z.to_nat s) idx st1) in *.
  rewrite Z2Nat.id in Hck, Hall by lia. simpl in Hck, Hsg, Hlen, Hall, Hnl, Hnm, Hno.
  destruct (Hall idx pr Hpr) as (pr2 & Hpr2 & Hk2 & Hco2 & Hr2 & _).
  rewrite decide_True in Hr2 by done.
  assert (pid pr2 = pid pr) as Hpid by (unfold key in Hk2; congruence).
  assert (∀ j, j ∈ new ↔ ∃ y, procs st !! j = Some y ∧
                              clock st < arrival y ≤ clock st + s) as Hnm'.
  { intros j. rewrite Hnm, Hck. split; intros (y & Hy & HH); exists y; (split; [done|]).
    - destruct HH as [He Ha]. apply (head_inv_flag p0 st j y H Hy) in He. lia.
    - split; [|lia]. apply (head_inv_flag p0 st j y H Hy). lia. }
  unfold rr_iter. rewrite Hemp, Hpop, Hpr.
  destruct (Z.leb_spec (remaining pr) 0) as [|_]; [lia|].
  rewrite Hs. fold st1. fold st2. rewrite Hpr2, Hpid, Hsg, Hck.
  destruct (Z.eqb_spec (remaining pr2) 0) as [Hz|Hnz].
  - assert (remaining pr ≤ quantum) as Hle by (unfold s in *; lia).
    eexists _, new. split; [done|]. simpl. split_and!; try done; try lia.
    + by rewrite length_alter.
    + intros j y Hy. destruct (Hall j y Hy) as (y' & Hy' & Hk & Hco & Hr & _).
      destruct (decide (j = idx)) as [->|Hne].
      * rewrite list_lookup_alter_eq, Hy'. simpl. eexists. split; [done|].
        simpl. rewrite Hpr in Hy. injection Hy as <-.
        rewrite decide_True by done. done.
      * rewrite list_lookup_alter_ne by done. exists y'. split; [done|].
        rewrite decide_False by tauto. done.
    + rewrite Hnl, Hl1. rewrite decide_True by done. by rewrite app_nil_r.
  - assert (¬ remaining pr ≤ quantum) as Hgt by (unfold s in *; lia).
    eexists _, new. split; [done|]. simpl. split_and!; try done; try lia.
    + intros j y Hy. destruct (Hall j y Hy) as (y' & Hy' & Hk & Hco & Hr & _).
      exists y'. split_and!; try done.
      destruct (decide (j = idx ∧ remaining y ≤ quantum)) as [[-> ?]|]; [|done].
      rewrite Hpr in Hy. injection Hy as <-. done.
    + destruct (q_push_spec (queue st2) idx Hwf2) as [_ ->].
      rewrite Hnl, Hl1. rewrite decide_False by done. by rewrite app_assoc.
Qed.

Lemma rr_iter_idle p0 quantum st :
  head_inv p0 st → all_done (procs st) = false → q_empty (queue st) = true →
  ∃ st' na,
    rr_iter quantum st = Continue st' ∧ clock st < na ∧
    (∀ x, x ∈ procs st → arrival x ≤ clock st → remaining x = 0) ∧
    (∃ x, x ∈ procs st ∧ arrival x = na) ∧
    (∀ x, x ∈ procs st → clock st < arrival x → na ≤ arrival x) ∧
    clock st' = na ∧
    segs st' = add_segment (segs st) IDLE (clock st) na ∧
    length (procs st') = length (procs st) ∧
    (∀ j y, procs st !! j = Some y →
            ∃ y', procs st' !! j = Some y' ∧ key y' = key y ∧
                  remaining y' = remaining y ∧ completion y' = completion y) ∧
    increasing (q_list (queue st')) ∧
    (∀ j, j ∈ q_list (queue st') ↔ ∃ y, procs st !! j = Some y ∧ arrival y = na).
Proof.
  intros H Hnd Hemp. pose proof (proj1 (q_empty_list _) Hemp) as Hl.
  assert (∀ x, x ∈ procs st → 0 ≤ arrival x) as Harr.
  { intros x (i & Hx)%list_elem_of_lookup. by destruct (inv_proc _ _ _ _ _ H i x Hx). }
  assert (∀ x, x ∈ procs st → 0 < remaining x → waiting_outside x ∧ clock st < arrival x)
    as Hout.
  { intros x (i & Hx)%list_elem_of_lookup Hr.
    destruct (inv_proc _ _ _ _ _ H i x Hx) as [_ _ _ Henq _ _ _ _ HQ].
    rewrite Hl in HQ. destruct (enqueued x) eqn:E.
    - exfalso. eapply elem_of_nil, HQ. done.
    - split; [done|]. destruct (decide (arrival x ≤ clock st)) as [Hle|]; [|lia].
      apply Henq in Hle. done. }
  assert (∀ x, x ∈ procs st → clock st < arrival x → waiting_outside x) as Hlater.
  { intros x (i & Hx)%list_elem_of_lookup Ha.
    pose proof (proj2 (head_inv_flag p0 st i x H Hx) Ha) as He.
    destruct (inv_proc _ _ _ _ _ H i x Hx) as [_ Hb Hr _ Hran _ _ _ _].
    split; [|done]. destruct (decide (remaining x < burst x)) as [Hlt|]; [|lia].
    destruct (Hran Hlt) as [? _]. congruence. }
  apply all_done_false in Hnd as (y & Hy & Hry).
  destruct (next_arrival_spec (procs st) Harr) as (Hne & (z & Hz & Hwz & Haz) & Hmin).
  { exists y. split; [done|]. by apply Hout. }
  destruct (Hout z Hz (proj1 Hwz)) as [_ Hlt].
  set (na := next_arrival (procs st)) in *.
  destruct (enqueue_arrivals_spec (procs st) (queue st) na (inv_wf _ _ _ _ _ H))
    as (q' & Heq & Hwf' & Hl').
  unfold rr_iter. rewrite Hemp. fold na.
  destruct (Z.eqb_spec na (-1)) as [|_]; [done|].
  destruct (Z.ltb_spec (clock st) na) as [_|]; [|lia].
  rewrite Heq. exists (mkState (map (mark na) (procs st))
                          (add_segment (segs st) IDLE (clock st) na) q' na), na.
  split; [done|]. simpl. split_and!; try done; try lia.
  - intros x Hx Ha. destruct (decide (0 < remaining x)) as [Hp|Hn].
    + destruct (Hout x Hx Hp). lia.
    + apply list_elem_of_lookup in Hx as (i & Hx).
      destruct (inv_proc _ _ _ _ _ H i x Hx) as [_ _ Hr _ _ _ _ _ _]. lia.
  - by exists z.
  - intros x Hx Ha. apply Hmin; [done|]. by apply Hlater.
  - by rewrite length_fmap.
  - intros j y' Hy'. rewrite list_lookup_fmap, Hy'. simpl. eexists. split; [done|].
    destruct (mark_fields na y') as (Hp & Ha & Hb & Hr & Hco & _).
    unfold key. by rewrite Hp, Ha, Hb, Hr, Hco.
  - rewrite Hl', Hl. simpl. apply arrived_from_increasing.
  - intros j. rewrite Hl', Hl. simpl. rewrite elem_of_arrived. unfold arrives.
    split.
    + intros (x & Hx & Ha). exists x. split; [done|].
      apply andb_true_iff in Ha as [H1 H2]. apply negb_true_iff in H1.
      apply Z.leb_le in H2.
      apply (head_inv_flag p0 st j x H Hx) in H1.
      pose proof (Hmin x (list_elem_of_lookup_2 _ _ _ Hx)
                    (Hlater x (list_elem_of_lookup_2 _ _ _ Hx) H1)). lia.
    + intros (x & Hx & Ha). exists x. split; [done|].
      rewrite (proj2 (head_inv_flag p0 st j x H Hx)) by lia. simpl.
      apply Z.leb_le. lia.
Qed.

(** ** The capacity of the queue *)

Lemma enqueue_arrivals_from_cap i p q t p' q' :
  enqueue_arrivals_from i p q t = (p', q') →
  (q_size q ≤ q_size q')%nat ∧
  ((q_size q' ≤ q_cap q)%nat → q_cap q' = q_cap q).
Proof.
  revert i q p' q'. induction p as [|x r IH]; intros i q p' q'; simpl.
  { by intros [= <- <-]. }
  destruct (negb (enqueued x) && (arrival x <=? t)).
  - destruct (enqueue_arrivals_from (S i) r (q_push q i) t) as [r1 q1] eqn:E.
    intros [= <- <-]. destruct (IH _ _ _ _ E) as [IH1 IH2].
    rewrite q_push_size in IH1. rewrite q_push_cap in IH2.
    split; [lia|]. intros Hle.
    destruct (Nat.eqb_spec (q_size q) (q_cap q)) as [|_]; [lia|]. by apply IH2.
  - destruct (enqueue_arrivals_from (S i) r q t) as [r1 q1] eqn:E.
    intros [= <- <-]. by apply (IH _ _ _ _ E).
Qed.

Lemma tick_cap idx st :
  (q_size (queue st) ≤ q_size (queue (tick idx st)))%nat ∧
  ((q_size (queue (tick idx st)) ≤ q_cap (queue st))%nat →
   q_cap (queue (tick idx st)) = q_cap (queue st)).
Proof.
  unfold tick, enqueue_arrivals.
  destruct (enqueue_arrivals_from 0 _ (queue st) (clock st + 1)) as [p2 q2] eqn:E.
  simpl. by apply enqueue_arrivals_from_cap in E.
Qed.

Lemma run_slice_cap c idx st :
  (q_size (queue st) ≤ q_size (queue (run_slice c idx st)))%nat ∧
  ((q_size (queue (run_slice c idx st)) ≤ q_cap (queue st))%nat →
   q_cap (queue (run_slice c idx st)) = q_cap (queue st)).
Proof.
  revert st. induction c as [|c IH]; intros st; simpl; [done|].
  pose proof (tick_cap idx st) as [H1 H2].
  destruct (procs (tick idx st) !! idx) as [x|]; [|done].
  destruct (remaining x =? 0); [done|].
  destruct (IH (tick idx st)) as [H3 H4]. split; [lia|].
  intros Hle. rewrite <- H2 by lia. apply H4. rewrite H2 by lia. done.
Qed.

Lemma q_pop_cap q x q' :
  q_pop q = Some (x, q') → q_cap q' = q_cap q ∧ q_size q' = (q_size q - 1)%nat.
Proof.
  unfold q_pop. destruct (q_data q !! q_head q); intros ?; by simplify_eq.
Qed.

Lemma head_inv_size p0 st :
  head_inv p0 st → (q_size (queue st) ≤ length p0)%nat.
Proof.
  intros H. rewrite <- q_list_length.
  assert (length p0 = length (seq 0 (length (procs st)))) as ->.
  { rewrite length_seq, <- (length_map key p0), <- (inv_key _ _ _ _ _ H), length_map.
    done. }
  apply submseteq_length, NoDup_submseteq; [apply (inv_nodup _ _ _ _ _ H)|].
  intros i Hi. apply elem_of_seq. pose proof (inv_range _ _ _ _ _ H i Hi). lia.
Qed.

Lemma rr_iter_cap p0 quantum st st' :
  0 < quantum → head_inv p0 st → all_done (procs st) = false →
  (length p0 ≤ q_cap (queue st))%nat →
  rr_iter quantum st = Continue st' →
  q_cap (queue st') = q_cap (queue st).
Proof.
  intros Hq H Hnd Hcap Hit.
  destruct (rr_iter_progress p0 quantum st Hq H Hnd) as (st2 & Hit2 & H2 & _).
  rewrite Hit in Hit2. injection Hit2 as <-.
  pose proof (head_inv_size _ _ H2) as Hsz.
  revert Hit. unfold rr_iter.
  destruct (q_empty (queue st)).
  - destruct (next_arrival (procs st) =? -1); [done|].
    unfold enqueue_arrivals.
    destruct (enqueue_arrivals_from 0 (procs st) (queue st) _) as [p' q'] eqn:E.
    apply enqueue_arrivals_from_cap in E as [_ Hc].
    intros [= <-]. simpl in *. apply Hc. lia.
  - destruct (q_pop (queue st)) as [[idx q1]|] eqn:Hpop; [|done].
    apply q_pop_cap in Hpop as [Hc1 Hs1].
    destruct (procs st !! idx) as [pr|]; [|done].
    destruct (remaining pr <=? 0).
    { intros [= <-]. done. }
    set (c := Z.to_nat _).
    pose proof (run_slice_cap c idx (mkState (procs st) (segs st) q1 (clock st)))
      as [Hr1 Hr2].
    set (st2 := run_slice c idx _) in *. simpl in Hr1, Hr2.
    destruct (procs st2 !! idx) as [pr2|]; [|done].
    destruct (remaining pr2 =? 0).
    + intros [= <-]. cbn [queue] in *. rewrite Hr2; [done|lia].
    + intros [= <-]. cbn [queue] in *. rewrite q_push_size in Hsz. rewrite q_push_cap.
      destruct (Nat.eqb_spec (q_size (queue st2)) (q_cap (queue st2))) as [E|_].
      * rewrite Hr2 in E by lia. lia.
      * rewrite Hr2; [done|lia].
Qed.

(** ** The initial state *)

Lemma earliest_fold_spec acc (r : list Process) :
  let e := foldl (λ e y, if arrival y <? e then arrival y else e) acc r in
  (e = acc ∨ ∃ y, y ∈ r ∧ arrival y = e) ∧ e ≤ acc ∧ ∀ y, y ∈ r → e ≤ arrival y.
Proof.
  revert acc. induction r as [|x r IH]; intros acc; simpl.
  - split_and!; [by left|lia|]. by intros y ?%elem_of_nil.
  - destruct (IH (if arrival x <? acc then arrival x else acc)) as (H1 & H2 & H3).
    destruct (Z.ltb_spec (arrival x) acc).
    + split_and!.
      * right. destruct H1 as [->|(y & Hy & <-)]; [exists x; split; [left|done]|].
        exists y. split; [by right|done].
      * lia.
      * intros y [->|Hy]%elem_of_cons; [lia|by apply H3].
    + split_and!.
      * destruct H1 as [->|(y & Hy & <-)]; [by left|].
        right. exists y. split; [by right|done].
      * lia.
      * intros y [->|Hy]%elem_of_cons; [lia|by apply H3].
Qed.

Lemma earliest_arrival_spec p e :
  earliest_arrival p = Some e →
  (∃ x, x ∈ p ∧ arrival x = e) ∧ ∀ x, x ∈ p → e ≤ arrival x.
Proof.
  destruct p as [|x r]; [done|]. intros [= <-].
  destruct (earliest_fold_spec (arrival x) r) as (H1 & H2 & H3). split.
  - destruct H1 as [->|(y & Hy & <-)]; [exists x; split; [left|done]|].
    exists y. split; [by right|done].
  - intros y [->|Hy]%elem_of_cons; [lia|by apply H3].
Qed.

Lemma length_arrived_from i p t : (length (arrived_from i p t) ≤ length p)%nat.
Proof.
  revert i. induction p as [|x r IH]; intros i; simpl; [done|].
  destruct (arrives t x); simpl; specialize (IH (S i)); lia.
Qed.

Lemma rr_init_shape recs :
  valid_records recs →
  ∃ st e,
    rr_init (table_of recs) = Some st ∧
    (∃ a c, (a, e, c) ∈ recs) ∧ (∀ a b c, (a, b, c) ∈ recs → e ≤ b) ∧
    clock st = e ∧
    segs st = (if 0 <? e then [mkSegment IDLE 0 e] else []) ∧
    procs st = map (λ r, let '(a, b, c) := r in mkProcess a b c c (-1) 0 0 (b =? e)) recs ∧
    q_list (queue st) = arrived_from 0 (table_of recs) e ∧
    q_cap (queue st) = Nat.max (length recs) 4 ∧
    procs st = map (mark e) (table_of recs).
Proof.
  intros [Hne Hval].
  destruct (earliest_arrival (table_of recs)) as [e|] eqn:He.
  2:{ destruct recs as [|[[a b] c] r]; done. }
  destruct (earliest_arrival_spec _ _ He) as ((x & Hx & Hxe) & Hmin).
  apply elem_of_table_of in Hx as (a & b & c & Hr & ->). simpl in Hxe. subst b.
  assert (0 ≤ e) as Hpos by (by destruct (Hval a e c Hr)).
  assert (∀ a b c, (a, b, c) ∈ recs → e ≤ b) as Hmin'.
  { intros a' b' c' Hr'.
    apply (Hmin (mkProcess a' b' c' c' (-1) 0 0 false)), elem_of_table_of. eauto. }
  unfold rr_init. rewrite He.
  assert ((if 0 <? e then e else 0) = e) as ->.
  { destruct (Z.ltb_spec 0 e); lia. }
  set (q0 := q_init _).
  assert (q_wf q0) as Hq0.
  { apply q_init_wf. destruct (4 <? length (table_of recs))%nat eqn:E; [|lia].
    apply Nat.ltb_lt in E. lia. }
  assert (q_cap q0 = Nat.max (length recs) 4) as Hcap0.
  { unfold q0, table_of. rewrite length_map. simpl.
    destruct (Nat.ltb_spec 4 (length recs)); lia. }
  destruct (enqueue_arrivals_spec (table_of recs) q0 e Hq0) as (q' & Heq & Hwf & Hl).
  pose proof (enqueue_arrivals_from_cap 0 (table_of recs) q0 e _ _ Heq) as [_ Hc].
  rewrite Heq.
  eexists _, e. split; [done|]. simpl. split_and!; try done.
  - by exists a, c.
  - destruct (Z.ltb_spec 0 e); [|done]. unfold add_segment.
    destruct (Z.eqb_spec 0 e); [lia|done].
  - unfold table_of. rewrite map_map. apply map_ext_in.
    intros [[a' b'] c'] Hin. unfold mark, arrives. simpl.
    apply list_elem_of_In in Hin. pose proof (Hmin' _ _ _ Hin).
    destruct (Z.leb_spec b' e), (Z.eqb_spec b' e); try lia; done.
  - rewrite Hc; [done|]. rewrite <- (q_list_length q'), Hl, length_app, Hcap0.
    pose proof (length_arrived_from 0 (table_of recs) e) as Hlen.
    unfold table_of in Hlen at 2. rewrite length_map in Hlen.
    unfold q0. rewrite q_init_list. simpl. lia.
Qed.

(** ** The time of each owner *)

Lemma rr_iter_break quantum st st' : rr_iter quantum st = Break st' → st' = st.
Proof.
  unfold rr_iter. destruct (q_empty (queue st)).
  - destruct (next_arrival (procs st) =? -1); [by intros [= <-]|].
    by destruct (enqueue_arrivals _ _ _).
  - destruct (q_pop (queue st)) as [[idx q1]|]; [|done].
    destruct (procs st !! idx) as [pr|]; [|done].
    destruct (remaining pr <=? 0); [done|].
    destruct (procs _ !! idx) as [pr2|]; [|done].
    by destruct (remaining pr2 =? 0).
Qed.

Lemma rr_loop_reach quantum p fuel st st' :
  reach quantum p st → rr_loop fuel quantum st = Finished st' → reach quantum p st'.
Proof.
  revert st. induction fuel as [|f IH]; intros st Hr; simpl.
  - destruct (all_done (procs st)); [by intros [= <-]|done].
  - destruct (all_done (procs st)) eqn:Hd; [by intros [= <-]|].
    destruct (rr_iter quantum st) as [st1|st1|] eqn:Hit; [| |done].
    + apply IH. by eapply reach_step.
    + intros [= <-]. apply rr_iter_break in Hit. by subst.
Qed.

Lemma rr_simulate_reach quantum p fuel st :
  simulate fuel quantum p = Finished st → reach quantum p st.
Proof.
  unfold simulate. destruct (rr_init p) as [st0|] eqn:E; [|done].
  apply rr_loop_reach. by apply reach_init.
Qed.

Lemma rr_int_iter_break quantum st st' : RRInt.rr_iter quantum st = Break st' → st' = st.
Proof.
  unfold RRInt.rr_iter. destruct (q_empty (queue st)).
  - destruct (next_arrival (procs st) =? -1); [by intros [= <-]|].
    by destruct (enqueue_arrivals _ _ _).
  - destruct (q_pop (queue st)) as [[idx q1]|]; [|done].
    destruct (procs st !! idx) as [pr|]; [|done].
    destruct (remaining pr <=? 0); [done|].
    destruct (procs _ !! idx) as [pr2|]; [|done].
    by destruct (remaining pr2 =? 0).
Qed.

Lemma rr_int_loop_reach quantum p fuel st st' :
  RRInt.reach quantum p st → RRInt.rr_loop fuel quantum st = Finished st' →
  RRInt.reach quantum p st'.
Proof.
  revert st. induction fuel as [|f IH]; intros st Hr; simpl.
  - destruct (all_done (procs st)); [by intros [= <-]|done].
  - destruct (all_done (procs st)) eqn:Hd; [by intros [= <-]|].
    destruct (RRInt.rr_iter quantum st) as [st1|st1|] eqn:Hit; [| |done].
    + apply IH. by eapply RRInt.reach_step.
    + intros [= <-]. apply rr_int_iter_break in Hit. by subst.
Qed.

Lemma rr_int_simulate_reach quantum p fuel st :
  RRInt.simulate fuel quantum p = Finished st → RRInt.reach quantum p st.
Proof.
  unfold RRInt.simulate. destruct (rr_init p) as [st0|] eqn:E; [|done].
  apply rr_int_loop_reach. by apply RRInt.reach_init.
Qed.

Lemma rr_cpu_of_all_done o recs p :
  map key p = recs → (∀ x, x ∈ p → remaining x = 0) → rr_cpu_of o p = burst_of o recs.
Proof.
  intros <- H. unfold rr_cpu_of, burst_of. rewrite map_map.
  apply sumZ_map_ext. intros x Hx. unfold key. rewrite (H x Hx).
  destruct (pid x =? o); lia.
Qed.

Lemma rr_owner_time recs quantum st o :
  valid_records recs → 0 < quantum → reach quantum (table_of recs) st →
  o ≠ IDLE → time_of o (segs st) = rr_cpu_of o (procs st).
Proof.
  intros Hv Hq Hr Ho. induction Hr as [st Hi|st st' Hr IH Hnd Hit].
  - destruct (rr_init_shape recs Hv) as (st0 & e & Hi0 & _ & _ & _ & Hs & Hp & _).
    rewrite Hi in Hi0. injection Hi0 as <-. rewrite Hs, Hp.
    unfold rr_cpu_of. rewrite map_map, sumZ_map_zero.
    + destruct (0 <? e); [|done]. unfold time_of. rewrite filter_cons, filter_nil.
      rewrite decide_False; [done|]. simpl. unfold IDLE in *. congruence.
    + intros [[a b] c] _. simpl. destruct (a =? o); lia.
  - pose proof (reach_head_inv recs quantum st Hv Hq Hr) as H.
    destruct (q_list (queue st)) as [|idx l] eqn:Hl.
    + destruct (rr_iter_idle _ quantum st H Hnd (proj2 (q_empty_list _) Hl))
        as (st2 & na & Hit2 & _ & _ & _ & _ & _ & Hs & Hlen & Hall & _).
      rewrite Hit in Hit2. injection Hit2 as <-.
      rewrite Hs, time_of_add_segment, IH.
      destruct (Z.eqb_spec IDLE o) as [|_]; [congruence|].
      unfold rr_cpu_of.
      rewrite (sumZ_pointwise (λ x, if pid x =? o then burst x - remaining x else 0)
                 (λ x, if pid x =? o then burst x - remaining x else 0)
                 (procs st) (procs st') 0%nat 0 0%nat Hlen).
      * case_decide; lia.
      * intros j y Hy. destruct (Hall j y Hy) as (y' & Hy' & Hk & Hr' & _).
        exists y'. split; [done|]. unfold key in Hk. injection Hk as -> _ ->.
        rewrite Hr'. case_decide; lia.
    + assert (idx ∈ q_list (queue st)) as Hin by (rewrite Hl; left).
      destruct (lookup_lt_is_Some_2 _ _ (inv_range _ _ _ _ _ H idx Hin)) as [pr Hpr].
      destruct (rr_iter_dispatch _ quantum st idx l pr Hq H Hl Hpr)
        as (st2 & new & Hit2 & Hpos & _ & Hs & Hlen & Hall & _).
      rewrite Hit in Hit2. injection Hit2 as <-.
      rewrite Hs, time_of_add_segment, IH.
      unfold rr_cpu_of.
      rewrite (sumZ_pointwise (λ x, if pid x =? o then burst x - remaining x else 0)
                 (λ x, if pid x =? o then burst x - remaining x else 0)
                 (procs st) (procs st') idx
                 (if pid pr =? o then Z.min (remaining pr) quantum else 0) 0%nat Hlen).
      * apply lookup_lt_Some in Hpr. rewrite decide_True by lia.
        replace (clock st + Z.min (remaining pr) quantum - clock st)
          with (Z.min (remaining pr) quantum) by lia. done.
      * intros j y Hy. destruct (Hall j y Hy) as (y' & Hy' & Hk & Hr' & _).
        exists y'. split; [done|]. unfold key in Hk. injection Hk as -> _ ->.
        rewrite Hr'. simpl. destruct (decide (j = idx)) as [->|].
        -- rewrite Hpr in Hy. injection Hy as <-. destruct (pid pr =? o); lia.
        -- lia.
Qed.

(** ** The window in which a process runs *)

Lemma rr_window recs quantum st i a b c :
  valid_records recs → 0 < quantum → reach quantum (table_of recs) st →
  recs !! i = Some (a, b, c) → a ≠ IDLE →
  (∀ j a' b' c', recs !! j = Some (a', b', c') → a' = a → j = i) →
  ∀ s, s ∈ segs st → seg_pid s = a →
       b ≤ seg_start s ∧
       ∀ x, procs st !! i = Some x → remaining x = 0 → seg_end s ≤ completion x.
Proof.
  intros Hv Hq Hr Hi Ha Huniq.
  assert (∀ st, reach quantum (table_of recs) st →
            ∀ j y, procs st !! j = Some y → recs !! j = Some (key y)) as Hkey.
  { intros st0 Hr0 j y Hy.
    pose proof (reach_head_inv recs quantum st0 Hv Hq Hr0) as H.
    pose proof (inv_key _ _ _ _ _ H) as Hk. rewrite key_table_of in Hk.
    rewrite <- Hk, list_lookup_fmap, Hy. done. }
  induction Hr as [st Hinit|st st' Hr IH Hnd Hit].
  - destruct (rr_init_shape recs Hv) as (st0 & e & Hi0 & _ & _ & _ & Hs & _).
    rewrite Hinit in Hi0. injection Hi0 as <-. rewrite Hs.
    intros s Hin Hp. destruct (0 <? e).
    + apply list_elem_of_singleton in Hin. subst s. simpl in Hp. congruence.
    + by apply elem_of_nil in Hin.
  - pose proof (reach_head_inv recs quantum st Hv Hq Hr) as H.
    pose proof (reach_head_inv recs quantum st' Hv Hq (reach_step _ _ _ _ Hr Hnd Hit))
      as H'.
    destruct (q_list (queue st)) as [|idx l] eqn:Hl.
    + destruct (rr_iter_idle _ quantum st H Hnd (proj2 (q_empty_list _) Hl))
        as (st2 & na & Hit2 & _ & _ & _ & _ & _ & Hs & Hlen & Hall & _).
      rewrite Hit in Hit2. injection Hit2 as <-.
      intros s Hin Hp. rewrite Hs in Hin.
      apply add_segment_other in Hin; [|congruence].
      destruct (IH s Hin Hp) as [IH1 IH2]. split; [done|].
      intros x' Hx' Hz.
      assert (∃ x, procs st !! i = Some x) as [x Hx].
      { apply lookup_lt_is_Some_2. rewrite <- Hlen. by eapply lookup_lt_Some. }
      destruct (Hall i x Hx) as (y' & Hy' & _ & Hrem & Hco).
      rewrite Hx' in Hy'. injection Hy' as <-.
      rewrite Hco. apply (IH2 x Hx). lia.
    + assert (idx ∈ q_list (queue st)) as Hinq by (rewrite Hl; left).
      destruct (lookup_lt_is_Some_2 _ _ (inv_range _ _ _ _ _ H idx Hinq)) as [pr Hpr].
      destruct (rr_iter_dispatch _ quantum st idx l pr Hq H Hl Hpr)
        as (st2 & new & Hit2 & Hpos & Hck & Hs & Hlen & Hall & _).
      rewrite Hit in Hit2. injection Hit2 as <-.
      pose proof (Hkey st Hr idx pr Hpr) as Hkpr.
      intros s Hin Hp. split.
      * rewrite Hs in Hin.
        destruct (add_segment_owner_start _ _ _ _ _ Hin)
          as [(s0 & Hs0 & Hp0 & Hst0)|[Hpp Hst]].
        -- rewrite <- Hst0. apply (IH s0 Hs0). congruence.
        -- assert (idx = i) as ->.
           { apply (Huniq idx _ _ _ Hkpr). congruence. }
           rewrite Hi in Hkpr. injection Hkpr as _ Harr _.
           rewrite Hst, Harr.
           destruct (proj1 (pi_queued _ _ _ _ _ (inv_proc _ _ _ _ _ H i pr Hpr)) Hinq)
             as (Hen & _).
           by apply (pi_enqueued _ _ _ _ _ (inv_proc _ _ _ _ _ H i pr Hpr)).
      * intros x' Hx' Hz.
        assert (∃ x, procs st !! i = Some x) as [x Hx].
        { apply lookup_lt_is_Some_2. rewrite <- Hlen. by eapply lookup_lt_Some. }
        destruct (Hall i x Hx) as (y' & Hy' & _ & Hrem & Hco).
        rewrite Hx' in Hy'. injection Hy' as <-.
        destruct (decide (i = idx)) as [->|Hne].
        -- rewrite Hpr in Hx. injection Hx as <-.
           rewrite decide_True in Hco by (split; [done|lia]).
           rewrite Hco, <- Hck.
           apply (tiles_elem_end 0 (segs st')); [|done].
           apply (inv_tiles _ _ _ _ _ H').
        -- rewrite decide_False in Hco by tauto. rewrite Hco.
           rewrite Hs in Hin. apply add_segment_other in Hin.
           ++ apply (proj2 (IH s Hin Hp) x Hx). lia.
           ++ intros Heq. apply Hne. symmetry. apply (Huniq idx _ _ _ Hkpr). congruence.
Qed.

(** ** The measure of the initial state *)

Lemma rr_measure_init recs st :
  valid_records recs → rr_init (table_of recs) = Some st →
  measure st ≤ 2 * sum_bursts recs + 2 * Z.of_nat (length recs).
Proof.
  intros Hv Hi.
  destruct (rr_init_shape recs Hv) as (st0 & e & Hi0 & _ & _ & _ & _ & _ & Hl & _ & Hp).
  rewrite Hi in Hi0. injection Hi0 as <-.
  unfold measure. rewrite Hp, remaining_mark, <- q_list_length, Hl.
  pose proof (unqueued_mark 0 (table_of recs) e) as Hu.
  assert (unqueued (table_of recs) ≤ length recs)%nat as Hn.
  { unfold unqueued. etrans; [apply length_filter|].
    unfold table_of. by rewrite length_map. }
  assert (sumZ (map remaining (table_of recs)) = sum_bursts recs) as ->.
  { unfold table_of, sum_bursts. rewrite map_map. apply sumZ_map_ext.
    by intros [[a b] c] _. }
  lia.
Qed.

Lemma rr_cpu_of_owner o p : rr_cpu_of o p ≠ 0 → ∃ x, x ∈ p ∧ pid x = o.
Proof.
  intros (x & Hx & Hnz)%sumZ_nonzero. exists x. split; [done|].
  by destruct (Z.eqb_spec (pid x) o).
Qed.

(** ** The scenarios of the examples *)

Lemma q_wf_wrapped_queue : q_wf wrapped_queue.
Proof. unfold q_wf, wrapped_queue. simpl. split_and!; lia || reflexivity. Qed.

(** ** The properties *)



(** X2 (rr.c:85, 106-111, [q_empty], [q_pop]): on a well-formed queue that
    [q_empty] reports as not empty, [q_pop] reads inside the array, returns
    the oldest entry and leaves the other entries in their order; the queue
    stays well formed, its capacity is unchanged and its size is one less. *)
Theorem X2_q_pop_oldest (q : Queue) :
  q_wf q → q_empty q = false →
  ∃ x q', q_pop q = Some (x, q') ∧ q_list q = x :: q_list q' ∧ q_wf q' ∧
          q_cap q' = q_cap q ∧ q_size q' = (q_size q - 1)%nat.
Proof.
  intros Hq He. destruct (q_list q) as [|x l] eqn:El.
  { apply q_empty_list in El. congruence. }
  destruct (q_pop_spec q x l Hq El) as (q' & Hp & Hwf & Hl).
  destruct (q_pop_cap _ _ _ Hp) as [Hc Hs].
  exists x, q'. split_and!; try done. by rewrite Hl.
Qed.

Lemma X2_witness :
  q_wf wrapped_queue ∧ q_empty wrapped_queue = false ∧
  ∃ q', q_pop wrapped_queue = Some (5%nat, q') ∧ q_list q' = [7; 8; 9]%nat.
Proof.
  split; [exact q_wf_wrapped_queue|]. split; [reflexivity|].
  destruct (X2_q_pop_oldest wrapped_queue q_wf_wrapped_queue eq_refl)
    as (x & q' & Hp & Hl & _).
  pose proof Hp as Hp'. vm_compute in Hp'. injection Hp' as <- <-.
  eexists. split; [exact Hp|reflexivity].
Defined.



(** X4 (rr.c:114-121, [enqueue_arrivals]): on a well-formed queue the call
    pushes, behind the entries already there and in increasing index order,
    exactly the indices of the records whose flag is 0 and whose arrival is
    at most [t]; it sets the flag of these records and changes nothing else
    in the table. *)
Theorem X4_enqueue_arrivals (p : list Process) (q : Queue) (t : Z) :
  q_wf q →
  ∃ p' q' new,
    enqueue_arrivals p q t = (p', q') ∧ q_wf q' ∧
    q_list q' = q_list q ++ new ∧ increasing new ∧
    (∀ i, i ∈ new ↔ ∃ x, p !! i = Some x ∧ enqueued x = false ∧ arrival x ≤ t) ∧
    length p' = length p ∧
    ∀ i x, p !! i = Some x →
           p' !! i = Some (if negb (enqueued x) && (arrival x <=? t)
                           then set_enqueued true x else x).
Proof.
  intros Hq. destruct (enqueue_arrivals_spec p q t Hq) as (q' & He & Hwf & Hl).
  exists (map (mark t) p), q', (arrived_from 0 p t).
  split_and!; try done.
  - apply arrived_from_increasing.
  - intros i. rewrite elem_of_arrived. unfold arrives.
    split; intros (x & Hx & H); exists x; (split; [done|]).
    + apply andb_true_iff in H as [H1 H2]. apply negb_true_iff in H1.
      apply Z.leb_le in H2. done.
    + destruct H as [-> H]. simpl. by apply Z.leb_le.
  - by rewrite length_map.
  - intros i x Hx. rewrite list_lookup_fmap, Hx. done.
Qed.

Lemma X4_witness :
  q_wf (q_init 4) ∧
  ∃ p' q', enqueue_arrivals (table_of scenario_A) (q_init 4) 1 = (p', q') ∧
           q_list q' = [0; 1]%nat ∧ map enqueued p' = [true; true; false].
Proof.
  assert (q_wf (q_init 4)) as Hq by (apply q_init_wf; lia).
  split; [exact Hq|].
  destruct (X4_enqueue_arrivals (table_of scenario_A) (q_init 4) 1 Hq)
    as (p' & q' & new & He & _).
  exists p', q'. split; [exact He|].
  vm_compute in He. injection He as <- <-. split; reflexivity.
Defined.

(** X5 (rr.c:114-121, [enqueue_arrivals]): the flag makes the call
    idempotent: after a call with time [t], a second call with the same or an
    earlier time pushes nothing and leaves the table and the queue as they
    are, so no index is queued twice for the same arrival. *)
Theorem X5_enqueue_arrivals_idempotent (p : list Process) (q : Queue) (t t' : Z)
    (p1 : list Process) (q1 : Queue) :
  q_wf q → t' ≤ t → enqueue_arrivals p q t = (p1, q1) →
  enqueue_arrivals p1 q1 t' = (p1, q1).
Proof.
  intros Hq Ht He. destruct (enqueue_arrivals_spec p q t Hq) as (q' & He' & _).
  rewrite He in He'. simplify_eq. apply enqueue_arrivals_from_none.
  intros y (x & -> & Hx)%list_elem_of_fmap.
  destruct (mark_fields t x) as (_ & Ha & _ & _ & _ & Hen).
  unfold arrives. rewrite Hen, Ha.
  destruct (enqueued x); [done|]. simpl.
  destruct (Z.leb_spec (arrival x) t); [done|].
  simpl. apply Z.leb_gt. lia.
Qed.

Lemma X5_witness :
  q_wf (q_init 4) ∧
  enqueue_arrivals (enqueue_arrivals (table_of scenario_A) (q_init 4) 1).1
                   (enqueue_arrivals (table_of scenario_A) (q_init 4) 1).2 1
  = enqueue_arrivals (table_of scenario_A) (q_init 4) 1.
Proof.
  assert (q_wf (q_init 4)) as Hq by (apply q_init_wf; lia).
  split; [exact Hq|].
  rewrite (X5_enqueue_arrivals_idempotent (table_of scenario_A) (q_init 4) 1 1
             (enqueue_arrivals (table_of scenario_A) (q_init 4) 1).1
             (enqueue_arrivals (table_of scenario_A) (q_init 4) 1).2 Hq);
    [reflexivity|lia|reflexivity].
Defined.

(** X6 (rr.c:159-177, [main]): for valid records the initialisation always
    succeeds.  The clock starts at the earliest arrival [e], which is the
    arrival of some record and at most every arrival; the timeline is the
    single segment IDLE [0, e) when [e > 0] and empty when [e = 0]; the flag
    is set exactly for the records that arrive at [e]; the queue, of capacity
    [max(n, 4)], holds exactly the indices of these records in input order. *)
Theorem X6_rr_init (recs : list (Z * Z * Z)) :
  valid_records recs →
  ∃ st e,
    rr_init (table_of recs) = Some st ∧
    (∃ a c, (a, e, c) ∈ recs) ∧ (∀ a b c, (a, b, c) ∈ recs → e ≤ b) ∧
    clock st = e ∧
    segs st = (if 0 <? e then [mkSegment IDLE 0 e] else []) ∧
    procs st = map (λ r, let '(a, b, c) := r in
                         mkProcess a b c c (-1) 0 0 (b =? e)) recs ∧
    increasing (q_list (queue st)) ∧
    (∀ j, j ∈ q_list (queue st) ↔ ∃ a c, recs !! j = Some (a, e, c)) ∧
    q_cap (queue st) = Nat.max (length recs) 4.
Proof.
  intros Hv.
  destruct (rr_init_shape recs Hv)
    as (st & e & Hi & Hex & Hmin & Hc & Hs & Hp & Hl & Hcap & _).
  exists st, e. split_and!; try done.
  - rewrite Hl. apply arrived_from_increasing.
  - intros j. rewrite Hl, elem_of_arrived. unfold table_of, arrives.
    rewrite list_lookup_fmap. split.
    + intros (x & Hx & Ha). destruct (recs !! j) as [[[a b] c]|] eqn:Hr; [|done].
      simpl in Hx. injection Hx as <-. simpl in Ha. apply Z.leb_le in Ha.
      pose proof (Hmin a b c (list_elem_of_lookup_2 _ _ _ Hr)).
      assert (b = e) as -> by lia. by exists a, c.
    + intros (a & c & ->). simpl. eexists. split; [done|]. simpl.
      apply Z.leb_le. lia.
Qed.

Lemma X6_witness :
  valid_records scenario_late ∧
  ∃ st, rr_init (table_of scenario_late) = Some st ∧ clock st = 2 ∧
        segs st = [mkSegment IDLE 0 2] ∧ q_list (queue st) = [0; 1]%nat ∧
        map enqueued (procs st) = [true; true; false].
Proof.
  split; [exact valid_records_scenario_late|].
  destruct (X6_rr_init scenario_late valid_records_scenario_late)
    as (st & e & Hi & _).
  exists st. split; [exact Hi|].
  vm_compute in Hi. injection Hi as <-. repeat split; reflexivity.
Defined.

(** X7 (rr.c:182-187, the [next_arr] scan of [main]): on a table whose
    arrivals are not negative, the scan returns -1 exactly when no unfinished
    record is outside the queue (flag 0); otherwise it returns the earliest
    arrival among the unfinished records whose flag is 0. *)
Theorem X7_rr_next_arrival (p : list Process) :
  (∀ x, x ∈ p → 0 ≤ arrival x) →
  (next_arrival p = -1 ↔ ∀ x, x ∈ p → ¬ waiting_outside x) ∧
  (next_arrival p ≠ -1 →
   (∃ x, x ∈ p ∧ waiting_outside x ∧ arrival x = next_arrival p) ∧
   ∀ x, x ∈ p → waiting_outside x → next_arrival p ≤ arrival x).
Proof.
  intros Ha.
  destruct (next_arrival_from_spec (-1) p Ha ltac:(lia)) as [H1 H2].
  fold (next_arrival p) in H1, H2. split.
  - split; [by intros [_ ?]%H1|].
    intros Hnone. destruct (decide (next_arrival p = -1)) as [|Hne]; [done|].
    destruct (H2 Hne) as ([Heq|(x & Hx & Hw & _)] & _); [done|].
    by destruct (Hnone x Hx).
  - intros Hne. destruct (H2 Hne) as ([Heq|Hex] & _ & Hmin); [done|]. done.
Qed.

Lemma X7_witness :
  (∀ x, x ∈ rr_table_waiting → 0 ≤ arrival x) ∧
  next_arrival rr_table_waiting = 5 ∧
  ∀ x, x ∈ rr_table_waiting → waiting_outside x → 5 ≤ arrival x.
Proof.
  assert (∀ x, x ∈ rr_table_waiting → 0 ≤ arrival x) as Ha.
  { intros x H. unfold rr_table_waiting in H.
    repeat (apply elem_of_cons in H as [->|H]; [simpl; lia|]).
    by apply elem_of_nil in H. }
  split; [exact Ha|]. split; [reflexivity|].
  exact (proj2 (proj2 (X7_rr_next_arrival rr_table_waiting Ha) ltac:(done))).
Defined.

(** X8 (rr.c:180-193, the idle branch of [main]): at a loop head of a run on
    valid records where some process is unfinished and the queue is empty,
    every process that has arrived is finished, so the CPU idles only when
    there is nothing to run.  The pass does not take the "should not happen"
    break: it moves the clock to the earliest arrival after the current
    time, records IDLE for the interval in between, leaves every remaining
    and completion time as it is, and queues exactly the processes that
    arrive at the new time, in input order. *)
Theorem X8_rr_idle_jump (recs : list (Z * Z * Z)) (quantum : Z) (st : State) :
  valid_records recs → 0 < quantum → reach quantum (table_of recs) st →
  all_done (procs st) = false → q_empty (queue st) = true →
  ∃ st' na,
    rr_iter quantum st = Continue st' ∧ clock st < na ∧
    (∀ x, x ∈ procs st → arrival x ≤ clock st → remaining x = 0) ∧
    (∃ x, x ∈ procs st ∧ arrival x = na) ∧
    (∀ x, x ∈ procs st → clock st < arrival x → na ≤ arrival x) ∧
    clock st' = na ∧
    segs st' = add_segment (segs st) IDLE (clock st) na ∧
    length (procs st') = length (procs st) ∧
    (∀ j y, procs st !! j = Some y →
            ∃ y', procs st' !! j = Some y' ∧ key y' = key y ∧
                  remaining y' = remaining y ∧ completion y' = completion y) ∧
    increasing (q_list (queue st')) ∧
    (∀ j, j ∈ q_list (queue st') ↔ ∃ y, procs st !! j = Some y ∧ arrival y = na).
Proof.
  intros Hv Hq Hr Hnd He.
  exact (rr_iter_idle _ quantum st (reach_head_inv recs quantum st Hv Hq Hr) Hnd He).
Qed.

Lemma X8_witness :
  valid_records scenario_gap ∧
  ∃ st st', reach 2 (table_of scenario_gap) st ∧ clock st = 2 ∧
            q_empty (queue st) = true ∧ all_done (procs st) = false ∧
            rr_iter 2 st = Continue st' ∧ clock st' = 5 ∧
            segs st' = [mkSegment 1 0 2; mkSegment IDLE 2 5] ∧
            q_list (queue st') = [1%nat].
Proof.
  split; [exact valid_records_scenario_gap|].
  destruct (rr_init (table_of scenario_gap)) as [st0|] eqn:E0;
    [|by vm_compute in E0].
  destruct (rr_iter 2 st0) as [st1| |] eqn:E1;
    [|vm_compute in E0; injection E0 as <-; by vm_compute in E1..].
  assert (reach 2 (table_of scenario_gap) st1) as Hr.
  { eapply reach_step; [by apply reach_init| |exact E1].
    vm_compute in E0. injection E0 as <-. reflexivity. }
  assert (st1 = mkState [mkProcess 1 0 2 0 2 0 0 true; mkProcess 2 5 1 1 (-1) 0 0 false]
                        [mkSegment 1 0 2] (mkQueue [0; 0; 0; 0]%nat 4 1 1 0) 2) as Hst1.
  { vm_compute in E0. injection E0 as <-. vm_compute in E1. by injection E1 as <-. }
  destruct (X8_rr_idle_jump scenario_gap 2 st1 valid_records_scenario_gap ltac:(lia) Hr)
    as (st' & na & Hit & _); [by rewrite Hst1..|].
  exists st1, st'. split; [exact Hr|]. split; [by rewrite Hst1|].
  split; [by rewrite Hst1|]. split; [by rewrite Hst1|]. split; [exact Hit|].
  rewrite Hst1 in Hit. vm_compute in Hit. injection Hit as <-.
  repeat split; reflexivity.
Defined.

(** X9 (rr.c:196-212, the dispatch of [main]): at a loop head of a run on
    valid records whose latest arrival plus total burst is at most
    [INT_MAX], when the queue is not empty the pass runs the process at the
    head of the queue for exactly [min(remaining, quantum)] time units, which
    is at least one: the clock advances by that much and stays at most
    [INT_MAX], the timeline gets the interval for the pid of that process,
    its remaining time decreases by that much and no other remaining time
    changes; its completion time is set to the new clock exactly when it
    finishes in this slice, and no other completion time changes. *)
Theorem X9_rr_slice (recs : list (Z * Z * Z)) (quantum : Z) (st : State)
    (idx : nat) (l : list nat) (pr : Process) :
  valid_records recs → no_overflow recs → 0 < quantum →
  RRInt.reach quantum (table_of recs) st →
  q_list (queue st) = idx :: l → procs st !! idx = Some pr →
  ∃ st',
    RRInt.rr_iter quantum st = Continue st' ∧
    0 < Z.min (remaining pr) quantum ∧
    clock st' = clock st + Z.min (remaining pr) quantum ∧
    0 ≤ clock st ∧ clock st' ≤ INT_MAX ∧
    segs st' = add_segment (segs st) (pid pr) (clock st)
                           (clock st + Z.min (remaining pr) quantum) ∧
    length (procs st') = length (procs st) ∧
    ∀ j y, procs st !! j = Some y →
           ∃ y', procs st' !! j = Some y' ∧ key y' = key y ∧
                 remaining y' = (if decide (j = idx)
                                 then remaining y - Z.min (remaining pr) quantum
                                 else remaining y) ∧
                 completion y' = (if decide (j = idx ∧ remaining y ≤ quantum)
                                  then clock st + Z.min (remaining pr) quantum
                                  else completion y).
Proof.
  intros Hv Hfit Hq Hr Hl Hpr.
  destruct (rr_int_head recs quantum st Hv Hfit Hq Hr) as (Hr' & H & ->).
  destruct (rr_iter_dispatch _ quantum st idx l pr Hq H Hl Hpr)
    as (st' & new & Hit & Hpos & Hc & Hs & Hlen & Hall & _).
  assert (reach quantum (table_of recs) st') as Hr1.
  { eapply reach_step; [exact Hr'| |exact Hit].
    apply all_done_false. exists pr. split; [by eapply list_elem_of_lookup_2|].
    assert (idx ∈ q_list (queue st)) as Hin by (rewrite Hl; left).
    by destruct (proj1 (pi_queued _ _ _ _ _ (inv_proc _ _ _ _ _ H idx pr Hpr)) Hin)
      as (_ & ? & _). }
  destruct (rr_no_overflow recs quantum st Hv Hq Hfit Hr') as [[Hc0 _] _].
  destruct (rr_no_overflow recs quantum st' Hv Hq Hfit Hr1) as [[_ Hc1] _].
  exists st'. done.
Qed.

Lemma X9_witness :
  valid_records scenario_A ∧ no_overflow scenario_A ∧
  ∃ st st', rr_init (table_of scenario_A) = Some st ∧
            q_list (queue st) = [0%nat] ∧
            RRInt.rr_iter 2 st = Continue st' ∧ clock st' = 2 ∧
            segs st' = [mkSegment 1 0 2] ∧
            map remaining (procs st') = [2; 3; 2].
Proof.
  split; [exact valid_records_scenario_A|]. split; [exact no_overflow_scenario_A|].
  destruct (rr_init (table_of scenario_A)) as [st0|] eqn:E0;
    [|by vm_compute in E0].
  pose proof (RRInt.reach_init 2 _ _ E0) as Hr.
  vm_compute in E0. injection E0 as <-.
  match type of Hr with RRInt.reach _ _ ?s => set (st0 := s) in * end.
  destruct (X9_rr_slice scenario_A 2 st0 0 [] (mkProcess 1 0 4 4 (-1) 0 0 true)
              valid_records_scenario_A no_overflow_scenario_A ltac:(lia) Hr
              eq_refl eq_refl)
    as (st' & Hit & _).
  exists st0, st'. split; [reflexivity|]. split; [reflexivity|]. split; [exact Hit|].
  vm_compute in Hit. injection Hit as <-. repeat split; reflexivity.
Defined.

(** X10 (rr.c:196-218, the dispatch of [main], with [enqueue_arrivals] and
    [q_push]): in a run on valid records whose latest arrival plus total
    burst is at most [INT_MAX], after the dispatch of the head [idx] of the
    queue, the queue holds, in this order, the entries that were behind
    [idx], then the processes that arrived during the slice (after the old
    clock and up to the new one) in order of arrival and, among equal
    arrivals, in input order, then [idx] itself if it has not finished.  So
    a process that arrives during a slice goes before the process that was
    running, and nobody overtakes an entry that was already waiting. *)
Theorem X10_rr_queue_after_dispatch (recs : list (Z * Z * Z)) (quantum : Z)
    (st : State) (idx : nat) (l : list nat) (pr : Process) :
  valid_records recs → no_overflow recs → 0 < quantum →
  RRInt.reach quantum (table_of recs) st →
  q_list (queue st) = idx :: l → procs st !! idx = Some pr →
  ∃ st' new,
    RRInt.rr_iter quantum st = Continue st' ∧
    q_list (queue st')
    = l ++ new ++ (if decide (remaining pr ≤ quantum) then [] else [idx]) ∧
    (∀ j, j ∈ new ↔ ∃ y, procs st !! j = Some y ∧
                         clock st < arrival y ≤ clock st') ∧
    rr_arrival_ordered (procs st) new.
Proof.
  intros Hv Hfit Hq Hr Hl Hpr.
  destruct (rr_int_head recs quantum st Hv Hfit Hq Hr) as (_ & H & ->).
  destruct (rr_iter_dispatch _ quantum st idx l pr Hq H Hl Hpr)
    as (st' & new & Hit & _ & Hc & _ & _ & _ & Hql & Hnew & Hord).
  exists st', new. split_and!; try done. intros j. rewrite Hnew, Hc. done.
Qed.

Lemma X10_witness :
  valid_records scenario_A ∧ no_overflow scenario_A ∧
  ∃ st st', rr_init (table_of scenario_A) = Some st ∧
            q_list (queue st) = [0%nat] ∧
            RRInt.rr_iter 2 st = Continue st' ∧ q_list (queue st') = [1; 0]%nat.
Proof.
  split; [exact valid_records_scenario_A|]. split; [exact no_overflow_scenario_A|].
  destruct (rr_init (table_of scenario_A)) as [st0|] eqn:E0;
    [|by vm_compute in E0].
  pose proof (RRInt.reach_init 2 _ _ E0) as Hr.
  vm_compute in E0. injection E0 as <-.
  match type of Hr with RRInt.reach _ _ ?s => set (st0 := s) in * end.
  destruct (X10_rr_queue_after_dispatch scenario_A 2 st0 0 []
              (mkProcess 1 0 4 4 (-1) 0 0 true)
              valid_records_scenario_A no_overflow_scenario_A ltac:(lia) Hr
              eq_refl eq_refl)
    as (st' & new & Hit & _).
  exists st0, st'. split; [reflexivity|]. split; [reflexivity|]. split; [exact Hit|].
  vm_compute in Hit. injection Hit as <-. reflexivity.
Defined.

(** X11 (rr.c:179-219, the while loop of [main]): on valid records and a
    positive quantum the loop always ends with every process finished, after
    at most [2 * (sum of the bursts) + 2 * n] passes; no pass of the run
    takes the "should not happen" break or reads outside the table or the
    queue. *)
Theorem X11_rr_terminates (recs : list (Z * Z * Z)) (quantum : Z) :
  valid_records recs → 0 < quantum →
  (∀ st, reach quantum (table_of recs) st → all_done (procs st) = false →
         ∃ st', rr_iter quantum st = Continue st') ∧
  ∀ fuel, (Z.to_nat (2 * sum_bursts recs) + 2 * length recs ≤ fuel)%nat →
          ∃ st, simulate fuel quantum (table_of recs) = Finished st ∧
                all_done (procs st) = true.
Proof.
  intros Hv Hq. split.
  - intros st Hr Hnd.
    destruct (rr_iter_progress _ quantum st Hq
                (reach_head_inv recs quantum st Hv Hq Hr) Hnd) as (st' & Hit & _).
    by exists st'.
  - intros fuel Hf. destruct (rr_init_inv recs Hv) as (st0 & Hi & H0).
    pose proof (rr_measure_init recs st0 Hv Hi) as Hm.
    destruct (rr_loop_terminates _ quantum fuel st0 Hq H0) as (st & Hl & _ & Hd);
      [lia|].
    exists st. unfold simulate. rewrite Hi. done.
Qed.

Lemma X11_witness :
  valid_records scenario_A ∧
  ∃ st, simulate 24 2 (table_of scenario_A) = Finished st ∧
        all_done (procs st) = true ∧ clock st = 9.
Proof.
  split; [exact valid_records_scenario_A|].
  destruct (proj2 (X11_rr_terminates scenario_A 2 valid_records_scenario_A ltac:(lia))
              24%nat ltac:(vm_compute; lia)) as (st & Hs & Hd).
  exists st. split; [exact Hs|]. split; [exact Hd|].
  vm_compute in Hs. injection Hs as <-. reflexivity.
Defined.

(** X12 (rr.c:89-99 and 163, the growth of [q_push] and the [q_init] of
    [main]): in a run on valid records the queue never grows.  At every loop
    head its capacity is the initial [max(n, 4)] and it holds at most [n]
    entries, so the doubling branch of [q_push] is never taken by the
    simulator. *)
Theorem X12_rr_queue_never_grows (recs : list (Z * Z * Z)) (quantum : Z) (st : State) :
  valid_records recs → 0 < quantum → reach quantum (table_of recs) st →
  q_cap (queue st) = Nat.max (length recs) 4 ∧
  (q_size (queue st) ≤ length recs)%nat.
Proof.
  intros Hv Hq Hr.
  assert (length (table_of recs) = length recs) as Hlen
    by (unfold table_of; by rewrite length_map).
  split.
  - induction Hr as [st Hi|st st' Hr IH Hnd Hit].
    + destruct (rr_init_shape recs Hv) as (st0 & e & Hi0 & _ & _ & _ & _ & _ & _ & Hc & _).
      rewrite Hi in Hi0. by injection Hi0 as <-.
    + rewrite <- IH.
      apply (rr_iter_cap (table_of recs) quantum st st' Hq
               (reach_head_inv recs quantum st Hv Hq Hr) Hnd); [|done].
      rewrite IH, Hlen. lia.
  - rewrite <- Hlen.
    apply head_inv_size, (reach_head_inv recs quantum st Hv Hq Hr).
Qed.

Lemma X12_witness :
  valid_records scenario_A ∧
  ∃ st, simulate 24 2 (table_of scenario_A) = Finished st ∧
        q_cap (queue st) = 4%nat.
Proof.
  split; [exact valid_records_scenario_A|].
  destruct (simulate 24 2 (table_of scenario_A)) as [st| |] eqn:E;
    [|by vm_compute in E..].
  exists st. split; [reflexivity|].
  exact (proj1 (X12_rr_queue_never_grows scenario_A 2 st valid_records_scenario_A
                  ltac:(lia) (rr_simulate_reach _ _ _ _ E))).
Defined.

(** X13 (rr.c:179-219 with [add_segment]): at every loop head of a run on
    valid records whose latest arrival plus total burst is at most
    [INT_MAX], and for every owner other than the IDLE sentinel, the time
    that the timeline gives to the owner is the CPU time that the processes
    with this pid have received (burst minus remaining); when all processes
    are finished it is the sum of their bursts.  Every segment is owned by
    IDLE or by the pid of an input record. *)
Theorem X13_rr_owner_time (recs : list (Z * Z * Z)) (quantum : Z) (st : State) (o : Z) :
  valid_records recs → no_overflow recs → 0 < quantum →
  RRInt.reach quantum (table_of recs) st → o ≠ IDLE →
  time_of o (segs st) = rr_cpu_of o (procs st) ∧
  (all_done (procs st) = true → time_of o (segs st) = burst_of o recs) ∧
  ((∃ s, s ∈ segs st ∧ seg_pid s = o) → ∃ b c, (o, b, c) ∈ recs).
Proof.
  intros Hv Hfit Hq Hr Ho.
  destruct (rr_int_head recs quantum st Hv Hfit Hq Hr) as (Hr' & H & _).
  pose proof (rr_owner_time recs quantum st o Hv Hq Hr' Ho) as Ht.
  assert (map key (procs st) = recs) as Hk.
  { rewrite (inv_key _ _ _ _ _ H). apply key_table_of. }
  split_and!; [done| |].
  - intros Hd. rewrite Ht. apply rr_cpu_of_all_done; [done|].
    intros x Hx. by destruct (proj1 (head_inv_final _ _ H Hd) x Hx).
  - intros (s & Hs & Hso).
    pose proof (time_of_pos _ _ _ _ _ (inv_tiles _ _ _ _ _ H) Hs Hso) as Hpos.
    destruct (rr_cpu_of_owner o (procs st)) as (x & Hx & Hpx); [lia|].
    exists (arrival x), (burst x). rewrite <- Hk, <- Hpx.
    apply list_elem_of_fmap. by exists x.
Qed.

Lemma X13_witness :
  valid_records scenario_A ∧ no_overflow scenario_A ∧
  ∃ st, RRInt.simulate 24 2 (table_of scenario_A) = Finished st ∧
        time_of 2 (segs st) = 3 ∧ burst_of 2 scenario_A = 3.
Proof.
  split; [exact valid_records_scenario_A|]. split; [exact no_overflow_scenario_A|].
  destruct (RRInt.simulate 24 2 (table_of scenario_A)) as [st| |] eqn:E;
    [|by vm_compute in E..].
  exists st. split; [reflexivity|]. split; [|reflexivity].
  destruct (X13_rr_owner_time scenario_A 2 st 2 valid_records_scenario_A
              no_overflow_scenario_A ltac:(lia) (rr_int_simulate_reach _ _ _ _ E)
              ltac:(done)) as (_ & Hb & _).
  rewrite Hb; [reflexivity|].
  vm_compute in E. injection E as <-. reflexivity.
Defined.

(** X23 (rr.c:179-219 with [add_segment]): in a Round-Robin run on valid
    records whose latest arrival plus total burst is at most [INT_MAX], a
    process whose pid is not the IDLE sentinel and is not shared with
    another record runs only between its arrival and its completion: at
    every loop head, every segment that the timeline gives to its pid starts
    at or after its arrival, and once the process is finished every such
    segment ends at or before its completion time. *)
Theorem X23_rr_run_window (recs : list (Z * Z * Z)) (quantum : Z) (st : State)
    (i : nat) (a b c : Z) (s : Segment) :
  valid_records recs → no_overflow recs → 0 < quantum →
  RRInt.reach quantum (table_of recs) st →
  recs !! i = Some (a, b, c) → a ≠ IDLE →
  (∀ j a' b' c', recs !! j = Some (a', b', c') → a' = a → j = i) →
  s ∈ segs st → seg_pid s = a →
  b ≤ seg_start s ∧
  ∀ x, procs st !! i = Some x → remaining x = 0 → seg_end s ≤ completion x.
Proof.
  intros Hv Hfit Hq Hr Hi Ha Huniq Hs Hp.
  destruct (rr_int_head recs quantum st Hv Hfit Hq Hr) as (Hr' & _ & _).
  exact (rr_window recs quantum st i a b c Hv Hq Hr' Hi Ha Huniq s Hs Hp).
Qed.

Lemma X23_witness :
  valid_records scenario_A ∧ no_overflow scenario_A ∧
  ∃ st, RRInt.simulate 24 2 (table_of scenario_A) = Finished st ∧
        mkSegment 2 8 9 ∈ segs st ∧
        procs st !! 1%nat = Some (mkProcess 2 1 3 0 9 0 0 true) ∧
        1 ≤ 8 ∧ 9 ≤ 9.
Proof.
  split; [exact valid_records_scenario_A|]. split; [exact no_overflow_scenario_A|].
  assert (∀ j a' b' c', scenario_A !! j = Some (a', b', c') → a' = 2 → j = 1%nat) as Hu.
  { intros [|[|[|j]]] a' b' c' Hj Ha; simpl in Hj; simplify_eq; done. }
  destruct (RRInt.simulate 24 2 (table_of scenario_A)) as [st| |] eqn:E;
    [|by vm_compute in E..].
  assert (mkSegment 2 8 9 ∈ segs st) as Hin.
  { apply list_elem_of_lookup. exists 4%nat.
    vm_compute in E. injection E as <-. reflexivity. }
  assert (procs st !! 1%nat = Some (mkProcess 2 1 3 0 9 0 0 true)) as Hx.
  { vm_compute in E. injection E as <-. reflexivity. }
  exists st. split; [reflexivity|]. split; [exact Hin|]. split; [exact Hx|].
  destruct (X23_rr_run_window scenario_A 2 st 1 2 1 3 (mkSegment 2 8 9)
              valid_records_scenario_A no_overflow_scenario_A ltac:(lia)
              (rr_int_simulate_reach _ _ _ _ E)
              eq_refl ltac:(done) Hu Hin eq_refl) as [H1 H2].
  split; [exact H1|]. exact (H2 _ Hx eq_refl).
Defined.

End RRMore.

(** * Further facts about sjf.c *)

Module SJFMore.
Import SJF SJFFacts.

(** ** One pass of the while loop, exactly *)

Lemma sjf_iter_run_shape st i x :
  select (procs st) (clock st) = Some (i, x) →
  ∃ st', sjf_iter st = Continue st' ∧
         clock st' = clock st + 1 ∧
         segs st' = add_segment (segs st) (pid x) (clock st) (clock st + 1) ∧
         length (procs st') = length (procs st) ∧
         ∀ j y, procs st !! j = Some y →
                ∃ y', procs st' !! j = Some y' ∧ key y' = key y ∧
                      remaining y' = (if decide (j = i) then remaining y - 1
                                      else remaining y) ∧
                      completion y' = (if decide (j = i ∧ remaining y = 1)
                                       then clock st + 1 else completion y).
Proof.
  intros Hsel. destruct (select_spec _ _ _ _ Hsel) as (Hx & _).
  unfold sjf_iter. rewrite Hsel. fold dec.
  rewrite list_lookup_alter_eq, Hx. simpl.
  destruct (Z.eqb_spec (remaining x - 1) 0) as [Hz|Hnz].
  - eexists. split; [done|]. simpl. split_and!; try done.
    + by rewrite !length_alter.
    + intros j y Hy. destruct (decide (j = i)) as [->|Hne].
      * rewrite !list_lookup_alter_eq, Hy. simpl. eexists. split; [done|]. simpl.
        rewrite Hx in Hy. injection Hy as <-.
        rewrite decide_True by (split; [done|lia]). done.
      * rewrite !list_lookup_alter_ne by done. exists y. split; [done|].
        rewrite decide_False by tauto. done.
  - eexists. split; [done|]. simpl. split_and!; try done.
    + by rewrite length_alter.
    + intros j y Hy. destruct (decide (j = i)) as [->|Hne].
      * rewrite list_lookup_alter_eq, Hy. simpl. eexists. split; [done|]. simpl.
        rewrite Hx in Hy. injection Hy as <-.
        rewrite decide_False by lia. done.
      * rewrite list_lookup_alter_ne by done. exists y. split; [done|].
        rewrite decide_False by tauto. done.
Qed.

Lemma sjf_iter_idle_shape st :
  select (procs st) (clock st) = None →
  sjf_iter st
  = if next_arrival (procs st) (clock st) =? INT_MAX then Break st
    else Continue (mkState (procs st)
                           (add_segment (segs st) IDLE (clock st)
                                        (next_arrival (procs st) (clock st)))
                           (next_arrival (procs st) (clock st))).
Proof. intros Hsel. unfold sjf_iter. by rewrite Hsel. Qed.

(** ** The selection scan *)

Lemma sjf_select_none_iff p t :
  select p t = None ↔ ∀ j y, p !! j = Some y → eligible t y → INT_MAX ≤ remaining y.
Proof.
  split; [apply select_none|]. intros H.
  destruct (select p t) as [[i x]|] eqn:E; [|done].
  destruct (select_spec _ _ _ _ E) as (Hx & He & Hlt & _).
  specialize (H i x Hx He). lia.
Qed.

Lemma sjf_select_lowest_index p t i x j y :
  select p t = Some (i, x) → p !! j = Some y → eligible t y →
  remaining y = remaining x → arrival y = arrival x → pid y = pid x → (i ≤ j)%nat.
Proof.
  intros Hsel Hy He Hr Ha Hp.
  destruct (select_spec _ _ _ _ Hsel) as (_ & _ & _ & Hmin).
  destruct (Hmin j y Hy He) as [_ Hlow].
  destruct (decide (j < i)%nat) as [Hlt|]; [|lia].
  specialize (Hlow Hlt). unfold before in Hlow. lia.
Qed.

(** ** The state at the exit of the loop is a loop head *)

Lemma sjf_iter_break st st' : sjf_iter st = Break st' → st' = st.
Proof.
  unfold sjf_iter. destruct (select (procs st) (clock st)) as [[i x]|].
  - destruct (_ !! i) as [y|]; [|done]. by destruct (remaining y =? 0).
  - destruct (_ =? INT_MAX); [by intros [= <-]|done].
Qed.

Lemma sjf_loop_reach p fuel st st' :
  reach p st → sjf_loop fuel st = Finished st' → reach p st'.
Proof.
  revert st. induction fuel as [|f IH]; intros st Hr; simpl.
  - destruct (all_done (procs st)); [by intros [= <-]|done].
  - destruct (all_done (procs st)) eqn:Hd; [by intros [= <-]|].
    destruct (sjf_iter st) as [st1|st1|] eqn:Hit; [| |done].
    + apply IH. by eapply reach_step.
    + intros [= <-]. apply sjf_iter_break in Hit. by subst.
Qed.

Lemma sjf_simulate_reach p fuel st :
  simulate fuel p = Finished st → reach p st.
Proof. apply sjf_loop_reach. apply reach_init. Qed.

Lemma sjf_int_iter_break st st' : SJFInt.sjf_iter st = Break st' → st' = st.
Proof.
  unfold SJFInt.sjf_iter. destruct (select (procs st) (clock st)) as [[i x]|].
  - destruct (_ !! i) as [y|]; [|done]. by destruct (remaining y =? 0).
  - destruct (_ =? INT_MAX); [by intros [= <-]|done].
Qed.

Lemma sjf_int_loop_reach p fuel st st' :
  SJFInt.reach p st → SJFInt.sjf_loop fuel st = Finished st' → SJFInt.reach p st'.
Proof.
  revert st. induction fuel as [|f IH]; intros st Hr; simpl.
  - destruct (all_done (procs st)); [by intros [= <-]|done].
  - destruct (all_done (procs st)) eqn:Hd; [by intros [= <-]|].
    destruct (SJFInt.sjf_iter st) as [st1|st1|] eqn:Hit; [| |done].
    + apply IH. by eapply SJFInt.reach_step.
    + intros [= <-]. apply sjf_int_iter_break in Hit. by subst.
Qed.

Lemma sjf_int_simulate_reach p fuel st :
  SJFInt.simulate fuel p = Finished st → SJFInt.reach p st.
Proof. apply sjf_int_loop_reach. apply SJFInt.reach_init. Qed.

(** ** The time of each owner *)

Lemma sjf_cpu_of_all_done o recs p :
  map key p = recs → (∀ x, x ∈ p → remaining x = 0) → sjf_cpu_of o p = burst_of o recs.
Proof.
  intros <- H. unfold sjf_cpu_of, burst_of. rewrite map_map.
  apply sumZ_map_ext. intros x Hx. unfold key. rewrite (H x Hx).
  destruct (pid x =? o); lia.
Qed.

Lemma sjf_owner_time recs st o :
  reach (table_of recs) st → o ≠ IDLE →
  time_of o (segs st) = sjf_cpu_of o (procs st).
Proof.
  intros Hr Ho. induction Hr as [|st st' Hr IH Hnd Hit].
  - simpl. unfold sjf_cpu_of, table_of. rewrite map_map, sumZ_map_zero; [done|].
    intros [[a b] c] _. simpl. destruct (a =? o); lia.
  - destruct (select (procs st) (clock st)) as [[i x]|] eqn:Hsel.
    + destruct (select_spec _ _ _ _ Hsel) as (Hx & _).
      destruct (sjf_iter_run_shape st i x Hsel) as (st2 & Hit2 & Hck & Hs & Hlen & Hall).
      rewrite Hit in Hit2. injection Hit2 as <-.
      rewrite Hs, time_of_add_segment, IH. unfold sjf_cpu_of.
      rewrite (sumZ_pointwise (λ x, if pid x =? o then burst x - remaining x else 0)
                 (λ x, if pid x =? o then burst x - remaining x else 0)
                 (procs st) (procs st') i (if pid x =? o then 1 else 0) 0%nat Hlen).
      * apply lookup_lt_Some in Hx. rewrite decide_True by lia.
        replace (clock st + 1 - clock st) with 1 by lia. done.
      * intros j y Hy. destruct (Hall j y Hy) as (y' & Hy' & Hk & Hr' & _).
        exists y'. split; [done|]. unfold key in Hk. injection Hk as -> _ ->.
        rewrite Hr'. simpl. destruct (decide (j = i)) as [->|].
        -- rewrite Hx in Hy. injection Hy as <-. destruct (pid x =? o); lia.
        -- lia.
    + rewrite (sjf_iter_idle_shape st Hsel) in Hit.
      destruct (_ =? INT_MAX); [done|]. injection Hit as <-. simpl.
      rewrite time_of_add_segment, IH.
      destruct (Z.eqb_spec IDLE o) as [|_]; [congruence|]. lia.
Qed.

(** ** The window in which a process runs *)

Lemma sjf_window recs st i a b c :
  valid_records recs → reach (table_of recs) st →
  recs !! i = Some (a, b, c) → a ≠ IDLE →
  (∀ j a' b' c', recs !! j = Some (a', b', c') → a' = a → j = i) →
  ∀ s, s ∈ segs st → seg_pid s = a →
       b ≤ seg_start s ∧
       ∀ x, procs st !! i = Some x → remaining x = 0 → seg_end s ≤ completion x.
Proof.
  intros Hv Hr Hi Ha Huniq.
  assert (∀ st, reach (table_of recs) st →
            ∀ j y, procs st !! j = Some y → recs !! j = Some (key y)) as Hkey.
  { intros st0 Hr0 j y Hy.
    pose proof (sjf_reach_inv recs st0 Hv Hr0) as H.
    pose proof (inv_key _ _ H) as Hk. rewrite sjf_key_table_of in Hk.
    rewrite <- Hk, list_lookup_fmap, Hy. done. }
  induction Hr as [|st st' Hr IH Hnd Hit].
  - simpl. by intros s ?%elem_of_nil.
  - pose proof (sjf_reach_inv recs st' Hv (reach_step _ _ _ Hr Hnd Hit)) as H'.
    destruct (select (procs st) (clock st)) as [[k pr]|] eqn:Hsel.
    + destruct (select_spec _ _ _ _ Hsel) as (Hpr & [Harr Hpos] & _).
      destruct (sjf_iter_run_shape st k pr Hsel) as (st2 & Hit2 & Hck & Hs & Hlen & Hall).
      rewrite Hit in Hit2. injection Hit2 as <-.
      pose proof (Hkey st Hr k pr Hpr) as Hkpr.
      intros s Hin Hp. split.
      * rewrite Hs in Hin.
        destruct (add_segment_owner_start _ _ _ _ _ Hin)
          as [(s0 & Hs0 & Hp0 & Hst0)|[Hpp Hst]].
        -- rewrite <- Hst0. apply (IH s0 Hs0). congruence.
        -- assert (k = i) as ->.
           { apply (Huniq k _ _ _ Hkpr). congruence. }
           rewrite Hi in Hkpr. injection Hkpr as _ Harr' _.
           rewrite Hst, Harr'. done.
      * intros x' Hx' Hz.
        assert (∃ x, procs st !! i = Some x) as [x Hx].
        { apply lookup_lt_is_Some_2. rewrite <- Hlen. by eapply lookup_lt_Some. }
        destruct (Hall i x Hx) as (y' & Hy' & _ & Hrem & Hco).
        rewrite Hx' in Hy'. injection Hy' as <-.
        destruct (decide (i = k)) as [->|Hne].
        -- rewrite Hpr in Hx. injection Hx as <-.
           rewrite decide_True in Hco by (split; [done|lia]).
           rewrite Hco, <- Hck.
           apply (tiles_elem_end 0 (segs st')); [|done].
           apply (inv_tiles _ _ H').
        -- rewrite decide_False in Hco by tauto. rewrite Hco.
           rewrite Hs in Hin. apply add_segment_other in Hin.
           ++ apply (proj2 (IH s Hin Hp) x Hx). lia.
           ++ intros Heq. apply Hne. symmetry. apply (Huniq k _ _ _ Hkpr). congruence.
    + rewrite (sjf_iter_idle_shape st Hsel) in Hit.
      destruct (_ =? INT_MAX); [done|]. injection Hit as <-. simpl.
      intros s Hin Hp. apply add_segment_other in Hin; [|congruence].
      by apply IH.
Qed.

(** ** The number of passes *)

Lemma sjf_measure_init recs :
  measure (sjf_init (table_of recs)) ≤ sum_bursts recs + Z.of_nat (length recs).
Proof.
  unfold measure, sjf_init. simpl.
  assert (sumZ (map remaining (table_of recs)) = sum_bursts recs) as ->.
  { unfold table_of, sum_bursts. rewrite map_map. apply sumZ_map_ext.
    by intros [[a b] c] _. }
  unfold pending.
  pose proof (length_filter (λ x : Process, 0 < remaining x ∧ 0 < arrival x)
                (table_of recs)) as Hle.
  unfold table_of in Hle at 2. rewrite length_map in Hle. lia.
Qed.

Lemma sjf_cpu_of_owner o p : sjf_cpu_of o p ≠ 0 → ∃ x, x ∈ p ∧ pid x = o.
Proof.
  intros (x & Hx & Hnz)%sumZ_nonzero. exists x. split; [done|].
  by destruct (Z.eqb_spec (pid x) o).
Qed.

(** ** The scenarios of the examples *)

Lemma below_sentinel_scenario_B : below_sentinel (table_of scenario_B).
Proof.
  intros x H. unfold table_of, scenario_B in H. simpl in H.
  repeat (apply elem_of_cons in H as [->|H]; [simpl; unfold INT_MAX; lia|]).
  by apply elem_of_nil in H.
Qed.

Lemma below_sentinel_scenario_late : below_sentinel (table_of scenario_late).
Proof.
  intros x H. unfold table_of, scenario_late in H. simpl in H.
  repeat (apply elem_of_cons in H as [->|H]; [simpl; unfold INT_MAX; lia|]).
  by apply elem_of_nil in H.
Qed.

(** ** The properties *)

(** X15 (sjf.c:106-122, the selection scan of [main]): the scan selects
    nothing exactly when every arrived unfinished process has a remaining
    time of at least [INT_MAX] (in particular when nobody has arrived); and
    when several arrived unfinished processes are equal in remaining time,
    arrival and pid, it selects the one with the lowest index. *)
Theorem X15_sjf_select (p : list Process) (t : Z) :
  (select p t = None ↔
   ∀ j y, p !! j = Some y → eligible t y → INT_MAX ≤ remaining y) ∧
  (∀ i x j y, select p t = Some (i, x) → p !! j = Some y → eligible t y →
              remaining y = remaining x → arrival y = arrival x → pid y = pid x →
              (i ≤ j)%nat).
Proof.
  split; [apply sjf_select_none_iff|]. intros i x j y. apply sjf_select_lowest_index.
Qed.

(** X16 (sjf.c:126-131, the [next_arr] scan of [main]): the scan returns at
    most [INT_MAX]; a result below [INT_MAX] is the earliest arrival after
    [t] among the unfinished processes; the result is [INT_MAX], which makes
    the loop stop, exactly when no unfinished process arrives after [t] and
    before [INT_MAX]. *)
Theorem X16_sjf_next_arrival (p : list Process) (t : Z) :
  next_arrival p t ≤ INT_MAX ∧
  (next_arrival p t ≠ INT_MAX →
   ∃ x, x ∈ p ∧ not_arrived t x ∧ arrival x = next_arrival p t) ∧
  (∀ x, x ∈ p → not_arrived t x → next_arrival p t ≤ arrival x) ∧
  (next_arrival p t = INT_MAX ↔
   ∀ x, x ∈ p → not_arrived t x → INT_MAX ≤ arrival x).
Proof.
  destruct (sjf_next_arrival_spec p t) as (Hle & Hex & Hmin).
  split_and!; [done..|]. split.
  - intros Heq x Hx Hn. rewrite <- Heq. by apply Hmin.
  - intros Hall. destruct (decide (next_arrival p t = INT_MAX)) as [|Hne]; [done|].
    destruct (Hex Hne) as (x & Hx & Hn & Ha). specialize (Hall x Hx Hn). lia.
Qed.

(** X17 (sjf.c:104-147, the while loop of [main]): preemption happens only
    at an arrival.  If a process runs for a unit and is still unfinished, and
    the next pass selects a different process, then that process arrived
    exactly at the new clock and its remaining time is strictly smaller than
    what is left of the process that was running. *)
Theorem X17_sjf_preemption (st : State) (i : nat) (x : Process) (st' : State)
    (j : nat) (y : Process) :
  select (procs st) (clock st) = Some (i, x) →
  sjf_iter st = Continue st' →
  select (procs st') (clock st') = Some (j, y) →
  j ≠ i → 1 < remaining x →
  clock st' = clock st + 1 ∧ arrival y = clock st + 1 ∧
  remaining y < remaining x - 1.
Proof.
  intros Hsel Hit Hsel' Hne Hrem.
  destruct (select_spec _ _ _ _ Hsel) as (Hx & [Hax Hpx] & _ & Hmin).
  destruct (sjf_iter_run_shape st i x Hsel) as (st2 & Hit2 & Hck & _ & Hlen & Hall).
  rewrite Hit in Hit2. injection Hit2 as <-.
  destruct (select_spec _ _ _ _ Hsel') as (Hy & [Hay Hpy] & _ & Hmin').
  destruct (Hall i x Hx) as (x' & Hx' & Hkx & Hrx & _).
  rewrite decide_True in Hrx by done.
  assert (arrival x' = arrival x) as Hax' by (unfold key in Hkx; congruence).
  assert (eligible (clock st') x') as Hex.
  { unfold eligible. lia. }
  destruct (Hmin' i x' Hx' Hex) as [Hnb _].
  assert (∃ y0, procs st !! j = Some y0) as [y0 Hy0].
  { apply lookup_lt_is_Some_2. rewrite <- Hlen. by eapply lookup_lt_Some. }
  destruct (Hall j y0 Hy0) as (y' & Hy' & Hky & Hry & _).
  rewrite Hy in Hy'. injection Hy' as <-.
  rewrite decide_False in Hry by done.
  assert (arrival y = arrival y0) as Hay0 by (unfold key in Hky; congruence).
  assert (clock st < arrival y) as Hlate.
  { destruct (decide (arrival y ≤ clock st)) as [Hle|]; [|lia]. exfalso.
    destruct (Hmin j y0 Hy0) as [Hnb0 _]; [unfold eligible; lia|].
    apply Hnb. unfold before in *. lia. }
  split; [done|]. split; [lia|]. unfold before in Hnb. lia.
Qed.

Lemma X17_witness :
  ∃ st', sjf_iter (sjf_init (table_of scenario_B)) = Continue st' ∧
         select (table_of scenario_B) 0 = Some (0%nat, mkProcess 1 0 8 8 (-1) 0 0) ∧
         select (procs st') (clock st') = Some (1%nat, mkProcess 2 1 4 4 (-1) 0 0) ∧
         clock st' = 1.
Proof.
  destruct (sjf_iter (sjf_init (table_of scenario_B))) as [st'| |] eqn:E;
    [|by vm_compute in E..].
  exists st'. split; [reflexivity|]. split; [reflexivity|].
  assert (select (procs st') (clock st') = Some (1%nat, mkProcess 2 1 4 4 (-1) 0 0))
    as Hsel.
  { vm_compute in E. injection E as <-. reflexivity. }
  split; [exact Hsel|].
  destruct (X17_sjf_preemption (sjf_init (table_of scenario_B)) 0
              (mkProcess 1 0 8 8 (-1) 0 0) st' 1 (mkProcess 2 1 4 4 (-1) 0 0)
              eq_refl E Hsel ltac:(lia) ltac:(simpl; lia)) as (Hc & _).
  exact Hc.
Defined.

(** X18 (sjf.c:124-136, the idle branch of [main]): in a run on valid
    records whose bursts and arrivals are below [INT_MAX], when some
    process is unfinished and the scan selects nothing, every process that
    has arrived is finished, so the CPU idles only when there is nothing to
    run.  The pass does not take the safety break: it records IDLE from the
    clock to the earliest arrival among the unfinished processes, which is
    after the clock, moves the clock there and leaves the table as it is. *)
Theorem X18_sjf_idle_jump (recs : list (Z * Z * Z)) (st : State) :
  valid_records recs → below_sentinel (table_of recs) →
  reach (table_of recs) st → all_done (procs st) = false →
  select (procs st) (clock st) = None →
  ∃ na,
    sjf_iter st = Continue (mkState (procs st)
                                    (add_segment (segs st) IDLE (clock st) na) na) ∧
    clock st < na ∧
    (∀ x, x ∈ procs st → arrival x ≤ clock st → remaining x = 0) ∧
    (∃ x, x ∈ procs st ∧ arrival x = na ∧ 0 < remaining x) ∧
    (∀ x, x ∈ procs st → 0 < remaining x → na ≤ arrival x).
Proof.
  intros Hv Hb Hr Hnd Hsel.
  pose proof (sjf_reach_inv recs st Hv Hr) as H.
  assert (∀ x, x ∈ procs st → arrival x ≤ clock st → remaining x = 0) as Hfin.
  { intros x (j & Hx)%list_elem_of_lookup Ha.
    destruct (inv_proc _ _ H j x Hx) as [_ _ [Hr0 Hr1] _ _ _].
    destruct (decide (0 < remaining x)) as [Hp|]; [|lia]. exfalso.
    pose proof (select_none _ _ Hsel j x Hx (conj Ha Hp)) as Hge.
    (* burst x < INT_MAX *)
    destruct (sjf_key_fields _ _ (inv_key _ _ H)) as (_ & _ & Hbur).
    assert (burst x ∈ map burst (table_of recs)) as Hin.
    { rewrite <- Hbur. apply list_elem_of_fmap. exists x. split; [done|].
      by eapply list_elem_of_lookup_2. }
    apply list_elem_of_fmap in Hin as (z & Hz & Hzin). destruct (Hb z Hzin). lia. }
  pose proof (sjf_no_break _ _ H Hb Hnd) as Hnb.
  rewrite (sjf_iter_idle_shape st Hsel).
  destruct (Z.eqb_spec (next_arrival (procs st) (clock st)) INT_MAX) as [Heq|Hne].
  { exfalso. by apply Hnb. }
  destruct (sjf_next_arrival_spec (procs st) (clock st)) as (Hle & Hex & Hmin).
  destruct (Hex Hne) as (x & Hx & [Hpx Hlx] & Hax).
  exists (next_arrival (procs st) (clock st)). split_and!; try done; try lia.
  - by exists x.
  - intros z Hz Hpz. apply Hmin; [done|]. split; [done|].
    destruct (decide (arrival z ≤ clock st)) as [Hle'|]; [|lia].
    specialize (Hfin z Hz Hle'). lia.
Qed.

Lemma X18_witness :
  valid_records scenario_late ∧ below_sentinel (table_of scenario_late) ∧
  select (table_of scenario_late) 0 = None ∧
  ∃ na, sjf_iter (sjf_init (table_of scenario_late))
        = Continue (mkState (table_of scenario_late) [mkSegment IDLE 0 na] na) ∧
        0 < na.
Proof.
  split; [exact valid_records_scenario_late|].
  split; [exact below_sentinel_scenario_late|]. split; [reflexivity|].
  destruct (X18_sjf_idle_jump scenario_late (sjf_init (table_of scenario_late))
              valid_records_scenario_late below_sentinel_scenario_late
              (reach_init _) eq_refl eq_refl) as (na & Hit & Hlt & _).
  exists na. split; [|exact Hlt].
  rewrite Hit. simpl. unfold add_segment. simpl in Hlt.
  destruct (Z.eqb_spec 0 na); [lia|reflexivity].
Defined.

(** X19 (sjf.c:104-147, the while loop of [main]): on valid records whose
    latest arrival plus total burst is at most [INT_MAX] the loop always
    ends, after at most [(sum of the bursts) + n] passes, and no pass reads
    outside the table; when every burst and arrival is below [INT_MAX] it
    ends with every process finished. *)
Theorem X19_sjf_terminates (recs : list (Z * Z * Z)) (fuel : nat) :
  valid_records recs → no_overflow recs →
  (Z.to_nat (sum_bursts recs) + length recs ≤ fuel)%nat →
  ∃ st, SJFInt.simulate fuel (table_of recs) = Finished st ∧
        (below_sentinel (table_of recs) → all_done (procs st) = true).
Proof.
  intros Hv Hfit Hf. pose proof (sjf_init_inv recs Hv) as H0.
  pose proof (sjf_measure_init recs) as Hm.
  destruct (sjf_loop_terminates (table_of recs) fuel (sjf_init (table_of recs)) H0)
    as (st & Hl & H1); [lia|].
  exists st. rewrite (sjf_simulate_agree _ _ Hv Hfit). split; [done|].
  intros Hb. exact (sjf_loop_complete _ _ _ _ H0 Hb Hl).
Qed.

Lemma X19_witness :
  valid_records scenario_B ∧ no_overflow scenario_B ∧
  ∃ st, SJFInt.simulate 30 (table_of scenario_B) = Finished st ∧
        all_done (procs st) = true ∧ clock st = 26.
Proof.
  split; [exact valid_records_scenario_B|]. split; [exact no_overflow_scenario_B|].
  destruct (X19_sjf_terminates scenario_B 30 valid_records_scenario_B
              no_overflow_scenario_B ltac:(vm_compute; lia)) as (st & Hs & Hd).
  exists st. split; [exact Hs|]. split; [exact (Hd below_sentinel_scenario_B)|].
  vm_compute in Hs. injection Hs as <-. reflexivity.
Defined.

(** X20 (sjf.c:104-147 with [add_segment]): at every loop head of a run on
    valid records whose latest arrival plus total burst is at most
    [INT_MAX], and for every owner other than the IDLE sentinel, the time
    that the timeline gives to the owner is the CPU time that the processes
    with this pid have received (burst minus remaining); when all processes
    are finished it is the sum of their bursts.  Every segment is owned by
    IDLE or by the pid of an input record. *)
Theorem X20_sjf_owner_time (recs : list (Z * Z * Z)) (st : State) (o : Z) :
  valid_records recs → no_overflow recs → SJFInt.reach (table_of recs) st →
  o ≠ IDLE →
  time_of o (segs st) = sjf_cpu_of o (procs st) ∧
  (all_done (procs st) = true → time_of o (segs st) = burst_of o recs) ∧
  ((∃ s, s ∈ segs st ∧ seg_pid s = o) → ∃ b c, (o, b, c) ∈ recs).
Proof.
  intros Hv Hfit Hr Ho.
  destruct (sjf_int_head recs st Hv Hfit Hr) as (Hr' & H & _).
  pose proof (sjf_owner_time recs st o Hr' Ho) as Ht.
  assert (map key (procs st) = recs) as Hk.
  { rewrite (inv_key _ _ H). apply sjf_key_table_of. }
  split_and!; [done| |].
  - intros Hd. rewrite Ht. apply sjf_cpu_of_all_done; [done|].
    by destruct (sjf_inv_final _ _ H Hd) as [? _].
  - intros (s & Hs & Hso).
    pose proof (time_of_pos _ _ _ _ _ (inv_tiles _ _ H) Hs Hso) as Hpos.
    destruct (sjf_cpu_of_owner o (procs st)) as (x & Hx & Hpx); [lia|].
    exists (arrival x), (burst x). rewrite <- Hk, <- Hpx.
    apply list_elem_of_fmap. by exists x.
Qed.

Lemma X20_witness :
  valid_records scenario_B ∧ no_overflow scenario_B ∧
  ∃ st, SJFInt.simulate 30 (table_of scenario_B) = Finished st ∧
        time_of 1 (segs st) = 8 ∧ burst_of 1 scenario_B = 8.
Proof.
  split; [exact valid_records_scenario_B|]. split; [exact no_overflow_scenario_B|].
  destruct (SJFInt.simulate 30 (table_of scenario_B)) as [st| |] eqn:E;
    [|by vm_compute in E..].
  exists st. split; [reflexivity|]. split; [|reflexivity].
  destruct (X20_sjf_owner_time scenario_B st 1 valid_records_scenario_B
              no_overflow_scenario_B (sjf_int_simulate_reach _ _ _ E) ltac:(done))
    as (_ & Hb & _).
  rewrite Hb; [reflexivity|].
  vm_compute in E. injection E as <-. reflexivity.
Defined.

(** X24 (sjf.c:104-147 with [add_segment]): in an SRTF run on valid
    records whose latest arrival plus total burst is at most [INT_MAX], a
    process whose pid is not the IDLE sentinel and is not shared with
    another record runs only between its arrival and its completion: at
    every loop head, every segment that the timeline gives to its pid starts
    at or after its arrival, and once the process is finished every such
    segment ends at or before its completion time. *)
Theorem X24_sjf_run_window (recs : list (Z * Z * Z)) (st : State)
    (i : nat) (a b c : Z) (s : Segment) :
  valid_records recs → no_overflow recs → SJFInt.reach (table_of recs) st →
  recs !! i = Some (a, b, c) → a ≠ IDLE →
  (∀ j a' b' c', recs !! j = Some (a', b', c') → a' = a → j = i) →
  s ∈ segs st → seg_pid s = a →
  b ≤ seg_start s ∧
  ∀ x, procs st !! i = Some x → remaining x = 0 → seg_end s ≤ completion x.
Proof.
  intros Hv Hfit Hr Hi Ha Huniq Hs Hp.
  destruct (sjf_int_head recs st Hv Hfit Hr) as (Hr' & _ & _).
  exact (sjf_window recs st i a b c Hv Hr' Hi Ha Huniq s Hs Hp).
Qed.

Lemma X24_witness :
  valid_records scenario_B ∧ no_overflow scenario_B ∧
  ∃ st, SJFInt.simulate 30 (table_of scenario_B) = Finished st ∧
        mkSegment 1 10 17 ∈ segs st ∧
        procs st !! 0%nat = Some (mkProcess 1 0 8 0 17 0 0) ∧
        0 ≤ 10 ∧ 17 ≤ 17.
Proof.
  split; [exact valid_records_scenario_B|]. split; [exact no_overflow_scenario_B|].
  assert (∀ j a' b' c', scenario_B !! j = Some (a', b', c') → a' = 1 → j = 0%nat) as Hu.
  { intros [|[|[|[|j]]]] a' b' c' Hj Ha; simpl in Hj; simplify_eq; done. }
  destruct (SJFInt.simulate 30 (table_of scenario_B)) as [st| |] eqn:E;
    [|by vm_compute in E..].
  assert (mkSegment 1 10 17 ∈ segs st) as Hin.
  { apply list_elem_of_lookup. exists 3%nat.
    vm_compute in E. injection E as <-. reflexivity. }
  assert (procs st !! 0%nat = Some (mkProcess 1 0 8 0 17 0 0)) as Hx.
  { vm_compute in E. injection E as <-. reflexivity. }
  exists st. split; [reflexivity|]. split; [exact Hin|]. split; [exact Hx|].
  destruct (X24_sjf_run_window scenario_B st 0 1 0 8 (mkSegment 1 10 17)
              valid_records_scenario_B no_overflow_scenario_B
              (sjf_int_simulate_reach _ _ _ E)
              eq_refl ltac:(done) Hu Hin eq_refl) as [H1 H2].
  split; [exact H1|]. exact (H2 _ Hx eq_refl).
Defined.

End SJFMore.

(** * Bounds and input shared by the two simulators *)

Section Both.



(** X22 (rr.c:142-157, sjf.c:84-98, the input loops of [main]): the input
    loop for [n] records succeeds exactly when the input starts with [n]
    records of three integers with [arrival >= 0] and [burst > 0]; it then
    builds the table in input order, with the remaining time set to the
    burst, the completion time to -1 and (in rr.c) the flag to 0, and does
    not read what follows the records. *)
Theorem X22_read_processes (n : nat) (inp : list token) :
  (∀ p, RR.read_processes n inp = Some p ↔
        ∃ recs rest, inp = tokens_of recs ++ rest ∧ length recs = n ∧
                     (∀ a b c, (a, b, c) ∈ recs → 0 ≤ b ∧ 0 < c) ∧
                     p = RR.table_of recs) ∧
  (∀ p, SJF.read_processes n inp = Some p ↔
        ∃ recs rest, inp = tokens_of recs ++ rest ∧ length recs = n ∧
                     (∀ a b c, (a, b, c) ∈ recs → 0 ≤ b ∧ 0 < c) ∧
                     p = SJF.table_of recs).
Proof.
  split; intros p; split.
  - apply RRFacts.rr_read_processes_sound.
  - intros (recs & rest & -> & <- & Hv & ->).
    by apply RRFacts.rr_read_processes_complete.
  - apply SJFFacts.sjf_read_processes_sound.
  - intros (recs & rest & -> & <- & Hv & ->).
    by apply SJFFacts.sjf_read_processes_complete.
Qed.

End Both.

(** * Facts about the line parser of myshell.c *)

Module ShellFacts.
Import Ascii Shell.

(** ** The loops over the characters *)

Lemma skip_blanks_length s : (length (skip_blanks s) ≤ length s)%nat.
Proof. induction s as [|c r IH]; simpl; [done|]. destruct (is_blank c); simpl; lia. Qed.

Lemma skip_blanks_head s c r : skip_blanks s = c :: r → is_blank c = false.
Proof.
  induction s as [|c' r' IH]; simpl; [done|].
  destruct (is_blank c') eqn:E; [done|]. by intros [= <- <-].
Qed.

Lemma skip_blanks_app b s : all_blank b → skip_blanks (b ++ s) = skip_blanks s.
Proof.
  unfold all_blank. intros H. induction H as [|c b Hc Hb IH]; simpl; [done|].
  by rewrite Hc.
Qed.

Lemma skip_blanks_all b : all_blank b → skip_blanks b = [].
Proof. intros H. rewrite <- (app_nil_r b). by rewrite skip_blanks_app. Qed.

Lemma skip_blanks_nonblank c r : is_blank c = false → skip_blanks (c :: r) = c :: r.
Proof. intros H. simpl. by rewrite H. Qed.

Lemma copy_while_spec stop room s w r :
  copy_while stop room s = (w, r) →
  s = w ++ r ∧ (length w ≤ room)%nat ∧ Forall (λ c, stop c = false) w.
Proof.
  revert room w r. induction s as [|c s IH]; intros room w r; simpl.
  { intros [= <- <-]. split_and!; [done|simpl; lia|constructor]. }
  destruct (stop c) eqn:Ec.
  { intros [= <- <-]. split_and!; [done|simpl; lia|constructor]. }
  destruct room as [|room].
  { intros [= <- <-]. split_and!; [done|simpl; lia|constructor]. }
  destruct (copy_while stop room s) as [w' r'] eqn:E. intros [= <- <-].
  destruct (IH _ _ _ E) as (-> & Hl & Hf). split_and!; [done|simpl; lia|by constructor].
Qed.

Lemma copy_while_exact stop room w r :
  Forall (λ c, stop c = false) w → (length w ≤ room)%nat → stops_at stop r →
  copy_while stop room (w ++ r) = (w, r).
Proof.
  intros Hw. revert room. induction Hw as [|c w Hc Hw IH]; intros room Hl Hr; simpl.
  - destruct r as [|c r]; [done|]. simpl in *. by rewrite Hr.
  - rewrite Hc. destruct room as [|room]; [simpl in Hl; lia|].
    rewrite IH; [done|simpl in Hl; lia|done].
Qed.

Lemma skip_quote_length s : (length (skip_quote s) ≤ length s)%nat.
Proof. destruct s as [|c r]; simpl; [done|]. destruct (is_quote c); simpl; lia. Qed.

Lemma read_token_spec stop s w r :
  read_token stop s = (w, r) → (length w < MAX_LINE)%nat ∧ (length r ≤ length s)%nat.
Proof.
  unfold read_token. destruct s as [|c s]; [intros [= <- <-]; simpl; unfold MAX_LINE; lia|].
  destruct (is_quote c).
  - destruct (copy_while is_quote (MAX_LINE - 1) s) as [w' r'] eqn:E. intros [= <- <-].
    destruct (copy_while_spec _ _ _ _ _ E) as (-> & Hl & _).
    pose proof (skip_quote_length r'). cbn [length]. rewrite length_app.
    unfold MAX_LINE in *. lia.
  - intros E. destruct (copy_while_spec _ _ _ _ _ E) as (Hs & Hl & _).
    rewrite Hs, length_app. unfold MAX_LINE in *. lia.
Qed.

Lemma read_token_progress stop c s w r :
  is_quote c = true ∨ stop c = false →
  read_token stop (c :: s) = (w, r) → (length r ≤ length s)%nat.
Proof.
  unfold read_token. intros Hc. destruct (is_quote c) eqn:Eq.
  - destruct (copy_while is_quote (MAX_LINE - 1) s) as [w' r'] eqn:E. intros [= <- <-].
    destruct (copy_while_spec _ _ _ _ _ E) as (-> & Hl & _).
    pose proof (skip_quote_length r'). rewrite length_app. lia.
  - destruct Hc as [|Hc]; [done|]. simpl. rewrite Hc.
    change (MAX_LINE - 1)%nat with (S 1022).
    destruct (copy_while stop 1022 s) as [w' r'] eqn:E. intros [= <- <-].
    destruct (copy_while_spec _ _ _ _ _ E) as (-> & Hl & _). rewrite length_app. lia.
Qed.

Lemma not_ends_arg c :
  is_blank c = false → (c =? "<")%char = false → (c =? ">")%char = false →
  ends_arg c = false.
Proof. unfold ends_arg. by intros -> -> ->. Qed.

Lemma parse_iter_progress max_args s p s' p' :
  parse_iter max_args s p = PContinue s' p' → (length s' < length s)%nat.
Proof.
  unfold parse_iter. pose proof (skip_blanks_length s) as Hsk.
  destruct (skip_blanks s) as [|c r] eqn:Es; [done|].
  pose proof (skip_blanks_head _ _ _ Es) as Hc. simpl in Hsk.
  destruct (c =? "<")%char eqn:E1.
  { pose proof (skip_blanks_length r) as Hsk'.
    destruct (skip_blanks r) as [|c1 r1] eqn:Es1; [done|].
    destruct (read_token is_blank (c1 :: r1)) as [w s2] eqn:Er. intros [= <- <-].
    destruct (read_token_spec _ _ _ _ Er) as [_ Hl]. lia. }
  destruct (c =? ">")%char eqn:E2.
  { set (ar := match r with
               | c' :: r' => if (c' =? ">")%char then (true, r') else (false, r)
               | [] => (false, r)
               end).
    assert (length ar.2 ≤ length r)%nat as Har.
    { unfold ar. destruct r as [|c' r']; [done|]. destruct (c' =? ">")%char; simpl; lia. }
    destruct ar as [app r1]. simpl in Har.
    pose proof (skip_blanks_length r1) as Hsk'.
    destruct (skip_blanks r1) as [|c1 r2] eqn:Es1; [done|].
    destruct (read_token is_blank (c1 :: r2)) as [w s2] eqn:Er. intros [= <- <-].
    destruct (read_token_spec _ _ _ _ Er) as [_ Hl]. lia. }
  destruct (argc p >=? max_args - 1); [done|].
  destruct (read_token ends_arg (c :: r)) as [w s2] eqn:Er.
  assert (length s2 ≤ length r)%nat as Hl.
  { eapply read_token_progress; [|exact Er]. right. by apply not_ends_arg. }
  destruct w; intros [= <- <-]; lia.
Qed.

Lemma parse_loop_fuel fuel fuel' max_args s p :
  (length s ≤ fuel)%nat → (length s ≤ fuel')%nat →
  parse_loop fuel max_args s p = parse_loop fuel' max_args s p.
Proof.
  revert fuel' s p. induction fuel as [|f IH]; intros fuel' s p H1 H2.
  - destruct s; [by destruct fuel'|simpl in H1; lia].
  - destruct s as [|c s]; [by destruct fuel'|].
    destruct fuel' as [|f']; [simpl in H2; lia|].
    cbn [parse_loop].
    destruct (parse_iter max_args (c :: s) p) as [s' p'| |] eqn:E; [|done..].
    apply parse_iter_progress in E. simpl in *. apply IH; lia.
Qed.

Lemma parse_from_nil max_args p : parse_from max_args [] p = Finished (argc p, p).
Proof. done. Qed.

Lemma parse_from_step max_args s p :
  s ≠ [] →
  parse_from max_args s p
  = match parse_iter max_args s p with
    | PContinue s' p' => parse_from max_args s' p'
    | PBreak p' => Finished (argc p', p')
    | PError p' => Finished (-1, p')
    end.
Proof.
  intros Hs. unfold parse_from. destruct s as [|c s]; [done|].
  cbn [length parse_loop].
  destruct (parse_iter max_args (c :: s) p) as [s' p'| |] eqn:E; [|done..].
  apply parse_iter_progress in E. simpl in E. apply parse_loop_fuel; lia.
Qed.

Lemma is_blank_not_lt c : is_blank c = true → (c =? "<")%char = false ∧ (c =? ">")%char = false.
Proof.
  unfold is_blank. intros [H|H]%orb_true_iff; apply Ascii.eqb_eq in H; by subst.
Qed.

Lemma ends_arg_false c :
  ends_arg c = false →
  is_blank c = false ∧ (c =? "<")%char = false ∧ (c =? ">")%char = false.
Proof.
  unfold ends_arg. intros H. apply orb_false_iff in H as [H H3].
  apply orb_false_iff in H as [H1 H2]. done.
Qed.

Lemma is_quote_facts c :
  is_quote c = true →
  is_blank c = false ∧ (c =? "<")%char = false ∧ (c =? ">")%char = false.
Proof. unfold is_quote. intros H. apply Ascii.eqb_eq in H. by subst. Qed.

(** ** What one pass writes fits the arrays *)

Lemma parsed_ok_set_in max_args w p :
  (length w < MAX_LINE)%nat → parsed_ok max_args p → parsed_ok max_args (set_in w p).
Proof.
  intros Hw (H1 & H2 & H3 & H4). split_and!; try done. simpl. by intros f [= <-].
Qed.

Lemma parsed_ok_set_out max_args w p :
  (length w < MAX_LINE)%nat → parsed_ok max_args p → parsed_ok max_args (set_out w p).
Proof.
  intros Hw (H1 & H2 & H3 & H4). split_and!; try done. simpl. by intros f [= <-].
Qed.

Lemma parsed_ok_set_append max_args b p :
  parsed_ok max_args p → parsed_ok max_args (set_append b p).
Proof. by intros (H1 & H2 & H3 & H4). Qed.

Lemma parsed_ok_push_arg max_args w p :
  w ≠ [] → (length w < MAX_LINE)%nat → argc p < max_args - 1 →
  parsed_ok max_args p → parsed_ok max_args (push_arg w p).
Proof.
  intros Hne Hw Ha (H1 & H2 & H3 & H4). split_and!; try done.
  - unfold argc in *. simpl. rewrite length_app. simpl. lia.
  - simpl. apply Forall_app. split; [done|]. constructor; [done|constructor].
Qed.

Lemma parse_iter_ok max_args s p :
  parsed_ok max_args p →
  match parse_iter max_args s p with
  | PContinue _ p' | PBreak p' | PError p' => parsed_ok max_args p'
  end.
Proof.
  intros Hp. unfold parse_iter.
  destruct (skip_blanks s) as [|c r] eqn:Es; [done|].
  destruct (c =? "<")%char.
  { destruct (skip_blanks r) as [|c1 r1]; [done|].
    destruct (read_token is_blank (c1 :: r1)) as [w s2] eqn:Er.
    destruct (read_token_spec _ _ _ _ Er) as [Hl _]. by apply parsed_ok_set_in. }
  destruct (c =? ">")%char.
  { destruct (match r with
              | c' :: r' => if (c' =? ">")%char then (true, r') else (false, r)
              | [] => (false, r)
              end) as [app r1].
    destruct (skip_blanks r1) as [|c1 r2]; [by apply parsed_ok_set_append|].
    destruct (read_token is_blank (c1 :: r2)) as [w s2] eqn:Er.
    destruct (read_token_spec _ _ _ _ Er) as [Hl _].
    by apply parsed_ok_set_out, parsed_ok_set_append. }
  destruct (Z.geb_spec (argc p) (max_args - 1)) as [|Hlt]; [done|].
  destruct (read_token ends_arg (c :: r)) as [w s2] eqn:Er.
  destruct (read_token_spec _ _ _ _ Er) as [Hl _].
  destruct w as [|c' w']; [done|]. by apply parsed_ok_push_arg.
Qed.

Lemma parse_loop_total fuel max_args s p :
  (length s ≤ fuel)%nat → parsed_ok max_args p →
  ∃ ret p', parse_loop fuel max_args s p = Finished (ret, p') ∧
            (ret = -1 ∨ ret = argc p') ∧ parsed_ok max_args p'.
Proof.
  revert s p. induction fuel as [|f IH]; intros s p Hf Hp.
  - destruct s; [|simpl in Hf; lia]. exists (argc p), p. split_and!; [done|by right|done].
  - destruct s as [|c s]; [exists (argc p), p; split_and!; [done|by right|done]|].
    cbn [parse_loop]. pose proof (parse_iter_ok max_args (c :: s) p Hp) as Hok.
    destruct (parse_iter max_args (c :: s) p) as [s' p'|p'|p'] eqn:E.
    + apply parse_iter_progress in E. simpl in *. apply IH; [lia|done].
    + exists (argc p'), p'. split_and!; [done|by right|done].
    + exists (-1), p'. split_and!; [done|by left|done].
Qed.

(** ** The passes on a line of a known shape *)

Lemma parse_iter_skip max_args b s p :
  all_blank b → parse_iter max_args (b ++ s) p = parse_iter max_args s p.
Proof. intros Hb. unfold parse_iter. by rewrite skip_blanks_app. Qed.

Lemma parse_from_skip max_args b s p :
  all_blank b → s ≠ [] → parse_from max_args (b ++ s) p = parse_from max_args s p.
Proof.
  intros Hb Hs. rewrite (parse_from_step _ (b ++ s)), (parse_from_step _ s), parse_iter_skip;
    [done..|]. by destruct b, s.
Qed.

Lemma read_token_unquoted stop w rest :
  (∃ c r, w = c :: r ∧ is_quote c = false) →
  Forall (λ c, stop c = false) w → (length w < MAX_LINE)%nat → stops_at stop rest →
  read_token stop (w ++ rest) = (w, rest).
Proof.
  intros (c & r & -> & Hq) Hw Hl Hr. unfold read_token. cbn [app]. rewrite Hq.
  apply (copy_while_exact stop _ (c :: r) rest); [done|unfold MAX_LINE in *; lia|done].
Qed.

Lemma read_token_quoted stop w rest :
  Forall (λ c, is_quote c = false) w → (length w < MAX_LINE)%nat →
  read_token stop (quote :: w ++ quote :: rest) = (w, rest).
Proof.
  intros Hw Hl. unfold read_token. cbv iota.
  change (is_quote quote) with true. cbv iota.
  rewrite (copy_while_exact is_quote (MAX_LINE - 1) w (quote :: rest));
    [done|done|unfold MAX_LINE in *; lia|done].
Qed.

Lemma read_fname b' f rest :
  all_blank b' → fname_ok f → stops_at is_blank rest →
  ∃ c r, skip_blanks (b' ++ f ++ rest) = c :: r ∧
         read_token is_blank (c :: r) = (f, rest).
Proof.
  intros Hb ((c & r & -> & Hq & Hg) & Hf & Hl) Hr.
  exists c, (r ++ rest). rewrite skip_blanks_app by done.
  change ((c :: r) ++ rest) with (c :: (r ++ rest)).
  rewrite skip_blanks_nonblank by (by apply Forall_inv in Hf). split; [done|].
  change (c :: (r ++ rest)) with ((c :: r) ++ rest).
  apply read_token_unquoted; [by exists c, r|done..].
Qed.

Lemma parse_from_in max_args b b' f rest p :
  all_blank b → all_blank b' → fname_ok f → stops_at is_blank rest →
  parse_from max_args (b ++ "<"%char :: b' ++ f ++ rest) p
  = parse_from max_args rest (set_in f p).
Proof.
  intros Hb Hb' Hf Hr.
  rewrite parse_from_skip by done.
  rewrite parse_from_step by done. unfold parse_iter.
  rewrite skip_blanks_nonblank by done. cbn [Ascii.eqb]. cbv iota.
  destruct (read_fname b' f rest Hb' Hf Hr) as (c & r & -> & ->). done.
Qed.

Lemma parse_from_out max_args b b' f rest p :
  all_blank b → all_blank b' → fname_ok f → stops_at is_blank rest →
  parse_from max_args (b ++ ">"%char :: b' ++ f ++ rest) p
  = parse_from max_args rest (set_out f (set_append false p)).
Proof.
  intros Hb Hb' Hf Hr.
  rewrite parse_from_skip by done.
  rewrite parse_from_step by done. unfold parse_iter.
  rewrite skip_blanks_nonblank by done.
  change (">" =? "<")%char with false. change (">" =? ">")%char with true. cbv iota.
  assert (match b' ++ f ++ rest with
          | c' :: r' => if (c' =? ">")%char then (true, r') else (false, b' ++ f ++ rest)
          | [] => (false, b' ++ f ++ rest)
          end = (false, b' ++ f ++ rest)) as ->.
  { destruct b' as [|c' b'].
    - destruct Hf as ((c & r & -> & _ & Hg) & _). simpl. by rewrite Hg.
    - simpl. apply Forall_inv in Hb'. apply is_blank_not_lt in Hb' as [_ ->]. done. }
  destruct (read_fname b' f rest Hb' Hf Hr) as (c & r & -> & ->). done.
Qed.

Lemma parse_from_append max_args b b' f rest p :
  all_blank b → all_blank b' → fname_ok f → stops_at is_blank rest →
  parse_from max_args (b ++ ">"%char :: ">"%char :: b' ++ f ++ rest) p
  = parse_from max_args rest (set_out f (set_append true p)).
Proof.
  intros Hb Hb' Hf Hr.
  rewrite parse_from_skip by done.
  rewrite parse_from_step by done. unfold parse_iter.
  rewrite skip_blanks_nonblank by done.
  change (">" =? "<")%char with false. change (">" =? ">")%char with true. cbv iota.
  destruct (read_fname b' f rest Hb' Hf Hr) as (c & r & -> & ->). done.
Qed.

Lemma parse_from_no_fname max_args b b' p :
  all_blank b → all_blank b' →
  parse_from max_args (b ++ "<"%char :: b') p = Finished (-1, p) ∧
  parse_from max_args (b ++ ">"%char :: b') p = Finished (-1, set_append false p) ∧
  parse_from max_args (b ++ ">"%char :: ">"%char :: b') p
  = Finished (-1, set_append true p).
Proof.
  intros Hb Hb'. split_and!.
  - rewrite parse_from_skip by done.
    rewrite parse_from_step by done. unfold parse_iter.
    rewrite skip_blanks_nonblank by done. cbn [Ascii.eqb]. cbv iota.
    by rewrite skip_blanks_all.
  - rewrite parse_from_skip by done.
    rewrite parse_from_step by done. unfold parse_iter.
    rewrite skip_blanks_nonblank by done.
    change (">" =? "<")%char with false. change (">" =? ">")%char with true. cbv iota.
    assert (match b' with
            | c' :: r' => if (c' =? ">")%char then (true, r') else (false, b')
            | [] => (false, b')
            end = (false, b')) as ->.
    { destruct b' as [|c' b']; [done|].
      apply Forall_inv in Hb'. apply is_blank_not_lt in Hb' as [_ ->]. done. }
    by rewrite skip_blanks_all.
  - rewrite parse_from_skip by done.
    rewrite parse_from_step by done. unfold parse_iter.
    rewrite skip_blanks_nonblank by done.
    change (">" =? "<")%char with false. change (">" =? ">")%char with true. cbv iota.
    by rewrite skip_blanks_all.
Qed.

Lemma parse_from_blank max_args b p :
  all_blank b → parse_from max_args b p = Finished (argc p, p).
Proof.
  intros Hb. destruct b as [|c b]; [done|].
  rewrite parse_from_step by done. unfold parse_iter. by rewrite skip_blanks_all.
Qed.

Lemma parse_from_limit max_args b c r p :
  all_blank b → ends_arg c = false → max_args - 1 ≤ argc p →
  parse_from max_args (b ++ c :: r) p = Finished (argc p, p).
Proof.
  intros Hb Hc Ha. apply ends_arg_false in Hc as (Hc1 & Hc2 & Hc3).
  rewrite parse_from_skip by done.
  rewrite parse_from_step by done. unfold parse_iter.
  rewrite skip_blanks_nonblank, Hc2, Hc3 by done.
  destruct (Z.geb_spec (argc p) (max_args - 1)) as [|]; [done|lia].
Qed.

(** ** [trim_newline] *)

Lemma trim_newline_spec s :
  (∃ r, s = trim_newline s ++ r ∧ stops_at (λ c, (c =? newline)%char) r) ∧
  (newline ∉ trim_newline s).
Proof.
  induction s as [|c s [(r & Hr & Hs) Hn]]; simpl.
  - split; [by exists []|]. by intros ?%elem_of_nil.
  - destruct (c =? newline)%char eqn:E.
    + split; [by exists (c :: s)|]. by intros ?%elem_of_nil.
    + split.
      * exists r. split; [|done]. simpl. by rewrite <- Hr.
      * intros [<-|H]%elem_of_cons; [|done]. by rewrite Ascii.eqb_refl in E.
Qed.

Lemma trim_newline_id s : newline ∉ s → trim_newline s = s.
Proof.
  induction s as [|c s IH]; simpl; [done|]. intros Hn.
  destruct (Ascii.eqb_spec c newline) as [->|_].
  - exfalso. apply Hn. left.
  - rewrite IH; [done|]. intros H. apply Hn. by right.
Qed.

(** ** The scenarios of the examples *)

Lemma all_blank_nil : all_blank [].
Proof. constructor. Qed.

Lemma all_blank_space : all_blank [" "%char].
Proof. by repeat constructor. Qed.

(** ** The properties *)

(** X25 (myshell.c:14-16, [trim_newline]): the string is cut at its first
    newline: the result is a prefix of the string that holds no newline and
    is followed, in the string, by a newline or by nothing; a string without
    a newline is unchanged, and cutting twice is cutting once. *)
Theorem X25_trim_newline (s : list ascii) :
  (∃ r, s = trim_newline s ++ r ∧ stops_at (λ c, (c =? newline)%char) r) ∧
  (newline ∉ trim_newline s) ∧
  (newline ∉ s → trim_newline s = s) ∧
  trim_newline (trim_newline s) = trim_newline s.
Proof.
  destruct (trim_newline_spec s) as [Hp Hn]. split_and!; [done..| |].
  - apply trim_newline_id.
  - by apply trim_newline_id.
Qed.

(** X26 (myshell.c:28-123, [parse_line]): for every line and every
    [max_args >= 1] the loop ends (every pass moves the cursor forward) and
    the call returns -1 or the number of arguments stored.  What it has
    written fits the arrays of the caller: at most [max_args - 1] arguments,
    so that [argv[argc] = NULL] is inside [argv]; no argument is empty; every
    argument and file name is shorter than its buffer of [MAX_LINE]
    characters. *)
Theorem X26_parse_line_returns (max_args : Z) (line : list ascii) :
  1 ≤ max_args →
  ∃ ret p, parse_line max_args line = Finished (ret, p) ∧
           (ret = -1 ∨ ret = argc p) ∧ parsed_ok max_args p.
Proof.
  intros Hm. apply parse_loop_total; [done|].
  unfold parsed_ok, argc. simpl. split_and!; [lia|constructor|done..].
Qed.

Lemma X26_witness :
  parse_line MAX_ARGS line_ls_out
  = Finished (2, mkParsed [["l"; "s"]; ["-"; "l"]]%char None
                          (Some ["o"; "u"; "t"]%char) false) ∧
  parsed_ok MAX_ARGS (mkParsed [["l"; "s"]; ["-"; "l"]]%char None
                               (Some ["o"; "u"; "t"]%char) false).
Proof.
  destruct (X26_parse_line_returns MAX_ARGS line_ls_out ltac:(unfold MAX_ARGS; lia))
    as (ret & p & Hp & _ & Hok).
  vm_compute in Hp. injection Hp as <- <-. split; [reflexivity|exact Hok].
Defined.

(** X27 (myshell.c:94-118, the argument branch of [parse_line]): wherever
    the cursor is and whatever has been written, when fewer than
    [max_args - 1] arguments are stored, an unquoted word (no blank, ['<'] or
    ['>'], shorter than [MAX_LINE]) that comes after any blanks and is
    followed by a blank, ['<'], ['>'] or the end of the line is stored as the
    next argument, and the parse goes on behind it with everything else
    unchanged. *)
Theorem X27_parse_argument (max_args : Z) (b w rest : list ascii) (p : Parsed) :
  all_blank b → word_ok w → stops_at ends_arg rest → argc p < max_args - 1 →
  parse_from max_args (b ++ w ++ rest) p = parse_from max_args rest (push_arg w p).
Proof.
  intros Hb (Hq & Hw & Hl) Hr Ha.
  destruct Hq as (c & r & -> & Hq).
  rewrite parse_from_skip by done.
  rewrite parse_from_step by done. unfold parse_iter.
  pose proof (Forall_inv Hw) as Hc. apply ends_arg_false in Hc as (Hc1 & Hc2 & Hc3).
  change ((c :: r) ++ rest) with (c :: (r ++ rest)).
  rewrite skip_blanks_nonblank, Hc2, Hc3 by done.
  destruct (Z.geb_spec (argc p) (max_args - 1)) as [|_]; [lia|].
  change (c :: (r ++ rest)) with ((c :: r) ++ rest).
  rewrite read_token_unquoted; [done|by exists c, r|done..].
Qed.

Lemma X27_witness :
  parse_from MAX_ARGS ([" "; "l"; "s"] ++ [" "; "-"; "l"])%char nothing_parsed
  = parse_from MAX_ARGS [" "; "-"; "l"]%char (push_arg ["l"; "s"]%char nothing_parsed) ∧
  parse_from MAX_ARGS [" "; "-"; "l"]%char (push_arg ["l"; "s"]%char nothing_parsed)
  = Finished (2, mkParsed [["l"; "s"]; ["-"; "l"]]%char None None false).
Proof.
  split; [|reflexivity].
  apply (X27_parse_argument MAX_ARGS [" "]%char ["l"; "s"]%char [" "; "-"; "l"]%char
           nothing_parsed).
  - exact all_blank_space.
  - split_and!; [by eexists _, _|by repeat constructor|simpl; unfold MAX_LINE; lia].
  - reflexivity.
  - reflexivity.
Defined.

(** X28 (myshell.c:100-116, the quoted form of the argument branch): when
    fewer than [max_args - 1] arguments are stored, the text between two
    double quotes (shorter than [MAX_LINE]) is stored as one argument, with
    its blanks and its ['<'] and ['>'], and the parse goes on behind the
    closing quote; an empty pair of quotes stores nothing. *)
Theorem X28_parse_quoted (max_args : Z) (b w rest : list ascii) (p : Parsed) :
  all_blank b → Forall (λ c, is_quote c = false) w → (length w < MAX_LINE)%nat →
  argc p < max_args - 1 →
  parse_from max_args (b ++ quote :: w ++ quote :: rest) p
  = parse_from max_args rest (if w is [] then p else push_arg w p).
Proof.
  intros Hb Hw Hl Ha.
  rewrite parse_from_skip by done.
  rewrite parse_from_step by done. unfold parse_iter.
  rewrite skip_blanks_nonblank by done.
  change (quote =? "<")%char with false. change (quote =? ">")%char with false. cbv iota.
  destruct (Z.geb_spec (argc p) (max_args - 1)) as [|_]; [lia|].
  rewrite read_token_quoted by done. by destruct w.
Qed.

Lemma X28_witness :
  parse_from MAX_ARGS ([" "] ++ quote :: ["a"; " "; ">"; "b"] ++ quote :: [])%char
             (push_arg ["e"; "c"; "h"; "o"]%char nothing_parsed)
  = Finished (2, mkParsed [["e"; "c"; "h"; "o"]; ["a"; " "; ">"; "b"]]%char
                          None None false).
Proof.
  rewrite (X28_parse_quoted MAX_ARGS [" "]%char ["a"; " "; ">"; "b"]%char []
             (push_arg ["e"; "c"; "h"; "o"]%char nothing_parsed)).
  - reflexivity.
  - exact all_blank_space.
  - by repeat constructor.
  - simpl. unfold MAX_LINE. lia.
  - reflexivity.
Defined.

(** X29 (myshell.c:43-92, the redirection branches of [parse_line]):
    wherever the cursor is, ['<'], ['>'] or ['>>'] followed, after any
    blanks, by an unquoted file name sets the input file, or the output file
    with the append flag 0 for ['>'] and 1 for ['>>'], replacing an earlier
    one, and the parse goes on behind the name; the name runs up to the next
    blank, also over ['<'] and ['>'].  When only blanks follow the operator
    the call returns -1, with the append flag already written. *)
Theorem X29_parse_redirection (max_args : Z) (b b' f rest : list ascii) (p : Parsed) :
  all_blank b → all_blank b' → fname_ok f → stops_at is_blank rest →
  parse_from max_args (b ++ "<"%char :: b' ++ f ++ rest) p
  = parse_from max_args rest (set_in f p) ∧
  parse_from max_args (b ++ ">"%char :: b' ++ f ++ rest) p
  = parse_from max_args rest (set_out f (set_append false p)) ∧
  parse_from max_args (b ++ ">"%char :: ">"%char :: b' ++ f ++ rest) p
  = parse_from max_args rest (set_out f (set_append true p)) ∧
  parse_from max_args (b ++ "<"%char :: b') p = Finished (-1, p) ∧
  parse_from max_args (b ++ ">"%char :: b') p = Finished (-1, set_append false p) ∧
  parse_from max_args (b ++ ">"%char :: ">"%char :: b') p
  = Finished (-1, set_append true p).
Proof.
  intros Hb Hb' Hf Hr.
  destruct (parse_from_no_fname max_args b b' p Hb Hb') as (E1 & E2 & E3).
  split_and!; [ | | |done..].
  - by apply parse_from_in.
  - by apply parse_from_out.
  - by apply parse_from_append.
Qed.

Lemma X29_witness :
  parse_from MAX_ARGS ([" "] ++ "<" :: [] ++ ["i"; "n"; ">"; "x"] ++ [])%char
             (push_arg ["w"; "c"]%char nothing_parsed)
  = Finished (1, mkParsed [["w"; "c"]]%char (Some ["i"; "n"; ">"; "x"]%char) None false) ∧
  parse_from MAX_ARGS ([" "] ++ ">" :: ">" :: [])%char
             (push_arg ["w"; "c"]%char nothing_parsed)
  = Finished (-1, mkParsed [["w"; "c"]]%char None None true).
Proof.
  destruct (X29_parse_redirection MAX_ARGS [" "]%char [] ["i"; "n"; ">"; "x"]%char []
              (push_arg ["w"; "c"]%char nothing_parsed))
    as (E1 & _ & _ & _ & _ & E6).
  - exact all_blank_space.
  - exact all_blank_nil.
  - split_and!; [by eexists _, _|by repeat constructor|simpl; unfold MAX_LINE; lia].
  - exact I.
  - split; [rewrite E1; reflexivity|exact E6].
Defined.

(** X30 (myshell.c:38-41, 95, 121-122, the ends of the loop of
    [parse_line]): when only blanks are left the call returns the number of
    arguments stored.  When [max_args - 1] arguments are stored and the next
    thing on the line is an argument, the call returns at once: the rest of
    the line, with any redirection in it, is ignored without an error. *)
Theorem X30_parse_stops (max_args : Z) (b : list ascii) (p : Parsed) :
  all_blank b →
  parse_from max_args b p = Finished (argc p, p) ∧
  ∀ c r, ends_arg c = false → max_args - 1 ≤ argc p →
         parse_from max_args (b ++ c :: r) p = Finished (argc p, p).
Proof.
  intros Hb. split; [by apply parse_from_blank|].
  intros c r. by apply parse_from_limit.
Qed.

Lemma X30_witness :
  parse_line 2 ["a"; " "; "b"; " "; ">"; "f"]%char
  = Finished (1, mkParsed [["a"]]%char None None false) ∧
  parse_from 2 ([" "] ++ "b" :: [" "; ">"; "f"])%char (push_arg ["a"]%char nothing_parsed)
  = Finished (1, mkParsed [["a"]]%char None None false).
Proof.
  split; [reflexivity|].
  exact (proj2 (X30_parse_stops 2 [" "]%char (push_arg ["a"]%char nothing_parsed)
                  all_blank_space) "b"%char [" "; ">"; "f"]%char eq_refl
               ltac:(vm_compute; discriminate)).
Defined.

End ShellFacts.
